(** * objection.js: graph insertion and join-based eager loading

    A shallow embedding of [lib/queryBuilder/graphInserter/GraphInserter.js],
    of the parts of [lib/model/Model.js] it calls ([$omit], [$propKey],
    [$set], [fromDatabaseJson]) and of
    [lib/queryBuilder/operations/eager/RelationJoinBuilder.js]
    ([buildSelects], [encode]/[decode], the id getters, [rowsToTree] and the
    [PathInfo] classes).

    JavaScript objects are mutable and shared, so they live in an explicit
    heap and are passed around as addresses; every function that mutates an
    object threads the heap.  A JavaScript exception is an [Err] result. *)

From Stdlib Require Import String Ascii ZArith List Lia Bool Arith Permutation.
From Stdlib Require Import DecimalString DecimalNat DecimalZ DecimalFacts.
From stdpp Require Import base option list gmap strings.

Local Open Scope string_scope.
Local Open Scope list_scope.

(** ** JavaScript values *)

Module JS.

(** Primitive values.  Numbers are the integral ones ([VNum]) and [NaN];
    database keys and counters never need fractions. *)
Inductive prim :=
| PUndefined
| PNull
| PBool (b : bool)
| PNum (n : Z)
| PNaN
| PStr (s : string).

(** A value is a primitive, a function (only its identity matters) or a
    reference to an object of the heap. *)
Inductive value :=
| VPrim (p : prim)
| VFun (f : nat)
| VRef (a : nat).

Coercion VPrim : prim >-> value.

Definition undefined : value := VPrim PUndefined.
Definition null : value := VPrim PNull.

(** [ToBoolean]: the falsy values are [undefined], [null], [false], [0],
    [NaN] and the empty string. *)
Definition truthy_prim (p : prim) : bool :=
  match p with
  | PUndefined | PNull | PNaN => false
  | PBool b => b
  | PNum n => negb (Z.eqb n 0)
  | PStr s => negb (String.eqb s "")
  end.

Definition truthy (v : value) : bool :=
  match v with
  | VPrim p => truthy_prim p
  | VFun _ | VRef _ => true
  end.

(** [_.isFunction] and [_.isUndefined]. *)
Definition isFunction (v : value) : bool :=
  match v with VFun _ => true | _ => false end.

Definition isUndefined (v : value) : bool :=
  match v with VPrim PUndefined => true | _ => false end.

Definition string_of_nat (n : nat) : string :=
  NilZero.string_of_uint (Nat.to_uint n).

Definition string_of_Z (n : Z) : string :=
  NilZero.string_of_int (Z.to_int n).

(** [ToString] on primitives, as used by template literals, by [+] with a
    string operand and by property keys. *)
Definition ToString (p : prim) : string :=
  match p with
  | PUndefined => "undefined"
  | PNull => "null"
  | PBool true => "true"
  | PBool false => "false"
  | PNum n => string_of_Z n
  | PNaN => "NaN"
  | PStr s => s
  end.

(** Errors a call can end with. *)
Inductive error :=
| TypeError                      (* property access on undefined/null, ... *)
| ValidationError (msg : string) (* objection's own ValidationError *)
| Rejected                       (* a rejected promise of the insert callback *)
| Unmodelled                     (* behaviour outside this embedding *)
| OutOfFuel.                     (* the recursion bound of the embedding *)

Inductive result (A : Type) :=
| Ok (a : A)
| Err (e : error).
Arguments Ok {A} a.
Arguments Err {A} e.

Definition bind {A B} (r : result A) (k : A -> result B) : result B :=
  match r with
  | Ok a => k a
  | Err e => Err e
  end.

(** ** Objects

    The own enumerable properties of an object, in insertion order
    (the order [Object.keys] and [_.values] report for keys that are not
    array indices, which is the case of every key used below). *)
Definition props := list (string * value).

Fixpoint getProp (o : props) (k : string) : value :=
  match o with
  | [] => undefined
  | (k', v) :: o' => if String.eqb k' k then v else getProp o' k
  end.

Fixpoint hasProp (o : props) (k : string) : bool :=
  match o with
  | [] => false
  | (k', _) :: o' => if String.eqb k' k then true else hasProp o' k
  end.

(** [o[k] = v]: an existing key keeps its place, a new one goes last. *)
Fixpoint setProp (o : props) (k : string) (v : value) : props :=
  match o with
  | [] => [(k, v)]
  | (k', v') :: o' =>
      if String.eqb k' k then (k', v) :: o' else (k', v') :: setProp o' k v
  end.

(** [delete o[k]]: no property named [k] is left. *)
Fixpoint delProp (o : props) (k : string) : props :=
  match o with
  | [] => []
  | (k', v') :: o' =>
      if String.eqb k' k then delProp o' k else (k', v') :: delProp o' k
  end.

Definition keys (o : props) : list string := map fst o.
Definition values (o : props) : list value := map snd o.

(** The members a plain object ([{}], an object literal) inherits from
    [Object.prototype]: a lookup [obj[key]] that finds no own property
    [key] finds these, the methods as functions and [__proto__] as the
    prototype object, all of them truthy. *)
Definition objectPrototype : list string :=
  ["constructor"; "__defineGetter__"; "__defineSetter__"; "hasOwnProperty";
   "__lookupGetter__"; "__lookupSetter__"; "isPrototypeOf";
   "propertyIsEnumerable"; "toString"; "valueOf"; "__proto__";
   "toLocaleString"].

Definition inherited (k : string) : bool :=
  existsb (String.eqb k) objectPrototype.

(** Whether [obj[key]] is truthy for a plain object with the own
    properties [obj]: an own property shadows an inherited member. *)
Definition truthyIn (obj : props) (key : string) : bool :=
  if hasProp obj key then truthy (getProp obj key) else inherited key.

(** [ToString] of the inherited member [k], as [Array.prototype.join]
    takes it: the source text of a native function, and
    ['[object Object]'] for the prototype object. *)
Definition inheritedString (k : string) : string :=
  if String.eqb k "__proto__" then "[object Object]"
  else if String.eqb k "constructor"
       then "function Object() { [native code] }"
       else String.append "function "
              (String.append k "() { [native code] }").

End JS.

(** ** Model classes, the heap and the exception/state monad *)

Module Heap.
Import JS.

(** What the code reads from a model class ([Model]'s static members).
    [$parseDatabaseJson] and the [$parseJson]/[$validate] pair are hooks a
    class overrides; the validator itself is a collaborator. *)
Record ModelClass := {
  tableName : string;
  idColumn : list string;             (* getIdColumnArray() *)
  uidProp : string;
  uidRefProp : string;
  relationNames : list string;        (* the keys of getRelations() *)
  parseDatabaseJson : props -> props; (* $parseDatabaseJson *)
  validateJson : props -> option props (* $parseJson, then $validate:
                                          [None] when the validator throws *)
}.

(** [Model.uidProp = '#id'], [Model.uidRefProp = '#ref'],
    [Model.idColumn = 'id']. *)
Definition Model (table : string) (relations : list string) : ModelClass :=
  {| tableName := table; idColumn := ["id"];
     uidProp := "#id"; uidRefProp := "#ref";
     relationNames := relations;
     parseDatabaseJson := fun json => json;
     validateJson := fun json => Some json |}.

(** A heap cell: an object with its constructor ([None] for plain objects
    and for objects made by [Object.create(null)]) or an array. *)
Inductive cell :=
| Obj (constructor : option ModelClass) (own : props)
| Arr (elems : list value).

(** The heap: an address is a position in the list. *)
Abbreviation heap := (list cell).

Definition alloc (h : heap) (c : cell) : heap * nat := (h ++ [c], length h).

(** [v[k]] for reading.  Members inherited from a prototype are not
    modelled: the keys used are never names of methods. *)
Definition readProp (h : heap) (v : value) (k : string) : result value :=
  match v with
  | VPrim PUndefined | VPrim PNull => Err TypeError
  | VRef a =>
      match h !! a with
      | Some (Obj _ o) => Ok (getProp o k)
      | _ => Err Unmodelled
      end
  | _ => Err Unmodelled
  end.

(** [v[k] = x] in strict mode. *)
Definition writeProp (h : heap) (v : value) (k : string) (x : value)
  : result heap :=
  match v with
  | VRef a =>
      match h !! a with
      | Some (Obj c o) => Ok (<[a := Obj c (setProp o k x)]> h)
      | _ => Err Unmodelled
      end
  | VPrim _ => Err TypeError
  | VFun _ => Err Unmodelled
  end.

(** [v.constructor] of a model instance. *)
Definition classOf (h : heap) (a : nat) : result ModelClass :=
  match h !! a with
  | Some (Obj (Some c) _) => Ok c
  | _ => Err Unmodelled
  end.

Definition ownProps (h : heap) (a : nat) : result props :=
  match h !! a with
  | Some (Obj _ o) => Ok o
  | _ => Err Unmodelled
  end.

(** A property key made of a value ([obj[id]]): [ToPropertyKey]. *)
Definition ToKey (v : value) : result string :=
  match v with
  | VPrim p => Ok (ToString p)
  | _ => Err Unmodelled
  end.

End Heap.

(** Computations that mutate a state [S] and may throw: the state reached
    is kept when an exception is thrown, as in JavaScript. *)
Module Monad.
Import JS.

Definition M (S A : Type) : Type := S -> S * result A.

Definition ret {S A} (a : A) : M S A := fun s => (s, Ok a).
Definition throw {S A} (e : error) : M S A := fun s => (s, Err e).
Definition mbind {S A B} (m : M S A) (k : A -> M S B) : M S B :=
  fun s => match m s with
           | (s', Ok a) => k a s'
           | (s', Err e) => (s', Err e)
           end.
Definition get {S} : M S S := fun s => (s, Ok s).
Definition put {S} (s : S) : M S unit := fun _ => (s, Ok tt).
Definition modify {S} (f : S -> S) : M S unit := fun s => (f s, Ok tt).
Definition lift {S A} (r : result A) : M S A := fun s => (s, r).

(** [for (x of l) body(x)] *)
Fixpoint forEach {S A} (l : list A) (body : A -> M S unit) : M S unit :=
  match l with
  | [] => ret tt
  | x :: l' => mbind (body x) (fun _ => forEach l' body)
  end.

(** [l.map(f)] with an effectful [f]. *)
Fixpoint mapM {S A B} (f : A -> M S B) (l : list A) : M S (list B) :=
  match l with
  | [] => ret []
  | x :: l' => mbind (f x) (fun y => mbind (mapM f l') (fun ys => ret (y :: ys)))
  end.

(** [for (b of l) acc = body(acc, b)] *)
Fixpoint foldM {S A B} (body : A -> B -> M S A) (l : list B) (acc : A)
  : M S A :=
  match l with
  | [] => ret acc
  | x :: l' => mbind (body acc x) (fun acc' => foldM body l' acc')
  end.

End Monad.

Declare Scope js_scope.
Delimit Scope js_scope with js.
Notation "x <- m ;; k" := (Monad.mbind m (fun x => k))
  (at level 100, m at next level, right associativity) : js_scope.
Notation "m ;;; k" := (Monad.mbind m (fun _ => k))
  (at level 100, right associativity) : js_scope.

(** ** lib/model/Model.js: the instance methods the two engines call *)

Module ModelJS.
Import JS Heap.

(** [key.charAt(0) === '$'] *)
Definition startsWithDollar (key : string) : bool :=
  match key with
  | String c _ => Ascii.eqb c "$"
  | EmptyString => false
  end.

(** [omitArray(model, keys)], with [omitImpl] the default [delete obj[prop]].
    [_.has(model, key)] is an own-property test (keys have no '.' or '['). *)
Fixpoint omitArray (model : props) (keys : list string) : props :=
  match keys with
  | [] => model
  | key :: keys' =>
      omitArray
        (if negb (startsWithDollar key) && hasProp model key
         then delProp model key else model)
        keys'
  end.

(** [model.$omit(k1, ..., kn)] with string arguments. *)
Definition omit (h : heap) (a : nat) (keys : list string) : result heap :=
  match h !! a with
  | Some (Obj c o) => Ok (<[a := Obj c (omitArray o keys)]> h)
  | _ => Err Unmodelled
  end.

(** [$set(obj)]: copies every property that is neither internal nor a
    function. *)
Definition set_ (this obj : props) : props :=
  fold_left
    (fun acc kv =>
       if negb (startsWithDollar (fst kv)) && negb (isFunction (snd kv))
       then setProp acc (fst kv) (snd kv) else acc)
    obj this.

(** [ModelClass.fromJson(json)], that is [new this()] and [$setJson];
    parsing nested relations ([ensureModel]) is outside the embedding. *)
Definition fromJson (cls : ModelClass) (json : props) : result props :=
  match validateJson cls json with
  | None => Err (ValidationError "validation")
  | Some json' =>
      if existsb (fun r => negb (isUndefined (getProp json' r)))
                 (relationNames cls)
      then Err Unmodelled
      else Ok (set_ [] json')
  end.

(** [ModelClass.fromDatabaseJson(json)]: [new this()], then
    [$setDatabaseJson] copies every key of the parsed row. *)
Definition fromDatabaseJson (cls : ModelClass) (json : props) : props :=
  fold_left (fun acc kv => setProp acc (fst kv) (snd kv))
            (parseDatabaseJson cls json) [].

(** [$values(props)] with an array argument: [$$values]. *)
Definition values_ (this : props) (args : list string) : list value :=
  map (getProp this) args.

(** String concatenation [v + ''] of a property value. *)
Definition str (v : value) : result string :=
  match v with
  | VPrim p => Ok (ToString p)
  | _ => Err Unmodelled
  end.

(** The [default] branch of [$propKey]:
    [key += this[props[i]] + ((i < props.length - 1) ? ',' : '')]. *)
Fixpoint propKeyLoop (this : props) (ps : list string) (key : string)
  : result string :=
  match ps with
  | [] => Ok key
  | p :: ps' =>
      bind (str (getProp this p)) (fun s =>
        propKeyLoop this ps'
          (key +:+ s +:+ (match ps' with [] => "" | _ => "," end)))
  end.

(** [$propKey(props)] *)
Definition propKey (this : props) (ps : list string) : result string :=
  match ps with
  | [p0] =>
      bind (str (getProp this p0)) (fun s0 => Ok (s0 +:+ ""))
  | [p0; p1] =>
      bind (str (getProp this p0)) (fun s0 =>
      bind (str (getProp this p1)) (fun s1 => Ok (s0 +:+ "," +:+ s1)))
  | [p0; p1; p2] =>
      bind (str (getProp this p0)) (fun s0 =>
      bind (str (getProp this p1)) (fun s1 =>
      bind (str (getProp this p2)) (fun s2 =>
        Ok (s0 +:+ "," +:+ s1 +:+ "," +:+ s2))))
  | _ => propKeyLoop this ps ""
  end.

End ModelJS.

(** ** lodash *)

Module Lodash.

Section Uniq.
Context {A K : Type} (eqb : K -> K -> bool) (iteratee : A -> K).

(** [_.uniqBy(array, iteratee)]: the first element of each key, in order. *)
Fixpoint uniqByFrom (seen : list K) (l : list A) : list A :=
  match l with
  | [] => []
  | x :: l' =>
      if existsb (eqb (iteratee x)) seen
      then uniqByFrom seen l'
      else x :: uniqByFrom (iteratee x :: seen) l'
  end.

Definition uniqBy (l : list A) : list A := uniqByFrom [] l.

End Uniq.

(** [_.uniq] on strings. *)
Definition uniq (l : list string) : list string :=
  uniqBy String.eqb (fun s => s) l.

(** [_.flatMap(array, f)] *)
Definition flatMap {A B} (f : A -> list B) (l : list A) : list B :=
  concat (map f l).

End Lodash.

(** ** The dependency graph and table insertions *)

Module Graph.
Import JS Heap.

(** An entry of [relation.joinTableExtras]. *)
Record Extra := {
  joinTableCol : string;
  joinTableProp : string;
  aliasCol : string;
  aliasProp : string
}.

(** What the two engines read from a relation. *)
Record Relation := {
  name : string;
  isOneToOne : bool;
  ownerProp : list string;
  relatedProp : list string;
  joinTable : option string;          (* null unless many-to-many *)
  joinTableOwnerProp : list string;
  joinTableRelatedProp : list string;
  joinTableExtras : list Extra;
  joinTableModelClass : ModelClass    (* joinTableModelClass(knex) *)
}.

(** Modelled from the spec: [relation.createJoinModels] (the relation
    classes are not among the sources): "build a join-row object combining
    the owner's key values, the related object's key values". *)
Definition createJoinModel (r : Relation) (ownerId : list value)
    (related : props) : props :=
  let withOwner :=
    fold_left (fun jm kv => setProp jm (fst kv) (snd kv))
      (combine (joinTableOwnerProp r) ownerId) [] in
  fold_left (fun jm kv => setProp jm (fst kv) (getProp related (snd kv)))
    (combine (joinTableRelatedProp r) (relatedProp r)) withOwner.

(** Modelled from the spec: the GraphNode of section 3 ([DependencyNode],
    [Dependency] and [ManyToManyConnection] of DependencyGraph.js, which is
    not among the sources).  Nodes are mutable objects: a reference to a
    node is its index in [graph.nodes]; [dep_resolve] is the resolver
    callback of an edge, called with the inserted model: it writes the
    foreign key into the dependent object. *)
Record Dependency := {
  dep_node : nat;
  dep_resolve : nat -> heap -> heap
}.

Record ManyToManyConnection := {
  conn_node : nat;
  conn_refNode : option nat;
  conn_relation : Relation
}.

Record DependencyNode := {
  id : string;
  model : nat;                         (* address of the model object *)
  modelClass : ModelClass;
  needs : list Dependency;
  isNeededBy : list Dependency;
  manyToManyConnections : list ManyToManyConnection;
  handled : bool;
  numHandledNeeds : nat
}.

Record DependencyGraph := {
  nodes : list DependencyNode;
  nodesById : gmap string nat;
  inputNodesById : gset string
}.

Definition setHandled (n : DependencyNode) : DependencyNode :=
  {| id := id n; model := model n; modelClass := modelClass n;
     needs := needs n; isNeededBy := isNeededBy n;
     manyToManyConnections := manyToManyConnections n;
     handled := true; numHandledNeeds := numHandledNeeds n |}.

Definition incrHandledNeeds (n : DependencyNode) : DependencyNode :=
  {| id := id n; model := model n; modelClass := modelClass n;
     needs := needs n; isNeededBy := isNeededBy n;
     manyToManyConnections := manyToManyConnections n;
     handled := handled n; numHandledNeeds := S (numHandledNeeds n) |}.

Definition withNodes (g : DependencyGraph) (ns : list DependencyNode)
  : DependencyGraph :=
  {| nodes := ns; nodesById := nodesById g;
     inputNodesById := inputNodesById g |}.

(** Modelled from the spec: the TableInsertion of section 3
    (TableInsertion.js is not among the sources). *)
Record TableInsertion := {
  ti_modelClass : ModelClass;
  isJoinTableInsertion : bool;
  models : list nat;
  isInputModel : list bool
}.

(** [new TableInsertion(modelClass, isJoinTableInsertion)] *)
Definition newTableInsertion (c : ModelClass) (isJoin : bool)
  : TableInsertion :=
  {| ti_modelClass := c; isJoinTableInsertion := isJoin;
     models := []; isInputModel := [] |}.

(** [ti.models.push(m); ti.isInputModel.push(b)] *)
Definition push (ti : TableInsertion) (m : nat) (b : bool)
  : TableInsertion :=
  {| ti_modelClass := ti_modelClass ti;
     isJoinTableInsertion := isJoinTableInsertion ti;
     models := models ti ++ [m]; isInputModel := isInputModel ti ++ [b] |}.

Definition withModels (ti : TableInsertion) (ms : list nat) (bs : list bool)
  : TableInsertion :=
  {| ti_modelClass := ti_modelClass ti;
     isJoinTableInsertion := isJoinTableInsertion ti;
     models := ms; isInputModel := bs |}.

(** A batch: table name -> TableInsertion, in the order of [Object.keys]. *)
Definition batch := list (string * TableInsertion).

Fixpoint batchGet (b : batch) (k : string) : option TableInsertion :=
  match b with
  | [] => None
  | (k', ti) :: b' => if String.eqb k' k then Some ti else batchGet b' k
  end.

Fixpoint batchSet (b : batch) (k : string) (ti : TableInsertion) : batch :=
  match b with
  | [] => [(k, ti)]
  | (k', ti') :: b' =>
      if String.eqb k' k then (k', ti) :: b' else (k', ti') :: batchSet b' k ti
  end.

End Graph.

(** ** lib/queryBuilder/graphInserter/GraphInserter.js *)

Module GraphInserter.
Import JS Heap Monad Graph.
Local Open Scope js_scope.

(** One invocation of the insert callback: the batch it belongs to (batches
    are numbered from 0), the TableInsertion handed over, and the own
    properties each of its models has at that moment, which is what the
    callback writes to the database. *)
Record InsertCall := {
  call_round : nat;
  call_insertion : TableInsertion;
  call_rows : list props
}.

(** The fields of a GraphInserter with the heap its models live in.
    [rounds] and [calls] record what was handed to the insert callback. *)
Record state := {
  heap_ : heap;
  inputModels : value;                 (* this.models *)
  done : bool;
  graph : DependencyGraph;
  rounds : nat;
  calls : list InsertCall
}.

Definition withHeap (s : state) (h : heap) : state :=
  {| heap_ := h; inputModels := inputModels s; done := done s;
     graph := graph s; rounds := rounds s; calls := calls s |}.

Definition withGraph (s : state) (g : DependencyGraph) : state :=
  {| heap_ := heap_ s; inputModels := inputModels s; done := done s;
     graph := g; rounds := rounds s; calls := calls s |}.

Definition withDone (s : state) : state :=
  {| heap_ := heap_ s; inputModels := inputModels s; done := true;
     graph := graph s; rounds := rounds s; calls := calls s |}.

Definition nextRound (s : state) : state :=
  {| heap_ := heap_ s; inputModels := inputModels s; done := done s;
     graph := graph s; rounds := S (rounds s); calls := calls s |}.

Definition logCall (s : state) (c : InsertCall) : state :=
  {| heap_ := heap_ s; inputModels := inputModels s; done := done s;
     graph := graph s; rounds := rounds s; calls := calls s ++ [c] |}.

(** Runs a heap update in the state. *)
Definition onHeap (f : heap -> result heap) : M state unit :=
  fun s => match f (heap_ s) with
           | Ok h => (withHeap s h, Ok tt)
           | Err e => (s, Err e)
           end.

(** The node object behind a node reference. *)
Definition nodeAt (g : DependencyGraph) (i : nat) : result DependencyNode :=
  match nodes g !! i with
  | Some n => Ok n
  | None => Err Unmodelled
  end.

(** [graph.nodesById[v]]: [undefined] when there is no such entry. *)
Definition nodeById (g : DependencyGraph) (v : value) : result (option nat) :=
  bind (ToKey v) (fun k => Ok (nodesById g !! k)).

(** *** _createBatch *)

Definition eligible (node : DependencyNode) : bool :=
  negb (handled node) && Nat.eqb (length (needs node)) (numHandledNeeds node).

Definition createBatchStep (g : DependencyGraph) (b : batch)
    (node : DependencyNode) : batch :=
  if eligible node then
    let table := tableName (modelClass node) in
    let tableInsertion :=
      match batchGet b table with
      | Some ti => ti
      | None => newTableInsertion (modelClass node) false
      end in
    batchSet b table
      (push tableInsertion (model node)
            (bool_decide (id node ∈ inputNodesById g)))
  else b.

Definition _createBatch (g : DependencyGraph) : batch :=
  fold_left (createBatchStep g) (nodes g) [].

(** *** _markBatchHandled *)

Definition bumpDependent (ns : list DependencyNode) (dep : Dependency)
  : list DependencyNode :=
  alter incrHandledNeeds (dep_node dep) ns.

(** The body of the loop over the models of the batch. *)
Definition markModelHandled (m : nat) : M state unit :=
  s <- get ;;
  cls <- lift (classOf (heap_ s) m) ;;
  idv <- lift (readProp (heap_ s) (VRef m) (uidProp cls)) ;;
  found <- lift (nodeById (graph s) idv) ;;
  match found with
  | None => throw TypeError
  | Some i =>
      node <- lift (nodeAt (graph s) i) ;;
      put (withGraph s
             (withNodes (graph s)
                (alter setHandled i
                   (fold_left bumpDependent (isNeededBy node)
                      (nodes (graph s))))))
  end.

(** [_.flatten(_.map(batch, 'models'))] *)
Definition batchModels (b : batch) : list nat :=
  Lodash.flatMap (fun kv => models (snd kv)) b.

Definition _markBatchHandled (b : batch) : M state unit :=
  forEach (batchModels b) markModelHandled.

(** *** _createManyToManyRelationJoinRowBatch *)

Definition tableKey (t : option string) : string :=
  match t with Some s => s | None => "null" end.

Definition allocate (c : cell) : M state nat :=
  fun s => let '(h, a) := alloc (heap_ s) c in (withHeap s h, Ok a).

(** The extra properties taken from the referring model. *)
Definition addExtras (r : Relation) (refModel joinModel : props) : props :=
  fold_left
    (fun jm extra =>
       if negb (isUndefined (getProp refModel (aliasProp extra)))
       then setProp jm (joinTableProp extra) (getProp refModel (aliasProp extra))
       else jm)
    (joinTableExtras r) joinModel.

(** The body of the loop over the connections of a node. *)
Definition addJoinRow (node : DependencyNode) (b : batch)
    (conn : ManyToManyConnection) : M state batch :=
  s <- get ;;
  let r := conn_relation conn in
  let tableInsertion := batchGet b (tableKey (joinTable r)) in
  nodeModel <- lift (ownProps (heap_ s) (model node)) ;;
  let owner := ModelJS.values_ nodeModel (ownerProp r) in
  let cls := joinTableModelClass r in
  related <- lift (nodeAt (graph s) (conn_node conn)) ;;
  relatedModel <- lift (ownProps (heap_ s) (model related)) ;;
  let joinModel := createJoinModel r owner relatedModel in
  joinModel <-
    match conn_refNode conn with
    | Some rn =>
        refNode <- lift (nodeAt (graph s) rn) ;;
        refModel <- lift (ownProps (heap_ s) (model refNode)) ;;
        ret (addExtras r refModel joinModel)
    | None => ret joinModel
    end ;;
  joinModel <- lift (ModelJS.fromJson cls joinModel) ;;
  a <- allocate (Obj (Some cls) joinModel) ;;
  match tableInsertion with
  | Some ti => ret (batchSet b (tableKey (joinTable r)) (push ti a false))
  | None =>
      ret (batchSet b (tableName cls) (push (newTableInsertion cls true) a false))
  end.

(** "Remove duplicates": the models of one join-table insertion, deduplicated
    by [$propKey] over the union of their keys. *)
Definition dedupInsertion (h : heap) (ti : TableInsertion)
  : result TableInsertion :=
  match models ti with
  | [] => Ok ti
  | _ =>
      bind (fold_right (fun a acc =>
              bind (ownProps h a) (fun o =>
              bind acc (fun os => Ok (o :: os))))
              (Ok []) (models ti)) (fun objs =>
      let keys := Lodash.uniq (Lodash.flatMap JS.keys objs) in
      bind (fold_right (fun o acc =>
              bind (ModelJS.propKey o keys) (fun k =>
              bind acc (fun ks => Ok (k :: ks))))
              (Ok []) objs) (fun pks =>
      let kept :=
        map fst (Lodash.uniqBy String.eqb snd (combine (models ti) pks)) in
      Ok (withModels ti kept (repeat false (length kept)))))
  end.

Definition _createManyToManyRelationJoinRowBatch : M state batch :=
  s <- get ;;
  b <- foldM (fun b node =>
                foldM (addJoinRow node) (manyToManyConnections node) b)
             (nodes (graph s)) [] ;;
  s' <- get ;;
  lift (fold_left
          (fun acc kv =>
             bind acc (fun b' =>
             bind (dedupInsertion (heap_ s') (snd kv)) (fun ti =>
               Ok (batchSet b' (fst kv) ti))))
          b (Ok b)).

(** *** _omitUids *)

(** [_.map(tableInsertion.models, uidProp)] *)
Definition readUids (h : heap) (uid : string) (ms : list nat)
  : result (list value) :=
  fold_right (fun a acc =>
                bind (readProp h (VRef a) uid) (fun v =>
                bind acc (fun vs => Ok (v :: vs))))
             (Ok []) ms.

Definition _omitUids (ti : TableInsertion) : M state (list value) :=
  s <- get ;;
  let uid := uidProp (ti_modelClass ti) in
  ids <- lift (readUids (heap_ s) uid (models ti)) ;;
  forEach (models ti) (fun a => onHeap (fun h => ModelJS.omit h a [uid])) ;;;
  ret ids.

(** *** _resolveDepsForInsertion *)

Definition resolveModel (mu : nat * value) : M state unit :=
  s <- get ;;
  found <- lift (nodeById (graph s) (snd mu)) ;;
  match found with
  | None => throw TypeError
  | Some i =>
      node <- lift (nodeAt (graph s) i) ;;
      forEach (isNeededBy node)
        (fun dep => onHeap (fun h => Ok (dep_resolve dep (fst mu) h)))
  end.

Definition _resolveDepsForInsertion (ti : TableInsertion) (uids : list value)
  : M state unit :=
  forEach (combine (models ti) uids) resolveModel.

(** *** _finalize *)

(** Copies the properties of the actual model to the reference model. *)
Definition copyProp (relations : list string) (actual ref : nat)
    (key : string) : M state unit :=
  s <- get ;;
  v <- lift (readProp (heap_ s) (VRef actual) key) ;;
  if negb (existsb (String.eqb key) relations) && negb (isFunction v)
  then onHeap (fun h => writeProp h (VRef ref) key v)
  else ret tt.

(** The body of the loop over [graph.nodes]. *)
Definition finalizeNode (refNode : DependencyNode) : M state unit :=
  s <- get ;;
  ref <- lift (readProp (heap_ s) (VRef (model refNode))
                 (uidRefProp (modelClass refNode))) ;;
  if truthy ref then
    found <- lift (nodeById (graph s) ref) ;;
    match found with
    | None => throw TypeError
    | Some i =>
        actualNode <- lift (nodeAt (graph s) i) ;;
        keys <- lift (bind (ownProps (heap_ s) (model actualNode))
                        (fun o => Ok (JS.keys o))) ;;
        forEach keys
          (copyProp (relationNames (modelClass actualNode))
                    (model actualNode) (model refNode)) ;;;
        onHeap (fun h =>
          ModelJS.omit h (model refNode)
            [uidProp (modelClass refNode); uidRefProp (modelClass refNode)])
    end
  else ret tt.

Definition _finalize : M state value :=
  s <- get ;;
  forEach (nodes (graph s)) finalizeNode ;;;
  ret (inputModels s).

(** *** _nextBatch *)

Definition _nextBatch : M state (option batch) :=
  s <- get ;;
  if done s then ret None
  else
    let b := _createBatch (graph s) in
    match b with
    | [] =>
        modify withDone ;;;
        jb <- _createManyToManyRelationJoinRowBatch ;;
        ret (Some jb)
    | _ =>
        _markBatchHandled b ;;;
        ret (Some b)
    end.

(** *** _executeNextBatch and execute

    The insert callback is the caller's: given a TableInsertion it changes
    the heap (it stores the generated identifiers in the models) or its
    promise is rejected ([None]).
    [Promise.all(Object.keys(batch).map(...))] first runs the body of the
    arrow function for every table (uids omitted, callback invoked), then
    the promises settle and their [then] callbacks run; they are settled
    here in table order, one of the schedules the promise library allows. *)
Definition Inserter := TableInsertion -> heap -> option heap.

Definition snapshot (h : heap) (ms : list nat) : result (list props) :=
  fold_right (fun a acc =>
                bind (ownProps h a) (fun o =>
                bind acc (fun os => Ok (o :: os))))
             (Ok []) ms.

(** The synchronous part of the arrow function, for one table. *)
Definition invoke (kv : string * TableInsertion)
  : M state (TableInsertion * list value) :=
  let tableInsertion := snd kv in
  uids <- (if isJoinTableInsertion tableInsertion then ret []
           else _omitUids tableInsertion) ;;
  s <- get ;;
  rows <- lift (snapshot (heap_ s) (models tableInsertion)) ;;
  modify (fun s => logCall s {| call_round := rounds s;
                                call_insertion := tableInsertion;
                                call_rows := rows |}) ;;;
  ret (tableInsertion, uids).

(** The promise of one table settles and its [then] callback runs. *)
Definition settle (inserter : Inserter) (tu : TableInsertion * list value)
  : M state unit :=
  onHeap (fun h => match inserter (fst tu) h with
                   | Some h' => Ok h'
                   | None => Err Rejected
                   end) ;;;
  if isJoinTableInsertion (fst tu) then ret tt
  else _resolveDepsForInsertion (fst tu) (snd tu).

(** [Promise.all(Object.keys(batch).map(...))], until it is fulfilled. *)
Definition runBatch (inserter : Inserter) (b : batch) : M state unit :=
  started <- mapM invoke b ;;
  forEach started (settle inserter) ;;;
  modify nextRound.

Fixpoint _executeNextBatch (fuel : nat) (inserter : Inserter)
  : M state value :=
  match fuel with
  | 0 => throw OutOfFuel
  | S fuel' =>
      b <- _nextBatch ;;
      match b with
      | None => _finalize
      | Some b =>
          runBatch inserter b ;;;
          _executeNextBatch fuel' inserter
      end
  end.

Definition execute (fuel : nat) (inserter : Inserter) : M state value :=
  _executeNextBatch fuel inserter.

(** [new GraphInserter(...)] on an already built dependency graph. *)
Definition newGraphInserter (h : heap) (ms : value) (g : DependencyGraph)
  : state :=
  {| heap_ := h; inputModels := ms; done := false; graph := g;
     rounds := 0; calls := [] |}.

End GraphInserter.
(** ** JavaScript string methods *)

Module JSString.
Import JS.

(** [s.split('')]: the characters of [s]. *)
Fixpoint chars (s : string) : list string :=
  match s with
  | EmptyString => []
  | String c s' => String c "" :: chars s'
  end.

(** [s.split(sep)] for a non-empty [sep], from left to right: [cur] is the
    part read so far and [skip] the number of characters of a separator
    still to pass. *)
Fixpoint splitGo (sep : string) (skip : nat) (cur : string) (s : string)
  : list string :=
  match s with
  | EmptyString => [cur]
  | String c s' =>
      match skip with
      | S k => splitGo sep k cur s'
      | 0 =>
          if String.prefix sep s
          then cur :: splitGo sep (String.length sep - 1) "" s'
          else splitGo sep 0 (cur +:+ String c "") s'
      end
  end.

Definition split (s sep : string) : list string :=
  if String.eqb sep "" then chars s else splitGo sep 0 "" s.

(** [parts.join(sep)] *)
Definition join (parts : list string) (sep : string) : string :=
  String.concat sep parts.

(** [s.lastIndexOf(sep)]: [None] is -1. *)
Fixpoint lastIndexFrom (sep s : string) (i : nat) (last : option nat)
  : option nat :=
  let last' := if String.prefix sep s then Some i else last in
  match s with
  | EmptyString => last'
  | String _ s' => lastIndexFrom sep s' (S i) last'
  end.

Definition lastIndexOf (s sep : string) : option nat :=
  lastIndexFrom sep s 0 None.

(** [s.substr(start, len)] and [s.substr(start)] *)
Definition substr (s : string) (start len : nat) : string :=
  String.substring start len s.

Definition substrFrom (s : string) (start : nat) : string :=
  String.substring start (String.length s - start) s.

End JSString.
(** ** lib/queryBuilder/operations/eager/RelationJoinBuilder.js *)

Module RelationJoinBuilder.
Import JS Heap Monad Graph JSString.
Local Open Scope js_scope.

Definition idLengthLimit : nat := 63.

(** [this.opt]: [_.defaults(args.opt, {minimize: false, separator: ':',
    aliases: {}})]. *)
Record Options := {
  minimize : bool;
  separator : string;
  aliases : gmap string string
}.

Definition defaultOptions : Options :=
  {| minimize := false; separator := ":"; aliases := ∅ |}.

(** [this.encodings], [this.decodings] and [this.encIdx]. *)
Record Encoder := {
  encodings : gmap string string;
  decodings : gmap string string;
  encIdx : nat
}.

Definition newEncoder : Encoder :=
  {| encodings := ∅; decodings := ∅; encIdx := 0 |}.

(** [joinPath(path, nextPart)] *)
Definition joinPath (sep path nextPart : string) : string :=
  if String.eqb path "" then nextPart else path +:+ sep +:+ nextPart.

Definition joinTableForPath (path : string) : string := path +:+ "_join".

(** [`_t${++this.encIdx}`] *)
Definition token (n : nat) : string := "_t" +:+ string_of_nat n.

Definition nextEncodedPath : M Encoder string :=
  fun e =>
    ({| encodings := encodings e; decodings := decodings e;
        encIdx := S (encIdx e) |},
     Ok (token (S (encIdx e)))).

(** [this.encodings[path] = encPath; this.decodings[encPath] = path] *)
Definition remember (path encPath : string) : M Encoder unit :=
  modify (fun e =>
    {| encodings := <[path := encPath]> (encodings e);
       decodings := <[encPath := path]> (decodings e);
       encIdx := encIdx e |}).

(** [parts.map(part => this.opt.aliases[part] || part).join(this.sep)]:
    [aliases] holds the own properties of [this.opt.aliases], a plain
    object, so a segment that is no own property but names a member of
    [Object.prototype] finds that member, and [join] takes its string. *)
Definition aliasPart (opt : Options) (part : string) : string :=
  match aliases opt !! part with
  | Some a => if String.eqb a "" then part else a
  | None => if inherited part then inheritedString part else part
  end.

Definition aliasEncode (opt : Options) (path : string) : string :=
  join (map (aliasPart opt) (split path (separator opt))) (separator opt).

(** [encode(path)].  A cached encoding is used when it is truthy. *)
Definition encode (opt : Options) (path : string) : M Encoder string :=
  e <- get ;;
  let cached := match encodings e !! path with
                | Some encPath => negb (String.eqb encPath "")
                | None => false
                end in
  if cached then ret (default "" (encodings e !! path))
  else
    encPath <-
      (if negb (minimize opt) then
         ret (if String.eqb path "" then path else aliasEncode opt path)
       else
         if String.eqb path "" then ret path else nextEncodedPath) ;;
    remember path encPath ;;;
    ret encPath.

(** [decode(path)]: [None] is [undefined]. *)
Definition decode (e : Encoder) (path : string) : option string :=
  decodings e !! path.

(** *** Identifier getters *)

(** A row of the result set: column alias -> value. *)
Definition Row := list (string * prim).

Fixpoint rowGet (row : Row) (k : string) : prim :=
  match row with
  | [] => PUndefined
  | (k', v) :: row' => if String.eqb k' k then v else rowGet row' k
  end.

(** The getters return [null] or a string. *)
Definition createSingleIdGetter (idCols : list string) (row : Row) : prim :=
  let val := rowGet row (nth 0 idCols "undefined") in
  if negb (truthy_prim val) then PNull
  else PStr ("id:" +:+ ToString val).

Definition createTwoIdGetter (idCols : list string) (row : Row) : prim :=
  let val1 := rowGet row (nth 0 idCols "undefined") in
  let val2 := rowGet row (nth 1 idCols "undefined") in
  if negb (truthy_prim val1) || negb (truthy_prim val2) then PNull
  else PStr ("id:" +:+ ToString val1 +:+ "," +:+ ToString val2).

Definition createThreeIdGetter (idCols : list string) (row : Row) : prim :=
  let val1 := rowGet row (nth 0 idCols "undefined") in
  let val2 := rowGet row (nth 1 idCols "undefined") in
  let val3 := rowGet row (nth 2 idCols "undefined") in
  if negb (truthy_prim val1) || negb (truthy_prim val2)
     || negb (truthy_prim val3)
  then PNull
  else PStr ("id:" +:+ ToString val1 +:+ "," +:+ ToString val2 +:+ ","
             +:+ ToString val3).

(** The loop of [createNIdGetter], from index [i] with [id] built so far. *)
Fixpoint nIdLoop (idCols : list string) (row : Row) (i : nat) (id : string)
  : prim :=
  match idCols with
  | [] => PStr id
  | c :: idCols' =>
      let val := rowGet row c in
      if negb (truthy_prim val) then PNull
      else nIdLoop idCols' row (S i)
             (id +:+ ((if Nat.ltb 0 i then "," else "") +:+ ToString val))
  end.

Definition createNIdGetter (idCols : list string) (row : Row) : prim :=
  nIdLoop idCols row 0 "id:".

(** [createIdGetter(modelClass, path)] *)
Definition createIdGetter (sep : string) (modelClass : ModelClass)
    (path : string) : Row -> prim :=
  let idCols := map (joinPath sep path) (idColumn modelClass) in
  match length idCols with
  | 1 => createSingleIdGetter idCols
  | 2 => createTwoIdGetter idCols
  | 3 => createThreeIdGetter idCols
  | _ => createNIdGetter idCols
  end.

(** *** PathInfo and OneToOnePathInfo

    [oneToOne] tells the class of the object; [omitCols] and [children] are
    the keys of the two objects, in insertion order. *)
#[local] Unset Elimination Schemes.
Inductive PathInfo := {
  path : string;
  encPath : string;
  encParentPath : option string;      (* null for the root *)
  pi_modelClass : ModelClass;
  relation : option Relation;
  omitCols : list string;
  children : list (string * PathInfo);
  idGetter : Row -> prim;
  oneToOne : bool
}.
#[local] Set Elimination Schemes.

(** [this.relation.name] *)
Definition relationName (p : PathInfo) : result string :=
  match relation p with
  | Some r => Ok (name r)
  | None => Err TypeError
  end.


(** *** rowsToTree *)

(** The builder after [build]: [pathInfo] is [this.pathInfo], in the order
    the paths were added. *)
Record Builder := {
  rootModelClass : ModelClass;
  opt : Options;
  encoder : Encoder;
  pathInfo : list (string * PathInfo)
}.

Definition sep (b : Builder) : string := separator (opt b).

Fixpoint lookupPath (m : list (string * PathInfo)) (k : string)
  : option PathInfo :=
  match m with
  | [] => None
  | (k', p) :: m' => if String.eqb k' k then Some p else lookupPath m' k
  end.

Record KeyInfo := {
  kInfo_pInfo : PathInfo;
  kInfo_key : string;
  kInfo_col : string
}.

(** The body of the loop of [createKeyInfo]: the entry pushed for [key], if
    any. *)
Definition keyInfoOf (b : Builder) (key : string) : result (option KeyInfo) :=
  let entry (found : option PathInfo) (col : string) :=
    match found with
    | None => Err TypeError
    | Some pInfo =>
        Ok (if existsb (String.eqb col) (omitCols pInfo) then None
            else Some {| kInfo_pInfo := pInfo; kInfo_key := key;
                         kInfo_col := col |})
    end in
  match lastIndexOf key (sep b) with
  | None => entry (lookupPath (pathInfo b) "") key
  | Some sepIdx =>
      let encPath := substr key 0 sepIdx in
      let path := default "undefined" (decode (encoder b) encPath) in
      let col := substrFrom key (sepIdx + 1) in
      entry (lookupPath (pathInfo b) path) col
  end.

(** [createKeyInfo(rows)], before [_.groupBy]. *)
Fixpoint keyInfos (b : Builder) (keys : list string) : result (list KeyInfo) :=
  match keys with
  | [] => Ok []
  | key :: keys' =>
      bind (keyInfoOf b key) (fun k =>
      bind (keyInfos b keys') (fun ks =>
        Ok (match k with Some k => k :: ks | None => ks end)))
  end.

Definition createKeyInfo (b : Builder) (rows : list Row)
  : result (list KeyInfo) :=
  match rows with
  | [] => Err TypeError
  | row0 :: _ => keyInfos b (map fst row0)
  end.

(** [keyInfoByPath[encPath]]: the group of [encPath]; [None] is
    [undefined]. *)
Definition keyInfoFor (keyInfo : list KeyInfo) (e : string)
  : option (list KeyInfo) :=
  match List.filter (fun k => String.eqb (encPath (kInfo_pInfo k)) e) keyInfo
  with
  | [] => None
  | ks => Some ks
  end.

(** A model was looked up in a branch, and created when it was not there;
    [v_key] is the key it is kept under (a trace of the loop, not part of
    the program state). *)
Record Visit := {
  v_row : nat;
  v_encPath : string;
  v_oneToOne : bool;
  v_branch : value;
  v_id : string;
  v_key : string;
  v_model : value;
  v_created : bool
}.

(** The variables of [rowsToTree]: the heap, [stack] and [curBranch];
    [visits] and [finalized] (the calls of [finalizeOne]: the path and the
    model) are traces. *)
Record TreeState := {
  t_heap : heap;
  stack : props;
  curBranch : value;
  visits : list Visit;
  finalized : list (string * value)
}.

Definition withTHeap (s : TreeState) (h : heap) : TreeState :=
  {| t_heap := h; stack := stack s; curBranch := curBranch s;
     visits := visits s; finalized := finalized s |}.

Definition setCurBranch (v : value) : M TreeState unit :=
  modify (fun s => {| t_heap := t_heap s; stack := stack s; curBranch := v;
                      visits := visits s; finalized := finalized s |}).

Definition setStack (k : string) (v : value) : M TreeState unit :=
  modify (fun s => {| t_heap := t_heap s; stack := setProp (stack s) k v;
                      curBranch := curBranch s; visits := visits s;
                      finalized := finalized s |}).

Definition logVisit (v : Visit) : M TreeState unit :=
  modify (fun s => {| t_heap := t_heap s; stack := stack s;
                      curBranch := curBranch s;
                      visits := visits s ++ [v];
                      finalized := finalized s |}).

Definition logFinalized (encPath : string) (model : value)
  : M TreeState unit :=
  modify (fun s => {| t_heap := t_heap s; stack := stack s;
                      curBranch := curBranch s; visits := visits s;
                      finalized := finalized s ++ [(encPath, model)] |}).

Definition readP (v : value) (k : string) : M TreeState value :=
  s <- get ;; lift (readProp (t_heap s) v k).

Definition writeP (v : value) (k : string) (x : value) : M TreeState unit :=
  fun s => match writeProp (t_heap s) v k x with
           | Ok h => (withTHeap s h, Ok tt)
           | Err e => (s, Err e)
           end.

Definition allocT (c : cell) : M TreeState value :=
  fun s => let '(h, a) := alloc (t_heap s) c in (withTHeap s h, Ok (VRef a)).

(** [createModel(row, pInfo, keyInfoByPath)] *)
Definition createModel (row : Row) (pInfo : PathInfo)
    (keyInfo : list KeyInfo) : M TreeState value :=
  match keyInfoFor keyInfo (encPath pInfo) with
  | None => throw TypeError
  | Some ks =>
      let json :=
        fold_left (fun json k =>
                     setProp json (kInfo_col k)
                             (VPrim (rowGet row (kInfo_key k))))
                  ks [] in
      allocT (Obj (Some (pi_modelClass pInfo))
                  (ModelJS.fromDatabaseJson (pi_modelClass pInfo) json))
  end.

(** The methods of [PathInfo] and their overrides in [OneToOnePathInfo]. *)
Definition createBranch (pInfo : PathInfo) (parentModel : value)
  : M TreeState value :=
  if oneToOne pInfo then ret parentModel
  else
    branch <- allocT (Obj None []) ;;
    name <- lift (relationName pInfo) ;;
    writeP parentModel name branch ;;;
    ret branch.

Definition getBranch (pInfo : PathInfo) (parentModel : value)
  : M TreeState value :=
  if oneToOne pInfo then ret parentModel
  else
    name <- lift (relationName pInfo) ;;
    readP parentModel name.

Definition getModelFromBranch (pInfo : PathInfo) (branch : value)
    (id : string) : M TreeState value :=
  if oneToOne pInfo then
    name <- lift (relationName pInfo) ;;
    readP branch name
  else readP branch id.

Definition setModelToBranch (pInfo : PathInfo) (branch : value)
    (id : string) (model : value) : M TreeState unit :=
  if oneToOne pInfo then
    name <- lift (relationName pInfo) ;;
    writeP branch name model
  else writeP branch id model.

(** [_.values(v)] *)
Definition valuesOf (h : heap) (v : value) : result (list value) :=
  match v with
  | VPrim PUndefined | VPrim PNull => Ok []
  | VRef a =>
      match h !! a with
      | Some (Obj _ o) => Ok (values o)
      | Some (Arr elems) => Ok elems
      | None => Err Unmodelled
      end
  | _ => Err Unmodelled
  end.

Definition finalizeBranch (pInfo : PathInfo) (branch parentModel : value)
  : M TreeState value :=
  if oneToOne pInfo then
    let b := if truthy branch then branch else null in
    name <- lift (relationName pInfo) ;;
    writeP parentModel name b ;;;
    ret b
  else
    s <- get ;;
    relModels <- lift (valuesOf (t_heap s) branch) ;;
    relModels <- allocT (Arr relModels) ;;
    name <- lift (relationName pInfo) ;;
    writeP parentModel name relModels ;;;
    ret relModels.

(** [stack[pInfo.encParentPath]]: the key of [null] is ['null']. *)
Definition parentKey (pInfo : PathInfo) : string :=
  default "null" (encParentPath pInfo).

(** The key [getModelFromBranch] and [setModelToBranch] use. *)
Definition branchKey (pInfo : PathInfo) (id : string) : string :=
  if oneToOne pInfo then
    match relation pInfo with
    | Some r => name r
    | None => id
    end
  else id.

(** [if (pInfo.relation) { ... }]: the branch of the parent model becomes
    the current branch. *)
Definition enterBranch (pInfo : PathInfo) : M TreeState unit :=
  match relation pInfo with
  | Some _ =>
      s <- get ;;
      let parentModel := getProp (stack s) (parentKey pInfo) in
      b <- getBranch pInfo parentModel ;;
      b <- (if negb (truthy b) then createBranch pInfo parentModel
            else ret b) ;;
      setCurBranch b
  | None => ret tt
  end.

(** The model of [id] in the current branch, created from [row] when there
    is none, becomes the top of the stack of its path. *)
Definition findOrCreate (keyInfo : list KeyInfo) (i : nat) (row : Row)
    (pInfo : PathInfo) (id : string) : M TreeState unit :=
  s <- get ;;
  let branch := curBranch s in
  found <- getModelFromBranch pInfo branch id ;;
  model <- (if negb (truthy found) then
              model <- createModel row pInfo keyInfo ;;
              setModelToBranch pInfo branch id model ;;;
              ret model
            else ret found) ;;
  logVisit {| v_row := i; v_encPath := encPath pInfo;
              v_oneToOne := oneToOne pInfo; v_branch := branch;
              v_id := id; v_key := branchKey pInfo id; v_model := model;
              v_created := negb (truthy found) |} ;;;
  setStack (encPath pInfo) model.

(** The body of the loop over [pathInfo], for row [i]. *)
Definition rowStep (keyInfo : list KeyInfo) (i : nat) (row : Row)
    (pInfo : PathInfo) : M TreeState unit :=
  let id := idGetter pInfo row in
  if negb (truthy_prim id) then ret tt
  else
    enterBranch pInfo ;;;
    findOrCreate keyInfo i row pInfo (ToString id).

(** The body of the loop over [rows]. *)
Definition rowLoop (keyInfo : list KeyInfo) (pathInfos : list PathInfo)
    (tree : value) (ir : nat * Row) : M TreeState unit :=
  setCurBranch tree ;;;
  forEach pathInfos (rowStep keyInfo (fst ir) (snd ir)).

(** [finalize(pInfo, models)] for a function [one] finalizing one model. *)
Definition finalizeModels (one : value -> M TreeState unit) (models : value)
  : M TreeState unit :=
  s <- get ;;
  match models with
  | VRef a =>
      match t_heap s !! a with
      | Some (Arr elems) => forEach elems one
      | _ => one models
      end
  | _ => if truthy models then one models else ret tt
  end.

(** [finalizeOne(pInfo, relNames, model)] *)
Fixpoint finalizeOne (pInfo : PathInfo) (model : value) {struct pInfo}
  : M TreeState unit :=
  logFinalized (encPath pInfo) model ;;;
  (fix loop (cs : list (string * PathInfo)) : M TreeState unit :=
     match cs with
     | [] => ret tt
     | (relName, childPathInfo) :: cs' =>
         branch <- readP model relName ;;
         finalized <- finalizeBranch childPathInfo branch model ;;
         finalizeModels (finalizeOne childPathInfo) finalized ;;;
         loop cs'
     end) (children pInfo).

Definition finalize (pInfo : PathInfo) (models : value) : M TreeState value :=
  finalizeModels (finalizeOne pInfo) models ;;;
  ret models.

(** What [rowsToTree] returns: [rows] itself when it is empty, or the
    array of the root models. *)
Inductive TreeResult :=
| RowsThemselves
| Tree (models : value).

Definition newTreeState (h : heap) : TreeState :=
  {| t_heap := h; stack := []; curBranch := undefined; visits := [];
     finalized := [] |}.

Definition indexed {A} (l : list A) : list (nat * A) :=
  combine (seq 0 (length l)) l.

Definition rowsToTree (b : Builder) (rows : list Row) : M TreeState TreeResult :=
  match rows with
  | [] => ret RowsThemselves
  | _ =>
      keyInfoByPath <- lift (createKeyInfo b rows) ;;
      let pathInfos := map snd (pathInfo b) in
      tree <- allocT (Obj None []) ;;
      modify (fun s => {| t_heap := t_heap s; stack := [];
                          curBranch := curBranch s; visits := visits s;
                          finalized := finalized s |}) ;;;
      forEach (indexed rows) (rowLoop keyInfoByPath pathInfos tree) ;;;
      match pathInfos with
      | [] => throw TypeError
      | root :: _ =>
          s <- get ;;
          roots <- lift (valuesOf (t_heap s) tree) ;;
          models <- allocT (Arr roots) ;;
          finalize root models ;;;
          ret (Tree models)
      end
  end.

(** *** buildSelects *)

Record Select := {
  sel_col : string;
  sel_alias : string
}.

(** The arguments of [buildSelects]; of the query builder only
    [hasSelection(col, true)] is read. *)
Record SelectArgs := {
  selectFilter : string -> bool;
  arg_modelClass : ModelClass;
  arg_relation : option Relation;
  arg_info : PathInfo;
  hasSelection : string -> bool
}.

(** What [buildSelects] changes: the encoder, [info.omitCols] and the
    arguments of the calls of [builder.select]. *)
Record BuildState := {
  bs_encoder : Encoder;
  bs_omitCols : list string;
  bs_selected : list (list string)
}.

Definition onEncoder {A} (m : M Encoder A) : M BuildState A :=
  fun s => match m (bs_encoder s) with
           | (e, r) => ({| bs_encoder := e; bs_omitCols := bs_omitCols s;
                           bs_selected := bs_selected s |}, r)
           end.

(** [info.omitCols[col] = true] *)
Definition omitCol (col : string) : M BuildState unit :=
  modify (fun s =>
    {| bs_encoder := bs_encoder s;
       bs_omitCols := if existsb (String.eqb col) (bs_omitCols s)
                      then bs_omitCols s else bs_omitCols s ++ [col];
       bs_selected := bs_selected s |}).

(** [builder.select(selects)] *)
Definition builderSelect (selects : list string) : M BuildState unit :=
  modify (fun s =>
    {| bs_encoder := bs_encoder s; bs_omitCols := bs_omitCols s;
       bs_selected := bs_selected s ++ [selects] |}).

(** The body of the loop over the columns of the table. *)
Definition selectColumn (opt : Options) (rootTable : string)
    (args : SelectArgs) (selects : list Select) (col : string)
  : M BuildState (list Select) :=
  let filterPassed := selectFilter args col in
  let isIdColumn :=
    existsb (String.eqb col) (idColumn (arg_modelClass args)) in
  if filterPassed || isIdColumn then
    let e := encPath (arg_info args) in
    let select :=
      {| sel_col := (if String.eqb e "" then rootTable else e) +:+ "." +:+ col;
         sel_alias := joinPath (separator opt) e col |} in
    (if negb filterPassed then omitCol col else ret tt) ;;;
    ret (selects ++ [select])
  else ret selects.

(** The body of the loop over [relation.joinTableExtras]. *)
Definition selectExtra (opt : Options) (args : SelectArgs)
    (joinTable : string) (selects : list Select) (extra : Extra)
  : list Select :=
  if selectFilter args (joinTableCol extra) then
    selects ++
    [ {| sel_col := joinTable +:+ "." +:+ joinTableCol extra;
         sel_alias := joinPath (separator opt) (encPath (arg_info args))
                               (aliasCol extra) |} ]
  else selects.

Definition tooLong (select : Select) : bool :=
  Nat.ltb idLengthLimit (String.length (sel_alias select)).

Definition tooLongMessage (alias : string) : string :=
  "identifier " +:+ alias +:+ " is over " +:+ string_of_nat idLengthLimit
  +:+ " characters long and would be truncated by the database engine.".

(** [buildSelects(args)]; [columnInfo] is [RelationJoinBuilder.columnInfo]
    (table -> columns). *)
Definition buildSelects (opt : Options) (rootModelClass : ModelClass)
    (columnInfo : gmap string (list string)) (args : SelectArgs)
  : M BuildState unit :=
  let rootTable := tableName rootModelClass in
  match columnInfo !! tableName (arg_modelClass args) with
  | None => throw TypeError
  | Some columns =>
      selects <- foldM (selectColumn opt rootTable args) columns [] ;;
      selects <-
        match arg_relation args with
        | Some relation =>
            joinTable <-
              onEncoder (encode opt (joinTableForPath (path (arg_info args)))) ;;
            ret (fold_left (selectExtra opt args joinTable)
                           (joinTableExtras relation) selects)
        | None => ret selects
        end ;;
      match List.filter tooLong selects with
      | select :: _ =>
          throw (ValidationError (tooLongMessage (sel_alias select)))
      | [] =>
          builderSelect
            (map (fun select =>
                    sel_col select +:+ " as " +:+ sel_alias select)
                 (List.filter
                    (fun select => negb (hasSelection args (sel_col select)))
                    selects))
      end
  end.

End RelationJoinBuilder.

(** ** lib/model/Model.js: [$pick], [$omit] with an object, [$id] *)

Module ModelOps.
Import JS Heap ModelJS.

(** [contains(arr, value)]: [===] on keys. *)
Fixpoint contains (arr : list string) (value : string) : bool :=
  match arr with
  | [] => false
  | x :: arr' => if String.eqb x value then true else contains arr' value
  end.

(** [pickArray(model, pick)]: the loop runs over [Object.keys(model)] as it
    was before the first deletion. *)
Definition pickArray (model : props) (pick : list string) : props :=
  fold_left
    (fun m key =>
       if negb (startsWithDollar key) && negb (contains pick key)
       then delProp m key else m)
    (keys model) model.

(** [pickObject(model, keyObj)]: [keyObj[key]] is a lookup through the
    prototype chain of [keyObj], a plain object. *)
Definition pickObject (model keyObj : props) : props :=
  fold_left
    (fun m key =>
       if negb (startsWithDollar key) && negb (truthyIn keyObj key)
       then delProp m key else m)
    (keys model) model.

(** [omitObject(model, keyObj)] *)
Definition omitObject (model keyObj : props) : props :=
  fold_left
    (fun m key =>
       if truthy (getProp keyObj key) && negb (startsWithDollar key)
          && hasProp m key
       then delProp m key else m)
    (keys keyObj) model.

(** The arguments of [$omit] and [$pick]: keys given one by one, one array
    of keys, or one object whose truthy properties are the keys. *)
Inductive KeyArgs :=
| Spread (ks : list string)
| OneArray (ks : list string)
| OneObject (keyObj : props).

(** [$omit()] and [$pick()] on the own properties of [this]. *)
Definition omit_ (this : props) (args : KeyArgs) : props :=
  match args with
  | OneArray ks => omitArray this ks
  | OneObject keyObj => omitObject this keyObj
  | Spread ks => omitArray this ks
  end.

Definition pick_ (this : props) (args : KeyArgs) : props :=
  match args with
  | OneArray ks => pickArray this ks
  | OneObject keyObj => pickObject this keyObj
  | Spread ks => pickArray this ks
  end.

(** [$setDatabaseJson(json)] on a model that has properties already. *)
Definition setDatabaseJson (cls : ModelClass) (this json : props) : props :=
  fold_left (fun acc kv => setProp acc (fst kv) (snd kv))
            (parseDatabaseJson cls json) this.

(** *** Identifiers *)

(** [Model.idColumn]: a column or an array of columns; the same shape is
    used for [getIdProperty()] and for the argument and the result of
    [$id]. *)
Inductive OneOrMany (A : Type) :=
| One (a : A)
| Many (l : list A).
Arguments One {A} a.
Arguments Many {A} l.

(** A call returns or throws an [Error] with a message. *)
Inductive outcome (A : Type) :=
| Returned (a : A)
| Thrown (message : string).
Arguments Returned {A} a.
Arguments Thrown {A} message.

(** [getIdColumnArray()] *)
Definition getIdColumnArray (idColumn : OneOrMany string) : list string :=
  match idColumn with
  | Many cols => cols
  | One col => [col]
  end.

(** [getFullIdColumn()] *)
Definition getFullIdColumn (tableName : string) (idColumn : OneOrMany string)
  : OneOrMany string :=
  match idColumn with
  | Many cols => Many (map (fun col => tableName +:+ "." +:+ col) cols)
  | One col => One (tableName +:+ "." +:+ col)
  end.

(** [_.difference(array, values)] *)
Definition difference (array values : list string) : list string :=
  List.filter (fun x => negb (contains values x)) array.

(** [columnNameToPropertyName(columnName)]: [None] is [null]. *)
Definition columnNameToPropertyName (cls : ModelClass) (columnName : string)
  : option string :=
  let addedProps := keys (parseDatabaseJson cls []) in
  let row := [(columnName, null)] in
  let props := keys (parseDatabaseJson cls row) in
  match difference props addedProps with
  | propertyName :: _ =>
      if String.eqb propertyName "" then None else Some propertyName
  | [] => None
  end.

Definition idColumnMessage (cls : ModelClass) (idColumn : string) : string :=
  tableName cls +:+ ".$parseDatabaseJson probably changes the value of the id column `"
  +:+ idColumn +:+ "` which is a no-no.".

(** [idColumnToIdProperty(ModelClass, idColumn)] *)
Definition idColumnToIdProperty (cls : ModelClass) (idColumn : string)
  : outcome string :=
  match columnNameToPropertyName cls idColumn with
  | Some idProperty => Returned idProperty
  | None => Thrown (idColumnMessage cls idColumn)
  end.

(** [cols.map(col => idColumnToIdProperty(this, col))]: the first throw
    ends the loop. *)
Fixpoint idProperties (cls : ModelClass) (cols : list string)
  : outcome (list string) :=
  match cols with
  | [] => Returned []
  | col :: cols' =>
      match idColumnToIdProperty cls col with
      | Thrown msg => Thrown msg
      | Returned p =>
          match idProperties cls cols' with
          | Thrown msg => Thrown msg
          | Returned ps => Returned (p :: ps)
          end
      end
  end.

(** [getIdPropertyArray()] *)
Definition getIdPropertyArray (cls : ModelClass)
    (idColumn : OneOrMany string) : outcome (list string) :=
  idProperties cls (getIdColumnArray idColumn).

(** [getIdProperty()] *)
Definition getIdProperty (cls : ModelClass) (idColumn : OneOrMany string)
  : outcome (OneOrMany string) :=
  match idColumn with
  | Many cols =>
      match idProperties cls cols with
      | Returned ps => Returned (Many ps)
      | Thrown msg => Thrown msg
      end
  | One col =>
      match idColumnToIdProperty cls col with
      | Returned p => Returned (One p)
      | Thrown msg => Thrown msg
      end
  end.

Definition invalidIdentifier : string :=
  "trying to set an invalid identifier for a model".

(** [for (i < id.length) model[idProp[i]] = id[i]], for arrays of the same
    length. *)
Fixpoint setIds (model : props) (idProp : list string) (id : list value)
  : props :=
  match idProp, id with
  | p :: idProp', v :: id' => setIds (setProp model p v) idProp' id'
  | _, _ => model
  end.

(** [setId(model, id)]; a key that is [undefined] is the key
    ['undefined']. *)
Definition setId (cls : ModelClass) (idColumn : OneOrMany string)
    (model : props) (id : OneOrMany value) : outcome props :=
  match getIdProperty cls idColumn with
  | Thrown msg => Thrown msg
  | Returned idProp =>
      match id, idProp with
      | Many id, Many idProp =>
          if negb (Nat.eqb (length id) (length idProp))
          then Thrown invalidIdentifier
          else Returned (setIds model idProp id)
      | Many id, One idProp =>
          match id with
          | [v] => Returned (setProp model idProp v)
          | _ => Thrown invalidIdentifier
          end
      | One id, Many idProp =>
          if Nat.ltb 1 (length idProp) then Thrown invalidIdentifier
          else Returned (setProp model (nth 0 idProp "undefined") id)
      | One id, One idProp => Returned (setProp model idProp id)
      end
  end.

(** [getId(model)] *)
Definition getId (cls : ModelClass) (idColumn : OneOrMany string)
    (model : props) : outcome (OneOrMany value) :=
  match getIdProperty cls idColumn with
  | Thrown msg => Thrown msg
  | Returned (Many idProp) => Returned (Many (values_ model idProp))
  | Returned (One idProp) => Returned (One (getProp model idProp))
  end.

End ModelOps.

(** ** What DependencyGraph.build hands to the inserter

    DependencyGraph.js is not among the sources, so the graph is an input;
    these are the properties of a built graph that GraphInserter relies on. *)

Module GraphSpec.
Import JS Heap Monad Graph GraphInserter.

(** The model of a node is an instance of the class of the node,
    [node.id] is the uid stored in it, and [nodesById[node.id]] is the
    node: reading the uid back from the model of the node at index [i]
    leads to [i]. *)
Definition uidLeadsTo (h : heap) (g : DependencyGraph) (i : nat)
    (n : DependencyNode) : Prop :=
  exists o p,
    h !! model n = Some (Obj (Some (modelClass n)) o) /\
    getProp o (uidProp (modelClass n)) = VPrim p /\
    nodesById g !! ToString p = Some i.

Definition uidsConsistent (h : heap) (g : DependencyGraph) : Prop :=
  forall i n, nodes g !! i = Some n -> handled n = false -> uidLeadsTo h g i n.

(** Every node has a model object of its own. *)
Definition distinctModels (g : DependencyGraph) : Prop :=
  NoDup (map model (nodes g)).

Definition isHandled (ns : list DependencyNode) (j : nat) : bool :=
  match ns !! j with
  | Some n => handled n
  | None => false
  end.

(** The number of edges of [node.needs] whose target is handled. *)
Definition handledNeeds (ns : list DependencyNode) (n : DependencyNode) : nat :=
  length (List.filter (fun d => isHandled ns (dep_node d)) (needs n)).

(** [numHandledNeeds] counts the handled needs. *)
Definition countsConsistent (g : DependencyGraph) : Prop :=
  forall i n, nodes g !! i = Some n -> handled n = false ->
    numHandledNeeds n = handledNeeds (nodes g) n.

Definition occurrences (j : nat) (deps : list Dependency) : nat :=
  length (List.filter (fun d => Nat.eqb (dep_node d) j) deps).

(** [isNeededBy] holds the [needs] edges reversed: [i] needs [j] as many
    times as [j] is needed by [i]. *)
Definition edgesReversed (g : DependencyGraph) : Prop :=
  forall i j ni nj,
    nodes g !! i = Some ni -> nodes g !! j = Some nj ->
    handled ni = false -> handled nj = false ->
    occurrences j (needs ni) = occurrences i (isNeededBy nj).

(** The effects a callback may have on the models: the uid of the model at
    [a], an instance of [cls], is left alone. *)
Definition keepsUid (h h' : heap) (a : nat) (cls : ModelClass) : Prop :=
  forall o, h !! a = Some (Obj (Some cls) o) ->
    exists o', h' !! a = Some (Obj (Some cls) o') /\
               getProp o' (uidProp cls) = getProp o (uidProp cls).

(** The insert callback leaves the uid of every model it was not handed. *)
Definition inserterKeepsUids (inserter : Inserter) : Prop :=
  forall ti h h', inserter ti h = Some h' ->
    forall a cls, ~ In a (models ti) -> keepsUid h h' a cls.

(** The resolvers write foreign keys into the models of the graph, never
    a uid. *)
Definition resolversKeepUids (g : DependencyGraph) : Prop :=
  forall n d, In n (nodes g) -> In d (isNeededBy n) ->
    forall m h nj, In nj (nodes g) ->
      keepsUid h (dep_resolve d m h) (model nj) (modelClass nj).

Definition unhandledCount (g : DependencyGraph) : nat :=
  length (List.filter (fun n => negb (handled n)) (nodes g)).

Definition handledCount (g : DependencyGraph) : nat :=
  length (List.filter handled (nodes g)).

(** *** The trace of the insert callback *)

Definition entityCall (c : InsertCall) : bool :=
  negb (isJoinTableInsertion (call_insertion c)).

(** Model [a] was handed to the callback in a batch before batch [k]. *)
Definition insertedBefore (cs : list InsertCall) (k : nat) (a : nat) : Prop :=
  exists c, In c cs /\ entityCall c = true /\ call_round c < k /\
            In a (models (call_insertion c)).

(** Batches are executed one after the other, so a call of an earlier
    batch has completed when a later batch starts: every need of an
    inserted node was inserted in an earlier batch (or was handled from the
    start, as reference nodes are). *)
Definition needsInsertedFirst (g0 : DependencyGraph) (cs : list InsertCall)
  : Prop :=
  forall c j n d,
    In c cs -> entityCall c = true ->
    nodes g0 !! j = Some n -> In (model n) (models (call_insertion c)) ->
    In d (needs n) ->
    exists nd, nodes g0 !! dep_node d = Some nd /\
      (handled nd = true \/ insertedBefore cs (call_round c) (model nd)).

(** Unhandled nodes each of which needs a node of the set, as the nodes of
    a dependency cycle do. *)
Definition waitOnEachOther (g : DependencyGraph) (cycle : list nat) : Prop :=
  forall i, In i cycle ->
    exists n d, nodes g !! i = Some n /\ handled n = false /\
                In d (needs n) /\ In (dep_node d) cycle.

(** No model is handed to the callback twice. *)
Definition insertedOnce (cs : list InsertCall) : Prop :=
  NoDup (flat_map (fun c => models (call_insertion c))
                  (List.filter entityCall cs)).

End GraphSpec.

(** * Properties *)

(** ** Objects and the monad *)

Module JSFacts.
Import JS Heap Monad.

Lemma getProp_setProp_eq o k v : getProp (setProp o k v) k = v.
Proof.
  induction o as [|[k' v'] o IH]; simpl.
  - now rewrite String.eqb_refl.
  - destruct (String.eqb k' k) eqn:E; simpl; rewrite E; auto.
Qed.

Lemma getProp_setProp_ne o k k' v :
  k <> k' -> getProp (setProp o k v) k' = getProp o k'.
Proof.
  intros Hne. induction o as [|[k0 v0] o IH]; simpl.
  - destruct (String.eqb_spec k k'); congruence.
  - destruct (String.eqb_spec k0 k) as [->|Hk]; simpl.
    + destruct (String.eqb_spec k k'); congruence.
    + destruct (String.eqb_spec k0 k'); auto.
Qed.

Lemma hasProp_In o k : hasProp o k = true <-> In k (keys o).
Proof.
  induction o as [|[k' v'] o IH]; simpl.
  - split; [discriminate | tauto].
  - destruct (String.eqb_spec k' k) as [->|Hk]; [tauto|].
    rewrite IH. split; [tauto | intros [?|?]; congruence].
Qed.

Lemma getProp_absent o k : hasProp o k = false -> getProp o k = undefined.
Proof.
  induction o as [|[k' v'] o IH]; simpl; auto.
  destruct (String.eqb k' k); [discriminate | auto].
Qed.

Lemma hasProp_delProp_eq o k : hasProp (delProp o k) k = false.
Proof.
  induction o as [|[k' v'] o IH]; simpl; auto.
  destruct (String.eqb k' k) eqn:E; simpl; [|rewrite E]; auto.
Qed.

Lemma getProp_delProp_ne o k k' :
  k <> k' -> getProp (delProp o k) k' = getProp o k'.
Proof.
  intros Hne. induction o as [|[k0 v0] o IH]; simpl; auto.
  destruct (String.eqb_spec k0 k) as [->|Hk]; simpl.
  - destruct (String.eqb_spec k k'); congruence.
  - destruct (String.eqb_spec k0 k'); auto.
Qed.

Lemma hasProp_delProp_ne o k k' :
  k <> k' -> hasProp (delProp o k) k' = hasProp o k'.
Proof.
  intros Hne. induction o as [|[k0 v0] o IH]; simpl; auto.
  destruct (String.eqb_spec k0 k) as [->|Hk]; simpl.
  - destruct (String.eqb_spec k k'); congruence.
  - destruct (String.eqb_spec k0 k'); auto.
Qed.

(** Deleting a key keeps the other properties, in their order. *)
Lemma delProp_filter o k :
  delProp o k = List.filter (fun kv => negb (String.eqb (fst kv) k)) o.
Proof.
  induction o as [|[k0 v0] o IH]; simpl; auto.
  destruct (String.eqb k0 k); simpl; congruence.
Qed.

Lemma delProp_absent o k : hasProp o k = false -> delProp o k = o.
Proof.
  induction o as [|[k0 v0] o IH]; simpl; auto.
  destruct (String.eqb k0 k); [discriminate|]. intros H. now rewrite IH.
Qed.

Lemma hasProp_setProp o k k' v :
  hasProp (setProp o k v) k' = (String.eqb k k' || hasProp o k')%bool.
Proof.
  induction o as [|[k0 v0] o IH]; simpl.
  - now destruct (String.eqb k k').
  - destruct (String.eqb_spec k0 k) as [->|Hk]; simpl.
    + destruct (String.eqb k k'); auto.
    + rewrite IH. destruct (String.eqb k0 k'), (String.eqb k k'); auto.
Qed.

(** String concatenation. *)
Lemma append_cons c (a b : string) : String c a +:+ b = String c (a +:+ b).
Proof. reflexivity. Qed.

Lemma append_assoc (a b c : string) : (a +:+ b) +:+ c = a +:+ (b +:+ c).
Proof.
  induction a as [|x a IH]; [reflexivity|].
  rewrite !append_cons. now rewrite IH.
Qed.

Lemma append_nil_r (a : string) : a +:+ "" = a.
Proof.
  induction a as [|x a IH]; [reflexivity|].
  rewrite append_cons. now rewrite IH.
Qed.

Lemma length_append (a b : string) :
  String.length (a +:+ b) = String.length a + String.length b.
Proof.
  induction a as [|x a IH]; [reflexivity|].
  rewrite append_cons. simpl. now rewrite IH.
Qed.

End JSFacts.

(** ** Reasoning about stateful computations *)

Module MonadFacts.
Import JS Heap Monad Graph GraphInserter JSFacts.
Local Open Scope js_scope.

(** [P] holds of the state a computation ends in, whether it returns or
    throws. *)
Definition preserves {S A} (P : S -> Prop) (m : M S A) : Prop :=
  forall s, P s -> P (fst (m s)).

Lemma preserves_ret {S A} (P : S -> Prop) (a : A) : preserves P (ret a).
Proof. now intros s. Qed.

Lemma preserves_throw {S A} (P : S -> Prop) e : preserves P (@throw S A e).
Proof. now intros s. Qed.

Lemma preserves_lift {S A} (P : S -> Prop) (r : result A) :
  preserves P (lift r).
Proof. now intros s. Qed.

Lemma preserves_get {S} (P : S -> Prop) : preserves P get.
Proof. now intros s. Qed.

Lemma preserves_bind {S A B} (P : S -> Prop) (m : M S A) (k : A -> M S B) :
  preserves P m -> (forall a, preserves P (k a)) -> preserves P (mbind m k).
Proof.
  intros Hm Hk s Hs. unfold mbind. specialize (Hm s Hs).
  destruct (m s) as [s' [a|e]]; simpl in *; auto. now apply Hk.
Qed.

(** A bind after [get]: the continuation sees the current state. *)
Lemma preserves_get_bind {S B} (P : S -> Prop) (k : S -> M S B) :
  (forall s, P s -> P (fst (k s s))) -> preserves P (mbind get k).
Proof. intros H s Hs. unfold mbind, get. now apply H. Qed.

Lemma preserves_get_with {S B} (P : S -> Prop) (k : S -> M S B) :
  (forall s0, P s0 -> preserves P (k s0)) -> preserves P (mbind get k).
Proof. intros H s Hs. unfold mbind, get. now apply H. Qed.

Lemma preserves_forEach {S A} (P : S -> Prop) (l : list A) body :
  (forall x, In x l -> preserves P (body x)) -> preserves P (forEach l body).
Proof.
  induction l as [|x l IH]; intros Hb; simpl.
  - apply preserves_ret.
  - apply preserves_bind; [apply Hb; now left|].
    intros _. apply IH. intros y Hy. apply Hb. now right.
Qed.

Lemma preserves_mapM {S A B} (P : S -> Prop) (f : A -> M S B) (l : list A) :
  (forall x, In x l -> preserves P (f x)) -> preserves P (mapM f l).
Proof.
  induction l as [|x l IH]; intros Hb; simpl.
  - apply preserves_ret.
  - apply preserves_bind; [apply Hb; now left|].
    intros y. apply preserves_bind.
    + apply IH. intros z Hz. apply Hb. now right.
    + intros ys. apply preserves_ret.
Qed.

Lemma preserves_foldM {S A B} (P : S -> Prop) (body : A -> B -> M S A) l :
  (forall acc x, In x l -> preserves P (body acc x)) ->
  forall acc, preserves P (foldM body l acc).
Proof.
  induction l as [|x l IH]; intros Hb acc; simpl.
  - apply preserves_ret.
  - apply preserves_bind; [apply Hb; now left|].
    intros acc'. apply IH. intros a y Hy. apply Hb. now right.
Qed.

Lemma preserves_onHeap (P : state -> Prop) f :
  (forall s h, P s -> f (heap_ s) = Ok h -> P (withHeap s h)) ->
  preserves P (onHeap f).
Proof.
  intros H s Hs. unfold onHeap. destruct (f (heap_ s)) eqn:E; simpl; auto.
Qed.

Lemma preserves_modify {S} (P : S -> Prop) (f : S -> S) :
  (forall s, P s -> P (f s)) -> preserves P (modify f).
Proof. intros H s Hs. now apply H. Qed.

(** Inversion of a computation that returns. *)
Lemma mbind_Ok {S A B} (m : M S A) (k : A -> M S B) s s' b :
  mbind m k s = (s', Ok b) ->
  exists s1 a, m s = (s1, Ok a) /\ k a s1 = (s', Ok b).
Proof.
  unfold mbind. destruct (m s) as [s1 [a|e]]; intros H; [eauto | discriminate].
Qed.

Lemma bind_Ok {A B} (r : result A) (k : A -> result B) b :
  bind r k = Ok b -> exists a, r = Ok a /\ k a = Ok b.
Proof. destruct r; simpl; intros H; [eauto | discriminate]. Qed.

Lemma lift_Ok {S A} (r : result A) (s s' : S) a :
  lift r s = (s', Ok a) -> s' = s /\ r = Ok a.
Proof. unfold lift. intros [= -> ->]. auto. Qed.

Lemma onHeap_Ok f s s' u :
  onHeap f s = (s', Ok u) -> exists h, f (heap_ s) = Ok h /\ s' = withHeap s h.
Proof.
  unfold onHeap. destruct (f (heap_ s)); intros [= <-]; eauto.
Qed.

Lemma forEach_app {S A} (l1 l2 : list A) (body : A -> M S unit) s :
  forEach (l1 ++ l2) body s =
  mbind (forEach l1 body) (fun _ => forEach l2 body) s.
Proof.
  revert s. induction l1 as [|x l1 IH]; intros s; simpl.
  - reflexivity.
  - unfold mbind. destruct (body x s) as [s1 [[]|e]]; auto.
Qed.

(** Triples: from a state in [P], [m] returns [a] in a state satisfying
    [Q a], or throws in a state satisfying [E]. *)
Definition hoare {S A} (P : S -> Prop) (m : M S A) (Q : A -> S -> Prop)
    (E : S -> Prop) : Prop :=
  forall s, P s ->
    match m s with
    | (s', Ok a) => Q a s'
    | (s', Err _) => E s'
    end.

Lemma hoare_ret {S A} (P : S -> Prop) (a : A) (Q : A -> S -> Prop) E :
  (forall s, P s -> Q a s) -> hoare P (ret a) Q E.
Proof. intros H s Hs. now apply H. Qed.

Lemma hoare_throw {S A} (P : S -> Prop) e (Q : A -> S -> Prop) (E : S -> Prop) :
  (forall s, P s -> E s) -> hoare P (throw e) Q E.
Proof. intros H s Hs. now apply H. Qed.

Lemma hoare_lift {S A} (P : S -> Prop) (r : result A) (Q : A -> S -> Prop)
    (E : S -> Prop) :
  (forall a s, r = Ok a -> P s -> Q a s) -> (forall s, P s -> E s) ->
  hoare P (lift r) Q E.
Proof. intros H1 H2 s Hs. unfold lift. destruct r; auto. Qed.

Lemma hoare_bind {S A B} (P : S -> Prop) (m : M S A) (k : A -> M S B)
    (R : A -> S -> Prop) (Q : B -> S -> Prop) E :
  hoare P m R E -> (forall a, hoare (R a) (k a) Q E) ->
  hoare P (mbind m k) Q E.
Proof.
  intros Hm Hk s Hs. unfold mbind. specialize (Hm s Hs).
  destruct (m s) as [s' [a|e]]; auto. now apply Hk.
Qed.

Lemma hoare_get_bind {S B} (P : S -> Prop) (k : S -> M S B)
    (Q : B -> S -> Prop) E :
  (forall s0, P s0 -> hoare (fun s => s = s0) (k s0) Q E) ->
  hoare P (mbind get k) Q E.
Proof. intros H s Hs. unfold mbind, get. now apply (H s Hs s). Qed.

Lemma hoare_conseq {S A} (P P' : S -> Prop) (m : M S A)
    (Q Q' : A -> S -> Prop) (E E' : S -> Prop) :
  hoare P' m Q' E' ->
  (forall s, P s -> P' s) -> (forall a s, Q' a s -> Q a s) ->
  (forall s, E' s -> E s) ->
  hoare P m Q E.
Proof.
  intros H HP HQ HE s Hs. specialize (H s (HP s Hs)).
  destruct (m s) as [s' [a|e]]; auto.
Qed.

Lemma hoare_modify {S} (P : S -> Prop) (f : S -> S) (Q : unit -> S -> Prop) E :
  (forall s, P s -> Q tt (f s)) -> hoare P (modify f) Q E.
Proof. intros H s Hs. now apply H. Qed.

Lemma hoare_forEach {S A} (I : S -> Prop) (l : list A) body (E : S -> Prop) :
  (forall x, In x l -> hoare I (body x) (fun _ => I) E) ->
  hoare I (forEach l body) (fun _ => I) E.
Proof.
  induction l as [|x l IH]; intros Hb; simpl.
  - now apply hoare_ret.
  - eapply hoare_bind; [apply Hb; now left|].
    intros u. apply IH. intros y Hy. apply Hb. now right.
Qed.

Lemma hoare_foldM {S A B} (I : A -> S -> Prop) (body : A -> B -> M S A) l
    (E : S -> Prop) :
  (forall acc x, In x l -> hoare (I acc) (body acc x) I E) ->
  forall acc, hoare (I acc) (foldM body l acc) I E.
Proof.
  induction l as [|x l IH]; intros Hb acc; simpl.
  - now apply hoare_ret.
  - eapply hoare_bind; [apply Hb; now left|].
    intros acc'. apply IH. intros a y Hy. apply Hb. now right.
Qed.

(** [mapM] with an invariant and a property of every result. *)
Lemma hoare_mapM {S A B} (I : S -> Prop) (f : A -> M S B) (l : list A)
    (R : A -> B -> Prop) (E : S -> Prop) :
  (forall x, In x l -> hoare I (f x) (fun y s => I s /\ R x y) E) ->
  hoare I (mapM f l) (fun ys s => I s /\ Forall2 R l ys) E.
Proof.
  induction l as [|x l IH]; intros Hb; simpl.
  - apply hoare_ret. intros s Hs. split; [auto | constructor].
  - eapply hoare_bind; [apply Hb; now left|].
    intros y. simpl.
    intros s [Hs Hy]. unfold mbind.
    assert (IH' := IH (fun z Hz => Hb z (or_intror Hz)) s Hs).
    destruct (mapM f l s) as [s' [ys|e]]; simpl; auto.
    destruct IH' as [Hs' Hys]. split; auto.
Qed.

Lemma preserves_hoare {S A} (P : S -> Prop) (m : M S A) :
  preserves P m <-> hoare P m (fun _ => P) P.
Proof.
  split; intros H s Hs; specialize (H s Hs);
    destruct (m s) as [s' [a|e]]; auto.
Qed.

End MonadFacts.

(** ** GraphInserter: what each method changes *)

Module InserterFacts.
Import JS Heap Monad Graph GraphInserter JSFacts MonadFacts.
Local Open Scope js_scope.

(** Everything but the heap. *)
Definition sameFields (s0 s : state) : Prop :=
  inputModels s = inputModels s0 /\ done s = done s0 /\ graph s = graph s0 /\
  rounds s = rounds s0 /\ calls s = calls s0.

(** Code that touches nothing but the heap. *)
Definition onlyHeap {A} (m : M state A) : Prop :=
  forall s0, preserves (sameFields s0) m.

Lemma sameFields_refl s : sameFields s s.
Proof. now repeat split. Qed.

Lemma sameFields_withHeap s0 s h :
  sameFields s0 s -> sameFields s0 (withHeap s h).
Proof. now intros (?&?&?&?&?). Qed.

Lemma onlyHeap_onHeap f : onlyHeap (onHeap f).
Proof.
  intros s0. apply preserves_onHeap. intros s h Hs _.
  now apply sameFields_withHeap.
Qed.

Lemma onlyHeap_allocate c : onlyHeap (allocate c).
Proof.
  intros s0 s Hs. unfold allocate, alloc. simpl. now apply sameFields_withHeap.
Qed.

Ltac pres :=
  repeat first
    [ apply preserves_ret | apply preserves_throw | apply preserves_lift
    | apply preserves_get | apply onlyHeap_onHeap | apply onlyHeap_allocate
    | apply preserves_bind; [|intros ?]
    | apply preserves_forEach; intros ? _
    | apply preserves_mapM; intros ? _
    | apply preserves_foldM; intros ? ? _
    | match goal with
      | |- preserves _ (match ?x with _ => _ end) => destruct x
      | |- preserves _ (if ?x then _ else _) => destruct x
      end ].

Lemma onlyHeap_omitUids ti : onlyHeap (_omitUids ti).
Proof. intros s0. unfold _omitUids. pres. Qed.

Lemma onlyHeap_resolveDeps ti uids :
  onlyHeap (_resolveDepsForInsertion ti uids).
Proof. intros s0. unfold _resolveDepsForInsertion, resolveModel. pres. Qed.

Lemma onlyHeap_settle ins tu : onlyHeap (settle ins tu).
Proof. intros s0. unfold settle. pres. Qed.

Lemma onlyHeap_finalize : onlyHeap _finalize.
Proof. intros s0. unfold _finalize, finalizeNode, copyProp. pres. Qed.

Lemma onlyHeap_addJoinRow node b conn : onlyHeap (addJoinRow node b conn).
Proof. intros s0. unfold addJoinRow. pres. Qed.

Lemma onlyHeap_joinRowBatch : onlyHeap _createManyToManyRelationJoinRowBatch.
Proof. intros s0. unfold _createManyToManyRelationJoinRowBatch. pres. Qed.

(** A property of the other fields is kept by heap-only code. *)
Lemma onlyHeap_preserves {A} (m : M state A) (P : state -> Prop) :
  onlyHeap m ->
  (forall s s', sameFields s s' -> P s -> P s') ->
  preserves P m.
Proof.
  intros Hm HP s Hs. apply (HP s); auto. apply Hm, sameFields_refl.
Qed.

(** *** _omitUids *)

Lemma readUids_Ok h uid ms ids :
  readUids h uid ms = Ok ids ->
  Forall2 (fun a v => exists c o, h !! a = Some (Obj c o) /\ v = getProp o uid)
          ms ids.
Proof.
  revert ids. induction ms as [|a ms IH]; simpl; intros ids H.
  - injection H as <-. constructor.
  - apply bind_Ok in H as (v & Hv & H). apply bind_Ok in H as (vs & Hvs & H).
    injection H as <-. constructor; auto.
    unfold readProp in Hv. destruct (h !! a) as [[c o|]|]; try discriminate.
    injection Hv as <-. eauto.
Qed.

Lemma omit_uid_Ok h a uid h' :
  ModelJS.startsWithDollar uid = false ->
  ModelJS.omit h a [uid] = Ok h' ->
  exists c o, h !! a = Some (Obj c o) /\ h' = <[a := Obj c (delProp o uid)]> h.
Proof.
  intros Hd. unfold ModelJS.omit.
  destruct (h !! a) as [[c o|]|] eqn:E; try discriminate.
  intros [= <-]. exists c, o. split; auto. simpl. rewrite Hd. simpl.
  destruct (hasProp o uid) eqn:Hp; auto. now rewrite delProp_absent.
Qed.

(** Stripping the uid of a list of models: what each cell becomes. *)
Lemma omit_all_Ok uid ms :
  ModelJS.startsWithDollar uid = false ->
  forall s s' u,
  forEach ms (fun a => onHeap (fun h => ModelJS.omit h a [uid])) s = (s', Ok u) ->
  s' = withHeap s (heap_ s') /\
  length (heap_ s') = length (heap_ s) /\
  (forall a, In a ms -> exists c o,
      heap_ s !! a = Some (Obj c o) /\
      heap_ s' !! a = Some (Obj c (delProp o uid))) /\
  (forall a, ~ In a ms -> heap_ s' !! a = heap_ s !! a).
Proof.
  intros Hd. induction ms as [|a ms IH]; simpl; intros s s' u H.
  - injection H as <-. destruct s; simpl. repeat split; auto. intros a [].
  - apply mbind_Ok in H as (s1 & [] & H1 & H).
    apply onHeap_Ok in H1 as (h1 & H1 & ->).
    apply omit_uid_Ok in H1 as (c & o & Ha & ->); auto.
    apply IH in H as (Hs & Hlen & Hin & Hout). simpl in *.
    split; [rewrite Hs; now destruct s|].
    split; [now rewrite Hlen, length_insert|].
    split.
    + intros b Hb.
      destruct (in_dec Nat.eq_dec b ms) as [Hbm|Hbm].
      * destruct (Hin b Hbm) as (c' & o' & Hb1 & Hb2).
        destruct (decide (a = b)) as [->|Hne].
        -- rewrite list_lookup_insert_eq in Hb1
             by (eapply lookup_lt_Some; eauto).
           injection Hb1 as <- <-. exists c, o. split; auto.
           rewrite Hb2. f_equal. f_equal.
           rewrite delProp_absent; auto. apply hasProp_delProp_eq.
        -- rewrite list_lookup_insert_ne in Hb1 by auto. eauto.
      * destruct Hb as [->|Hb]; [|contradiction].
        exists c, o. split; auto. rewrite Hout by auto.
        apply list_lookup_insert_eq. eapply lookup_lt_Some; eauto.
    + intros b Hb. rewrite Hout by tauto.
      apply list_lookup_insert_ne. tauto.
Qed.

Lemma omitUids_Ok ti s s' ids :
  ModelJS.startsWithDollar (uidProp (ti_modelClass ti)) = false ->
  _omitUids ti s = (s', Ok ids) ->
  readUids (heap_ s) (uidProp (ti_modelClass ti)) (models ti) = Ok ids /\
  s' = withHeap s (heap_ s') /\
  length (heap_ s') = length (heap_ s) /\
  (forall a, In a (models ti) -> exists c o,
      heap_ s !! a = Some (Obj c o) /\
      heap_ s' !! a =
        Some (Obj c (delProp o (uidProp (ti_modelClass ti))))) /\
  (forall a, ~ In a (models ti) -> heap_ s' !! a = heap_ s !! a).
Proof.
  intros Hd H. unfold _omitUids in H.
  apply mbind_Ok in H as (s1 & s0 & Hg & H). injection Hg as <- <-.
  apply mbind_Ok in H as (s1 & ids' & Hr & H). apply lift_Ok in Hr as [-> Hr].
  apply mbind_Ok in H as (s2 & [] & Ho & H). injection H as <- <-.
  split; auto. eapply omit_all_Ok; eauto.
Qed.

Lemma snapshot_Ok h ms rows :
  snapshot h ms = Ok rows ->
  Forall2 (fun a o => exists c, h !! a = Some (Obj c o)) ms rows.
Proof.
  revert rows. induction ms as [|a ms IH]; simpl; intros rows H.
  - injection H as <-. constructor.
  - apply bind_Ok in H as (o & Ho & H). apply bind_Ok in H as (os & Hos & H).
    injection H as <-. constructor; auto.
    unfold ownProps in Ho. destruct (h !! a) as [[c o'|]|]; try discriminate.
    injection Ho as <-. eauto.
Qed.

(** *** Batches *)

Lemma batchGet_In b k ti : batchGet b k = Some ti -> In (k, ti) b.
Proof.
  induction b as [|[k' ti'] b IH]; simpl; [discriminate|].
  destruct (String.eqb_spec k' k) as [->|Hk].
  - intros [= ->]. now left.
  - intros H. right. auto.
Qed.

Lemma batchSet_In b k ti k' ti' :
  In (k', ti') (batchSet b k ti) -> (k', ti') = (k, ti) \/ In (k', ti') b.
Proof.
  induction b as [|[k0 ti0] b IH]; simpl.
  - intros [H|[]]. left. congruence.
  - destruct (String.eqb_spec k0 k) as [->|Hk]; simpl.
    + intros [H|H]; [left; congruence | right; now right].
    + intros [H|H]; [right; now left|].
      destruct (IH H); [now left | right; now right].
Qed.

Lemma batchSet_push_models b k ti0 m flag :
  models ti0 = [] ->
  Permutation
    (batchModels
       (batchSet b k
          (push (match batchGet b k with Some ti => ti | None => ti0 end)
                m flag)))
    (batchModels b ++ [m]).
Proof.
  intros H0. unfold batchModels, Lodash.flatMap.
  induction b as [|[k' ti'] b IH]; simpl.
  - rewrite H0. simpl. reflexivity.
  - destruct (String.eqb_spec k' k) as [->|Hk]; simpl.
    + rewrite <- !app_assoc. apply Permutation_app_head.
      apply Permutation_app_comm.
    + rewrite <- app_assoc. apply Permutation_app_head. exact IH.
Qed.

Lemma createBatchStep_models g b n :
  Permutation (batchModels (createBatchStep g b n))
              (batchModels b ++ (if eligible n then [model n] else [])).
Proof.
  unfold createBatchStep. destruct (eligible n).
  - apply batchSet_push_models. reflexivity.
  - now rewrite app_nil_r.
Qed.

Lemma createBatch_models_from g ns b :
  Permutation (batchModels (fold_left (createBatchStep g) ns b))
              (batchModels b ++ map model (List.filter eligible ns)).
Proof.
  revert b. induction ns as [|n ns IH]; intros b; simpl.
  - now rewrite app_nil_r.
  - rewrite IH, createBatchStep_models.
    rewrite <- app_assoc. apply Permutation_app_head.
    destruct (eligible n); reflexivity.
Qed.

(** The models of a batch are those of the eligible nodes. *)
Lemma createBatch_models g :
  Permutation (batchModels (_createBatch g))
              (map model (List.filter eligible (nodes g))).
Proof. apply (createBatch_models_from g (nodes g) []). Qed.

(** What every entry of a batch of entity rows looks like. *)
Definition entityEntry (g : DependencyGraph) (kv : string * TableInsertion)
  : Prop :=
  isJoinTableInsertion (snd kv) = false /\
  models (snd kv) <> [] /\
  (forall a, In a (models (snd kv)) ->
     exists n, In n (nodes g) /\ eligible n = true /\ model n = a) /\
  exists n, In n (nodes g) /\ ti_modelClass (snd kv) = modelClass n.

Lemma createBatch_entries_from g ns b :
  incl ns (nodes g) ->
  Forall (entityEntry g) b ->
  Forall (entityEntry g) (fold_left (createBatchStep g) ns b).
Proof.
  revert b. induction ns as [|n ns IH]; intros b Hns Hb; simpl; auto.
  apply IH; [intros x Hx; apply Hns; now right|].
  unfold createBatchStep. destruct (eligible n) eqn:En; auto.
  assert (Hn : In n (nodes g)) by (apply Hns; now left).
  rewrite List.Forall_forall in *. intros [k ti] Hin.
  apply batchSet_In in Hin as [Heq|Hin]; [|now apply Hb].
  injection Heq as -> ->.
  destruct (batchGet b (tableName (modelClass n))) as [ti|] eqn:Eg.
  - apply batchGet_In, Hb in Eg. destruct Eg as (Hj & Hm & Hall & Hc).
    simpl in *. repeat split; auto.
    + intros HH. apply app_eq_nil in HH as [_ HH]. discriminate.
    + intros a Ha. apply in_app_or in Ha as [Ha|[<-|[]]]; eauto.
  - simpl. repeat split; auto.
    + intros a [<-|[]]. eauto.
    + eauto.
Qed.

Lemma createBatch_entries g : Forall (entityEntry g) (_createBatch g).
Proof. apply createBatch_entries_from; [apply incl_refl | constructor]. Qed.

End InserterFacts.

Module MarkFacts.
Import JS Heap Monad Graph GraphInserter GraphSpec JSFacts MonadFacts InserterFacts.
Local Open Scope js_scope.

(** *** Marking a node handled *)

(** What [markModelHandled] does to [graph.nodes] when the model is the one
    of the node at index [i]. *)
Definition markNode (ns : list DependencyNode) (i : nat)
  : list DependencyNode :=
  match ns !! i with
  | Some n => alter setHandled i (fold_left bumpDependent (isNeededBy n) ns)
  | None => ns
  end.

(** The fields of a node that never change. *)
Definition static (n : DependencyNode) :=
  (id n, model n, modelClass n, needs n, isNeededBy n,
   manyToManyConnections n).

Lemma lookup_bumps deps ns j :
  fold_left bumpDependent deps ns !! j =
  Nat.iter (occurrences j deps) incrHandledNeeds <$> ns !! j.
Proof.
  revert ns. induction deps as [|d deps IH]; intros ns; simpl.
  - now destruct (ns !! j).
  - rewrite IH. unfold bumpDependent, occurrences. simpl.
    destruct (Nat.eqb_spec (dep_node d) j) as [->|Hne].
    + rewrite list_lookup_alter_eq. destruct (ns !! j); simpl; auto.
      now rewrite Nat.iter_swap.
    + now rewrite list_lookup_alter_ne.
Qed.

Lemma iter_incr k n :
  static (Nat.iter k incrHandledNeeds n) = static n /\
  handled (Nat.iter k incrHandledNeeds n) = handled n /\
  numHandledNeeds (Nat.iter k incrHandledNeeds n) = numHandledNeeds n + k.
Proof.
  induction k as [|k (IH1 & IH2 & IH3)]; simpl.
  - repeat split; auto.
  - repeat split; auto. rewrite IH3. lia.
Qed.

(** The node at [j] after the node at [i] was marked. *)
Lemma lookup_markNode ns i ni j nj :
  ns !! i = Some ni -> ns !! j = Some nj ->
  exists nj', markNode ns i !! j = Some nj' /\
    static nj' = static nj /\
    handled nj' = (handled nj || Nat.eqb i j)%bool /\
    numHandledNeeds nj' = numHandledNeeds nj + occurrences j (isNeededBy ni).
Proof.
  intros Hi Hj. unfold markNode. rewrite Hi.
  destruct (iter_incr (occurrences j (isNeededBy ni)) nj) as (H1 & H2 & H3).
  destruct (Nat.eqb_spec i j) as [->|Hne].
  - rewrite list_lookup_alter_eq, lookup_bumps, Hj. simpl.
    eexists. split; [reflexivity|]. simpl. repeat split; auto.
    now rewrite orb_true_r.
  - rewrite list_lookup_alter_ne, lookup_bumps, Hj by auto. simpl.
    eexists. split; [reflexivity|]. repeat split; auto.
    now rewrite orb_false_r.
Qed.

Lemma length_markNode ns i : length (markNode ns i) = length ns.
Proof.
  unfold markNode. destruct (ns !! i); auto.
  rewrite length_alter.
  generalize (isNeededBy d). intros deps. revert ns.
  induction deps as [|x deps IH]; intros ns; simpl; auto.
  rewrite IH. unfold bumpDependent. apply length_alter.
Qed.

Lemma lookup_markNode_inv ns i ni j nj' :
  ns !! i = Some ni -> markNode ns i !! j = Some nj' ->
  exists nj, ns !! j = Some nj /\
    static nj' = static nj /\
    handled nj' = (handled nj || Nat.eqb i j)%bool /\
    numHandledNeeds nj' = numHandledNeeds nj + occurrences j (isNeededBy ni).
Proof.
  intros Hi Hj.
  assert (Hlt : j < length ns).
  { rewrite <- (length_markNode ns i). eapply lookup_lt_Some; eauto. }
  destruct (lookup_lt_is_Some_2 _ _ Hlt) as [nj Hnj].
  destruct (lookup_markNode ns i ni j nj Hi Hnj) as (x & Hx & H).
  rewrite Hx in Hj. injection Hj as ->. eauto.
Qed.

Lemma map_static_markNode ns i :
  map static (markNode ns i) = map static ns.
Proof.
  destruct (ns !! i) as [ni|] eqn:Hi; [|unfold markNode; now rewrite Hi].
  apply list_eq. intros j. rewrite !list_lookup_fmap.
  destruct (ns !! j) as [nj|] eqn:Hj.
  - destruct (lookup_markNode ns i ni j nj Hi Hj) as (x & -> & Hs & _).
    simpl. now rewrite Hs.
  - apply lookup_ge_None in Hj.
    rewrite (proj2 (lookup_ge_None _ _)); auto.
    now rewrite length_markNode.
Qed.

Lemma map_model_static ns ns' :
  map static ns' = map static ns -> map model ns' = map model ns.
Proof.
  intros H.
  assert (E : forall l, map model l = map (fun t => snd (fst (fst (fst (fst t))))) (map static l)).
  { intros l. rewrite List.map_map. apply List.map_ext. now intros []. }
  now rewrite !E, H.
Qed.

Lemma isHandled_markNode ns i ni j :
  ns !! i = Some ni ->
  isHandled (markNode ns i) j = (isHandled ns j || Nat.eqb i j)%bool.
Proof.
  intros Hi. unfold isHandled.
  destruct (ns !! j) as [nj|] eqn:Hj.
  - destruct (lookup_markNode ns i ni j nj Hi Hj) as (x & -> & _ & H & _). auto.
  - rewrite (proj2 (lookup_ge_None (markNode ns i) j)).
    + destruct (Nat.eqb_spec i j) as [->|]; [congruence | auto].
    + rewrite length_markNode. now apply lookup_ge_None.
Qed.

End MarkFacts.

Module MarkInvFacts.
Import JS Heap Monad Graph GraphInserter GraphSpec JSFacts MonadFacts InserterFacts MarkFacts.
Local Open Scope js_scope.

(** *** The invariants are kept when a node is marked *)

Lemma markModelHandled_spec s i n :
  nodes (graph s) !! i = Some n ->
  uidLeadsTo (heap_ s) (graph s) i n ->
  markModelHandled (model n) s =
  (withGraph s (withNodes (graph s) (markNode (nodes (graph s)) i)), Ok tt).
Proof.
  intros Hi (o & p & Hm & Hu & Hid).
  unfold markModelHandled, mbind, get, lift, classOf, readProp, nodeById,
    nodeAt, put, markNode. simpl.
  rewrite Hm, Hu. simpl. rewrite Hid, Hi. reflexivity.
Qed.

Lemma static_fields n n' :
  static n' = static n ->
  id n' = id n /\ model n' = model n /\ modelClass n' = modelClass n /\
  needs n' = needs n /\ isNeededBy n' = isNeededBy n /\
  manyToManyConnections n' = manyToManyConnections n.
Proof. unfold static. intros [= -> -> -> -> -> ->]. repeat split. Qed.

Lemma uidsConsistent_markNode h g i ni :
  nodes g !! i = Some ni ->
  uidsConsistent h g ->
  uidsConsistent h (withNodes g (markNode (nodes g) i)).
Proof.
  intros Hi Hc j nj' Hj Hh. simpl in Hj.
  destruct (lookup_markNode_inv _ _ _ _ _ Hi Hj) as (nj & Hnj & Hs & Hhd & _).
  rewrite Hhd in Hh. apply orb_false_iff in Hh as [Hh _].
  destruct (Hc j nj Hnj Hh) as (o & p & H1 & H2 & H3).
  apply static_fields in Hs as (_ & Hm & Hcl & _).
  exists o, p. rewrite Hm, Hcl. auto.
Qed.

Lemma distinctModels_markNode g i :
  distinctModels g -> distinctModels (withNodes g (markNode (nodes g) i)).
Proof.
  unfold distinctModels. simpl.
  now rewrite (map_model_static _ _ (map_static_markNode (nodes g) i)).
Qed.

Lemma filter_orb_length {A} (p q : A -> bool) l :
  (forall x, In x l -> p x = true -> q x = false) ->
  length (List.filter (fun x => p x || q x)%bool l) =
  length (List.filter p l) + length (List.filter q l).
Proof.
  induction l as [|x l IH]; intros H; simpl; auto.
  assert (IH' := IH (fun y Hy => H y (or_intror Hy))).
  specialize (H x (or_introl eq_refl)).
  destruct (p x), (q x); simpl; rewrite ?IH'; try lia;
    now specialize (H eq_refl).
Qed.

Lemma handledNeeds_markNode ns i ni n :
  ns !! i = Some ni -> handled ni = false ->
  handledNeeds (markNode ns i) n = handledNeeds ns n + occurrences i (needs n).
Proof.
  intros Hi Hh. unfold handledNeeds, occurrences.
  rewrite <- filter_orb_length.
  - f_equal. apply List.filter_ext. intros d. cbv beta.
    rewrite (isHandled_markNode ns i ni (dep_node d) Hi).
    f_equal. apply Nat.eqb_sym.
  - intros d _ Hd. apply Nat.eqb_neq. intros E.
    unfold isHandled in Hd. rewrite E, Hi in Hd. congruence.
Qed.

Lemma edgesReversed_markNode g i ni :
  nodes g !! i = Some ni ->
  edgesReversed g -> edgesReversed (withNodes g (markNode (nodes g) i)).
Proof.
  intros Hi He a b na' nb' Ha Hb Hha Hhb. simpl in *.
  destruct (lookup_markNode_inv _ _ _ _ _ Hi Ha) as (na & Hna & Hsa & Hhda & _).
  destruct (lookup_markNode_inv _ _ _ _ _ Hi Hb) as (nb & Hnb & Hsb & Hhdb & _).
  rewrite Hhda in Hha. rewrite Hhdb in Hhb.
  apply orb_false_iff in Hha as [Hha _]. apply orb_false_iff in Hhb as [Hhb _].
  apply static_fields in Hsa as (_ & _ & _ & -> & _).
  apply static_fields in Hsb as (_ & _ & _ & _ & -> & _).
  eauto.
Qed.

Lemma countsConsistent_markNode g i ni :
  nodes g !! i = Some ni -> handled ni = false ->
  edgesReversed g -> countsConsistent g ->
  countsConsistent (withNodes g (markNode (nodes g) i)).
Proof.
  intros Hi Hh He Hc j nj' Hj Hhj. simpl in *.
  destruct (lookup_markNode_inv _ _ _ _ _ Hi Hj)
    as (nj & Hnj & Hs & Hhd & Hnum).
  rewrite Hhd in Hhj. apply orb_false_iff in Hhj as [Hhj Hij].
  rewrite Hnum, (Hc j nj Hnj Hhj).
  rewrite (handledNeeds_markNode _ i ni) by auto.
  apply static_fields in Hs as (_ & _ & _ & Hneeds & _).
  unfold handledNeeds. rewrite Hneeds.
  rewrite (He j i nj ni) by auto. reflexivity.
Qed.

Fixpoint countTrue (bs : list bool) : nat :=
  match bs with
  | [] => 0
  | b :: bs' => (if b then 1 else 0) + countTrue bs'
  end.

Lemma filter_countTrue {A} (p : A -> bool) l :
  length (List.filter p l) = countTrue (map p l).
Proof.
  induction l as [|x l IH]; simpl; auto. destruct (p x); simpl; lia.
Qed.

Lemma countTrue_insert (bs : list bool) (i : nat) (b0 b : bool) :
  bs !! i = Some b0 ->
  countTrue (<[i := b]> bs) + (if b0 then 1 else 0) =
  countTrue bs + (if b then 1 else 0).
Proof.
  revert i. induction bs as [|x bs IH]; intros [|i]; simpl; try discriminate.
  - intros [= ->]. lia.
  - intros H. specialize (IH i H). lia.
Qed.

Lemma map_handled_markNode ns i ni :
  ns !! i = Some ni ->
  map handled (markNode ns i) = <[i := true]> (map handled ns).
Proof.
  intros Hi. apply list_eq. intros j. rewrite list_lookup_fmap.
  destruct (ns !! j) as [nj|] eqn:Hj.
  - destruct (lookup_markNode ns i ni j nj Hi Hj) as (x & -> & _ & H & _).
    simpl. rewrite H.
    destruct (Nat.eqb_spec i j) as [->|Hne].
    + rewrite list_lookup_insert_eq.
      * now rewrite orb_true_r.
      * rewrite length_map. eapply lookup_lt_Some; eauto.
    + rewrite list_lookup_insert_ne by auto.
      rewrite list_lookup_fmap, Hj. simpl. now rewrite orb_false_r.
  - assert (Hge := proj1 (lookup_ge_None _ _) Hj).
    rewrite (proj2 (lookup_ge_None (markNode ns i) j))
      by now rewrite length_markNode.
    simpl. symmetry. apply lookup_ge_None.
    now rewrite length_insert, length_map.
Qed.

Lemma handledCount_markNode g i ni :
  nodes g !! i = Some ni -> handled ni = false ->
  handledCount (withNodes g (markNode (nodes g) i)) = S (handledCount g).
Proof.
  intros Hi Hh. unfold handledCount. simpl.
  rewrite !filter_countTrue, (map_handled_markNode _ _ _ Hi).
  assert (H : map handled (nodes g) !! i = Some false).
  { rewrite list_lookup_fmap, Hi. simpl. now rewrite Hh. }
  pose proof (countTrue_insert _ _ _ true H). simpl in *. lia.
Qed.

Lemma handled_unhandled_count g :
  handledCount g + unhandledCount g = length (nodes g).
Proof.
  unfold handledCount, unhandledCount.
  induction (nodes g) as [|n ns IH]; simpl; auto.
  destruct (handled n); simpl; lia.
Qed.

Lemma unhandledCount_markNode g i ni :
  nodes g !! i = Some ni -> handled ni = false ->
  S (unhandledCount (withNodes g (markNode (nodes g) i))) = unhandledCount g.
Proof.
  intros Hi Hh.
  pose proof (handledCount_markNode g i ni Hi Hh) as H1.
  pose proof (handled_unhandled_count g) as H2.
  pose proof (handled_unhandled_count (withNodes g (markNode (nodes g) i))) as H3.
  simpl in H3. rewrite length_markNode in H3. lia.
Qed.

End MarkInvFacts.

Module BatchFacts.
Import JS Heap Monad Graph GraphInserter GraphSpec JSFacts MonadFacts InserterFacts MarkFacts MarkInvFacts.
Local Open Scope js_scope.

(** *** Marking the models of a batch *)

Lemma distinctModels_inj g i j ni nj :
  distinctModels g ->
  nodes g !! i = Some ni -> nodes g !! j = Some nj ->
  model ni = model nj -> i = j.
Proof.
  intros Hd Hi Hj Hm. unfold distinctModels in Hd.
  apply (NoDup_lookup (map model (nodes g)) i j (model ni)).
  - exact Hd.
  - now rewrite list_lookup_fmap, Hi.
  - now rewrite list_lookup_fmap, Hj, Hm.
Qed.

(** [g'] is [g] with the nodes of the models [ms] marked handled. *)
Record Marked (g : DependencyGraph) (ms : list nat) (g' : DependencyGraph)
  : Prop := {
  mk_byId : nodesById g' = nodesById g;
  mk_input : inputNodesById g' = inputNodesById g;
  mk_static : map static (nodes g') = map static (nodes g);
  mk_handled : forall j nj nj',
    nodes g !! j = Some nj -> nodes g' !! j = Some nj' ->
    (handled nj' = true <-> handled nj = true \/ In (model nj) ms);
  mk_count : handledCount g' = handledCount g + length ms;
  mk_edges : edgesReversed g -> edgesReversed g';
  mk_counts : edgesReversed g -> countsConsistent g -> countsConsistent g'
}.

Lemma Marked_nil g : Marked g [] g.
Proof.
  split; auto; try (simpl; lia).
  intros j nj nj' Hj Hj'. rewrite Hj in Hj'. injection Hj' as ->.
  simpl. tauto.
Qed.

Lemma static_lookup ns ns' j nj nj' :
  map static ns' = map static ns ->
  ns !! j = Some nj -> ns' !! j = Some nj' -> static nj' = static nj.
Proof.
  intros H Hj Hj'.
  assert (E : map static ns' !! j = map static ns !! j) by now rewrite H.
  rewrite !list_lookup_fmap, Hj, Hj' in E. simpl in E. congruence.
Qed.

Lemma static_lookup_ex ns ns' j nj :
  map static ns' = map static ns ->
  ns !! j = Some nj -> exists nj', ns' !! j = Some nj' /\ static nj' = static nj.
Proof.
  intros H Hj.
  assert (E : map static ns' !! j = map static ns !! j) by now rewrite H.
  rewrite !list_lookup_fmap, Hj in E. simpl in E.
  destruct (ns' !! j) as [nj'|]; [|discriminate].
  simpl in E. exists nj'. split; congruence.
Qed.

Lemma markBatch_spec ms : forall s,
  uidsConsistent (heap_ s) (graph s) -> distinctModels (graph s) ->
  NoDup ms ->
  (forall m, In m ms -> exists i n,
      nodes (graph s) !! i = Some n /\ model n = m /\ handled n = false) ->
  exists g', forEach ms markModelHandled s = (withGraph s g', Ok tt) /\
             Marked (graph s) ms g' /\
             uidsConsistent (heap_ s) g' /\ distinctModels g'.
Proof.
  induction ms as [|m ms IH]; intros s Hu Hd Hnd Hms.
  - exists (graph s). simpl. split; [now destruct s|].
    split; [apply Marked_nil | auto].
  - destruct (Hms m (or_introl eq_refl)) as (i & n & Hi & Hm & Hh).
    inversion Hnd as [|? ? Hnotin Hnd']; subst.
    set (g1 := withNodes (graph s) (markNode (nodes (graph s)) i)).
    assert (Hstep := markModelHandled_spec s i n Hi (Hu i n Hi Hh)).
    fold g1 in Hstep.
    destruct (IH (withGraph s g1)) as (g' & Hrun & HM & Hu' & Hd'); auto.
    + apply (uidsConsistent_markNode _ _ _ n); auto.
    + now apply distinctModels_markNode.
    + intros m' Hm'. destruct (Hms m' (or_intror Hm')) as (i' & n' & Hi' & Hm'' & Hh').
      destruct (lookup_markNode _ _ _ _ _ Hi Hi') as (x & Hx & Hs & Hhx & _).
      exists i', x. simpl. split; auto.
      apply static_fields in Hs as (_ & -> & _). split; auto.
      rewrite Hhx, Hh'. simpl. apply Nat.eqb_neq. intros ->.
      rewrite Hi in Hi'. injection Hi' as <-.
      apply Hnotin, list_elem_of_In. now rewrite Hm''.
    + exists g'. simpl. unfold mbind. rewrite Hstep.
      split; [rewrite Hrun; now destruct s|].
      split; [|auto].
      destruct HM as [M1 M2 M3 M4 M5 M6 M7]. simpl in *.
      split; simpl; auto.
      * now rewrite M3, map_static_markNode.
      * intros j nj nj' Hj Hj'.
        destruct (lookup_markNode _ _ _ _ _ Hi Hj) as (x & Hx & Hs & Hhx & _).
        rewrite (M4 j x nj' Hx Hj'), Hhx.
        apply static_fields in Hs as (_ & -> & _).
        rewrite orb_true_iff, Nat.eqb_eq.
        split.
        -- intros [[H|H]|H]; auto.
           subst j. rewrite Hi in Hj. injection Hj as <-. right. now left.
        -- intros [H|[H|H]]; auto.
           left. right. exact (distinctModels_inj _ _ _ _ _ Hd Hi Hj H).
      * pose proof (handledCount_markNode _ _ _ Hi Hh) as HC.
        fold g1 in HC. rewrite M5, HC. lia.
      * intros He. apply M6. now apply (edgesReversed_markNode _ _ n).
      * intros He Hc. apply M7.
        -- now apply (edgesReversed_markNode _ _ n).
        -- now apply (countsConsistent_markNode _ _ n).
Qed.

(** *** Callbacks and the uids *)

(** The uids of the models of the graph that are not in [A] are kept. *)
Definition keepsUidsOutside (g : DependencyGraph) (A : list nat)
    (h h' : list cell) : Prop :=
  forall n, In n (nodes g) -> ~ In (model n) A ->
    keepsUid h h' (model n) (modelClass n).

Lemma keepsUid_refl h a cls : keepsUid h h a cls.
Proof. intros o H. eauto. Qed.

Lemma keepsUid_trans h1 h2 h3 a cls :
  keepsUid h1 h2 a cls -> keepsUid h2 h3 a cls -> keepsUid h1 h3 a cls.
Proof.
  intros H12 H23 o H. destruct (H12 o H) as (o2 & H2 & E2).
  destruct (H23 o2 H2) as (o3 & H3 & E3). exists o3. split; congruence.
Qed.

Lemma keepsUid_same h h' a cls : h' !! a = h !! a -> keepsUid h h' a cls.
Proof. intros E o H. exists o. rewrite E. auto. Qed.

Lemma keepsUidsOutside_refl g A h : keepsUidsOutside g A h h.
Proof. intros n _ _. apply keepsUid_refl. Qed.

Lemma keepsUidsOutside_trans g A h1 h2 h3 :
  keepsUidsOutside g A h1 h2 -> keepsUidsOutside g A h2 h3 ->
  keepsUidsOutside g A h1 h3.
Proof. intros H1 H2 n Hn Ha. eapply keepsUid_trans; eauto. Qed.

Lemma uidsConsistent_keeps A h h' g :
  uidsConsistent h g -> keepsUidsOutside g A h h' ->
  (forall i n, nodes g !! i = Some n -> handled n = false -> ~ In (model n) A) ->
  uidsConsistent h' g.
Proof.
  intros Hu Hk HA i n Hi Hh.
  destruct (Hu i n Hi Hh) as (o & p & H1 & H2 & H3).
  assert (Hn : In n (nodes g)).
  { apply list_elem_of_In. eapply list_elem_of_lookup_2; eauto. }
  destruct (Hk n Hn (HA i n Hi Hh) o H1) as (o' & H1' & E).
  exists o', p. rewrite E. auto.
Qed.

Lemma omit_other h a ks h' b :
  ModelJS.omit h a ks = Ok h' -> b <> a -> h' !! b = h !! b.
Proof.
  unfold ModelJS.omit. destruct (h !! a) as [[c o|]|]; try discriminate.
  intros [= <-] Hne. apply list_lookup_insert_ne. auto.
Qed.

End BatchFacts.

Module RunFacts.
Import JS Heap Monad Graph GraphInserter GraphSpec JSFacts MonadFacts InserterFacts MarkFacts MarkInvFacts BatchFacts.
Local Open Scope js_scope.

(** *** One batch handed to the callback *)

(** What holds from the start [s1] of a batch to its end: the graph and
    the flags stay, and the uid of every model outside [A] is kept. *)
Definition duringBatch (A : list nat) (s1 s : state) : Prop :=
  graph s = graph s1 /\ done s = done s1 /\
  inputModels s = inputModels s1 /\ rounds s = rounds s1 /\
  keepsUidsOutside (graph s1) A (heap_ s1) (heap_ s).

Lemma duringBatch_refl A s : duringBatch A s s.
Proof. repeat split; auto. apply keepsUidsOutside_refl. Qed.

Lemma duringBatch_withHeap A s1 s h :
  duringBatch A s1 s -> keepsUidsOutside (graph s1) A (heap_ s) h ->
  duringBatch A s1 (withHeap s h).
Proof.
  intros (?&?&?&?&Hk) Hk'. repeat split; auto. simpl.
  eapply keepsUidsOutside_trans; eauto.
Qed.

Definition batchInv (A : list nat) (s1 : state) (cs : list InsertCall)
    (s : state) : Prop :=
  duringBatch A s1 s /\ calls s = cs.

Lemma batchInv_onHeap A s1 cs f :
  (forall h h', f h = Ok h' -> keepsUidsOutside (graph s1) A h h') ->
  preserves (batchInv A s1 cs) (onHeap f).
Proof.
  intros Hf. apply preserves_onHeap. intros s h [Hd Hc] E.
  split; auto. apply duringBatch_withHeap; auto.
Qed.

Lemma batchInv_omitUids A s1 cs ti :
  incl (models ti) A -> preserves (batchInv A s1 cs) (_omitUids ti).
Proof.
  intros HA. unfold _omitUids.
  apply preserves_get_with. intros s Hs.
  apply preserves_bind; [apply preserves_lift|]. intros ids.
  apply preserves_bind; [|intros; apply preserves_ret].
  apply preserves_forEach. intros a Ha.
  apply batchInv_onHeap. intros h h' E n Hn Hb.
  apply keepsUid_same. eapply omit_other; eauto.
  intros Eq. apply Hb. rewrite Eq. apply HA, Ha.
Qed.

Lemma batchInv_resolveModel A s1 cs mu :
  resolversKeepUids (graph s1) ->
  preserves (batchInv A s1 cs) (resolveModel mu).
Proof.
  intros HR s Hs. unfold resolveModel, mbind, get, lift.
  assert (Hg : graph s = graph s1) by apply Hs.
  destruct (nodeById (graph s) mu.2) as [[i|]|e]; simpl; auto.
  unfold nodeAt. destruct (nodes (graph s) !! i) as [node|] eqn:Hi;
    simpl; auto.
  apply preserves_forEach; auto. intros d Hd.
  apply batchInv_onHeap. intros h h' [= <-] nj Hnj _.
  apply (HR node d); auto. rewrite <- Hg.
  apply list_elem_of_In. eapply list_elem_of_lookup_2; eauto.
Qed.

Lemma batchInv_settle A s1 cs ins tu :
  inserterKeepsUids ins -> resolversKeepUids (graph s1) ->
  incl (models (fst tu)) A ->
  preserves (batchInv A s1 cs) (settle ins tu).
Proof.
  intros HI HR HA. unfold settle.
  apply preserves_bind.
  - apply batchInv_onHeap. intros h h' E n Hn Ha.
    destruct (ins tu.1 h) as [h''|] eqn:Ei; [|discriminate].
    injection E as <-. apply (HI _ _ _ Ei). intros Hin. apply Ha, HA, Hin.
  - intros _. destruct (isJoinTableInsertion tu.1); [apply preserves_ret|].
    unfold _resolveDepsForInsertion. apply preserves_forEach.
    intros mu _. now apply batchInv_resolveModel.
Qed.

(** The call logged for an entry of the batch. *)
Definition callOf (r : nat) (kv : string * TableInsertion) (c : InsertCall)
  : Prop :=
  call_round c = r /\ call_insertion c = snd kv.

Lemma invoke_hoare A s1 cs kv :
  incl (models (snd kv)) A ->
  hoare (batchInv A s1 cs) (invoke kv)
    (fun y s => duringBatch A s1 s /\ fst y = snd kv /\
                exists c, calls s = cs ++ [c] /\ callOf (rounds s1) kv c)
    (batchInv A s1 cs).
Proof.
  intros HA. unfold invoke.
  eapply hoare_bind with (R := fun _ => batchInv A s1 cs).
  - apply preserves_hoare.
    destruct (isJoinTableInsertion kv.2); [apply preserves_ret|].
    now apply batchInv_omitUids.
  - intros uids. apply hoare_get_bind. intros s [Hd Hc] s' ->.
    unfold mbind at 1. unfold lift at 1.
    destruct (snapshot (heap_ s) (models kv.2)) as [rows|e]; simpl.
    + repeat split; try apply Hd.
      eexists. split; [now rewrite Hc|].
      split; simpl; auto. apply Hd.
    + now split.
Qed.

Lemma invokeAll_hoare A s1 r rest : forall pre,
  r = rounds s1 ->
  incl (batchModels rest) A ->
  hoare
    (fun s => duringBatch A s1 s /\
              exists cs, calls s = calls s1 ++ cs /\ Forall2 (callOf r) pre cs)
    (mapM invoke rest)
    (fun ys s => duringBatch A s1 s /\
       (exists cs, calls s = calls s1 ++ cs /\
                   Forall2 (callOf r) (pre ++ rest) cs) /\
       Forall2 (fun kv y => fst y = snd kv) rest ys)
    (fun s => duringBatch A s1 s /\
       exists es cs, es `prefix_of` (pre ++ rest) /\
                     calls s = calls s1 ++ cs /\ Forall2 (callOf r) es cs).
Proof.
  induction rest as [|kv rest IH]; intros pre -> HA; simpl.
  - apply hoare_ret. intros s (Hd & cs & Hc & Hf).
    rewrite app_nil_r. split; [auto|]. split; [eauto | constructor].
  - intros s (Hd & cs & Hc & Hf).
    assert (HAkv : incl (models kv.2) A).
    { intros a Ha. apply HA. unfold batchModels, Lodash.flatMap. simpl.
      apply in_or_app. now left. }
    assert (HArest : incl (batchModels rest) A).
    { intros a Ha. apply HA. unfold batchModels, Lodash.flatMap in *. simpl.
      apply in_or_app. now right. }
    pose proof (invoke_hoare A s1 (calls s1 ++ cs) kv HAkv s
                  (conj Hd Hc)) as Hinv.
    unfold mbind at 1. destruct (invoke kv s) as [s2 [y|e]].
    + destruct Hinv as (Hd2 & Hy & c & Hc2 & Hcall).
      assert (Hpre : duringBatch A s1 s2 /\
                exists cs', calls s2 = calls s1 ++ cs' /\
                            Forall2 (callOf (rounds s1)) (pre ++ [kv]) cs').
      { split; auto. exists (cs ++ [c]). split.
        - now rewrite Hc2, app_assoc.
        - apply Forall2_app; auto. }
      pose proof (IH (pre ++ [kv]) eq_refl HArest s2 Hpre) as Hrest.
      unfold mbind. destruct (mapM invoke rest s2) as [s3 [ys|e]]; simpl.
      * destruct Hrest as (Hd3 & Hcs3 & Hys). rewrite <- app_assoc in Hcs3.
        split; [auto|]. split; [auto|]. constructor; auto.
      * destruct Hrest as (Hd3 & es & cs3 & Hes & Hcs3).
        rewrite <- app_assoc in Hes. split; eauto.
    + destruct Hinv as [Hd2 Hc2]. split; auto.
      exists pre, cs. repeat split; auto. now apply prefix_app_r.
Qed.

(** The batch [b], from the state [s1]. *)
Lemma runBatch_hoare ins b s1 :
  inserterKeepsUids ins -> resolversKeepUids (graph s1) ->
  hoare (fun s => s = s1) (runBatch ins b)
    (fun _ s =>
       graph s = graph s1 /\ done s = done s1 /\
       inputModels s = inputModels s1 /\ rounds s = S (rounds s1) /\
       keepsUidsOutside (graph s1) (batchModels b) (heap_ s1) (heap_ s) /\
       exists cs, calls s = calls s1 ++ cs /\
                  Forall2 (callOf (rounds s1)) b cs)
    (fun s =>
       graph s = graph s1 /\ done s = done s1 /\
       inputModels s = inputModels s1 /\ rounds s = rounds s1 /\
       exists es cs, es `prefix_of` b /\ calls s = calls s1 ++ cs /\
                     Forall2 (callOf (rounds s1)) es cs).
Proof.
  intros HI HR s ->. unfold runBatch.
  pose proof (invokeAll_hoare (batchModels b) s1 (rounds s1) b []
                eq_refl (incl_refl _) s1) as H1.
  simpl in H1. unfold mbind at 1.
  destruct (mapM invoke b s1) as [s2 [started|e]].
  - destruct H1 as (Hd2 & (cs & Hcs & Hf) & Hst).
    { split; [apply duringBatch_refl|]. exists []. rewrite app_nil_r.
      split; auto. }
    assert (H2 : preserves (batchInv (batchModels b) s1 (calls s1 ++ cs))
                   (forEach started (settle ins))).
    { apply preserves_forEach. intros tu Htu.
      apply batchInv_settle; auto.
      intros a Ha. unfold batchModels, Lodash.flatMap.
      apply in_concat. exists (models tu.1). split; auto.
      apply in_map_iff.
      clear -Hst Htu. induction Hst as [|kv y b ys Hy Hst IH]; [destruct Htu|].
      destruct Htu as [<-|Htu].
      - exists kv. split; [now rewrite Hy | now left].
      - destruct (IH Htu) as (kv' & E & Hin). exists kv'. split; auto.
        now right. }
    specialize (H2 s2 (conj Hd2 Hcs)).
    unfold mbind. destruct (forEach started (settle ins) s2) as [s3 [[]|e]];
      simpl in *; destruct H2 as ((Hg & Hdn & Him & Hr & Hk) & Hc3).
    + repeat split; auto; try lia. eauto.
    + repeat split; auto. exists b, cs. split; auto.
  - destruct H1 as ((Hg & Hdn & Him & Hr & Hk) & es & cs & Hes & Hcs & Hf).
    { split; [apply duringBatch_refl|]. exists []. rewrite app_nil_r.
      split; auto. }
    repeat split; auto. eauto.
Qed.

End RunFacts.

Module FuelFacts.
Import JS Heap Monad Graph GraphInserter GraphSpec JSFacts MonadFacts InserterFacts MarkFacts MarkInvFacts BatchFacts RunFacts.
Local Open Scope js_scope.

(** *** Code that never reaches the recursion bound *)

Definition outOfFuel {A} (r : result A) : Prop :=
  match r with
  | Err OutOfFuel => True
  | _ => False
  end.

Definition noFuel {A} (m : M state A) : Prop :=
  forall s, ~ outOfFuel (snd (m s)).

Definition pureNoFuel {A} (r : result A) : Prop := ~ outOfFuel r.

Lemma outOfFuel_eq {A} (r : result A) : outOfFuel r <-> r = Err OutOfFuel.
Proof.
  destruct r as [a|[]]; simpl; split; try tauto; try discriminate.
Qed.

Lemma noFuel_ret {A} (a : A) : noFuel (ret a).
Proof. intros s. simpl. tauto. Qed.

Lemma noFuel_get : noFuel get.
Proof. intros s. simpl. tauto. Qed.

Lemma noFuel_modify f : noFuel (modify f).
Proof. intros s. simpl. tauto. Qed.

Lemma noFuel_throw {A} e : e <> OutOfFuel -> noFuel (@throw state A e).
Proof. intros H s. simpl. destruct e; tauto. Qed.

Lemma noFuel_lift {A} (r : result A) : pureNoFuel r -> noFuel (lift r).
Proof. intros H s. exact H. Qed.

Lemma noFuel_bind {A B} (m : M state A) (k : A -> M state B) :
  noFuel m -> (forall a, noFuel (k a)) -> noFuel (mbind m k).
Proof.
  intros Hm Hk s. unfold mbind. specialize (Hm s).
  destruct (m s) as [s' [a|e]]; [apply Hk | exact Hm].
Qed.

Lemma noFuel_forEach {A} (l : list A) body :
  (forall x, noFuel (body x)) -> noFuel (forEach l body).
Proof.
  intros H. induction l; simpl; [apply noFuel_ret|].
  apply noFuel_bind; auto.
Qed.

Lemma noFuel_mapM {A B} (f : A -> M state B) l :
  (forall x, noFuel (f x)) -> noFuel (mapM f l).
Proof.
  intros H. induction l; simpl; [apply noFuel_ret|].
  apply noFuel_bind; auto. intros y. apply noFuel_bind; auto.
  intros ys. apply noFuel_ret.
Qed.

Lemma noFuel_foldM {A B} (body : A -> B -> M state A) l :
  (forall acc x, noFuel (body acc x)) -> forall acc, noFuel (foldM body l acc).
Proof.
  intros H. induction l; intros acc; simpl; [apply noFuel_ret|].
  apply noFuel_bind; auto.
Qed.

Lemma noFuel_onHeap f :
  (forall h, pureNoFuel (f h)) -> noFuel (onHeap f).
Proof.
  intros H s. unfold onHeap. specialize (H (heap_ s)).
  destruct (f (heap_ s)); simpl; [tauto | exact H].
Qed.

Lemma noFuel_allocate c : noFuel (allocate c).
Proof. intros s. unfold allocate, alloc. simpl. tauto. Qed.

Lemma pure_bind {A B} (r : result A) (k : A -> result B) :
  pureNoFuel r -> (forall a, pureNoFuel (k a)) -> pureNoFuel (bind r k).
Proof. intros Hr Hk. destruct r; simpl; auto. Qed.

Lemma pure_Ok {A} (a : A) : pureNoFuel (Ok a).
Proof. unfold pureNoFuel. simpl. tauto. Qed.

Ltac pnf := unfold pureNoFuel; simpl; tauto.

Lemma pure_readProp h v k : pureNoFuel (readProp h v k).
Proof.
  unfold readProp. destruct v as [[]| |a]; try pnf.
  destruct (h !! a) as [[]|]; pnf.
Qed.

Lemma pure_writeProp h v k x : pureNoFuel (writeProp h v k x).
Proof.
  unfold writeProp. destruct v as [p| |a]; try pnf.
  destruct (h !! a) as [[]|]; pnf.
Qed.

Lemma pure_classOf h a : pureNoFuel (classOf h a).
Proof. unfold classOf. destruct (h !! a) as [[[]|]|]; pnf. Qed.

Lemma pure_ownProps h a : pureNoFuel (ownProps h a).
Proof. unfold ownProps. destruct (h !! a) as [[]|]; pnf. Qed.

Lemma pure_nodeById g v : pureNoFuel (nodeById g v).
Proof. unfold nodeById, ToKey. destruct v; pnf. Qed.

Lemma pure_nodeAt g i : pureNoFuel (nodeAt g i).
Proof. unfold nodeAt. destruct (nodes g !! i); pnf. Qed.

Lemma pure_omit h a ks : pureNoFuel (ModelJS.omit h a ks).
Proof. unfold ModelJS.omit. destruct (h !! a) as [[]|]; pnf. Qed.

Lemma pure_fold_right {A B} (f : A -> result B) l :
  (forall a, pureNoFuel (f a)) ->
  pureNoFuel (fold_right (fun a acc =>
                 bind (f a) (fun o => bind acc (fun os => Ok (o :: os))))
              (Ok []) l).
Proof.
  intros H. induction l; simpl; [apply pure_Ok|].
  apply pure_bind; auto. intros o. apply pure_bind; auto.
  intros os. apply pure_Ok.
Qed.

Lemma pure_str v : pureNoFuel (ModelJS.str v).
Proof. destruct v; pnf. Qed.

Lemma pure_propKeyLoop o ps :
  forall key, pureNoFuel (ModelJS.propKeyLoop o ps key).
Proof.
  induction ps as [|p ps IH]; intros key; simpl; [apply pure_Ok|].
  apply pure_bind; [apply pure_str|]. intros s. apply IH.
Qed.

Lemma pure_propKey o ps : pureNoFuel (ModelJS.propKey o ps).
Proof.
  unfold ModelJS.propKey.
  destruct ps as [|p0 [|p1 [|p2 [|p3 ps]]]]; try apply pure_propKeyLoop;
    repeat (apply pure_bind; [apply pure_str|intros ?]); apply pure_Ok.
Qed.

Lemma pure_fromJson cls json : pureNoFuel (ModelJS.fromJson cls json).
Proof.
  unfold ModelJS.fromJson.
  destruct (validateJson cls json); [|pnf].
  destruct (existsb _ _); pnf.
Qed.

Lemma pure_dedupInsertion h ti : pureNoFuel (dedupInsertion h ti).
Proof.
  unfold dedupInsertion. destruct (models ti); [apply pure_Ok|].
  apply pure_bind.
  - apply (pure_fold_right (ownProps h)). apply pure_ownProps.
  - intros objs. apply pure_bind; [|intros; apply pure_Ok].
    apply (pure_fold_right (fun o => ModelJS.propKey o _)).
    intros o. apply pure_propKey.
Qed.

Ltac nofuel :=
  repeat first
    [ apply noFuel_ret | apply noFuel_get | apply noFuel_modify
    | apply noFuel_allocate
    | apply noFuel_throw; discriminate
    | apply noFuel_lift
    | apply noFuel_onHeap; intros ?
    | apply noFuel_bind; [|intros ?]
    | apply noFuel_forEach; intros ?
    | apply noFuel_mapM; intros ?
    | apply noFuel_foldM; intros ? ?
    | apply pure_readProp | apply pure_writeProp | apply pure_classOf
    | apply pure_ownProps | apply pure_nodeById | apply pure_nodeAt
    | apply pure_omit | apply pure_Ok | apply pure_fromJson
    | apply pure_bind; [|intros ?]
    | match goal with
      | |- noFuel (match ?x with _ => _ end) => destruct x
      | |- noFuel (if ?x then _ else _) => destruct x
      | |- pureNoFuel (match ?x with _ => _ end) => destruct x
      end ].

Lemma noFuel_finalize : noFuel _finalize.
Proof. unfold _finalize, finalizeNode, copyProp. nofuel. Qed.

Lemma noFuel_markBatchHandled b : noFuel (_markBatchHandled b).
Proof.
  unfold _markBatchHandled, markModelHandled. nofuel.
Qed.

Lemma pure_dedupAll h (b : batch) : forall acc,
  pureNoFuel acc ->
  pureNoFuel (fold_left
          (fun acc kv =>
             bind acc (fun b' =>
             bind (dedupInsertion h (snd kv)) (fun ti =>
               Ok (batchSet b' (fst kv) ti))))
          b acc).
Proof.
  induction b as [|kv b IH]; intros acc Hacc; simpl; auto.
  apply IH. apply pure_bind; auto. intros b'.
  apply pure_bind; [apply pure_dedupInsertion|]. intros ti. apply pure_Ok.
Qed.

Lemma noFuel_joinRowBatch : noFuel _createManyToManyRelationJoinRowBatch.
Proof.
  unfold _createManyToManyRelationJoinRowBatch, addJoinRow. nofuel.
  apply pure_dedupAll, pure_Ok.
Qed.

Lemma noFuel_nextBatch : noFuel _nextBatch.
Proof.
  unfold _nextBatch. apply noFuel_bind; [apply noFuel_get|]. intros s.
  destruct (done s); [apply noFuel_ret|].
  destruct (_createBatch (graph s)).
  - apply noFuel_bind; [apply noFuel_modify|]. intros _.
    apply noFuel_bind; [apply noFuel_joinRowBatch|]. intros jb.
    apply noFuel_ret.
  - apply noFuel_bind; [apply noFuel_markBatchHandled|]. intros _.
    apply noFuel_ret.
Qed.

Lemma pure_snapshot h ms : pureNoFuel (snapshot h ms).
Proof. apply (pure_fold_right (ownProps h)). apply pure_ownProps. Qed.

Lemma pure_readUids h uid ms : pureNoFuel (readUids h uid ms).
Proof.
  apply (pure_fold_right (fun a => readProp h (VRef a) uid)).
  intros a. apply pure_readProp.
Qed.

Lemma noFuel_omitUids ti : noFuel (_omitUids ti).
Proof. unfold _omitUids. nofuel. apply pure_readUids. Qed.

Lemma noFuel_invoke kv : noFuel (invoke kv).
Proof.
  unfold invoke. apply noFuel_bind.
  - destruct (isJoinTableInsertion kv.2);
      [apply noFuel_ret | apply noFuel_omitUids].
  - intros uids. nofuel. apply pure_snapshot.
Qed.

Lemma noFuel_settle ins tu : noFuel (settle ins tu).
Proof.
  unfold settle, _resolveDepsForInsertion, resolveModel. nofuel.
  pnf.
Qed.

Lemma noFuel_runBatch ins b : noFuel (runBatch ins b).
Proof.
  unfold runBatch. apply noFuel_bind.
  - apply noFuel_mapM. apply noFuel_invoke.
  - intros started. apply noFuel_bind.
    + apply noFuel_forEach. apply noFuel_settle.
    + intros _. apply noFuel_modify.
Qed.

End FuelFacts.

Module RoundFacts.
Import JS Heap Monad Graph GraphInserter GraphSpec JSFacts MonadFacts InserterFacts MarkFacts MarkInvFacts BatchFacts RunFacts FuelFacts.
Local Open Scope js_scope.

(** *** _nextBatch *)

Lemma NoDup_map_filter {A B} (f : A -> B) (p : A -> bool) (l : list A) :
  NoDup (map f l) -> NoDup (map f (List.filter p l)).
Proof.
  induction l as [|x l IH]; simpl; intros H; auto.
  apply NoDup_cons in H as [Hx Hl].
  destruct (p x); simpl; auto.
  apply NoDup_cons. split; auto.
  intros Hin. apply Hx.
  apply list_elem_of_In in Hin. apply list_elem_of_In.
  apply in_map_iff in Hin as (y & <- & Hy). apply in_map.
  now apply filter_In in Hy.
Qed.

Lemma eligible_unhandled n : eligible n = true -> handled n = false.
Proof.
  unfold eligible. intros H. apply andb_true_iff in H as [H _].
  now apply negb_true_iff.
Qed.

Lemma eligible_counts n :
  eligible n = true -> numHandledNeeds n = length (needs n).
Proof.
  unfold eligible. intros H. apply andb_true_iff in H as [_ H].
  apply Nat.eqb_eq in H. auto.
Qed.

Lemma createBatch_NoDup g :
  distinctModels g -> NoDup (batchModels (_createBatch g)).
Proof.
  intros Hd. rewrite (createBatch_models g). now apply NoDup_map_filter.
Qed.

Lemma createBatch_In g m :
  In m (batchModels (_createBatch g)) <->
  exists i n, nodes g !! i = Some n /\ model n = m /\ eligible n = true.
Proof.
  rewrite (Permutation_in' (eq_refl m) (createBatch_models g)).
  rewrite in_map_iff. split.
  - intros (n & Hm & Hn). apply filter_In in Hn as [Hn He].
    apply list_elem_of_In, list_elem_of_lookup_1 in Hn as [i Hi]. eauto.
  - intros (i & n & Hi & Hm & He). exists n. split; auto.
    apply filter_In. split; auto.
    apply list_elem_of_In. eapply list_elem_of_lookup_2; eauto.
Qed.

Lemma createBatch_nonempty g :
  _createBatch g <> [] -> batchModels (_createBatch g) <> [].
Proof.
  intros Hne. pose proof (createBatch_entries g) as H.
  destruct (_createBatch g) as [|[k ti] b]; [congruence|].
  inversion H as [|? ? (_ & Hm & _) _]; subst. simpl in Hm.
  unfold batchModels, Lodash.flatMap. simpl.
  destruct (models ti); [congruence | discriminate].
Qed.

Lemma nextBatch_done s : done s = true -> _nextBatch s = (s, Ok None).
Proof. intros H. unfold _nextBatch, mbind, get. now rewrite H. Qed.

(** A scan that finds eligible nodes marks them and returns them. *)
Lemma nextBatch_marks s :
  done s = false ->
  uidsConsistent (heap_ s) (graph s) -> distinctModels (graph s) ->
  _createBatch (graph s) <> [] ->
  exists g',
    _nextBatch s = (withGraph s g', Ok (Some (_createBatch (graph s)))) /\
    Marked (graph s) (batchModels (_createBatch (graph s))) g' /\
    uidsConsistent (heap_ s) g' /\ distinctModels g'.
Proof.
  intros Hdone Hu Hd Hne.
  destruct (markBatch_spec (batchModels (_createBatch (graph s))) s Hu Hd)
    as (g' & Hrun & HM & Hu' & Hd').
  - now apply createBatch_NoDup.
  - intros m Hm. apply createBatch_In in Hm as (i & n & Hi & Hm & He).
    exists i, n. repeat split; auto. now apply eligible_unhandled.
  - exists g'. split; [|auto].
    unfold _nextBatch, mbind, get. rewrite Hdone.
    destruct (_createBatch (graph s)) as [|kv b] eqn:Eb; [congruence|].
    unfold _markBatchHandled. rewrite Hrun. reflexivity.
Qed.

(** The first scan that finds nothing sets [done] and builds the join
    rows. *)
Lemma nextBatch_joinRows s :
  done s = false -> _createBatch (graph s) = [] ->
  _nextBatch s =
  (let (s', r) := _createManyToManyRelationJoinRowBatch (withDone s) in
   (s', match r with Ok jb => Ok (Some jb) | Err e => Err e end)) /\
  done (fst (_nextBatch s)) = true.
Proof.
  intros Hdone Hb.
  assert (E : _nextBatch s =
    (let (s', r) := _createManyToManyRelationJoinRowBatch (withDone s) in
     (s', match r with Ok jb => Ok (Some jb) | Err e => Err e end))).
  { unfold _nextBatch, mbind at 1, get. rewrite Hdone, Hb.
    unfold mbind, modify.
    destruct (_createManyToManyRelationJoinRowBatch (withDone s))
      as [s' [jb|e]]; reflexivity. }
  split; auto. rewrite E.
  pose proof (onlyHeap_joinRowBatch (withDone s) (withDone s)
                (sameFields_refl _)) as (_ & Hd & _).
  destruct (_createManyToManyRelationJoinRowBatch (withDone s)) as [s' r].
  simpl in *. auto.
Qed.

Lemma static_In g g' n' :
  map static (nodes g') = map static (nodes g) -> In n' (nodes g') ->
  exists n, In n (nodes g) /\ static n' = static n.
Proof.
  intros Hs Hn'.
  apply list_elem_of_In, list_elem_of_lookup_1 in Hn' as [j Hj].
  destruct (static_lookup_ex _ _ j n' (eq_sym Hs) Hj) as (n & Hn & E).
  exists n. split; [|auto].
  apply list_elem_of_In. eapply list_elem_of_lookup_2; eauto.
Qed.

Lemma resolversKeepUids_static g g' :
  map static (nodes g') = map static (nodes g) ->
  resolversKeepUids g -> resolversKeepUids g'.
Proof.
  intros Hs HR n' d Hn' Hd m h nj' Hnj'.
  destruct (static_In _ _ _ Hs Hn') as (n & Hn & E).
  destruct (static_In _ _ _ Hs Hnj') as (nj & Hnj & Ej).
  apply static_fields in E as (_ & _ & _ & _ & E & _).
  apply static_fields in Ej as (_ & -> & -> & _).
  apply (HR n d); auto. now rewrite <- E.
Qed.

Lemma keepsUidsOutside_static g g' A h h' :
  map static (nodes g') = map static (nodes g) ->
  keepsUidsOutside g A h h' -> keepsUidsOutside g' A h h'.
Proof.
  intros Hs Hk n' Hn' Ha.
  destruct (static_In _ _ _ Hs Hn') as (n & Hn & E).
  apply static_fields in E as (_ & Em & Ec & _).
  rewrite Em, Ec. apply Hk; auto. now rewrite <- Em.
Qed.

(** After the marking, no unhandled node has its model in the batch. *)
Lemma Marked_unhandled_outside g ms g' i n :
  Marked g ms g' -> nodes g' !! i = Some n -> handled n = false ->
  ~ In (model n) ms.
Proof.
  intros HM Hi Hh Hin.
  destruct (static_lookup_ex _ _ i n (eq_sym (mk_static _ _ _ HM)) Hi)
    as (n0 & Hn0 & E).
  apply static_fields in E as (_ & E & _).
  assert (H : handled n = true).
  { apply (mk_handled _ _ _ HM i n0 n Hn0 Hi). right. now rewrite E. }
  congruence.
Qed.

(** One round: the eligible nodes are marked, then handed to the
    callback. *)
Lemma entity_round ins s :
  done s = false ->
  uidsConsistent (heap_ s) (graph s) -> distinctModels (graph s) ->
  resolversKeepUids (graph s) -> inserterKeepsUids ins ->
  _createBatch (graph s) <> [] ->
  let b := _createBatch (graph s) in
  exists g',
    _nextBatch s = (withGraph s g', Ok (Some b)) /\
    Marked (graph s) (batchModels b) g' /\ distinctModels g' /\
    resolversKeepUids g' /\
    match runBatch ins b (withGraph s g') with
    | (s2, Ok _) =>
        graph s2 = g' /\ done s2 = false /\
        inputModels s2 = inputModels s /\ rounds s2 = S (rounds s) /\
        uidsConsistent (heap_ s2) g' /\
        exists cs, calls s2 = calls s ++ cs /\
                   Forall2 (callOf (rounds s)) b cs
    | (s2, Err e) =>
        e <> OutOfFuel /\ graph s2 = g' /\ rounds s2 = rounds s /\
        exists es cs, es `prefix_of` b /\ calls s2 = calls s ++ cs /\
                      Forall2 (callOf (rounds s)) es cs
    end.
Proof.
  intros Hdone Hu Hd HR HI Hne b.
  destruct (nextBatch_marks s Hdone Hu Hd Hne) as (g' & Hnb & HM & Hu' & Hd').
  exists g'. split; auto. split; auto. split; auto.
  assert (HR' : resolversKeepUids g').
  { apply (resolversKeepUids_static (graph s) g' (mk_static _ _ _ HM) HR). }
  split; auto.
  pose proof (runBatch_hoare ins b (withGraph s g') HI HR'
                (withGraph s g') eq_refl) as H.
  pose proof (noFuel_runBatch ins b (withGraph s g')) as Hnf.
  destruct (runBatch ins b (withGraph s g')) as [s2 [[]|e]]; simpl in *.
  - destruct H as (Hg & Hdn & Him & Hr & Hk & Hcs).
    repeat split; auto; try congruence.
    eapply uidsConsistent_keeps; eauto.
    intros i n Hi Hh. eapply Marked_unhandled_outside; eauto.
  - destruct H as (Hg & Hdn & Him & Hr & Hcs).
    repeat split; auto. intros ->. now apply Hnf.
Qed.

End RoundFacts.

Module TerminationFacts.
Import JS Heap Monad Graph GraphInserter GraphSpec JSFacts MonadFacts InserterFacts MarkFacts MarkInvFacts BatchFacts RunFacts FuelFacts RoundFacts.
Local Open Scope js_scope.

(** *** Termination of [execute] *)

Lemma executeNextBatch_done fuel ins s :
  done s = true ->
  _executeNextBatch (S fuel) ins s = _finalize s.
Proof.
  intros Hd. simpl. unfold mbind at 1. now rewrite nextBatch_done.
Qed.

Lemma Marked_unhandledCount g ms g' :
  Marked g ms g' -> unhandledCount g' + length ms = unhandledCount g.
Proof.
  intros HM. pose proof (mk_count _ _ _ HM) as Hc.
  pose proof (handled_unhandled_count g) as H1.
  pose proof (handled_unhandled_count g') as H2.
  assert (Hl : length (nodes g') = length (nodes g)).
  { rewrite <- (length_map static (nodes g')), (mk_static _ _ _ HM).
    apply length_map. }
  lia.
Qed.

(** The number of batches needed. *)
Definition fuelNeeded (s : state) : nat :=
  if done s then 1 else unhandledCount (graph s) + 2.

Lemma runBatch_done ins b s :
  done (fst (runBatch ins b s)) = done s.
Proof.
  assert (H : preserves (fun s' => done s' = done s) (runBatch ins b)).
  { unfold runBatch. apply preserves_bind.
    - apply preserves_mapM. intros kv _. unfold invoke.
      apply preserves_bind.
      + destruct (isJoinTableInsertion kv.2); [apply preserves_ret|].
        apply onlyHeap_preserves; [apply onlyHeap_omitUids|].
        intros s1 s2 (_ & H & _) H1. congruence.
      + intros uids. apply preserves_bind; [apply preserves_get|].
        intros s1. apply preserves_bind; [apply preserves_lift|].
        intros rows. apply preserves_bind; [|intros; apply preserves_ret].
        apply preserves_modify. auto.
    - intros started. apply preserves_bind.
      + apply preserves_forEach. intros tu _.
        apply onlyHeap_preserves; [apply onlyHeap_settle|].
        intros s1 s2 (_ & H & _) H1. congruence.
      + intros _. apply preserves_modify. auto. }
  now apply H.
Qed.

Lemma execute_enough_fuel ins :
  inserterKeepsUids ins ->
  forall fuel s,
    (done s = false ->
       uidsConsistent (heap_ s) (graph s) /\ distinctModels (graph s) /\
       resolversKeepUids (graph s)) ->
    fuelNeeded s <= fuel ->
    ~ outOfFuel (snd (_executeNextBatch fuel ins s)).
Proof.
  intros HI. induction fuel as [|fuel IH]; intros s Hinv Hfuel.
  - unfold fuelNeeded in Hfuel. destruct (done s); lia.
  - destruct (done s) eqn:Hdone.
    + rewrite executeNextBatch_done by auto. apply noFuel_finalize.
    + destruct (Hinv eq_refl) as (Hu & Hd & HR).
      unfold fuelNeeded in Hfuel. rewrite Hdone in Hfuel.
      simpl. unfold mbind at 1.
      assert (Hcase : _createBatch (graph s) = [] \/
                      _createBatch (graph s) <> []).
      { destruct (_createBatch (graph s)); [now left | now right]. }
      destruct Hcase as [Eb|Hne].
      * destruct (nextBatch_joinRows s Hdone Eb) as [_ Hdone1].
        pose proof (noFuel_nextBatch s) as Hnf.
        destruct (_nextBatch s) as [s1 [[jb|]|e]]; simpl in *; auto.
        -- unfold mbind at 1.
           pose proof (runBatch_done ins jb s1) as Hd2.
           pose proof (noFuel_runBatch ins jb s1) as Hnf2.
           destruct (runBatch ins jb s1) as [s2 [[]|e]]; simpl in *; auto.
           apply IH; [congruence|].
           unfold fuelNeeded. rewrite Hd2, Hdone1. lia.
        -- apply noFuel_finalize.
      * destruct (entity_round ins s Hdone Hu Hd HR HI Hne)
          as (g' & Hnb & HM & Hd' & HR' & Hrun).
        rewrite Hnb. unfold mbind at 1.
        destruct (runBatch ins (_createBatch (graph s)) (withGraph s g'))
          as [s2 [[]|e]]; simpl.
        -- destruct Hrun as (Hg & Hdn & _ & _ & Hu2 & _).
           apply IH.
           ++ intros _. rewrite Hg. auto.
           ++ unfold fuelNeeded. rewrite Hdn, Hg.
              pose proof (Marked_unhandledCount _ _ _ HM) as Hcnt.
              pose proof (createBatch_nonempty _ Hne) as Hms.
              destruct (batchModels (_createBatch (graph s)));
                [congruence | simpl in Hcnt; lia].
        -- destruct Hrun as (He & _). simpl.
           destruct e; auto.
Qed.

End TerminationFacts.

Module TraceFacts.
Import JS Heap Monad Graph GraphInserter GraphSpec JSFacts MonadFacts InserterFacts MarkFacts MarkInvFacts BatchFacts RunFacts FuelFacts RoundFacts TerminationFacts.
Local Open Scope js_scope.

(** *** The order of the insertions *)

(** What relates the trace to the graph between two batches; [g0] is the
    graph the inserter started from. *)
Record TraceInv (g0 : DependencyGraph) (s : state) : Prop := {
  ti_static : map static (nodes (graph s)) = map static (nodes g0);
  ti_rounds : forall c, In c (calls s) -> call_round c < rounds s;
  ti_handled : forall j n0 n,
    nodes g0 !! j = Some n0 -> nodes (graph s) !! j = Some n ->
    handled n = true ->
    handled n0 = true \/ insertedBefore (calls s) (rounds s) (model n);
  ti_logged : forall c a,
    In c (calls s) -> entityCall c = true ->
    In a (models (call_insertion c)) ->
    exists j n, nodes (graph s) !! j = Some n /\ model n = a /\
                handled n = true;
  ti_needs : needsInsertedFirst g0 (calls s);
  ti_once : insertedOnce (calls s)
}.

Definition traceOk (g0 : DependencyGraph) (cs : list InsertCall) : Prop :=
  needsInsertedFirst g0 cs /\ insertedOnce cs.

Lemma insertedBefore_mono cs cs' k k' a :
  insertedBefore cs k a -> incl cs cs' -> k <= k' ->
  insertedBefore cs' k' a.
Proof.
  intros (c & Hc & He & Hr & Ha) Hincl Hk. exists c.
  repeat split; auto. lia.
Qed.

Lemma filter_length_all {A} (p : A -> bool) l :
  length (List.filter p l) = length l -> forall x, In x l -> p x = true.
Proof.
  induction l as [|y l IH]; simpl; intros H x Hx; [destruct Hx|].
  pose proof (List.filter_length_le p l) as Hle.
  destruct (p y) eqn:Ey; simpl in H.
  - destruct Hx as [<-|Hx]; auto.
  - lia.
Qed.

(** The needs of an eligible node are handled. *)
Lemma eligible_needs_handled g i n d :
  countsConsistent g -> nodes g !! i = Some n -> eligible n = true ->
  In d (needs n) ->
  exists nd, nodes g !! dep_node d = Some nd /\ handled nd = true.
Proof.
  intros Hc Hi He Hd.
  pose proof (Hc i n Hi (eligible_unhandled n He)) as Hcount.
  rewrite (eligible_counts n He) in Hcount. unfold handledNeeds in Hcount.
  pose proof (filter_length_all _ _ (eq_sym Hcount) d Hd) as Hh.
  unfold isHandled in Hh.
  destruct (nodes g !! dep_node d) as [nd|]; [eauto | discriminate].
Qed.

(** The calls logged for a part of a batch of entity rows. *)
Lemma calls_of_entries g r es cs :
  Forall (entityEntry g) es -> Forall2 (callOf r) es cs ->
  List.filter entityCall cs = cs /\
  flat_map (fun c => models (call_insertion c)) cs = batchModels es /\
  (forall c, In c cs -> call_round c = r /\ entityCall c = true /\
     exists kv, In kv es /\ call_insertion c = snd kv).
Proof.
  intros He Hf. induction Hf as [|kv c es cs [Hr Hc] Hf IH]; simpl.
  - repeat split; auto; contradiction.
  - inversion He as [|? ? (Hj & _) He']; subst.
    destruct (IH He') as (IH1 & IH2 & IH3).
    assert (Hec : entityCall c = true).
    { unfold entityCall. rewrite Hc, Hj. reflexivity. }
    rewrite Hec, IH1, IH2, Hc. split; [reflexivity|]. split; [reflexivity|].
    intros c' [<-|Hc'].
    + split; [auto|]. split; [auto|]. exists kv. split; [now left | auto].
    + destruct (IH3 c' Hc') as (? & ? & kv' & ? & ?).
      split; [auto|]. split; [auto|]. exists kv'. split; [now right | auto].
Qed.

Lemma batchModels_app b1 b2 :
  batchModels (b1 ++ b2) = batchModels b1 ++ batchModels b2.
Proof.
  unfold batchModels, Lodash.flatMap. now rewrite map_app, concat_app.
Qed.

Lemma in_batchModels b a :
  In a (batchModels b) <-> exists kv, In kv b /\ In a (models (snd kv)).
Proof.
  unfold batchModels, Lodash.flatMap. rewrite in_concat. split.
  - intros (l & Hl & Ha). apply in_map_iff in Hl as (kv & <- & Hkv). eauto.
  - intros (kv & Hkv & Ha). exists (models kv.2). split; auto.
    apply in_map_iff. exists kv. auto.
Qed.

(** The node of a model of the batch. *)
Lemma batch_model_node g g0 j n0 a :
  distinctModels g -> map static (nodes g) = map static (nodes g0) ->
  nodes g0 !! j = Some n0 -> model n0 = a ->
  In a (batchModels (_createBatch g)) ->
  exists n, nodes g !! j = Some n /\ static n = static n0 /\
            eligible n = true.
Proof.
  intros Hd Hs Hj Hm Ha.
  apply createBatch_In in Ha as (i & n & Hi & Hmn & He).
  destruct (static_lookup_ex _ _ j n0 Hs Hj) as (n' & Hn' & E).
  assert (i = j).
  { eapply distinctModels_inj; eauto.
    apply static_fields in E as (_ & E & _). congruence. }
  subst i. rewrite Hi in Hn'. injection Hn' as <-. eauto.
Qed.

(** Logging the calls of (a part of) the next batch keeps the trace in
    order. *)
Lemma traceOk_extend g0 s es cs :
  TraceInv g0 s -> countsConsistent (graph s) -> distinctModels (graph s) ->
  es `prefix_of` _createBatch (graph s) ->
  Forall2 (callOf (rounds s)) es cs ->
  traceOk g0 (calls s ++ cs).
Proof.
  intros HT Hcnt Hd [rest Hb] Hf.
  pose proof (createBatch_entries (graph s)) as Hent. rewrite Hb in Hent.
  apply Forall_app in Hent as [Hent _].
  destruct (calls_of_entries _ _ _ _ Hent Hf) as (Hfilt & Hflat & Hcs).
  assert (Hsub : forall a, In a (batchModels es) ->
                   In a (batchModels (_createBatch (graph s)))).
  { intros a Ha. rewrite Hb, batchModels_app. apply in_or_app. now left. }
  split.
  - intros c j n d Hc He Hj Hm Hdn.
    apply in_app_or in Hc as [Hc|Hc].
    + destruct (ti_needs _ _ HT c j n d Hc He Hj Hm Hdn) as (nd & Hnd & H).
      exists nd. split; auto. destruct H as [H|H]; [now left|right].
      eapply insertedBefore_mono; eauto. apply incl_appl, incl_refl.
    + destruct (Hcs c Hc) as (Hr & _ & kv & Hkv & Hins).
      assert (Ha : In (model n) (batchModels (_createBatch (graph s)))).
      { apply Hsub, in_batchModels. exists kv. split; auto. congruence. }
      destruct (batch_model_node _ _ _ _ _ Hd (ti_static _ _ HT) Hj eq_refl Ha)
        as (n' & Hn' & E & Hel).
      apply static_fields in E as (_ & _ & _ & En & _).
      rewrite <- En in Hdn.
      destruct (eligible_needs_handled _ _ _ _ Hcnt Hn' Hel Hdn)
        as (nd' & Hnd' & Hh).
      destruct (static_lookup_ex _ _ _ nd' (eq_sym (ti_static _ _ HT)) Hnd')
        as (nd0 & Hnd0 & E0).
      exists nd0. split; auto.
      destruct (ti_handled _ _ HT _ nd0 nd' Hnd0 Hnd' Hh) as [H|H];
        [now left | right].
      apply static_fields in E0 as (_ & -> & _). rewrite Hr.
      eapply insertedBefore_mono; eauto. apply incl_appl, incl_refl.
  - unfold insertedOnce. rewrite List.filter_app, flat_map_app, Hfilt, Hflat.
    apply NoDup_app. split; [apply (ti_once _ _ HT)|]. split.
    + intros a Ha Ha'. apply list_elem_of_In in Ha, Ha'.
      apply in_flat_map in Ha as (c & Hc & Hac).
      apply filter_In in Hc as [Hc Hec].
      destruct (ti_logged _ _ HT c a Hc Hec Hac) as (j & n & Hj & Hm & Hh).
      apply Hsub, createBatch_In in Ha' as (i & n' & Hi & Hm' & He).
      assert (i = j) by (eapply distinctModels_inj; eauto; congruence).
      subst i. rewrite Hi in Hj. injection Hj as <-.
      apply eligible_unhandled in He. congruence.
    + pose proof (createBatch_NoDup _ Hd) as Hnd.
      rewrite Hb, batchModels_app in Hnd. now apply NoDup_app in Hnd.
Qed.

End TraceFacts.

Module RoundTraceFacts.
Import JS Heap Monad Graph GraphInserter GraphSpec JSFacts MonadFacts InserterFacts MarkFacts MarkInvFacts BatchFacts RunFacts FuelFacts RoundFacts TerminationFacts TraceFacts.
Local Open Scope js_scope.

(** After a whole batch the invariant holds again. *)
Lemma TraceInv_round g0 s g' s2 cs :
  TraceInv g0 s -> countsConsistent (graph s) -> distinctModels (graph s) ->
  Marked (graph s) (batchModels (_createBatch (graph s))) g' ->
  graph s2 = g' -> rounds s2 = S (rounds s) ->
  calls s2 = calls s ++ cs ->
  Forall2 (callOf (rounds s)) (_createBatch (graph s)) cs ->
  TraceInv g0 s2.
Proof.
  intros HT Hcnt Hd HM Hg Hr Hc Hf.
  destruct (traceOk_extend g0 s _ cs HT Hcnt Hd (reflexivity _) Hf)
    as [Hneeds Honce].
  destruct (calls_of_entries _ _ _ _ (createBatch_entries (graph s)) Hf)
    as (Hfilt & Hflat & Hcs).
  assert (Hst : map static (nodes g') = map static (nodes g0)).
  { rewrite (mk_static _ _ _ HM). apply HT. }
  split; rewrite ?Hg, ?Hr, ?Hc; auto.
  - intros c Hin. apply in_app_or in Hin as [Hin|Hin].
    + pose proof (ti_rounds _ _ HT c Hin). lia.
    + destruct (Hcs c Hin) as (-> & _). lia.
  - intros j n0 n Hj0 Hj Hh.
    destruct (static_lookup_ex _ _ j n0 (ti_static _ _ HT) Hj0)
      as (n1 & Hn1 & E1).
    assert (Em : model n = model n1).
    { pose proof (static_lookup _ _ j n1 n (mk_static _ _ _ HM) Hn1 Hj) as E.
      now apply static_fields in E as (_ & E & _). }
    destruct (proj1 (mk_handled _ _ _ HM j n1 n Hn1 Hj) Hh) as [Hh1|Hh1].
    + destruct (ti_handled _ _ HT j n0 n1 Hj0 Hn1 Hh1) as [H|H];
        [now left | right].
      rewrite Em. eapply insertedBefore_mono; eauto.
      apply incl_appl, incl_refl.
    + right. rewrite Em.
      apply in_batchModels in Hh1 as (kv & Hkv & Ha).
      assert (Hex : exists c, In c cs /\ call_insertion c = snd kv).
      { clear -Hf Hkv. induction Hf as [|kv' c es cs' [_ Hc] Hf IH];
          [destruct Hkv|].
        destruct Hkv as [->|Hkv].
        - exists c. split; [now left | auto].
        - destruct (IH Hkv) as (c' & ? & ?). exists c'. split; auto.
          now right. }
      destruct Hex as (c & Hin & Hins).
      destruct (Hcs c Hin) as (Hrc & Hec & _).
      exists c. split; [apply in_or_app; now right|].
      split; auto. split; [lia|]. now rewrite Hins.
  - intros c a Hin Hec Ha.
    apply in_app_or in Hin as [Hin|Hin].
    + destruct (ti_logged _ _ HT c a Hin Hec Ha) as (j & n & Hj & Hm & Hh).
      destruct (static_lookup_ex _ _ j n (mk_static _ _ _ HM) Hj)
        as (n' & Hn' & E).
      exists j, n'. split; auto.
      apply static_fields in E as (_ & E & _). split; [congruence|].
      apply (mk_handled _ _ _ HM j n n' Hj Hn'). now left.
    + destruct (Hcs c Hin) as (_ & _ & kv & Hkv & Hins).
      assert (Hb : In a (batchModels (_createBatch (graph s)))).
      { apply in_batchModels. exists kv. split; auto. congruence. }
      apply createBatch_In in Hb as (j & n & Hj & Hm & He).
      destruct (static_lookup_ex _ _ j n (mk_static _ _ _ HM) Hj)
        as (n' & Hn' & E).
      exists j, n'. split; auto.
      apply static_fields in E as (_ & E & _). split; [congruence|].
      apply (mk_handled _ _ _ HM j n n' Hj Hn'). right. rewrite Hm.
      apply createBatch_In. eauto.
Qed.

End RoundTraceFacts.

Module ExecuteFacts.
Import JS Heap Monad Graph GraphInserter GraphSpec JSFacts MonadFacts InserterFacts MarkFacts MarkInvFacts BatchFacts RunFacts FuelFacts RoundFacts TerminationFacts TraceFacts RoundTraceFacts.
Local Open Scope js_scope.

(** *** The batch of join rows *)

Definition allJoin (b : batch) : Prop :=
  Forall (fun kv => isJoinTableInsertion (snd kv) = true) b.

Lemma allJoin_batchSet b k ti :
  allJoin b -> isJoinTableInsertion ti = true -> allJoin (batchSet b k ti).
Proof.
  intros Hb Hti. unfold allJoin in *. rewrite List.Forall_forall in *.
  intros [k' ti'] Hin. apply batchSet_In in Hin as [Heq|Hin]; auto.
  now injection Heq as -> ->.
Qed.

Lemma addJoinRow_allJoin node b conn s s' b' :
  allJoin b -> addJoinRow node b conn s = (s', Ok b') -> allJoin b'.
Proof.
  intros Hb H. unfold addJoinRow in H.
  repeat match goal with
         | H : mbind _ _ _ = (_, Ok _) |- _ =>
             apply mbind_Ok in H as (? & ? & _ & H)
         end.
  destruct (batchGet b (tableKey (joinTable (conn_relation conn))))
    as [ti|] eqn:Eg; injection H as _ <-.
  - apply allJoin_batchSet; auto. simpl.
    apply batchGet_In in Eg. unfold allJoin in Hb.
    rewrite List.Forall_forall in Hb. apply (Hb _ Eg).
  - apply allJoin_batchSet; auto.
Qed.

Lemma foldM_Ok_inv {S A B} (I : A -> Prop) (body : A -> B -> M S A) l :
  (forall acc x s s' acc', I acc -> body acc x s = (s', Ok acc') -> I acc') ->
  forall acc s s' acc',
    I acc -> foldM body l acc s = (s', Ok acc') -> I acc'.
Proof.
  intros Hb. induction l as [|x l IH]; intros acc s s' acc' HI H; simpl in H.
  - now injection H as _ <-.
  - apply mbind_Ok in H as (s1 & acc1 & H1 & H). eauto.
Qed.

Lemma dedupInsertion_join h ti ti' :
  dedupInsertion h ti = Ok ti' ->
  isJoinTableInsertion ti' = isJoinTableInsertion ti.
Proof.
  unfold dedupInsertion. destruct (models ti); [now intros [= <-]|].
  intros H. apply bind_Ok in H as (objs & _ & H).
  apply bind_Ok in H as (pks & _ & H). now injection H as <-.
Qed.

Lemma dedupAll_allJoin h (b : batch) : forall acc r,
  allJoin b ->
  (forall b0, acc = Ok b0 -> allJoin b0) ->
  fold_left
    (fun acc kv =>
       bind acc (fun b' =>
       bind (dedupInsertion h (snd kv)) (fun ti =>
         Ok (batchSet b' (fst kv) ti))))
    b acc = Ok r ->
  allJoin r.
Proof.
  induction b as [|kv b IH]; intros acc r Hb Hacc H; simpl in H; auto.
  inversion Hb as [|? ? Hkv Hb']; subst.
  apply (IH _ r Hb') in H; auto.
  intros b0 E. apply bind_Ok in E as (b1 & -> & E).
  apply bind_Ok in E as (ti & Hti & E). injection E as <-.
  apply allJoin_batchSet; auto.
  now rewrite (dedupInsertion_join _ _ _ Hti).
Qed.

Lemma joinRowBatch_allJoin s s' jb :
  _createManyToManyRelationJoinRowBatch s = (s', Ok jb) -> allJoin jb.
Proof.
  unfold _createManyToManyRelationJoinRowBatch. intros H.
  apply mbind_Ok in H as (s1 & s0 & _ & H).
  apply mbind_Ok in H as (s2 & b & Hb & H).
  apply mbind_Ok in H as (s3 & s4 & _ & H).
  apply lift_Ok in H as [_ H].
  assert (Hjb : allJoin b).
  { revert Hb. apply (foldM_Ok_inv allJoin); [|constructor].
    intros acc node t t' acc' Hacc.
    apply (foldM_Ok_inv allJoin); auto.
    intros acc1 conn u u' acc2. apply addJoinRow_allJoin. }
  eapply dedupAll_allJoin; eauto. now intros b0 [= <-].
Qed.

Lemma traceOk_join g0 cs0 cs :
  traceOk g0 cs0 -> Forall (fun c => entityCall c = false) cs ->
  traceOk g0 (cs0 ++ cs).
Proof.
  intros [Hn Ho] Hj. rewrite List.Forall_forall in Hj. split.
  - intros c j n d Hc He Hjn Hm Hd.
    apply in_app_or in Hc as [Hc|Hc]; [|rewrite (Hj c Hc) in He; discriminate].
    destruct (Hn c j n d Hc He Hjn Hm Hd) as (nd & Hnd & H).
    exists nd. split; auto. destruct H as [H|H]; [now left | right].
    eapply insertedBefore_mono; eauto. apply incl_appl, incl_refl.
  - unfold insertedOnce in *. rewrite List.filter_app.
    assert (E : List.filter entityCall cs = []).
    { clear -Hj. induction cs as [|c cs IH]; simpl; auto.
      rewrite (Hj c (or_introl eq_refl)). apply IH.
      intros x Hx. apply Hj. now right. }
    now rewrite E, app_nil_r.
Qed.

Lemma join_calls r (jb es : batch) cs :
  allJoin jb -> es `prefix_of` jb -> Forall2 (callOf r) es cs ->
  Forall (fun c => entityCall c = false) cs.
Proof.
  intros Hjb [rest ->] Hf. apply Forall_app in Hjb as [Hes _].
  induction Hf as [|kv c es cs [_ Hc] Hf IH]; constructor.
  - inversion Hes; subst. unfold entityCall. rewrite Hc.
    match goal with H : isJoinTableInsertion _ = true |- _ => now rewrite H end.
  - apply IH. now inversion Hes.
Qed.

(** *** The whole run *)

Lemma execute_trace ins g0 :
  inserterKeepsUids ins ->
  forall fuel s,
    (done s = false ->
       uidsConsistent (heap_ s) (graph s) /\ distinctModels (graph s) /\
       resolversKeepUids (graph s) /\ edgesReversed (graph s) /\
       countsConsistent (graph s) /\ TraceInv g0 s) ->
    (done s = true -> traceOk g0 (calls s)) ->
    traceOk g0 (calls (fst (_executeNextBatch fuel ins s))).
Proof.
  intros HI. induction fuel as [|fuel IH]; intros s Hinv Hfin.
  - simpl. destruct (done s) eqn:Hdone; auto.
    destruct (Hinv eq_refl) as (_ & _ & _ & _ & _ & HT).
    split; apply HT.
  - destruct (done s) eqn:Hdone.
    + rewrite executeNextBatch_done by auto.
      pose proof (onlyHeap_finalize s s (sameFields_refl s)) as (_&_&_&_&E).
      rewrite E. auto.
    + destruct (Hinv eq_refl) as (Hu & Hd & HR & He & Hc & HT).
      assert (Hok : traceOk g0 (calls s)) by (split; apply HT).
      simpl. unfold mbind at 1.
      assert (Hcase : _createBatch (graph s) = [] \/
                      _createBatch (graph s) <> []).
      { destruct (_createBatch (graph s)); [now left | now right]. }
      destruct Hcase as [Eb|Hne].
      * destruct (nextBatch_joinRows s Hdone Eb) as [Enb Hdone1].
        pose proof (onlyHeap_joinRowBatch (withDone s) (withDone s)
                      (sameFields_refl _)) as (_ & _ & Hg1 & Hr1 & Hc1).
        pose proof (joinRowBatch_allJoin (withDone s)) as Hjoin.
        rewrite Enb in *.
        destruct (_createManyToManyRelationJoinRowBatch (withDone s))
          as [s1 [jb|e]]; simpl in *; [|now rewrite Hc1].
        specialize (Hjoin s1 jb eq_refl).
        assert (HR1 : resolversKeepUids (graph s1)) by now rewrite Hg1.
        pose proof (runBatch_hoare ins jb s1 HI HR1 s1 eq_refl) as Hrun.
        unfold mbind at 1.
        destruct (runBatch ins jb s1) as [s2 [[]|e]]; simpl.
        -- destruct Hrun as (_ & Hdn & _ & _ & _ & cs & Hcs & Hf).
           apply IH; [congruence|]. intros _. rewrite Hcs, Hc1.
           apply traceOk_join; auto.
           eapply join_calls; eauto.
        -- destruct Hrun as (_ & _ & _ & _ & es & cs & Hes & Hcs & Hf).
           rewrite Hcs, Hc1. apply traceOk_join; auto.
           eapply join_calls; eauto.
      * destruct (entity_round ins s Hdone Hu Hd HR HI Hne)
          as (g' & Hnb & HM & Hd' & HR' & Hrun).
        rewrite Hnb. unfold mbind at 1.
        destruct (runBatch ins (_createBatch (graph s)) (withGraph s g'))
          as [s2 [[]|e]]; simpl.
        -- destruct Hrun as (Hg & Hdn & _ & Hr & Hu2 & cs & Hcs & Hf).
           apply IH; [|congruence]. intros _. rewrite Hg.
           split; [exact Hu2|]. split; [exact Hd'|]. split; [exact HR'|].
           split; [now apply (mk_edges _ _ _ HM)|].
           split; [now apply (mk_counts _ _ _ HM)|].
           eapply TraceInv_round; eauto.
        -- destruct Hrun as (_ & _ & _ & es & cs & Hes & Hcs & Hf).
           rewrite Hcs. eapply traceOk_extend; eauto.
Qed.

End ExecuteFacts.

Module TreeFacts.
Import JS Heap Monad Graph JSString RelationJoinBuilder JSFacts MonadFacts.
Local Open Scope js_scope.

(** *** The identifier getters *)

(** The values of the identifier columns in a row. *)
Definition idValues (idCols : list string) (row : Row) : list prim :=
  map (rowGet row) idCols.

(** What every getter computes: [null] when a value is falsy, and
    otherwise the values after ['id:'], separated by commas. *)
Definition identifier (vals : list prim) : prim :=
  if forallb truthy_prim vals
  then PStr ("id:" +:+ String.concat "," (map ToString vals))
  else PNull.

(** [createIdGetter] by the number of columns. *)
Definition getterFor (idCols : list string) : Row -> prim :=
  match length idCols with
  | 1 => createSingleIdGetter idCols
  | 2 => createTwoIdGetter idCols
  | 3 => createThreeIdGetter idCols
  | _ => createNIdGetter idCols
  end.

(** The values from the second on, each after a comma. *)
Definition commaEach (vals : list prim) : string :=
  String.concat "" (map (fun v => "," +:+ ToString v) vals).

Lemma concat_empty_cons x xs :
  String.concat "" (x :: xs) = x +:+ String.concat "" xs.
Proof.
  destruct xs as [|y xs]; simpl; [now rewrite append_nil_r | reflexivity].
Qed.

Lemma concat_comma v vals :
  String.concat "," (map ToString (v :: vals)) = ToString v +:+ commaEach vals.
Proof.
  revert v. induction vals as [|w vals IH]; intros v.
  - simpl. now rewrite append_nil_r.
  - change (String.concat "," (map ToString (v :: w :: vals)))
      with (ToString v +:+ "," +:+ String.concat "," (map ToString (w :: vals))).
    rewrite IH. unfold commaEach. simpl map.
    rewrite concat_empty_cons. now rewrite append_assoc.
Qed.

Lemma nIdLoop_later idCols row : forall i id,
  0 < i ->
  nIdLoop idCols row i id =
  if forallb truthy_prim (idValues idCols row)
  then PStr (id +:+ commaEach (idValues idCols row))
  else PNull.
Proof.
  induction idCols as [|c idCols IH]; intros i id Hi; simpl.
  - now rewrite append_nil_r.
  - destruct (truthy_prim (rowGet row c)); simpl; [|reflexivity].
    rewrite IH by lia.
    destruct (forallb truthy_prim (idValues idCols row)); [|reflexivity].
    destruct i; [lia|]. simpl Nat.ltb. cbv iota.
    unfold commaEach. simpl map. rewrite concat_empty_cons.
    now rewrite !append_assoc.
Qed.

Lemma createNIdGetter_spec idCols row :
  createNIdGetter idCols row = identifier (idValues idCols row).
Proof.
  unfold createNIdGetter, identifier. destruct idCols as [|c idCols].
  - reflexivity.
  - simpl nIdLoop. simpl forallb.
    destruct (truthy_prim (rowGet row c)); simpl; [|reflexivity].
    rewrite nIdLoop_later by lia. fold (idValues idCols row).
    destruct (forallb truthy_prim (idValues idCols row)); [|reflexivity].
    pose proof (concat_comma (rowGet row c) (idValues idCols row)) as E.
    simpl in E. rewrite E. now rewrite !append_assoc.
Qed.

(** The four getters compute the same identifier. *)
Lemma getterFor_spec idCols row :
  getterFor idCols row = identifier (idValues idCols row).
Proof.
  unfold getterFor.
  destruct idCols as [|c1 [|c2 [|c3 [|c4 idCols]]]];
    try apply createNIdGetter_spec.
  - unfold createSingleIdGetter, identifier. simpl.
    destruct (truthy_prim (rowGet row c1)); simpl; [|reflexivity].
    reflexivity.
  - unfold createTwoIdGetter, identifier. simpl.
    destruct (truthy_prim (rowGet row c1)), (truthy_prim (rowGet row c2));
      reflexivity.
  - unfold createThreeIdGetter, identifier. simpl.
    destruct (truthy_prim (rowGet row c1)), (truthy_prim (rowGet row c2)),
             (truthy_prim (rowGet row c3)); reflexivity.
Qed.

Lemma createIdGetter_spec sep modelClass path row :
  createIdGetter sep modelClass path row =
  identifier (idValues (map (joinPath sep path) (idColumn modelClass)) row).
Proof. apply (getterFor_spec (map (joinPath sep path) (idColumn modelClass))). Qed.

Lemma identifier_absent vals :
  truthy_prim (identifier vals) = false <-> Exists (fun v => truthy_prim v = false) vals.
Proof.
  unfold identifier. split.
  - destruct (forallb truthy_prim vals) eqn:E; [discriminate|]. intros _.
    induction vals as [|v vals IH]; [discriminate|]. simpl in E.
    destruct (truthy_prim v) eqn:Ev; [right; auto | left; auto].
  - intros H. assert (E : forallb truthy_prim vals = false).
    { induction H as [v vals Hv|v vals _ IH]; simpl.
      - now rewrite Hv.
      - rewrite IH. apply andb_false_r. }
    now rewrite E.
Qed.

(** *** Paths skipped *)

Lemma rowStep_skip keyInfo i row pInfo s :
  truthy_prim (idGetter pInfo row) = false ->
  rowStep keyInfo i row pInfo s = (s, Ok tt).
Proof. intros H. unfold rowStep. now rewrite H. Qed.

Lemma rowSteps_skip keyInfo i row pathInfos s :
  Forall (fun pInfo => truthy_prim (idGetter pInfo row) = false) pathInfos ->
  forEach pathInfos (rowStep keyInfo i row) s = (s, Ok tt).
Proof.
  induction 1 as [|pInfo l Hp Hl IH]; simpl; [reflexivity|].
  unfold mbind. now rewrite rowStep_skip.
Qed.

(** *** What the loop never changes

    Every write of the loop is to a property that was just read falsy, and
    what is written is an object: a truthy property keeps its value. *)
Definition keeps (h h' : list cell) : Prop :=
  forall x k val, readProp h x k = Ok val -> truthy val = true ->
    readProp h' x k = Ok val.

Lemma keeps_refl h : keeps h h.
Proof. intros x k val H _. exact H. Qed.

Lemma keeps_trans h1 h2 h3 : keeps h1 h2 -> keeps h2 h3 -> keeps h1 h3.
Proof. intros H1 H2 x k val H Ht. apply H2; auto. Qed.

Lemma readProp_alloc h c x k val :
  readProp h x k = Ok val -> readProp (h ++ [c]) x k = Ok val.
Proof.
  unfold readProp. destruct x as [[]| |a]; auto.
  destruct (h !! a) as [cell|] eqn:E; [|discriminate].
  now rewrite (lookup_app_l_Some _ _ _ _ E).
Qed.

Lemma keeps_alloc h c : keeps h (h ++ [c]).
Proof. intros x k val H _. now apply readProp_alloc. Qed.

Lemma readProp_write_eq h x k v h' :
  writeProp h x k v = Ok h' -> readProp h' x k = Ok v.
Proof.
  unfold writeProp, readProp. destruct x as [p| |a]; try discriminate.
  destruct (h !! a) as [[c o|]|] eqn:E; try discriminate.
  intros [= <-].
  rewrite list_lookup_insert_eq by (eapply lookup_lt_Some; eauto).
  now rewrite getProp_setProp_eq.
Qed.

Lemma readProp_write_ne h x k v h' y k' :
  writeProp h x k v = Ok h' -> (y <> x \/ k' <> k) ->
  readProp h' y k' = readProp h y k'.
Proof.
  unfold writeProp, readProp. destruct x as [p| |a]; try discriminate.
  destruct (h !! a) as [[c o|]|] eqn:E; try discriminate.
  intros [= <-] Hne. destruct y as [q| |b]; auto.
  destruct (decide (b = a)) as [->|Hb].
  - rewrite list_lookup_insert_eq by (eapply lookup_lt_Some; eauto).
    rewrite E. destruct Hne as [Hne|Hne]; [congruence|].
    now rewrite getProp_setProp_ne by congruence.
  - now rewrite list_lookup_insert_ne by congruence.
Qed.

(** A write to a property that is falsy. *)
Lemma keeps_write h x k v h' old :
  readProp h x k = Ok old -> truthy old = false ->
  writeProp h x k v = Ok h' -> keeps h h'.
Proof.
  intros Hold Hf Hw y k' val Hy Ht.
  destruct x as [p| |a]; try discriminate.
  destruct y as [q| |b]; try exact Hy.
  destruct (decide (b = a)) as [->|Hb].
  - destruct (String.eqb_spec k' k) as [->|Hk].
    + rewrite Hold in Hy. injection Hy as <-. congruence.
    + rewrite (readProp_write_ne _ _ _ _ _ _ _ Hw); auto.
  - rewrite (readProp_write_ne _ _ _ _ _ _ _ Hw); auto.
    left. congruence.
Qed.

(** The model of a visit is still where the visit found or put it. *)
Definition kept (h : list cell) (v : Visit) : Prop :=
  readProp h (v_branch v) (v_key v) = Ok (v_model v) /\
  truthy (v_model v) = true.

Lemma kept_keeps h h' v : keeps h h' -> kept h v -> kept h' v.
Proof. intros Hk [H1 H2]. split; auto. Qed.

(** Of the visits of one key of one branch the first alone may create the
    model, and the later ones find that model. *)
Definition firstWins (vs : list Visit) : Prop :=
  forall i j v1 v2, i < j -> vs !! i = Some v1 -> vs !! j = Some v2 ->
    v_branch v1 = v_branch v2 -> v_key v1 = v_key v2 ->
    v_model v2 = v_model v1 /\ v_created v2 = false.

Lemma firstWins_snoc vs v :
  firstWins vs ->
  (forall v1, In v1 vs -> v_branch v1 = v_branch v -> v_key v1 = v_key v ->
     v_model v = v_model v1 /\ v_created v = false) ->
  firstWins (vs ++ [v]).
Proof.
  intros Hvs Hv i j v1 v2 Hij Hi Hj Hb Hk.
  assert (Hlen : j < length (vs ++ [v])) by (eapply lookup_lt_Some; eauto).
  rewrite length_app in Hlen. simpl in Hlen.
  rewrite lookup_app_l in Hi by lia.
  destruct (decide (j < length vs)) as [Hlt|Hge].
  - rewrite lookup_app_l in Hj by lia.
    exact (Hvs i j v1 v2 Hij Hi Hj Hb Hk).
  - replace j with (length vs + 0) in Hj by lia.
    rewrite lookup_app_r in Hj by lia.
    replace (length vs + 0 - length vs) with 0 in Hj by lia.
    injection Hj as <-. apply Hv; auto.
    apply list_elem_of_In. eapply list_elem_of_lookup_2; eauto.
Qed.

(** The invariant of the loop. *)
Definition visitsKept (s : TreeState) : Prop :=
  Forall (kept (t_heap s)) (visits s) /\ firstWins (visits s).

(** Code that keeps the truthy properties and logs no visit. *)
Definition quiet {A} (m : M TreeState A) : Prop :=
  forall s s' r, m s = (s', r) ->
    keeps (t_heap s) (t_heap s') /\ visits s' = visits s.

Lemma quiet_ret {A} (a : A) : quiet (ret a).
Proof. intros s s' r [= <- _]. split; [apply keeps_refl | reflexivity]. Qed.

Lemma quiet_throw {A} e : quiet (@throw TreeState A e).
Proof. intros s s' r [= <- _]. split; [apply keeps_refl | reflexivity]. Qed.

Lemma quiet_lift {A} (r : result A) : quiet (lift r).
Proof. intros s s' r' [= <- _]. split; [apply keeps_refl | reflexivity]. Qed.

Lemma quiet_bind {A B} (m : M TreeState A) (k : A -> M TreeState B) :
  quiet m -> (forall a, quiet (k a)) -> quiet (mbind m k).
Proof.
  intros Hm Hk s s' r. unfold mbind.
  destruct (m s) as [s1 [a|e]] eqn:E; intros H.
  - destruct (Hm _ _ _ E) as [H1 H2]. destruct (Hk a _ _ _ H) as [H3 H4].
    split; [eapply keeps_trans; eauto | congruence].
  - injection H as <- _. exact (Hm _ _ _ E).
Qed.

Lemma quiet_get_bind {B} (k : TreeState -> M TreeState B) :
  (forall s, quiet (k s)) -> quiet (mbind get k).
Proof. intros H s s' r. unfold mbind, get. apply H. Qed.

Lemma quiet_readP v k : quiet (readP v k).
Proof.
  intros s s' r. unfold readP, mbind, get, lift. intros [= <- _].
  split; [apply keeps_refl | reflexivity].
Qed.

Lemma quiet_allocT c : quiet (allocT c).
Proof.
  intros s s' r. unfold allocT. simpl. intros [= <- _]. simpl.
  split; [apply keeps_alloc | reflexivity].
Qed.

Lemma quiet_setCurBranch v : quiet (setCurBranch v).
Proof. intros s s' r [= <- _]. split; [apply keeps_refl | reflexivity]. Qed.

Lemma quiet_setStack k v : quiet (setStack k v).
Proof. intros s s' r [= <- _]. split; [apply keeps_refl | reflexivity]. Qed.

Lemma quiet_createModel row pInfo keyInfo :
  quiet (createModel row pInfo keyInfo).
Proof.
  unfold createModel. destruct (keyInfoFor keyInfo (encPath pInfo)).
  - apply quiet_allocT.
  - apply quiet_throw.
Qed.

Lemma readP_Ok v k s s' x :
  readP v k s = (s', Ok x) -> s' = s /\ readProp (t_heap s) v k = Ok x.
Proof. unfold readP, mbind, get, lift. intros [= <- H]. auto. Qed.

Lemma quiet_visitsKept {A} (m : M TreeState A) :
  quiet m -> preserves visitsKept m.
Proof.
  intros Hm s [Hk Hf]. destruct (m s) as [s' r] eqn:E.
  destruct (Hm _ _ _ E) as [H1 H2]. simpl. split.
  - rewrite H2. eapply Forall_impl; [exact Hk|].
    intros v Hv. eapply kept_keeps; eauto.
  - now rewrite H2.
Qed.

(** A write to a property read falsy in the same state. *)
Lemma writeP_falsy x k v old s s' r :
  readProp (t_heap s) x k = Ok old -> truthy old = false ->
  writeP x k v s = (s', r) ->
  keeps (t_heap s) (t_heap s') /\ visits s' = visits s.
Proof.
  intros Hold Hf. unfold writeP.
  destruct (writeProp (t_heap s) x k v) as [h'|e] eqn:Hw; intros [= <- _].
  - split; [eapply keeps_write; eauto | reflexivity].
  - split; [apply keeps_refl | reflexivity].
Qed.

Lemma enterBranch_quiet pInfo : quiet (enterBranch pInfo).
Proof.
  unfold enterBranch.
  destruct (relation pInfo) as [r|] eqn:Hr; [|apply quiet_ret].
  apply quiet_get_bind. intros s0. cbv zeta.
  generalize (getProp (stack s0) (parentKey pInfo)) as pm. intros pm.
  unfold getBranch, createBranch, relationName. rewrite Hr.
  destruct (oneToOne pInfo).
  - apply quiet_bind; [apply quiet_ret|]. intros b.
    apply quiet_bind; [|intros; apply quiet_setCurBranch].
    destruct (negb (truthy b)); apply quiet_ret.
  - intros s s' res. unfold mbind at 1 2, lift at 1.
    destruct (readP pm (name r) s) as [s1 [b|e]] eqn:Hb.
    + apply readP_Ok in Hb as [-> Hb].
      destruct (truthy b) eqn:Htb; simpl negb; cbv iota.
      * unfold mbind, ret, setCurBranch, modify. intros [= <- _].
        split; [apply keeps_refl | reflexivity].
      * unfold mbind at 1 2, allocT at 1. simpl.
        set (s1 := withTHeap s (t_heap s ++ [Obj None []])).
        unfold mbind at 1, lift at 1. unfold mbind at 1.
        destruct (writeP pm (name r) (VRef (length (t_heap s))) s1)
          as [s2 [[]|e]] eqn:Hw.
        -- unfold mbind, ret, setCurBranch, modify. intros [= <- _]. simpl.
           assert (Hb1 : readProp (t_heap s1) pm (name r) = Ok b)
             by (subst s1; now apply readProp_alloc).
           destruct (writeP_falsy _ _ _ b _ _ _ Hb1 Htb Hw) as [Hk Hv].
           split; [|exact Hv].
           eapply keeps_trans; [apply keeps_alloc | exact Hk].
        -- intros [= <- _].
           assert (Hb1 : readProp (t_heap s1) pm (name r) = Ok b)
             by (subst s1; now apply readProp_alloc).
           destruct (writeP_falsy _ _ _ b _ _ _ Hb1 Htb Hw) as [Hk Hv].
           split; [|exact Hv].
           eapply keeps_trans; [apply keeps_alloc | exact Hk].
    + intros [= <- _]. eapply quiet_readP; eauto.
Qed.

Lemma getModelFromBranch_Ok pInfo branch id s s' found :
  getModelFromBranch pInfo branch id s = (s', Ok found) ->
  s' = s /\ readProp (t_heap s) branch (branchKey pInfo id) = Ok found.
Proof.
  unfold getModelFromBranch, branchKey, relationName.
  destruct (oneToOne pInfo).
  - destruct (relation pInfo) as [r|]; unfold mbind, lift; simpl;
      [|discriminate].
    apply readP_Ok.
  - apply readP_Ok.
Qed.

Lemma getModelFromBranch_quiet pInfo branch id :
  quiet (getModelFromBranch pInfo branch id).
Proof.
  unfold getModelFromBranch. destruct (oneToOne pInfo).
  - apply quiet_bind; [apply quiet_lift | intros; apply quiet_readP].
  - apply quiet_readP.
Qed.

(** [setModelToBranch] writes the key [getModelFromBranch] reads. *)
Lemma setModelToBranch_eq pInfo branch id model s found :
  getModelFromBranch pInfo branch id s = (s, Ok found) ->
  setModelToBranch pInfo branch id model =
  writeP branch (branchKey pInfo id) model.
Proof.
  unfold getModelFromBranch, setModelToBranch, branchKey, relationName.
  destruct (oneToOne pInfo); [|reflexivity].
  destruct (relation pInfo); [reflexivity|].
  unfold mbind, lift. discriminate.
Qed.

(** The object [createModel] builds from [row]. *)
Definition modelOf (row : Row) (pInfo : PathInfo) (ks : list KeyInfo) : cell :=
  Obj (Some (pi_modelClass pInfo))
      (ModelJS.fromDatabaseJson (pi_modelClass pInfo)
         (fold_left (fun json k =>
                       setProp json (kInfo_col k)
                               (VPrim (rowGet row (kInfo_key k))))
                    ks [])).

(** What a visit of row [i] at [pInfo] is, from the state [s]. *)
Definition visitOf (i : nat) (pInfo : PathInfo) (id : string) (s : TreeState)
    (v : Visit) : Prop :=
  v_row v = i /\ v_encPath v = encPath pInfo /\
  v_oneToOne v = oneToOne pInfo /\ v_branch v = curBranch s /\
  v_id v = id /\ v_key v = branchKey pInfo id.

(** The model is found in the branch, or it is created from the row and
    stored there. *)
Definition foundOrCreated (keyInfo : list KeyInfo) (row : Row)
    (pInfo : PathInfo) (s s' : TreeState) (v : Visit) : Prop :=
  exists found,
    readProp (t_heap s) (v_branch v) (v_key v) = Ok found /\
    if truthy found
    then v_model v = found /\ v_created v = false /\ t_heap s' = t_heap s
    else v_created v = true /\ v_model v = VRef (length (t_heap s)) /\
         exists ks b c o,
           keyInfoFor keyInfo (encPath pInfo) = Some ks /\
           v_branch v = VRef b /\ t_heap s !! b = Some (Obj c o) /\
           t_heap s' =
             <[b := Obj c (setProp o (v_key v) (VRef (length (t_heap s))))]>
               (t_heap s ++ [modelOf row pInfo ks]).

Lemma findOrCreate_effect keyInfo i row pInfo id s s' r :
  findOrCreate keyInfo i row pInfo id s = (s', r) ->
  keeps (t_heap s) (t_heap s') /\
  match r with
  | Ok _ =>
      exists v, visits s' = visits s ++ [v] /\ kept (t_heap s') v /\
                visitOf i pInfo id s v /\
                foundOrCreated keyInfo row pInfo s s' v /\
                stack s' = setProp (stack s) (encPath pInfo) (v_model v) /\
                curBranch s' = curBranch s
  | Err _ => visits s' = visits s
  end.
Proof.
  unfold findOrCreate, mbind at 1, get. cbv beta iota zeta.
  unfold mbind at 1.
  destruct (getModelFromBranch pInfo (curBranch s) id s) as [s1 [found|e]]
    eqn:Hg.
  2:{ intros [= <- <-].
      destruct (getModelFromBranch_quiet _ _ _ _ _ _ Hg). auto. }
  pose proof Hg as Hg'. apply getModelFromBranch_Ok in Hg' as [-> Hread].
  destruct (truthy found) eqn:Ht; simpl negb; cbv iota.
  - (* found *)
    unfold mbind, ret, logVisit, setStack, modify. intros [= <- <-]. simpl.
    split; [apply keeps_refl|]. eexists. split; [reflexivity|].
    split; [split; simpl; auto|].
    split; [unfold visitOf; simpl; auto 10|].
    split; [|auto]. exists found. simpl. rewrite Ht. auto.
  - (* created *)
    unfold mbind at 1 2. unfold createModel.
    destruct (keyInfoFor keyInfo (encPath pInfo)) as [ks|] eqn:Hks.
    2:{ unfold throw. intros [= <- <-]. split; [apply keeps_refl | auto]. }
    unfold allocT at 1. simpl.
    fold (modelOf row pInfo ks).
    set (s1 := withTHeap s (t_heap s ++ [modelOf row pInfo ks])).
    rewrite (setModelToBranch_eq _ _ _ _ _ _ Hg).
    unfold mbind at 1.
    assert (Hread1 : readProp (t_heap s1) (curBranch s) (branchKey pInfo id)
                     = Ok found)
      by (subst s1; now apply readProp_alloc).
    destruct (writeP (curBranch s) (branchKey pInfo id)
                (VRef (length (t_heap s))) s1) as [s2 [[]|e]] eqn:Hw.
    + destruct (writeP_falsy _ _ _ _ _ _ _ Hread1 Ht Hw) as [Hk Hv].
      unfold mbind, ret, logVisit, setStack, modify. intros [= <- <-]. simpl.
      split; [eapply keeps_trans; [apply keeps_alloc | exact Hk]|].
      unfold writeP in Hw.
      destruct (writeProp (t_heap s1) (curBranch s) (branchKey pInfo id)
                  (VRef (length (t_heap s)))) as [h2|] eqn:Hw2;
        [|discriminate].
      injection Hw as <-. simpl in *.
      eexists. split; [reflexivity|].
      split; [split; simpl; [eapply readProp_write_eq; eauto | reflexivity]|].
      split; [unfold visitOf; simpl; auto 10|]. split; [|auto].
      exists found. simpl. rewrite Ht.
      split; [exact Hread|]. split; [reflexivity|]. split; [reflexivity|].
      unfold writeProp in Hw2.
      destruct (curBranch s) as [q| |a]; try discriminate.
      unfold readProp in Hread.
      destruct (t_heap s !! a) as [[c o|]|] eqn:Ea; try discriminate.
      rewrite (lookup_app_l_Some _ _ _ _ Ea) in Hw2. injection Hw2 as <-.
      exists ks, a, c, o. auto.
    + destruct (writeP_falsy _ _ _ _ _ _ _ Hread1 Ht Hw) as [Hk Hv].
      intros [= <- <-].
      split; [eapply keeps_trans; [apply keeps_alloc | exact Hk] | exact Hv].
Qed.

(** One path of one row. *)
Lemma rowStep_visitsKept keyInfo i row pInfo :
  preserves visitsKept (rowStep keyInfo i row pInfo).
Proof.
  unfold rowStep.
  destruct (negb (truthy_prim (idGetter pInfo row))); [apply preserves_ret|].
  apply preserves_bind; [apply quiet_visitsKept, enterBranch_quiet|].
  intros _ s [Hk Hf].
  destruct (findOrCreate keyInfo i row pInfo (ToString (idGetter pInfo row)) s)
    as [s' r] eqn:E.
  destruct (findOrCreate_effect _ _ _ _ _ _ _ _ E) as [Hkeeps Hr]. simpl.
  unfold visitsKept. destruct r as [[]|e].
  - destruct Hr as (v & Hv & Hkept & Hvis & (found & Hread & Hfound) & _).
    rewrite Hv. split.
    + apply Forall_app. split; [|constructor; auto].
      eapply Forall_impl; [exact Hk|]. intros v1. now apply kept_keeps.
    + apply firstWins_snoc; auto.
      intros v1 Hv1 Hb Hkey.
      rewrite List.Forall_forall in Hk. destruct (Hk v1 Hv1) as [H1 H2].
      rewrite Hb, Hkey, Hread in H1. injection H1 as ->.
      rewrite H2 in Hfound. tauto.
  - rewrite Hr. split; auto.
    eapply Forall_impl; [exact Hk|]. intros v1. now apply kept_keeps.
Qed.

Lemma rowLoop_visitsKept keyInfo pathInfos tree ir :
  preserves visitsKept (rowLoop keyInfo pathInfos tree ir).
Proof.
  unfold rowLoop. apply preserves_bind.
  - apply quiet_visitsKept, quiet_setCurBranch.
  - intros _. apply preserves_forEach. intros pInfo _.
    apply rowStep_visitsKept.
Qed.

(** *** Induction on a PathInfo and its children *)

Section PathInfoInduction.
Variable P : PathInfo -> Prop.
Hypothesis step :
  forall p, Forall (fun c => P (snd c)) (children p) -> P p.

Fixpoint PathInfo_induction (p : PathInfo) : P p :=
  step p
    ((fix all (cs : list (string * PathInfo))
        : Forall (fun c => P (snd c)) cs :=
        match cs with
        | [] => List.Forall_nil _
        | (k, c) :: cs' =>
            List.Forall_cons _ (k, c) cs' (PathInfo_induction c) (all cs')
        end) (children p)).
End PathInfoInduction.

(** The loop of [finalizeOne] over the children. *)
Fixpoint finalizeChildren (model : value) (cs : list (string * PathInfo))
  : M TreeState unit :=
  match cs with
  | [] => ret tt
  | (relName, childPathInfo) :: cs' =>
      branch <- readP model relName ;;
      finalized <- finalizeBranch childPathInfo branch model ;;
      finalizeModels (finalizeOne childPathInfo) finalized ;;;
      finalizeChildren model cs'
  end.

Lemma finalizeOne_eq pInfo model :
  finalizeOne pInfo model =
  (logFinalized (encPath pInfo) model ;;;
   finalizeChildren model (children pInfo)).
Proof.
  destruct pInfo as [p e ep c r o cs g one]. simpl. f_equal.
  induction cs as [|[k ch] cs IH]; simpl; [reflexivity|]. now rewrite IH.
Qed.

(** Code that logs no visit. *)
Definition silent {A} (m : M TreeState A) : Prop :=
  forall s s' r, m s = (s', r) -> visits s' = visits s.

Lemma silent_ret {A} (a : A) : silent (ret a).
Proof. now intros s s' r [= <- _]. Qed.

Lemma silent_throw {A} e : silent (@throw TreeState A e).
Proof. now intros s s' r [= <- _]. Qed.

Lemma silent_lift {A} (r : result A) : silent (lift r).
Proof. now intros s s' r' [= <- _]. Qed.

Lemma silent_bind {A B} (m : M TreeState A) (k : A -> M TreeState B) :
  silent m -> (forall a, silent (k a)) -> silent (mbind m k).
Proof.
  intros Hm Hk s s' r. unfold mbind.
  destruct (m s) as [s1 [a|e]] eqn:E; intros H.
  - rewrite (Hk a _ _ _ H). exact (Hm _ _ _ E).
  - injection H as <- _. exact (Hm _ _ _ E).
Qed.

Lemma silent_get_bind {B} (k : TreeState -> M TreeState B) :
  (forall s, silent (k s)) -> silent (mbind get k).
Proof. intros H s s' r. unfold mbind, get. apply H. Qed.

Lemma silent_quiet {A} (m : M TreeState A) : quiet m -> silent m.
Proof. intros H s s' r E. apply (H _ _ _ E). Qed.

Lemma silent_writeP x k v : silent (writeP x k v).
Proof.
  intros s s' r. unfold writeP.
  destruct (writeProp (t_heap s) x k v); now intros [= <- _].
Qed.

Lemma silent_forEach {A} (l : list A) body :
  (forall x, In x l -> silent (body x)) -> silent (forEach l body).
Proof.
  induction l as [|x l IH]; intros Hb; simpl; [apply silent_ret|].
  apply silent_bind; [apply Hb; now left|].
  intros _. apply IH. intros y Hy. apply Hb. now right.
Qed.

Lemma silent_finalizeBranch pInfo branch parentModel :
  silent (finalizeBranch pInfo branch parentModel).
Proof.
  unfold finalizeBranch. destruct (oneToOne pInfo).
  - apply silent_bind; [apply silent_lift|]. intros name.
    apply silent_bind; [apply silent_writeP | intros; apply silent_ret].
  - apply silent_get_bind. intros s0.
    apply silent_bind; [apply silent_lift|]. intros relModels.
    apply silent_bind; [apply silent_quiet, quiet_allocT|]. intros arr.
    apply silent_bind; [apply silent_lift|]. intros name.
    apply silent_bind; [apply silent_writeP | intros; apply silent_ret].
Qed.

Lemma silent_finalizeModels one models :
  (forall m, silent (one m)) -> silent (finalizeModels one models).
Proof.
  intros H. unfold finalizeModels. apply silent_get_bind. intros s0.
  destruct models as [p| |a].
  - destruct (truthy (VPrim p)); [apply H | apply silent_ret].
  - simpl. apply H.
  - destruct (t_heap s0 !! a) as [[c o|elems]|]; try apply H.
    apply silent_forEach. intros m _. apply H.
Qed.

Lemma silent_finalizeOne pInfo : forall model, silent (finalizeOne pInfo model).
Proof.
  induction pInfo as [pInfo IH] using PathInfo_induction. intros model.
  rewrite finalizeOne_eq.
  apply silent_bind; [now intros s s' r [= <- _]|]. intros _.
  induction IH as [|[k ch] cs Hch _ IHcs]; simpl; [apply silent_ret|].
  apply silent_bind; [apply silent_quiet, quiet_readP|]. intros branch.
  apply silent_bind; [apply silent_finalizeBranch|]. intros finalized.
  apply silent_bind; [|intros _; exact IHcs].
  apply silent_finalizeModels. exact Hch.
Qed.

Lemma silent_finalize pInfo models : silent (finalize pInfo models).
Proof.
  unfold finalize. apply silent_bind; [|intros; apply silent_ret].
  apply silent_finalizeModels, silent_finalizeOne.
Qed.

(** The loop over the rows, then [finalize]: [rowsToTree] after
    [createKeyInfo]. *)
Lemma rowsToTree_firstWins b rows s :
  visitsKept s -> firstWins (visits (fst (rowsToTree b rows s))).
Proof.
  intros Hs. unfold rowsToTree. destruct rows as [|row0 rows]; [apply Hs|].
  set (all := row0 :: rows).
  unfold mbind at 1, lift at 1.
  destruct (createKeyInfo b all) as [keyInfo|e]; [|apply Hs].
  unfold mbind at 1.
  pose proof (quiet_visitsKept _ (quiet_allocT (Obj None [])) s Hs) as H1.
  destruct (allocT (Obj None []) s) as [s1 [tree|e]]; [|apply H1].
  simpl in H1. unfold mbind at 1, modify at 1.
  set (s2 := {| t_heap := t_heap s1; stack := []; curBranch := curBranch s1;
                visits := visits s1; finalized := finalized s1 |}).
  assert (H2 : visitsKept s2) by exact H1.
  unfold mbind at 1.
  pose proof (preserves_forEach visitsKept (indexed all)
                (rowLoop keyInfo (map snd (pathInfo b)) tree)
                (fun ir _ => rowLoop_visitsKept keyInfo _ tree ir) s2 H2) as H3.
  destruct (forEach (indexed all) (rowLoop keyInfo (map snd (pathInfo b)) tree)
              s2) as [s3 [[]|e]]; [|apply H3].
  simpl in H3. destruct H3 as [_ H3].
  destruct (map snd (pathInfo b)) as [|root rest]; [exact H3|].
  match goal with
  | |- firstWins (visits (fst (?m s3))) =>
      assert (Hsil : silent m)
  end.
  { apply silent_get_bind. intros s0.
    apply silent_bind; [apply silent_lift|]. intros roots.
    apply silent_bind; [apply silent_quiet, quiet_allocT|]. intros models.
    apply silent_bind; [apply silent_finalize | intros; apply silent_ret]. }
  match goal with
  | |- firstWins (visits (fst (?m s3))) =>
      destruct (m s3) as [s4 r] eqn:E
  end.
  simpl. now rewrite (Hsil _ _ _ E).
Qed.

End TreeFacts.

Module GraphExample.
Import JS Heap Monad Graph GraphInserter GraphSpec JSFacts MonadFacts InserterFacts MarkFacts MarkInvFacts BatchFacts RunFacts FuelFacts RoundFacts TerminationFacts TraceFacts RoundTraceFacts ExecuteFacts.
Local Open Scope js_scope.

(** *** A graph to run: a parent, its child, and two nodes on a cycle *)

(** Modelled from the spec: the resolver of a has-many edge, "writing the
    identifier into the dependent object". *)
Definition writeForeignKey (fk idProp : string) (dependent inserted : nat)
    (h : list cell) : list cell :=
  match readProp h (VRef inserted) idProp with
  | Ok v =>
      match writeProp h (VRef dependent) fk v with
      | Ok h' => h'
      | Err _ => h
      end
  | Err _ => h
  end.

Definition Parent : ModelClass := Model "parent" ["children"].
Definition Child : ModelClass := Model "child" [].

(** [{name: 'a', children: [{name: 'b'}]}], and two objects that need each
    other. *)
Definition exHeap : list cell :=
  [ Obj (Some Parent) [("name", VPrim (PStr "a")); ("children", VRef 2);
                       ("#id", VPrim (PStr "u1"))];
    Obj (Some Child) [("name", VPrim (PStr "b")); ("#id", VPrim (PStr "u2"))];
    Arr [VRef 1];
    Obj (Some Child) [("name", VPrim (PStr "c")); ("#id", VPrim (PStr "u3"))];
    Obj (Some Child) [("name", VPrim (PStr "d")); ("#id", VPrim (PStr "u4"))] ].

Definition edge (node dependentModel : nat) : Dependency :=
  {| dep_node := node;
     dep_resolve := writeForeignKey "parentId" "id" dependentModel |}.

Definition exNode (uid : string) (m : nat) (c : ModelClass)
    (ns nb : list Dependency) : DependencyNode :=
  {| id := uid; model := m; modelClass := c; needs := ns; isNeededBy := nb;
     manyToManyConnections := []; handled := false; numHandledNeeds := 0 |}.

Definition exGraph : DependencyGraph :=
  {| nodes := [ exNode "u1" 0 Parent [] [edge 1 1];
                exNode "u2" 1 Child [edge 0 1] [];
                exNode "u3" 3 Child [edge 3 3] [edge 3 4];
                exNode "u4" 4 Child [edge 2 4] [edge 2 3] ];
     nodesById := {[ "u1" := 0; "u2" := 1; "u3" := 2; "u4" := 3 ]};
     inputNodesById := {[ "u1" ]} |}.

(** An insert callback: it stores a generated identifier in each model. *)
Definition assignId (h : list cell) (a : nat) : list cell :=
  match writeProp h (VRef a) "id" (VPrim (PNum (Z.of_nat (10 + a)))) with
  | Ok h' => h'
  | Err _ => h
  end.

Definition exInserter : Inserter := fun ti h =>
  Some (fold_left assignId (models ti) h).

Definition exStart : state := newGraphInserter exHeap (VRef 0) exGraph.

Lemma writeProp_other h a k v h' b :
  writeProp h (VRef a) k v = Ok h' -> b <> a -> h' !! b = h !! b.
Proof.
  unfold writeProp. destruct (h !! a) as [[c o|]|]; try discriminate.
  intros [= <-] Hne. apply list_lookup_insert_ne. auto.
Qed.

Lemma writeProp_keepsUid h a k v h' b cls :
  writeProp h (VRef a) k v = Ok h' -> uidProp cls <> k ->
  keepsUid h h' b cls.
Proof.
  intros H Hk. destruct (decide (b = a)) as [->|Hne].
  - unfold writeProp in H. destruct (h !! a) as [[c o|]|] eqn:E;
      try discriminate.
    injection H as <-. intros o0 Ho. rewrite E in Ho.
    injection Ho as -> ->.
    exists (setProp o0 k v). split.
    + apply list_lookup_insert_eq. eapply lookup_lt_Some; eauto.
    + apply getProp_setProp_ne. auto.
  - apply keepsUid_same. eapply writeProp_other; eauto.
Qed.

Lemma writeForeignKey_keepsUid fk idProp dep m h a cls :
  uidProp cls <> fk -> keepsUid h (writeForeignKey fk idProp dep m h) a cls.
Proof.
  intros Hk. unfold writeForeignKey.
  destruct (readProp h (VRef m) idProp) as [v|]; [|apply keepsUid_refl].
  destruct (writeProp h (VRef dep) fk v) as [h'|] eqn:E;
    [|apply keepsUid_refl].
  eapply writeProp_keepsUid; eauto.
Qed.

Lemma exGraph_uids : uidsConsistent exHeap exGraph.
Proof.
  intros i n Hi _. unfold uidLeadsTo.
  destruct i as [|[|[|[|i]]]]; simpl in Hi; try discriminate;
    injection Hi as <-; eexists; eexists; (split; [reflexivity|]);
    (split; [reflexivity|]); reflexivity.
Qed.

Lemma exGraph_distinct : distinctModels exGraph.
Proof.
  unfold distinctModels. simpl. apply NoDup_ListNoDup.
  repeat constructor; simpl; intuition discriminate.
Qed.

Lemma exGraph_resolvers : resolversKeepUids exGraph.
Proof.
  intros n d Hn Hd m h nj Hnj.
  assert (Hu : uidProp (modelClass nj) <> "parentId").
  { simpl in Hnj. destruct Hnj as [<-|[<-|[<-|[<-|[]]]]]; discriminate. }
  simpl in Hn.
  repeat (destruct Hn as [<-|Hn];
          [simpl in Hd;
           repeat (destruct Hd as [<-|Hd];
                   [now apply writeForeignKey_keepsUid|]);
           destruct Hd|]).
  destruct Hn.
Qed.

Lemma exGraph_edges : edgesReversed exGraph.
Proof.
  intros i j ni nj Hi Hj _ _.
  destruct i as [|[|[|[|i]]]]; simpl in Hi; try discriminate;
    injection Hi as <-;
    destruct j as [|[|[|[|j]]]]; simpl in Hj; try discriminate;
    injection Hj as <-; reflexivity.
Qed.

Lemma exGraph_counts : countsConsistent exGraph.
Proof.
  intros i n Hi _.
  destruct i as [|[|[|[|i]]]]; simpl in Hi; try discriminate;
    injection Hi as <-; reflexivity.
Qed.

Lemma exInserter_keepsUids : inserterKeepsUids exInserter.
Proof.
  intros ti h h' [= <-] a cls Ha. apply keepsUid_same.
  revert h. induction (models ti) as [|b ms IH]; intros h; auto.
  cbn [fold_left]. rewrite IH by (intros Hin; apply Ha; now right).
  unfold assignId.
  destruct (writeProp h (VRef b) "id" (VPrim (PNum (Z.of_nat (10 + b)))))
    as [h1|] eqn:E; auto.
  eapply writeProp_other; eauto. intros ->. apply Ha. now left.
Qed.

End GraphExample.

(** ** A builder to run: persons with their children and their pet *)

Module TreeExample.
Import JS Heap Monad Graph JSString RelationJoinBuilder.
Local Open Scope js_scope.

Definition Person : ModelClass := Model "Person" ["children"; "pet"].
Definition Animal : ModelClass := Model "Animal" [].

Definition relationTo (n : string) (one : bool) (c : ModelClass) : Relation :=
  {| name := n; isOneToOne := one; ownerProp := ["id"];
     relatedProp := ["ownerId"]; joinTable := None;
     joinTableOwnerProp := []; joinTableRelatedProp := [];
     joinTableExtras := []; joinTableModelClass := c |}.

(** What [createPathInfo] makes of a path that is encoded as itself. *)
Definition infoOf (p : string) (parent : option string) (c : ModelClass)
    (r : option Relation) (cs : list (string * PathInfo)) : PathInfo :=
  {| path := p; encPath := p; encParentPath := parent; pi_modelClass := c;
     relation := r; omitCols := []; children := cs;
     idGetter := createIdGetter ":" c p;
     oneToOne := match r with Some r => isOneToOne r | None => false end |}.

Definition childrenInfo : PathInfo :=
  infoOf "children" (Some "") Person
         (Some (relationTo "children" false Person)) [].

Definition petInfo : PathInfo :=
  infoOf "pet" (Some "") Animal (Some (relationTo "pet" true Animal)) [].

Definition rootInfo : PathInfo :=
  infoOf "" None Person None [("children", childrenInfo); ("pet", petInfo)].

(** The builder of [Person.query().eager('[children, pet]')]. *)
Definition familyBuilder : Builder :=
  {| rootModelClass := Person; opt := defaultOptions;
     encoder :=
       {| encodings := {[ "" := ""; "children" := "children"; "pet" := "pet" ]};
          decodings := {[ "" := ""; "children" := "children"; "pet" := "pet" ]};
          encIdx := 0 |};
     pathInfo := [("", rootInfo); ("children", childrenInfo);
                  ("pet", petInfo)] |}.

(** A row of the join: a person, a child and a pet. *)
Definition joinedRow (id name childId childName petId petName : prim) : Row :=
  [ ("id", id); ("name", name);
    ("children:id", childId); ("children:name", childName);
    ("pet:id", petId); ("pet:name", petName) ].

Definition run (rows : list Row) : TreeState * result TreeResult :=
  rowsToTree familyBuilder rows (newTreeState []).

(** The own properties of the objects of a heap, and the elements of its
    arrays. *)
Definition contents (h : list cell) : list (props + list value) :=
  map (fun c => match c with Obj _ o => inl o | Arr elems => inr elems end) h.

End TreeExample.

Module InsertionOrder.
Import JS Heap Monad Graph GraphInserter GraphSpec JSFacts MonadFacts InserterFacts MarkFacts MarkInvFacts BatchFacts RunFacts FuelFacts RoundFacts TerminationFacts TraceFacts RoundTraceFacts ExecuteFacts GraphExample.
Local Open Scope js_scope.

Lemma eligible_iff n :
  eligible n = true <->
  handled n = false /\ numHandledNeeds n = length (needs n).
Proof.
  unfold eligible. rewrite andb_true_iff, negb_true_iff, Nat.eqb_eq.
  intuition congruence.
Qed.

Lemma TraceInv_start h input g : TraceInv g (newGraphInserter h input g).
Proof.
  split; simpl; auto.
  - intros c [].
  - intros j n0 n H0 H1 Hh. left. congruence.
  - intros c a [].
  - intros c j n d [].
  - unfold insertedOnce. simpl. constructor.
Qed.

(** The trace of a run from a freshly built graph. *)
Lemma execute_traceOk ins h input g fuel :
  uidsConsistent h g -> distinctModels g -> resolversKeepUids g ->
  edgesReversed g -> countsConsistent g -> inserterKeepsUids ins ->
  traceOk g (calls (fst (execute fuel ins (newGraphInserter h input g)))).
Proof.
  intros Hu Hd HR He Hc HI. apply execute_trace; auto.
  - intros _. simpl. repeat (split; [assumption|]). apply TraceInv_start.
  - simpl. discriminate.
Qed.

(** Nodes that wait on each other are never handed to the callback. *)
Lemma cycle_never_inserted g cs cycle :
  needsInsertedFirst g cs -> waitOnEachOther g cycle ->
  forall c i n, In c cs -> entityCall c = true -> In i cycle ->
    nodes g !! i = Some n -> ~ In (model n) (models (call_insertion c)).
Proof.
  intros Hneeds Hcyc c.
  remember (call_round c) as r eqn:Er. revert c Er.
  induction r as [r IH] using lt_wf_ind.
  intros c -> i n Hc He Hi Hn Hm.
  destruct (Hcyc i Hi) as (n' & d & Hn' & _ & Hd & Hdi).
  rewrite Hn in Hn'. injection Hn' as <-.
  destruct (Hneeds c i n d Hc He Hn Hm Hd) as (nd & Hnd & [Hh|Hb]).
  - destruct (Hcyc _ Hdi) as (nd' & _ & Hnd' & Hh' & _). congruence.
  - destruct Hb as (c' & Hc' & He' & Hr & Hm').
    exact (IH (call_round c') Hr c' eq_refl _ nd Hc' He' Hdi Hnd Hm').
Qed.

(** C1: batch selection and marking respect a topological order.  A model
    is placed in a batch exactly when its node is unhandled and
    [numHandledNeeds] equals [needs.length], and no model is placed twice;
    [_nextBatch] marks the nodes of the batch, and only them, each of them
    unhandled before; over the whole run no model is handed to the insert
    callback twice, and when a node is inserted every node of its [needs]
    was inserted in an earlier batch, which had completed. *)
Theorem batches_follow_topological_order
    (inserter : Inserter) (h : list cell) (input : value)
    (g : DependencyGraph) (fuel : nat) :
  uidsConsistent h g -> distinctModels g -> resolversKeepUids g ->
  edgesReversed g -> countsConsistent g -> inserterKeepsUids inserter ->
  (forall g' m,
      In m (batchModels (_createBatch g')) <->
      exists i n, nodes g' !! i = Some n /\ model n = m /\
                  handled n = false /\
                  numHandledNeeds n = length (needs n)) /\
  (forall s,
      done s = false -> uidsConsistent (heap_ s) (graph s) ->
      distinctModels (graph s) -> _createBatch (graph s) <> [] ->
      NoDup (batchModels (_createBatch (graph s))) /\
      exists g',
        _nextBatch s = (withGraph s g', Ok (Some (_createBatch (graph s)))) /\
        handledCount g' =
          handledCount (graph s) +
          length (batchModels (_createBatch (graph s))) /\
        forall j n n',
          nodes (graph s) !! j = Some n -> nodes g' !! j = Some n' ->
          (handled n' = true <->
           handled n = true \/
           In (model n) (batchModels (_createBatch (graph s))))) /\
  insertedOnce
    (calls (fst (execute fuel inserter (newGraphInserter h input g)))) /\
  needsInsertedFirst g
    (calls (fst (execute fuel inserter (newGraphInserter h input g)))).
Proof.
  intros Hu Hd HR He Hc HI. split; [|split].
  - intros g' m. rewrite createBatch_In.
    split; intros (i & n & Hi & Hm & H); exists i, n;
      (split; [exact Hi|]); (split; [exact Hm|]); now apply eligible_iff.
  - intros s Hdone Hus Hds Hne. split; [now apply createBatch_NoDup|].
    destruct (nextBatch_marks s Hdone Hus Hds Hne) as (g' & Hnb & HM & _).
    exists g'. split; [exact Hnb|]. split; [apply HM|].
    intros j n n'. apply (mk_handled _ _ _ HM).
  - destruct (execute_traceOk inserter h input g fuel Hu Hd HR He Hc HI)
      as [Hneeds Honce].
    split; assumption.
Qed.

Lemma batches_follow_topological_order_witness :
  insertedOnce (calls (fst (execute 6 exInserter exStart))) /\
  needsInsertedFirst exGraph (calls (fst (execute 6 exInserter exStart))).
Proof.
  apply (batches_follow_topological_order exInserter exHeap (VRef 0)
           exGraph 6 exGraph_uids exGraph_distinct exGraph_resolvers
           exGraph_edges exGraph_counts exInserter_keepsUids).
Defined.

(** C9: [execute] needs finitely many batch rounds, on every dependency
    graph, cyclic or not: [unhandledCount + 2] calls of [_nextBatch] are
    enough.  Every non-empty batch strictly increases the number of handled
    nodes; the first empty scan sets [done] and yields the batch of join
    rows; the next call of [_nextBatch] returns null and the graph is
    finalized; nodes that wait on each other are never inserted. *)
Theorem execute_terminates
    (inserter : Inserter) (h : list cell) (input : value)
    (g : DependencyGraph) (fuel : nat) :
  uidsConsistent h g -> distinctModels g -> resolversKeepUids g ->
  inserterKeepsUids inserter ->
  unhandledCount g + 2 <= fuel ->
  snd (execute fuel inserter (newGraphInserter h input g)) <> Err OutOfFuel /\
  (forall s,
      done s = false -> uidsConsistent (heap_ s) (graph s) ->
      distinctModels (graph s) -> _createBatch (graph s) <> [] ->
      exists g',
        _nextBatch s = (withGraph s g', Ok (Some (_createBatch (graph s)))) /\
        handledCount (graph s) < handledCount g') /\
  (forall s,
      done s = false -> _createBatch (graph s) = [] ->
      _nextBatch s =
        (let (s', r) := _createManyToManyRelationJoinRowBatch (withDone s) in
         (s', match r with Ok jb => Ok (Some jb) | Err e => Err e end)) /\
      done (fst (_nextBatch s)) = true) /\
  (forall s k,
      done s = true ->
      _nextBatch s = (s, Ok None) /\
      _executeNextBatch (S k) inserter s = _finalize s) /\
  (edgesReversed g -> countsConsistent g ->
   forall cycle c i n,
     waitOnEachOther g cycle ->
     In c (calls (fst (execute fuel inserter (newGraphInserter h input g)))) ->
     entityCall c = true -> In i cycle -> nodes g !! i = Some n ->
     ~ In (model n) (models (call_insertion c))).
Proof.
  intros Hu Hd HR HI Hfuel. split; [|split; [|split; [|split]]].
  - intros E. apply outOfFuel_eq in E. revert E.
    apply execute_enough_fuel; auto.
  - intros s Hdone Hus Hds Hne.
    destruct (nextBatch_marks s Hdone Hus Hds Hne) as (g' & Hnb & HM & _).
    exists g'. split; [exact Hnb|]. rewrite (mk_count _ _ _ HM).
    pose proof (createBatch_nonempty _ Hne) as Hms.
    destruct (batchModels (_createBatch (graph s)));
      [congruence | simpl; lia].
  - intros s Hdone Hb. now apply nextBatch_joinRows.
  - intros s k Hdone. split; [now apply nextBatch_done|].
    now apply executeNextBatch_done.
  - intros He Hc cycle c i n Hcyc.
    destruct (execute_traceOk inserter h input g fuel Hu Hd HR He Hc HI)
      as [Hneeds _].
    now apply (cycle_never_inserted g _ cycle Hneeds Hcyc).
Qed.

Lemma exGraph_cycle : waitOnEachOther exGraph [2; 3].
Proof.
  intros i [<-|[<-|[]]].
  - exists (exNode "u3" 3 Child [edge 3 3] [edge 3 4]), (edge 3 3).
    repeat split; simpl; auto.
  - exists (exNode "u4" 4 Child [edge 2 4] [edge 2 3]), (edge 2 4).
    repeat split; simpl; auto.
Qed.

Lemma execute_terminates_witness :
  snd (execute 6 exInserter exStart) <> Err OutOfFuel /\
  forall c, In c (calls (fst (execute 6 exInserter exStart))) ->
            entityCall c = true ->
            ~ In 3 (models (call_insertion c)).
Proof.
  destruct (execute_terminates exInserter exHeap (VRef 0) exGraph 6
              exGraph_uids exGraph_distinct exGraph_resolvers
              exInserter_keepsUids)
    as (Hfin & _ & _ & _ & Hcyc).
  - vm_compute. lia.
  - split; [exact Hfin|]. intros c Hc He.
    exact (Hcyc exGraph_edges exGraph_counts [2; 3] c 2
             (exNode "u3" 3 Child [edge 3 3] [edge 3 4])
             exGraph_cycle Hc He (or_introl eq_refl) eq_refl).
Defined.

End InsertionOrder.

Module UidStripping.
Import JS Heap Monad Graph GraphInserter GraphSpec JSFacts MonadFacts InserterFacts MarkFacts MarkInvFacts BatchFacts RunFacts FuelFacts RoundFacts TerminationFacts TraceFacts RoundTraceFacts ExecuteFacts GraphExample.
Local Open Scope js_scope.

(** *** What reaches the insert callback *)

(** The uid property of the class is one [$omit] removes: [omitArray]
    skips the keys that start with ['$']. *)
Definition omittable (c : ModelClass) : Prop :=
  ModelJS.startsWithDollar (uidProp c) = false.

(** The classes of the graph that share a table name share the name of
    the uid property: a batch has one TableInsertion per table name, and
    [_omitUids] strips the uid property of its class. *)
Definition uidPerTable (g : DependencyGraph) : Prop :=
  forall n n', In n (nodes g) -> In n' (nodes g) ->
    tableName (modelClass n) = tableName (modelClass n') ->
    uidProp (modelClass n) = uidProp (modelClass n').

(** The rows of a call for an entity table carry no uid. *)
Definition rowsStripped (c : InsertCall) : Prop :=
  entityCall c = true ->
  Forall (fun row =>
            hasProp row (uidProp (ti_modelClass (call_insertion c))) = false)
         (call_rows c).

(** The properties of a model without the uid. *)
Definition strip (uid : string) (o : props) : props :=
  List.filter (fun kv => negb (String.eqb (fst kv) uid)) o.

(** The uids the models of [ti] hold in [h], in the order of the models,
    and the rows that are left of them. *)
Definition uidsOf (h : heap) (ti : TableInsertion) : list value :=
  map (fun a => match h !! a with
                | Some (Obj _ o) => getProp o (uidProp (ti_modelClass ti))
                | _ => undefined
                end) (models ti).

Definition rowsOf (h : heap) (ti : TableInsertion) : list props :=
  map (fun a => match h !! a with
                | Some (Obj _ o) => strip (uidProp (ti_modelClass ti)) o
                | _ => []
                end) (models ti).

Definition callsOf (round : nat) (h : heap) (b : batch) : list InsertCall :=
  map (fun kv => {| call_round := round; call_insertion := snd kv;
                    call_rows := rowsOf h (snd kv) |}) b.

Definition startedOf (h : heap) (b : batch)
  : list (TableInsertion * list value) :=
  map (fun kv => (snd kv, uidsOf h (snd kv))) b.

(** [h'] is [h] with the uid stripped from the models of the batch. *)
Definition strippedHeap (h : heap) (b : batch) (h' : heap) : Prop :=
  length h' = length h /\
  (forall kv a, In kv b -> In a (models (snd kv)) ->
     exists c o, h !! a = Some (Obj c o) /\
       h' !! a = Some (Obj c (strip (uidProp (ti_modelClass (snd kv))) o))) /\
  (forall a, ~ In a (batchModels b) -> h' !! a = h !! a).

(** The node of a model, and the resolvers that wait for it. *)
Definition nodeOf (g : DependencyGraph) (a : nat) : option DependencyNode :=
  List.find (fun n => Nat.eqb (model n) a) (nodes g).

Definition resolveFor (g : DependencyGraph) (h : heap) (a : nat) : heap :=
  match nodeOf g a with
  | Some n => fold_left (fun h d => dep_resolve d a h) (isNeededBy n) h
  | None => h
  end.

Definition resolveAll (g : DependencyGraph) (ms : list nat) (h : heap)
  : heap :=
  fold_left (resolveFor g) ms h.

(** *** The entries of a batch *)

Definition tableEntry (g : DependencyGraph) (kv : string * TableInsertion)
  : Prop :=
  isJoinTableInsertion (snd kv) = false /\
  (exists n, In n (nodes g) /\ ti_modelClass (snd kv) = modelClass n /\
             tableName (modelClass n) = fst kv) /\
  forall a, In a (models (snd kv)) ->
    exists n, In n (nodes g) /\ eligible n = true /\ model n = a /\
              tableName (modelClass n) = fst kv.

Lemma createBatch_tables_from g ns b :
  incl ns (nodes g) ->
  Forall (tableEntry g) b ->
  Forall (tableEntry g) (fold_left (createBatchStep g) ns b).
Proof.
  revert b. induction ns as [|n ns IH]; intros b Hns Hb; simpl; auto.
  apply IH; [intros x Hx; apply Hns; now right|].
  unfold createBatchStep. destruct (eligible n) eqn:En; auto.
  assert (Hn : In n (nodes g)) by (apply Hns; now left).
  rewrite List.Forall_forall in *. intros [k ti] Hin.
  apply batchSet_In in Hin as [Heq|Hin]; [|now apply Hb].
  injection Heq as -> ->.
  destruct (batchGet b (tableName (modelClass n))) as [ti|] eqn:Eg.
  - apply batchGet_In, Hb in Eg. destruct Eg as (Hj & Hc & Hall).
    simpl in *. split; [exact Hj|]. split; [exact Hc|].
    intros a Ha. apply in_app_or in Ha as [Ha|[<-|[]]]; eauto.
  - simpl. split; [reflexivity|]. split; [eauto|].
    intros a [<-|[]]. eauto.
Qed.

Lemma createBatch_tables g : Forall (tableEntry g) (_createBatch g).
Proof. apply createBatch_tables_from; [apply incl_refl | constructor]. Qed.

Lemma strip_delProp uid o : delProp o uid = strip uid o.
Proof. apply delProp_filter. Qed.

(** *** [_omitUids] and [invoke], run forward *)

Definition isObject (h : heap) (a : nat) : Prop :=
  exists c o, h !! a = Some (Obj c o).

Lemma readUids_runs h uid ms :
  Forall (isObject h) ms ->
  readUids h uid ms =
  Ok (map (fun a => match h !! a with
                    | Some (Obj _ o) => getProp o uid
                    | _ => undefined
                    end) ms).
Proof.
  induction 1 as [|a ms (c & o & Ha) _ IH]; simpl; [reflexivity|].
  unfold readProp. rewrite Ha. simpl. rewrite IH. reflexivity.
Qed.

Lemma snapshot_runs h ms :
  Forall (isObject h) ms ->
  snapshot h ms =
  Ok (map (fun a => match h !! a with
                    | Some (Obj _ o) => o
                    | _ => []
                    end) ms).
Proof.
  induction 1 as [|a ms (c & o & Ha) _ IH]; simpl; [reflexivity|].
  unfold ownProps. rewrite Ha. simpl. rewrite IH. reflexivity.
Qed.

Lemma omit_all_runs uid : forall ms s,
  Forall (isObject (heap_ s)) ms ->
  exists s',
    forEach ms (fun a => onHeap (fun h => ModelJS.omit h a [uid])) s =
    (s', Ok tt).
Proof.
  induction ms as [|a ms IH]; intros s Hall; simpl.
  - now exists s.
  - inversion Hall as [|? ? (c & o & Ha) Hms]; subst.
    unfold mbind at 1, onHeap at 1, ModelJS.omit at 1. rewrite Ha.
    apply IH. simpl. eapply Forall_impl; [exact Hms|].
    intros b (c' & o' & Hb). unfold isObject.
    destruct (decide (b = a)) as [->|Hne].
    + rewrite list_lookup_insert_eq by (eapply lookup_lt_Some; eauto). eauto.
    + rewrite list_lookup_insert_ne by auto. eauto.
Qed.

(** [invoke] on an entry of entity rows: the uids are read, the models
    stripped, and the callback is handed what is left. *)
Lemma invoke_runs kv s :
  isJoinTableInsertion (snd kv) = false ->
  omittable (ti_modelClass (snd kv)) ->
  Forall (isObject (heap_ s)) (models (snd kv)) ->
  exists h',
    invoke kv s =
      (logCall (withHeap s h')
         {| call_round := rounds s; call_insertion := snd kv;
            call_rows := rowsOf (heap_ s) (snd kv) |},
       Ok (snd kv, uidsOf (heap_ s) (snd kv))) /\
    length h' = length (heap_ s) /\
    (forall a, In a (models (snd kv)) -> exists c o,
        heap_ s !! a = Some (Obj c o) /\
        h' !! a = Some (Obj c (strip (uidProp (ti_modelClass (snd kv))) o))) /\
    (forall a, ~ In a (models (snd kv)) -> h' !! a = heap_ s !! a).
Proof.
  intros Hj Hom Hall.
  set (uid := uidProp (ti_modelClass (snd kv))).
  destruct (omit_all_runs uid (models (snd kv)) s Hall) as (s1 & Hrun).
  destruct (omit_all_Ok uid (models (snd kv)) Hom s s1 tt Hrun)
    as (Hs1 & Hlen & Hin & Hout).
  assert (Hom' : _omitUids (snd kv) s = (s1, Ok (uidsOf (heap_ s) (snd kv)))).
  { unfold _omitUids, mbind at 1, get. unfold mbind at 1, lift.
    rewrite (readUids_runs _ _ _ Hall). unfold mbind. fold uid.
    rewrite Hrun. reflexivity. }
  assert (Hall1 : Forall (isObject (heap_ s1)) (models (snd kv))).
  { apply List.Forall_forall. intros a Ha.
    destruct (Hin a Ha) as (c & o & _ & H1). now exists c, (delProp o uid). }
  assert (Hrows : map (fun a => match heap_ s1 !! a with
                                | Some (Obj _ o) => o
                                | _ => []
                                end) (models (snd kv)) =
                  rowsOf (heap_ s) (snd kv)).
  { unfold rowsOf. apply map_ext_in. intros a Ha.
    destruct (Hin a Ha) as (c & o & H0 & H1). rewrite H0, H1.
    apply strip_delProp. }
  exists (heap_ s1). split; [|split; [exact Hlen|split; [|exact Hout]]].
  - unfold invoke. cbv zeta. rewrite Hj. unfold mbind at 1. rewrite Hom'.
    unfold mbind at 1, get. unfold mbind at 1, lift.
    rewrite (snapshot_runs _ _ Hall1), Hrows.
    unfold mbind, modify, ret. rewrite Hs1. reflexivity.
  - intros a Ha. destruct (Hin a Ha) as (c & o & H0 & H1).
    exists c, o. split; [exact H0|]. rewrite H1. now rewrite strip_delProp.
Qed.

Definition afterInvokes (s : state) (b : batch) (h' : heap) : state :=
  {| heap_ := h'; inputModels := inputModels s; done := done s;
     graph := graph s; rounds := rounds s;
     calls := calls s ++ callsOf (rounds s) (heap_ s) b |}.

Lemma batchModels_cons kv (b : batch) :
  batchModels (kv :: b) = models (snd kv) ++ batchModels b.
Proof. reflexivity. Qed.

Lemma invokeAll_runs : forall b s,
  Forall (fun kv => isJoinTableInsertion (snd kv) = false /\
                    omittable (ti_modelClass (snd kv))) b ->
  NoDup (batchModels b) ->
  Forall (isObject (heap_ s)) (batchModels b) ->
  exists h',
    mapM invoke b s = (afterInvokes s b h', Ok (startedOf (heap_ s) b)) /\
    strippedHeap (heap_ s) b h'.
Proof.
  induction b as [|kv b IH]; intros s Hb Hnd Hall.
  - exists (heap_ s). split.
    + unfold afterInvokes. simpl. rewrite app_nil_r. now destruct s.
    + split; [reflexivity|]. split; [intros ? ? []|reflexivity].
  - inversion Hb as [|? ? [Hj Hom] Hb']; subst.
    rewrite batchModels_cons in Hnd, Hall.
    apply Forall_app in Hall as [Hall1 Hall2].
    destruct (invoke_runs kv s Hj Hom Hall1)
      as (h1 & Hinv & Hlen1 & Hin1 & Hout1).
    set (s1 := logCall (withHeap s h1)
                 {| call_round := rounds s; call_insertion := snd kv;
                    call_rows := rowsOf (heap_ s) (snd kv) |}) in *.
    assert (Hdis : forall a, In a (batchModels b) -> ~ In a (models (snd kv))).
    { intros a Ha Hk. apply NoDup_app in Hnd as (_ & Hd & _).
      apply (Hd a); now apply list_elem_of_In. }
    assert (Hsame : forall a, In a (batchModels b) ->
                              h1 !! a = heap_ s !! a).
    { intros a Ha. apply Hout1. now apply Hdis. }
    destruct (IH s1) as (h' & Hrun & Hlen & Hin & Hout).
    { exact Hb'. }
    { now apply NoDup_app in Hnd as (_ & _ & Hnd). }
    { apply List.Forall_forall. intros a Ha. unfold isObject. simpl.
      rewrite (Hsame a Ha). rewrite List.Forall_forall in Hall2.
      now apply Hall2. }
    assert (Hin_b : forall kv' a, In kv' b -> In a (models (snd kv')) ->
                                  In a (batchModels b)).
    { intros kv' a Hk Ha. clear -Hk Ha.
      induction b as [|kv0 b IHb]; [destruct Hk|].
      rewrite batchModels_cons. apply in_or_app.
      destruct Hk as [->|Hk]; [now left | right; auto]. }
    assert (Hu : startedOf (heap_ s1) b = startedOf (heap_ s) b).
    { unfold startedOf. apply map_ext_in. intros kv' Hk. f_equal.
      unfold uidsOf. apply map_ext_in. intros a Ha. simpl.
      now rewrite (Hsame a (Hin_b _ _ Hk Ha)). }
    assert (Hc : callsOf (rounds s1) (heap_ s1) b =
                 callsOf (rounds s) (heap_ s) b).
    { unfold callsOf. apply map_ext_in. intros kv' Hk. simpl. f_equal.
      unfold rowsOf. apply map_ext_in. intros a Ha.
      now rewrite (Hsame a (Hin_b _ _ Hk Ha)). }
    exists h'. split.
    + cbn [mapM]. unfold mbind at 1. rewrite Hinv. fold s1.
      unfold mbind at 1. rewrite Hrun, Hu. unfold ret, afterInvokes.
      rewrite Hc. simpl. rewrite <- app_assoc. reflexivity.
    + simpl in Hlen, Hin, Hout. split; [lia|]. split.
      * intros kv' a [<-|Hk] Ha.
        -- destruct (Hin1 a Ha) as (c & o & H0 & H1).
           exists c, o. split; [exact H0|]. rewrite Hout; [exact H1|].
           intros Hab. exact (Hdis a Hab Ha).
        -- destruct (Hin kv' a Hk Ha) as (c & o & H0 & H1).
           exists c, o. split; [|exact H1].
           now rewrite <- (Hsame a (Hin_b _ _ Hk Ha)).
      * intros a Ha. rewrite batchModels_cons in Ha.
        rewrite Hout by (intros H; apply Ha, in_or_app; now right).
        apply Hout1. intros H. apply Ha, in_or_app. now left.
Qed.

(** *** [settle], run forward *)

Lemma nodeOf_unique g i n :
  distinctModels g -> nodes g !! i = Some n -> nodeOf g (model n) = Some n.
Proof.
  unfold distinctModels, nodeOf. revert i.
  induction (nodes g) as [|n0 ns IH]; intros i Hd Hi; [discriminate|].
  simpl in Hd. apply NoDup_cons in Hd as [Hn0 Hd]. simpl.
  destruct i as [|i]; simpl in Hi.
  - injection Hi as ->. now rewrite Nat.eqb_refl.
  - destruct (Nat.eqb_spec (model n0) (model n)) as [E|_]; [|eauto].
    exfalso. apply Hn0. rewrite E. apply list_elem_of_In, in_map.
    apply list_elem_of_In. eapply list_elem_of_lookup_2; eauto.
Qed.

(** The uid [v] leads to a node of [g] with the resolvers [deps]. *)
Definition leadsTo (g : DependencyGraph) (deps : list Dependency)
    (v : value) : Prop :=
  exists p i n, v = VPrim p /\ nodesById g !! ToString p = Some i /\
                nodes g !! i = Some n /\ isNeededBy n = deps.

Definition depsOf (g : DependencyGraph) (a : nat) : list Dependency :=
  match nodeOf g a with
  | Some n => isNeededBy n
  | None => []
  end.

Lemma resolveFor_depsOf g h a :
  resolveFor g h a = fold_left (fun h d => dep_resolve d a h) (depsOf g a) h.
Proof. unfold resolveFor, depsOf. now destruct (nodeOf g a). Qed.

Lemma resolvers_run a : forall deps t,
  forEach deps (fun dep => onHeap (fun h => Ok (dep_resolve dep a h))) t =
  (withHeap t (fold_left (fun h d => dep_resolve d a h) deps (heap_ t)),
   Ok tt).
Proof.
  induction deps as [|d deps IH]; intros t; simpl.
  - now destruct t.
  - unfold mbind, onHeap. rewrite IH. reflexivity.
Qed.

Lemma resolveDeps_runs g0 : forall ms uids t,
  Forall2 (fun a v => leadsTo (graph t) (depsOf g0 a) v) ms uids ->
  forEach (combine ms uids) resolveModel t =
  (withHeap t (resolveAll g0 ms (heap_ t)), Ok tt).
Proof.
  induction ms as [|a ms IH]; intros uids t H;
    inversion H as [|? v ? uids' Hv Hrest]; subst; simpl.
  - now destruct t.
  - destruct Hv as (p & i & n & -> & Hid & Hn & Hdeps).
    assert (E : resolveModel (a, VPrim p) t =
                (withHeap t (resolveFor g0 (heap_ t) a), Ok tt)).
    { unfold resolveModel, mbind at 1, get.
      unfold mbind at 1, lift at 1, nodeById. simpl. rewrite Hid.
      unfold mbind at 1, lift at 1, nodeAt. rewrite Hn.
      now rewrite resolvers_run, Hdeps, resolveFor_depsOf. }
    unfold mbind. rewrite E.
    rewrite (IH uids' (withHeap t (resolveFor g0 (heap_ t) a)) Hrest).
    reflexivity.
Qed.

Lemma settle_runs inserter g0 ti uids t h' :
  isJoinTableInsertion ti = false ->
  Forall2 (fun a v => leadsTo (graph t) (depsOf g0 a) v) (models ti) uids ->
  inserter ti (heap_ t) = Some h' ->
  settle inserter (ti, uids) t =
  (withHeap t (resolveAll g0 (models ti) h'), Ok tt).
Proof.
  intros Hj Hl Hins. unfold settle, mbind, onHeap. simpl. rewrite Hins, Hj.
  unfold _resolveDepsForInsertion. now rewrite (resolveDeps_runs g0).
Qed.

(** *** No uid in the rows of a whole run *)

Definition strippedInv (s : state) : Prop :=
  Forall omittable (map modelClass (nodes (graph s))) /\
  Forall rowsStripped (calls s).

Lemma map_modelClass_static ns ns' :
  map static ns' = map static ns -> map modelClass ns' = map modelClass ns.
Proof.
  intros H.
  assert (E : forall l, map modelClass l =
                        map (fun t => snd (fst (fst (fst t)))) (map static l)).
  { intros l. rewrite List.map_map. apply List.map_ext. now intros []. }
  now rewrite !E, H.
Qed.

Lemma strippedInv_markModel m : preserves strippedInv (markModelHandled m).
Proof.
  intros s Hs. unfold markModelHandled, mbind, get, lift.
  destruct (classOf (heap_ s) m) as [cls|]; [|exact Hs].
  destruct (readProp (heap_ s) (VRef m) (uidProp cls)) as [idv|]; [|exact Hs].
  destruct (nodeById (graph s) idv) as [[i|]|]; try exact Hs.
  unfold nodeAt. destruct (nodes (graph s) !! i) as [node|] eqn:Hi;
    [|exact Hs].
  destruct Hs as [Hc Hr]. split; auto. simpl.
  pose proof (map_static_markNode (nodes (graph s)) i) as E.
  unfold markNode in E. rewrite Hi in E.
  now rewrite (map_modelClass_static _ _ E).
Qed.

Lemma strippedInv_onlyHeap {A} (m : M state A) :
  onlyHeap m -> preserves strippedInv m.
Proof.
  intros H. apply onlyHeap_preserves; auto.
  intros s s' (_ & _ & Hg & _ & Hc) [H1 H2]. split; congruence.
Qed.

(** The entries [invoke] may be given. *)
Definition strippable (kv : string * TableInsertion) : Prop :=
  isJoinTableInsertion (snd kv) = true \/ omittable (ti_modelClass (snd kv)).

Lemma strippedInv_invoke kv :
  strippable kv -> preserves strippedInv (invoke kv).
Proof.
  intros Hkv s Hs. unfold invoke, mbind at 1.
  destruct (isJoinTableInsertion kv.2) eqn:Hj.
  - unfold ret, mbind, get, lift. simpl.
    destruct (snapshot (heap_ s) (models kv.2)) as [rows|]; simpl; auto.
    destruct Hs as [Hc Hr]. split; auto. simpl.
    apply Forall_app. split; auto. constructor; [|constructor].
    intros He. unfold entityCall in He. simpl in He. rewrite Hj in He.
    discriminate.
  - destruct Hkv as [Hkv|Hkv]; [congruence|].
    pose proof (strippedInv_onlyHeap _ (onlyHeap_omitUids kv.2) s Hs) as Hs1.
    pose proof (omitUids_Ok kv.2 s) as Hom.
    destruct (_omitUids kv.2 s) as [s1 [uids|e]]; simpl in *; auto.
    destruct (Hom s1 uids Hkv eq_refl) as (_ & _ & _ & Hin & _).
    unfold mbind, get, lift. simpl.
    destruct (snapshot (heap_ s1) (models kv.2)) as [rows|] eqn:Esn; simpl;
      auto.
    destruct Hs1 as [Hc Hr]. split; auto. simpl.
    apply Forall_app. split; auto. constructor; [|constructor].
    intros _. simpl. apply snapshot_Ok in Esn.
    clear -Esn Hin. induction Esn as [|a row ms rows [c Ha] Hf IH];
      constructor.
    + destruct (Hin a (or_introl eq_refl)) as (c' & o & _ & Ha').
      rewrite Ha in Ha'. injection Ha' as _ ->. apply hasProp_delProp_eq.
    + apply IH. intros b Hb. apply Hin. now right.
Qed.

Lemma strippedInv_runBatch ins b :
  Forall strippable b -> preserves strippedInv (runBatch ins b).
Proof.
  intros Hb. unfold runBatch. apply preserves_bind.
  - apply preserves_mapM. intros kv Hkv. apply strippedInv_invoke.
    rewrite List.Forall_forall in Hb. auto.
  - intros started. apply preserves_bind.
    + apply preserves_forEach. intros tu _.
      apply strippedInv_onlyHeap, onlyHeap_settle.
    + intros _. apply preserves_modify. now intros s [H1 H2].
Qed.

Lemma strippedInv_nextBatch :
  hoare strippedInv _nextBatch
    (fun b s => strippedInv s /\
                match b with Some b => Forall strippable b | None => True end)
    strippedInv.
Proof.
  intros s Hs. unfold _nextBatch, mbind at 1, get.
  destruct (done s) eqn:Hdone; [simpl; auto|].
  pose proof (createBatch_entries (graph s)) as Hent.
  destruct (_createBatch (graph s)) as [|kv b] eqn:Eb.
  - unfold mbind at 1, modify.
    assert (Hs' : strippedInv (withDone s)) by (destruct Hs; now split).
    pose proof (strippedInv_onlyHeap _ onlyHeap_joinRowBatch _ Hs') as H1.
    pose proof (joinRowBatch_allJoin (withDone s)) as H2.
    unfold mbind.
    destruct (_createManyToManyRelationJoinRowBatch (withDone s))
      as [s1 [jb|e]]; simpl in *; auto.
    split; auto. specialize (H2 s1 jb eq_refl).
    eapply Forall_impl; [exact H2|]. intros kv Hkv. now left.
  - assert (H1 : preserves strippedInv (_markBatchHandled (kv :: b))).
    { apply preserves_forEach. intros m _. apply strippedInv_markModel. }
    specialize (H1 s Hs). unfold mbind.
    destruct (_markBatchHandled (kv :: b) s) as [s1 [[]|e]]; simpl in *; auto.
    split; auto.
    eapply Forall_impl; [exact Hent|].
    intros kv' (_ & _ & _ & n & Hn & Hc). right. unfold omittable.
    rewrite Hc. destruct Hs as [Hcls _].
    rewrite List.Forall_forall in Hcls. apply Hcls. now apply in_map.
Qed.

Lemma strippedInv_execute ins fuel :
  preserves strippedInv (_executeNextBatch fuel ins).
Proof.
  induction fuel as [|fuel IH]; [apply preserves_throw|].
  simpl. intros s Hs. unfold mbind at 1.
  pose proof (strippedInv_nextBatch s Hs) as H.
  destruct (_nextBatch s) as [s1 [[b|]|e]]; simpl in *; auto.
  - destruct H as [Hs1 Hb].
    apply (preserves_bind strippedInv (runBatch ins b)); auto.
    now apply strippedInv_runBatch.
  - destruct H as [Hs1 _].
    now apply (strippedInv_onlyHeap _ onlyHeap_finalize).
Qed.


(** *** A batch of entity rows *)

Lemma lookup_static ns ns' i n :
  map static ns' = map static ns -> ns !! i = Some n ->
  exists n', ns' !! i = Some n' /\ static n' = static n.
Proof.
  intros E Hi.
  assert (H : map static ns' !! i = Some (static n)).
  { rewrite E. change (map static ns) with (static <$> ns).
    now rewrite list_lookup_fmap, Hi. }
  change (map static ns') with (static <$> ns') in H.
  rewrite list_lookup_fmap in H.
  destruct (ns' !! i) as [n'|]; [|discriminate].
  exists n'. split; [reflexivity|]. simpl in H. congruence.
Qed.

(** The tables of a batch of [_createBatch]: entity rows of classes of
    the graph, whose models are objects. *)
Lemma batch_entities g :
  Forall omittable (map modelClass (nodes g)) ->
  Forall (fun kv => isJoinTableInsertion (snd kv) = false /\
                    omittable (ti_modelClass (snd kv))) (_createBatch g).
Proof.
  intros Hom. eapply Forall_impl; [apply createBatch_tables|].
  intros kv (Hj & (n0 & Hn0 & Hc0 & _) & _). split; [exact Hj|].
  rewrite Hc0. rewrite List.Forall_forall in Hom. apply Hom.
  now apply in_map.
Qed.

Lemma batch_objects h g :
  uidsConsistent h g ->
  Forall (isObject h) (batchModels (_createBatch g)).
Proof.
  intros Hu. apply List.Forall_forall. intros a Ha.
  apply createBatch_In in Ha as (i & n & Hi & Hm & He).
  destruct (Hu i n Hi (eligible_unhandled n He)) as (o & p & Ho & _).
  rewrite <- Hm. now exists (Some (modelClass n)), o.
Qed.

Lemma callsOf_stripped r h b : Forall rowsStripped (callsOf r h b).
Proof.
  apply List.Forall_forall. intros c Hc. unfold callsOf in Hc.
  apply in_map_iff in Hc as (kv & <- & Hkv). intros _. simpl.
  unfold rowsOf. apply List.Forall_forall. intros row Hrow.
  apply in_map_iff in Hrow as (a & <- & Ha).
  destruct (h !! a) as [[c o|]|]; try reflexivity.
  rewrite <- strip_delProp. apply hasProp_delProp_eq.
Qed.

(** The uids read from the models of a batch lead back to their nodes,
    also after the nodes were marked. *)
Lemma batch_uids_lead s g' kv :
  uidsConsistent (heap_ s) (graph s) -> distinctModels (graph s) ->
  uidPerTable (graph s) ->
  Marked (graph s) (batchModels (_createBatch (graph s))) g' ->
  In kv (_createBatch (graph s)) ->
  Forall2 (fun a v => leadsTo g' (depsOf (graph s) a) v)
          (models (snd kv)) (uidsOf (heap_ s) (snd kv)).
Proof.
  intros Hu Hd Hpt HM Hkv.
  pose proof (createBatch_tables (graph s)) as Htab.
  rewrite List.Forall_forall in Htab.
  destruct (Htab kv Hkv) as (_ & (n0 & Hn0 & Hc0 & Ht0) & Hall).
  unfold uidsOf. apply Forall2_fmap_r, Forall_Forall2_diag.
  apply List.Forall_forall. intros a Ha. unfold compose.
  destruct (Hall a Ha) as (n & Hn & He & Hm & Ht).
  apply list_elem_of_In, list_elem_of_lookup_1 in Hn as [i Hi].
  destruct (Hu i n Hi (eligible_unhandled n He)) as (o & p & Ho & Hp & Hid).
  assert (Huid : uidProp (ti_modelClass (snd kv)) = uidProp (modelClass n)).
  { rewrite Hc0. apply Hpt; auto; [|congruence].
    apply list_elem_of_In. eapply list_elem_of_lookup_2; eauto. }
  rewrite <- Hm, Ho, Huid, Hp. exists p, i.
  destruct (lookup_static _ _ i n (mk_static _ _ _ HM) Hi) as (n' & Hi' & Hs).
  exists n'. rewrite (mk_byId _ _ _ HM).
  split; [reflexivity|]. split; [exact Hid|]. split; [exact Hi'|].
  unfold depsOf. rewrite (nodeOf_unique _ i n Hd Hi).
  unfold static in Hs. now injection Hs.
Qed.

(** The insert callback never rejects. *)
Definition neverRejects (inserter : Inserter) : Prop :=
  forall ti h, inserter ti h <> None.

Lemma settleAll_runs inserter g0 :
  neverRejects inserter ->
  forall started t,
    Forall (fun tu =>
              isJoinTableInsertion (fst tu) = false /\
              Forall2 (fun a v => leadsTo (graph t) (depsOf g0 a) v)
                      (models (fst tu)) (snd tu)) started ->
    exists t', forEach started (settle inserter) t = (t', Ok tt).
Proof.
  intros Hins. induction started as [|[ti uids] started IH]; intros t Hall.
  - now exists t.
  - inversion Hall as [|? ? [Hj Hl] Hrest]; subst. simpl in Hj, Hl.
    destruct (inserter ti (heap_ t)) as [h'|] eqn:E;
      [|now destruct (Hins ti (heap_ t))].
    cbn [forEach]. unfold mbind at 1.
    rewrite (settle_runs inserter g0 ti uids t h' Hj Hl E).
    apply IH. exact Hrest.
Qed.

(** A round on a batch of entity rows runs to its end when the callback
    does. *)
Lemma entity_round_runs inserter s :
  done s = false ->
  uidsConsistent (heap_ s) (graph s) -> distinctModels (graph s) ->
  Forall omittable (map modelClass (nodes (graph s))) ->
  uidPerTable (graph s) -> neverRejects inserter ->
  _createBatch (graph s) <> [] ->
  exists g' s2,
    _nextBatch s = (withGraph s g', Ok (Some (_createBatch (graph s)))) /\
    runBatch inserter (_createBatch (graph s)) (withGraph s g') =
      (s2, Ok tt).
Proof.
  intros Hdone Hu Hd Hom Hpt Hins Hne.
  destruct (nextBatch_marks s Hdone Hu Hd Hne) as (g' & Hnb & HM & _).
  destruct (invokeAll_runs (_createBatch (graph s)) (withGraph s g')
              (batch_entities _ Hom) (createBatch_NoDup _ Hd)
              (batch_objects _ _ Hu))
    as (h' & Hrun & _).
  simpl in Hrun.
  destruct (settleAll_runs inserter (graph s) Hins
              (startedOf (heap_ s) (_createBatch (graph s)))
              (afterInvokes (withGraph s g') (_createBatch (graph s)) h'))
    as (t' & Ht').
  { unfold startedOf. apply Forall_map. apply List.Forall_forall.
    intros kv Hkv. simpl.
    pose proof (createBatch_tables (graph s)) as Htab.
    rewrite List.Forall_forall in Htab.
    destruct (Htab kv Hkv) as (Hj & _ & _). split; [exact Hj|].
    now apply (batch_uids_lead s g'). }
  exists g', (nextRound t'). split; [exact Hnb|].
  unfold runBatch. unfold mbind at 1. rewrite Hrun.
  unfold mbind. rewrite Ht'. reflexivity.
Qed.


Lemma exGraph_omittable : Forall omittable (map modelClass (nodes exGraph)).
Proof. repeat constructor. Qed.

Lemma exGraph_uidPerTable : uidPerTable exGraph.
Proof.
  intros n n' Hn Hn' _. simpl in Hn, Hn'.
  destruct Hn as [<-|[<-|[<-|[<-|[]]]]];
    destruct Hn' as [<-|[<-|[<-|[<-|[]]]]]; reflexivity.
Qed.


(** *** A uid property that [$omit] leaves alone *)

(** A class whose uid property is named ['$uid'], and a class that shares
    the table of [Parent] but names its uid property ['#uid']. *)
Definition Tagged : ModelClass :=
  {| tableName := "tagged"; idColumn := ["id"];
     uidProp := "$uid"; uidRefProp := "#ref"; relationNames := [];
     parseDatabaseJson := fun json => json;
     validateJson := fun json => Some json |}.

Definition Foster : ModelClass :=
  {| tableName := "parent"; idColumn := ["id"];
     uidProp := "#uid"; uidRefProp := "#ref"; relationNames := [];
     parseDatabaseJson := fun json => json;
     validateJson := fun json => Some json |}.

Definition taggedHeap : list cell :=
  [ Obj (Some Tagged) [("name", VPrim (PStr "a"));
                       ("$uid", VPrim (PStr "u1"))] ].

Definition taggedGraph : DependencyGraph :=
  {| nodes := [ exNode "u1" 0 Tagged [] [] ];
     nodesById := {[ "u1" := 0 ]};
     inputNodesById := {[ "u1" ]} |}.

Definition fosterHeap : list cell :=
  [ Obj (Some Parent) [("name", VPrim (PStr "a"));
                       ("#id", VPrim (PStr "u1"))];
    Obj (Some Foster) [("name", VPrim (PStr "b"));
                       ("#uid", VPrim (PStr "u2"))] ].

Definition fosterGraph : DependencyGraph :=
  {| nodes := [ exNode "u1" 0 Parent [] []; exNode "u2" 1 Foster [] [] ];
     nodesById := {[ "u1" := 0; "u2" := 1 ]};
     inputNodesById := {[ "u1"; "u2" ]} |}.


End UidStripping.

Module Finalization.
Import JS Heap Monad Graph GraphInserter GraphSpec JSFacts MonadFacts InserterFacts MarkFacts MarkInvFacts BatchFacts RunFacts FuelFacts RoundFacts TerminationFacts TraceFacts RoundTraceFacts ExecuteFacts GraphExample UidStripping.
Local Open Scope js_scope.

(** *** _finalize *)

(** A property of the actual model is copied when it is neither a relation
    nor a function. *)
Definition copied (relations : list string) (key : string) (v : value)
  : bool :=
  negb (existsb (String.eqb key) relations) && negb (isFunction v).

(** The reference model after the properties of the actual model [actual]
    were copied to it. *)
Definition copyProps (relations : list string) (actual : props)
    (keys : list string) (ref : props) : props :=
  fold_left
    (fun acc key =>
       if copied relations key (getProp actual key)
       then setProp acc key (getProp actual key) else acc)
    keys ref.

Lemma withHeap_withHeap s h1 h2 : withHeap (withHeap s h1) h2 = withHeap s h2.
Proof. reflexivity. Qed.

Lemma withHeap_same s : withHeap s (heap_ s) = s.
Proof. now destruct s. Qed.

Lemma copyAll_spec relations a r ca oa cr keys : forall s oref,
  r <> a ->
  heap_ s !! a = Some (Obj ca oa) ->
  heap_ s !! r = Some (Obj cr oref) ->
  forEach keys (copyProp relations a r) s =
  (withHeap s (<[r := Obj cr (copyProps relations oa keys oref)]> (heap_ s)),
   Ok tt).
Proof.
  induction keys as [|key keys IH]; intros s oref Hne Ha Hr; simpl.
  - rewrite list_insert_id by auto. now rewrite withHeap_same.
  - unfold mbind at 1. unfold copyProp at 1.
    unfold mbind, get, lift, readProp. rewrite Ha.
    fold (copied relations key (getProp oa key)).
    destruct (copied relations key (getProp oa key)) eqn:Ec.
    + unfold onHeap, writeProp. rewrite Hr.
      rewrite IH with (oref := setProp oref key (getProp oa key)); auto.
      * simpl. now rewrite list_insert_insert_eq.
      * simpl. now rewrite list_lookup_insert_ne.
      * simpl. apply list_lookup_insert_eq. eapply lookup_lt_Some; eauto.
    + unfold ret. now rewrite IH with (oref := oref).
Qed.

Lemma getProp_copyProps_other relations oa keys : forall oref k,
  ~ In k keys ->
  getProp (copyProps relations oa keys oref) k = getProp oref k.
Proof.
  induction keys as [|key keys IH]; intros oref k Hk; simpl; auto.
  unfold copyProps in *. simpl.
  rewrite IH by (intros H; apply Hk; now right).
  destruct (copied relations key (getProp oa key)); auto.
  apply getProp_setProp_ne. intros ->. apply Hk. now left.
Qed.

Lemma getProp_copyProps relations oa keys : forall oref k,
  In k keys -> copied relations k (getProp oa k) = true ->
  getProp (copyProps relations oa keys oref) k = getProp oa k.
Proof.
  induction keys as [|key keys IH]; intros oref k Hk Hc; [destruct Hk|].
  unfold copyProps in *. simpl.
  destruct (in_dec string_dec k keys) as [Hin|Hnin].
  - now apply IH.
  - destruct Hk as [->|Hk]; [|contradiction].
    rewrite Hc.
    pose proof (getProp_copyProps_other relations oa keys
                  (setProp oref k (getProp oa k)) k Hnin) as E.
    unfold copyProps in E. rewrite E. apply getProp_setProp_eq.
Qed.

Lemma getProp_copyProps_skipped relations oa keys : forall oref k,
  copied relations k (getProp oa k) = false ->
  getProp (copyProps relations oa keys oref) k = getProp oref k.
Proof.
  induction keys as [|key keys IH]; intros oref k Hc; simpl; auto.
  unfold copyProps in *. simpl. rewrite IH by auto.
  destruct (copied relations key (getProp oa key)) eqn:E; auto.
  apply getProp_setProp_ne. intros ->. congruence.
Qed.

Lemma omitArray_two o k1 k2 :
  ModelJS.startsWithDollar k1 = false -> ModelJS.startsWithDollar k2 = false ->
  ModelJS.omitArray o [k1; k2] = delProp (delProp o k1) k2.
Proof.
  intros H1 H2. simpl. rewrite H1, H2. simpl.
  destruct (hasProp o k1) eqn:E1.
  - destruct (hasProp (delProp o k1) k2) eqn:E2; auto.
    now rewrite (delProp_absent _ _ E2).
  - rewrite (delProp_absent _ _ E1).
    destruct (hasProp o k2) eqn:E2; auto.
    now rewrite (delProp_absent _ _ E2).
Qed.

(** What [finalizeNode] does for a reference node. *)
Lemma finalizeNode_ref s refNode i actualNode cr oref ca oa ref :
  heap_ s !! model refNode = Some (Obj cr oref) ->
  getProp oref (uidRefProp (modelClass refNode)) = ref ->
  truthy ref = true ->
  nodeById (graph s) ref = Ok (Some i) ->
  nodes (graph s) !! i = Some actualNode ->
  heap_ s !! model actualNode = Some (Obj ca oa) ->
  model refNode <> model actualNode ->
  finalizeNode refNode s =
  (withHeap s
     (<[model refNode :=
          Obj cr (ModelJS.omitArray
                    (copyProps (relationNames (modelClass actualNode)) oa
                               (keys oa) oref)
                    [uidProp (modelClass refNode);
                     uidRefProp (modelClass refNode)])]> (heap_ s)),
   Ok tt).
Proof.
  intros Hr Href Ht Hid Hi Ha Hne.
  unfold finalizeNode, mbind at 1, get. simpl.
  unfold mbind at 1, lift at 1, readProp. rewrite Hr, Href, Ht.
  unfold mbind at 1, lift at 1. rewrite Hid.
  unfold mbind at 1, lift at 1, nodeAt. rewrite Hi.
  unfold mbind at 1, lift at 1, ownProps. rewrite Ha. simpl.
  unfold mbind at 1.
  rewrite (copyAll_spec _ _ _ ca oa cr (keys oa) s oref Hne Ha Hr).
  unfold onHeap, ModelJS.omit. simpl.
  rewrite list_lookup_insert_eq by (eapply lookup_lt_Some; eauto).
  now rewrite list_insert_insert_eq.
Qed.

Lemma finalizeNode_plain s n c o :
  heap_ s !! model n = Some (Obj c o) ->
  truthy (getProp o (uidRefProp (modelClass n))) = false ->
  finalizeNode n s = (s, Ok tt).
Proof.
  intros Hn Ht. unfold finalizeNode, mbind, get, lift, readProp.
  now rewrite Hn, Ht.
Qed.

(** The value of the ref property of the model of a node. *)
Definition refOf (h : heap) (n : DependencyNode) : value :=
  match h !! model n with
  | Some (Obj _ o) => getProp o (uidRefProp (modelClass n))
  | _ => undefined
  end.

Definition isRefNode (h : heap) (n : DependencyNode) : bool :=
  truthy (refOf h n).

(** [graph.nodesById[ref]] for the reference node [r]. *)
Definition actualOf (s : state) (r a : DependencyNode) : Prop :=
  exists j, nodeById (graph s) (refOf (heap_ s) r) = Ok (Some j) /\
            nodes (graph s) !! j = Some a.

(** No node referred to is the model of a reference node of [l]. *)
Definition targetsApart (s : state) (l : list DependencyNode) : Prop :=
  forall r a r', In r l -> isRefNode (heap_ s) r = true -> actualOf s r a ->
    In r' l -> isRefNode (heap_ s) r' = true -> model r' <> model a.

(** The reference model [o'] made of the reference model [oref] and the
    actual model [oa]. *)
Definition finalized (cls : ModelClass) (relations : list string)
    (oa oref o' : props) : Prop :=
  o' = ModelJS.omitArray (copyProps relations oa (keys oa) oref)
         [uidProp cls; uidRefProp cls].

Lemma finalizeNode_Ok n s s' u :
  finalizeNode n s = (s', Ok u) ->
  exists cr oref, heap_ s !! model n = Some (Obj cr oref) /\
    (isRefNode (heap_ s) n = false /\ s' = s \/
     isRefNode (heap_ s) n = true /\
     exists a ca oa, actualOf s n a /\
       heap_ s !! model a = Some (Obj ca oa)).
Proof.
  unfold finalizeNode, mbind at 1, get. simpl.
  unfold mbind at 1, lift at 1, readProp, isRefNode, actualOf, refOf.
  destruct (heap_ s !! model n) as [[cr oref|]|] eqn:Hn; try discriminate.
  intros H. exists cr, oref. split; auto.
  destruct (truthy (getProp oref (uidRefProp (modelClass n)))) eqn:Ht.
  - right. split; auto.
    unfold mbind at 1, lift at 1 in H.
    destruct (nodeById (graph s) _) as [[j|]|] eqn:Hid; try discriminate.
    unfold mbind at 1, lift at 1, nodeAt in H.
    destruct (nodes (graph s) !! j) as [a|] eqn:Hj; try discriminate.
    unfold mbind at 1, lift at 1, ownProps in H.
    destruct (heap_ s !! model a) as [[ca oa|]|] eqn:Ha; try discriminate.
    exists a, ca, oa. eauto.
  - left. split; auto. unfold ret in H. congruence.
Qed.

Lemma refOf_insert_ne h x c n :
  model n <> x -> refOf (<[x := c]> h) n = refOf h n.
Proof. intros Hne. unfold refOf. now rewrite list_lookup_insert_ne. Qed.

(** The loop of [_finalize] over the nodes [l]. *)
Lemma finalizeAll_spec : forall l s s',
  forEach l finalizeNode s = (s', Ok tt) ->
  NoDup (map model l) ->
  targetsApart s l ->
  s' = withHeap s (heap_ s') /\
  (forall x, (forall r, In r l -> isRefNode (heap_ s) r = true ->
                        model r <> x) ->
             heap_ s' !! x = heap_ s !! x) /\
  (forall r, In r l -> isRefNode (heap_ s) r = true ->
     exists a cr oref ca oa o',
       actualOf s r a /\
       heap_ s !! model r = Some (Obj cr oref) /\
       heap_ s !! model a = Some (Obj ca oa) /\
       heap_ s' !! model r = Some (Obj cr o') /\
       finalized (modelClass r) (relationNames (modelClass a)) oa oref o').
Proof.
  induction l as [|n l IH]; intros s s' Hrun Hnd Hap.
  - simpl in Hrun. injection Hrun as <-. split; [now rewrite withHeap_same|].
    split; [auto | intros r []].
  - simpl in Hrun. apply mbind_Ok in Hrun as (s1 & [] & Hn & Hrest).
    simpl in Hnd. apply NoDup_cons in Hnd as [Hnotin Hnd].
    assert (Hfresh : forall r, In r l -> model r <> model n).
    { intros r Hr E. apply Hnotin. rewrite <- E.
      apply list_elem_of_In. now apply in_map. }
    destruct (finalizeNode_Ok _ _ _ _ Hn) as (cr & oref & Hcell & Hcase).
    destruct Hcase as [[Href ->] | [Href (a & ca & oa & Hact & Ha)]].
    + (* not a reference *)
      destruct (IH s s' Hrest Hnd) as (Hs' & Hout & Hin).
      { intros r a r' Hr Hrr Ha Hr' Hrr'.
        apply (Hap r a r'); simpl; auto. }
      split; auto. split.
      * intros x Hx. apply Hout. intros r Hr. apply Hx. now right.
      * intros r [<-|Hr] Hrr; [congruence|]. now apply Hin.
    + (* a reference *)
      assert (Hne : model n <> model a).
      { apply (Hap n a n); simpl; auto. }
      destruct Hact as (j & Hid & Hj).
      assert (Hcell' := Hcell).
      unfold refOf in Hid. rewrite Hcell in Hid.
      pose proof (finalizeNode_ref s n j a cr oref ca oa _ Hcell eq_refl) as Hf.
      unfold isRefNode, refOf in Href. rewrite Hcell in Href.
      specialize (Hf Href Hid Hj Ha Hne).
      rewrite Hf in Hn. injection Hn as <-.
      set (o1 := ModelJS.omitArray _ _) in *.
      set (s1 := withHeap s (<[model n := Obj cr o1]> (heap_ s))) in *.
      assert (Hsame : forall r, In r l ->
                refOf (heap_ s1) r = refOf (heap_ s) r).
      { intros r Hr. subst s1. simpl. apply refOf_insert_ne. now apply Hfresh. }
      assert (Hnref : isRefNode (heap_ s) n = true).
      { unfold isRefNode, refOf. now rewrite Hcell. }
      destruct (IH s1 s' Hrest Hnd) as (Hs' & Hout & Hin).
      { intros r b r' Hr Hrr (j' & Hb & Hj') Hr' Hrr'.
        unfold isRefNode in Hrr, Hrr'.
        rewrite Hsame in Hrr, Hb, Hrr' by auto.
        apply (Hap r b r'); simpl; auto. now exists j'. }
      split; [exact Hs'|]. split.
      * intros x Hx. rewrite Hout.
        -- subst s1. simpl. apply list_lookup_insert_ne.
           apply Hx; simpl; auto.
        -- intros r Hr Hrr. apply Hx; [now right|].
           unfold isRefNode in *. now rewrite <- Hsame.
      * intros r [<-|Hr] Hrr.
        -- exists a, cr, oref, ca, oa, o1.
           split; [exists j; unfold refOf; rewrite Hcell; auto|].
           repeat (split; [assumption|]). split; [|reflexivity].
           rewrite Hout.
           ++ subst s1. simpl. apply list_lookup_insert_eq.
              eapply lookup_lt_Some; eauto.
           ++ intros r Hr _. now apply Hfresh.
        -- destruct (Hin r Hr) as (b & cb & orb & cab & oab & o' & Hb & H1 & H2 & H3 & H4).
           { unfold isRefNode in *. now rewrite Hsame. }
           exists b, cb, orb, cab, oab, o'.
           destruct Hb as (j' & Hb & Hj').
           rewrite Hsame in Hb by auto.
           split; [now exists j'|].
           subst s1. simpl in H1, H2.
           rewrite list_lookup_insert_ne in H1 by (apply not_eq_sym; auto).
           rewrite list_lookup_insert_ne in H2.
           ++ auto.
           ++ apply (Hap r b n); simpl; auto. now exists j'.
Qed.

(** The batches of [_executeNextBatch], up to the call of [_finalize]. *)
Fixpoint insertBatches (fuel : nat) (inserter : Inserter) : M state unit :=
  match fuel with
  | 0 => throw OutOfFuel
  | S fuel' =>
      b <- _nextBatch ;;
      match b with
      | None => ret tt
      | Some b => runBatch inserter b ;;; insertBatches fuel' inserter
      end
  end.

Lemma execute_split fuel ins s :
  execute fuel ins s = (insertBatches fuel ins ;;; _finalize) s.
Proof.
  unfold execute. revert s. induction fuel as [|fuel IH]; intros s; simpl.
  - reflexivity.
  - unfold mbind. destruct (_nextBatch s) as [s1 [[b|]|e]]; auto.
    destruct (runBatch ins b s1) as [s2 [[]|e]]; auto.
Qed.

(** [this.models] is never assigned after the constructor. *)
Definition inputIs (x : value) (s : state) : Prop := inputModels s = x.

Lemma inputIs_onlyHeap {A} (m : M state A) x :
  onlyHeap m -> preserves (inputIs x) m.
Proof.
  intros H. apply onlyHeap_preserves; auto.
  intros s s' (Hi & _) Hs. unfold inputIs in *. congruence.
Qed.

Lemma inputIs_markModel x m : preserves (inputIs x) (markModelHandled m).
Proof.
  intros s Hs. unfold markModelHandled, mbind, get, lift.
  destruct (classOf (heap_ s) m) as [cls|]; [|exact Hs].
  destruct (readProp (heap_ s) (VRef m) (uidProp cls)) as [idv|]; [|exact Hs].
  destruct (nodeById (graph s) idv) as [[i|]|]; try exact Hs.
  unfold nodeAt. destruct (nodes (graph s) !! i) as [node|]; exact Hs.
Qed.

Lemma inputIs_nextBatch x : preserves (inputIs x) _nextBatch.
Proof.
  unfold _nextBatch. apply preserves_get_with. intros s0 _.
  destruct (done s0); [apply preserves_ret|].
  destruct (_createBatch (graph s0)) as [|kv b].
  - apply preserves_bind; [apply preserves_modify; now intros s|].
    intros _. apply preserves_bind; [|intros jb; apply preserves_ret].
    apply inputIs_onlyHeap, onlyHeap_joinRowBatch.
  - apply preserves_bind; [|intros _; apply preserves_ret].
    apply preserves_forEach. intros m _. apply inputIs_markModel.
Qed.

Lemma inputIs_invoke x kv : preserves (inputIs x) (invoke kv).
Proof.
  unfold invoke. apply preserves_bind.
  - destruct (isJoinTableInsertion kv.2); [apply preserves_ret|].
    apply inputIs_onlyHeap, onlyHeap_omitUids.
  - intros uids. apply preserves_get_with. intros s0 _.
    apply preserves_bind; [apply preserves_lift|]. intros rows.
    apply preserves_bind; [|intros _; apply preserves_ret].
    apply preserves_modify. now intros s.
Qed.

Lemma inputIs_runBatch x ins b : preserves (inputIs x) (runBatch ins b).
Proof.
  unfold runBatch. apply preserves_bind.
  - apply preserves_mapM. intros kv _. apply inputIs_invoke.
  - intros started. apply preserves_bind.
    + apply preserves_forEach. intros tu _.
      apply inputIs_onlyHeap, onlyHeap_settle.
    + intros _. apply preserves_modify. now intros s.
Qed.

Lemma inputIs_insertBatches x ins fuel :
  preserves (inputIs x) (insertBatches fuel ins).
Proof.
  induction fuel as [|fuel IH]; [apply preserves_throw|].
  simpl. apply preserves_bind; [apply inputIs_nextBatch|].
  intros [b|]; [|apply preserves_ret].
  apply preserves_bind; [apply inputIs_runBatch | auto].
Qed.

(** The properties of a finalized reference model. *)
Lemma finalized_props cls relations oa oref o' :
  ModelJS.startsWithDollar (uidProp cls) = false ->
  ModelJS.startsWithDollar (uidRefProp cls) = false ->
  finalized cls relations oa oref o' ->
  hasProp o' (uidProp cls) = false /\
  hasProp o' (uidRefProp cls) = false /\
  forall k, k <> uidProp cls -> k <> uidRefProp cls ->
    (In k (keys oa) -> copied relations k (getProp oa k) = true ->
     getProp o' k = getProp oa k) /\
    (~ In k (keys oa) \/ copied relations k (getProp oa k) = false ->
     getProp o' k = getProp oref k).
Proof.
  intros H1 H2 ->. rewrite omitArray_two by auto.
  split; [|split].
  - destruct (String.eqb_spec (uidProp cls) (uidRefProp cls)) as [E|E].
    + rewrite E. apply hasProp_delProp_eq.
    + rewrite hasProp_delProp_ne by congruence. apply hasProp_delProp_eq.
  - apply hasProp_delProp_eq.
  - intros k Hk1 Hk2.
    rewrite !getProp_delProp_ne by auto. split.
    + intros Hin Hc. now apply getProp_copyProps.
    + intros [Hnin|Hc].
      * now apply getProp_copyProps_other.
      * now apply getProp_copyProps_skipped.
Qed.

(** The names of the uid and ref properties are ones [$omit] removes. *)
Definition finalizable (c : ModelClass) : Prop :=
  ModelJS.startsWithDollar (uidProp c) = false /\
  ModelJS.startsWithDollar (uidRefProp c) = false.


(** *** The references during the batches *)

(** The ref property of the model of [n] is left alone, and the model
    stays an object. *)
Definition keepsRef (h h' : heap) (n : DependencyNode) : Prop :=
  forall c o, h !! model n = Some (Obj c o) ->
    exists o', h' !! model n = Some (Obj c o') /\
               getProp o' (uidRefProp (modelClass n)) =
               getProp o (uidRefProp (modelClass n)).

Definition keepsRefs (g : DependencyGraph) (h h' : heap) : Prop :=
  forall n, In n (nodes g) -> keepsRef h h' n.

(** The insert callback and the resolvers write identifiers and foreign
    keys, never a ref property. *)
Definition inserterKeepsRefs (g : DependencyGraph) (inserter : Inserter)
  : Prop :=
  forall ti h h', inserter ti h = Some h' -> keepsRefs g h h'.

Definition resolversKeepRefs (g : DependencyGraph) : Prop :=
  forall n d m h, In n (nodes g) -> In d (isNeededBy n) ->
    keepsRefs g h (dep_resolve d m h).

(** No uid property has the name of a ref property. *)
Definition namesApart (g : DependencyGraph) : Prop :=
  forall n n', In n (nodes g) -> In n' (nodes g) ->
    uidProp (modelClass n) <> uidRefProp (modelClass n').

(** The model of every node is an object of the heap. *)
Definition modelsAllocated (h : heap) (g : DependencyGraph) : Prop :=
  forall n, In n (nodes g) -> exists c o, h !! model n = Some (Obj c o).

Lemma keepsRefs_refl g h : keepsRefs g h h.
Proof. intros n _ c o H. eauto. Qed.

Lemma keepsRefs_trans g h1 h2 h3 :
  keepsRefs g h1 h2 -> keepsRefs g h2 h3 -> keepsRefs g h1 h3.
Proof.
  intros H1 H2 n Hn c o Ho.
  destruct (H1 n Hn c o Ho) as (o' & Ho' & E1).
  destruct (H2 n Hn c o' Ho') as (o'' & Ho'' & E2).
  exists o''. split; [exact Ho''|]. congruence.
Qed.

Lemma keepsRefs_alloc g h c : keepsRefs g h (h ++ [c]).
Proof.
  intros n _ c0 o H. exists o. split; [|reflexivity].
  now apply lookup_app_l_Some.
Qed.

Lemma getProp_omitArray_other o k : forall ks,
  ~ In k ks -> getProp (ModelJS.omitArray o ks) k = getProp o k.
Proof.
  intros ks. revert o. induction ks as [|k0 ks IH]; intros o Hk; simpl; auto.
  rewrite IH by (intros H; apply Hk; now right).
  destruct (negb (ModelJS.startsWithDollar k0) && hasProp o k0); auto.
  apply getProp_delProp_ne. intros ->. apply Hk. now left.
Qed.

Lemma keepsRefs_omit g h a uid h' :
  (forall n, In n (nodes g) -> uid <> uidRefProp (modelClass n)) ->
  ModelJS.omit h a [uid] = Ok h' -> keepsRefs g h h'.
Proof.
  intros Hap Hom n Hn c o Ho. unfold ModelJS.omit in Hom.
  destruct (h !! a) as [[c' o'|]|] eqn:Ha; try discriminate.
  injection Hom as <-.
  destruct (decide (model n = a)) as [E|Hne].
  - rewrite E in *. rewrite Ha in Ho. injection Ho as -> ->.
    exists (ModelJS.omitArray o [uid]). split.
    + apply list_lookup_insert_eq. eapply lookup_lt_Some; eauto.
    + apply getProp_omitArray_other. intros [H|[]].
      apply (Hap n Hn). auto.
  - exists o. split; [|reflexivity].
    now rewrite list_lookup_insert_ne by auto.
Qed.

(** What holds of the state during the batches: [g0] and [h0] are the
    graph and the heap at the start. *)
Definition refInv (g0 : DependencyGraph) (h0 : heap) (s : state) : Prop :=
  map static (nodes (graph s)) = map static (nodes g0) /\
  nodesById (graph s) = nodesById g0 /\
  keepsRefs g0 h0 (heap_ s).

Lemma refInv_heap g0 h0 s h :
  refInv g0 h0 s -> keepsRefs g0 (heap_ s) h -> refInv g0 h0 (withHeap s h).
Proof.
  intros (H1 & H2 & H3) Hk. split; [exact H1|]. split; [exact H2|].
  simpl. eapply keepsRefs_trans; eauto.
Qed.

Lemma refInv_onHeap g0 h0 f :
  (forall h h', f h = Ok h' -> keepsRefs g0 h h') ->
  preserves (refInv g0 h0) (onHeap f).
Proof.
  intros Hf. apply preserves_onHeap. intros s h Hs E.
  apply refInv_heap; auto.
Qed.

Lemma refInv_allocate g0 h0 c : preserves (refInv g0 h0) (allocate c).
Proof.
  intros s Hs. unfold allocate, alloc. simpl.
  apply refInv_heap; auto. apply keepsRefs_alloc.
Qed.

Lemma refInv_markModel g0 h0 m :
  preserves (refInv g0 h0) (markModelHandled m).
Proof.
  intros s Hs. unfold markModelHandled, mbind, get, lift.
  destruct (classOf (heap_ s) m) as [cls|]; [|exact Hs].
  destruct (readProp (heap_ s) (VRef m) (uidProp cls)) as [idv|]; [|exact Hs].
  destruct (nodeById (graph s) idv) as [[i|]|]; try exact Hs.
  unfold nodeAt. destruct (nodes (graph s) !! i) as [node|] eqn:Hi;
    [|exact Hs].
  destruct Hs as (H1 & H2 & H3). split; [|split; assumption]. simpl.
  pose proof (map_static_markNode (nodes (graph s)) i) as E.
  unfold markNode in E. rewrite Hi in E. now rewrite E.
Qed.

Ltac refpres :=
  repeat first
    [ apply preserves_ret | apply preserves_throw | apply preserves_lift
    | apply preserves_get | apply refInv_allocate
    | apply preserves_bind; [|intros ?]
    | apply preserves_forEach; intros ? _
    | apply preserves_foldM; intros ? ? _
    | match goal with
      | |- preserves _ (match ?x with _ => _ end) => destruct x
      | |- preserves _ (if ?x then _ else _) => destruct x
      end ].

Lemma refInv_joinRowBatch g0 h0 :
  preserves (refInv g0 h0) _createManyToManyRelationJoinRowBatch.
Proof. unfold _createManyToManyRelationJoinRowBatch, addJoinRow. refpres. Qed.

(** The entries [invoke] may be given: join rows, or entity rows of a
    class whose uid property is no ref property. *)
Definition apartEntry (g0 : DependencyGraph) (kv : string * TableInsertion)
  : Prop :=
  isJoinTableInsertion (snd kv) = true \/
  forall n, In n (nodes g0) ->
    uidProp (ti_modelClass (snd kv)) <> uidRefProp (modelClass n).

Lemma refInv_invoke g0 h0 kv :
  apartEntry g0 kv -> preserves (refInv g0 h0) (invoke kv).
Proof.
  intros Hkv. unfold invoke. apply preserves_bind.
  - destruct (isJoinTableInsertion kv.2) eqn:Hj; [apply preserves_ret|].
    destruct Hkv as [Hkv|Hkv]; [congruence|].
    unfold _omitUids. apply preserves_bind; [apply preserves_get|].
    intros s0. apply preserves_bind; [apply preserves_lift|]. intros ids.
    apply preserves_bind; [|intros; apply preserves_ret].
    apply preserves_forEach. intros a _. apply refInv_onHeap.
    intros h h' Hom. eapply keepsRefs_omit; eauto.
  - intros uids. apply preserves_bind; [apply preserves_get|]. intros s0.
    apply preserves_bind; [apply preserves_lift|]. intros rows.
    apply preserves_bind; [|intros; apply preserves_ret].
    apply preserves_modify. now intros s.
Qed.

Lemma static_isNeededBy_In g g0 i node d :
  map static (nodes g) = map static (nodes g0) ->
  nodes g !! i = Some node -> In d (isNeededBy node) ->
  exists n0, In n0 (nodes g0) /\ In d (isNeededBy n0).
Proof.
  intros Hs Hi Hd.
  destruct (static_In g0 g node Hs) as (n0 & Hn0 & E).
  { apply list_elem_of_In. eapply list_elem_of_lookup_2; eauto. }
  apply static_fields in E as (_ & _ & _ & _ & E & _).
  exists n0. split; [exact Hn0|]. now rewrite <- E.
Qed.

Lemma refInv_resolveModel g0 h0 mu :
  resolversKeepRefs g0 -> preserves (refInv g0 h0) (resolveModel mu).
Proof.
  intros HR s Hs. unfold resolveModel, mbind at 1, get. simpl.
  unfold mbind at 1, lift at 1.
  destruct (nodeById (graph s) (snd mu)) as [[i|]|]; simpl; auto.
  unfold mbind at 1, lift at 1, nodeAt.
  destruct (nodes (graph s) !! i) as [node|] eqn:Hi; simpl; auto.
  apply (preserves_forEach (refInv g0 h0) (isNeededBy node)); [|exact Hs].
  intros d Hd. apply refInv_onHeap. intros h h' [= <-].
  destruct Hs as (Hst & _).
  destruct (static_isNeededBy_In _ _ _ _ _ Hst Hi Hd) as (n0 & Hn0 & Hd0).
  now apply (HR n0 d).
Qed.

Lemma refInv_settle g0 h0 inserter tu :
  inserterKeepsRefs g0 inserter -> resolversKeepRefs g0 ->
  preserves (refInv g0 h0) (settle inserter tu).
Proof.
  intros HI HR. unfold settle. apply preserves_bind.
  - apply refInv_onHeap. intros h h' E.
    destruct (inserter (fst tu) h) as [h1|] eqn:Ei; [|discriminate].
    injection E as <-. eapply HI; eauto.
  - intros _. destruct (isJoinTableInsertion (fst tu)); [apply preserves_ret|].
    unfold _resolveDepsForInsertion. apply preserves_forEach. intros mu _.
    now apply refInv_resolveModel.
Qed.

Lemma refInv_runBatch g0 h0 inserter b :
  inserterKeepsRefs g0 inserter -> resolversKeepRefs g0 ->
  Forall (apartEntry g0) b ->
  preserves (refInv g0 h0) (runBatch inserter b).
Proof.
  intros HI HR Hb. unfold runBatch. apply preserves_bind.
  - apply preserves_mapM. intros kv Hkv. apply refInv_invoke.
    rewrite List.Forall_forall in Hb. auto.
  - intros started. apply preserves_bind.
    + apply preserves_forEach. intros tu _. now apply refInv_settle.
    + intros _. apply preserves_modify. now intros s.
Qed.

Lemma refInv_nextBatch g0 h0 :
  namesApart g0 ->
  hoare (refInv g0 h0) _nextBatch
    (fun b s => refInv g0 h0 s /\
                match b with
                | Some b => Forall (apartEntry g0) b
                | None => True
                end)
    (refInv g0 h0).
Proof.
  intros Hna s Hs. unfold _nextBatch, mbind at 1, get.
  destruct (done s) eqn:Hdone; [simpl; auto|].
  pose proof (createBatch_entries (graph s)) as Hent.
  destruct (_createBatch (graph s)) as [|kv b] eqn:Eb.
  - unfold mbind at 1, modify.
    assert (Hs' : refInv g0 h0 (withDone s)) by exact Hs.
    pose proof (refInv_joinRowBatch g0 h0 _ Hs') as H1.
    pose proof (joinRowBatch_allJoin (withDone s)) as H2.
    unfold mbind.
    destruct (_createManyToManyRelationJoinRowBatch (withDone s))
      as [s1 [jb|e]]; simpl in *; auto.
    split; auto. specialize (H2 s1 jb eq_refl).
    eapply Forall_impl; [exact H2|]. intros kv Hkv. now left.
  - assert (H1 : preserves (refInv g0 h0) (_markBatchHandled (kv :: b))).
    { apply preserves_forEach. intros m _. apply refInv_markModel. }
    specialize (H1 s Hs). unfold mbind.
    destruct (_markBatchHandled (kv :: b) s) as [s1 [[]|e]]; simpl in *; auto.
    split; auto.
    eapply Forall_impl; [exact Hent|].
    intros kv' (_ & _ & _ & n & Hn & Hc). right. rewrite Hc.
    destruct Hs as (Hst & _).
    destruct (static_In g0 (graph s) n Hst Hn) as (n0 & Hn0 & E).
    apply static_fields in E as (_ & _ & -> & _).
    intros n' Hn'. now apply Hna.
Qed.

Lemma refInv_insertBatches g0 h0 inserter :
  namesApart g0 -> inserterKeepsRefs g0 inserter -> resolversKeepRefs g0 ->
  forall fuel, preserves (refInv g0 h0) (insertBatches fuel inserter).
Proof.
  intros Hna HI HR. induction fuel as [|fuel IH]; [apply preserves_throw|].
  simpl. intros s Hs. unfold mbind at 1.
  pose proof (refInv_nextBatch g0 h0 Hna s Hs) as H.
  destruct (_nextBatch s) as [s1 [[b|]|e]]; simpl in *; auto.
  - destruct H as [Hs1 Hb].
    apply (preserves_bind (refInv g0 h0) (runBatch inserter b)); auto.
    now apply refInv_runBatch.
  - now destruct H.
Qed.

(** *** The batches run to their end *)

(** No node has a many-to-many connection. *)
Definition noJoinRows (g : DependencyGraph) : Prop :=
  Forall (fun n => manyToManyConnections n = []) (nodes g).

Lemma joinRows_none : forall ns b s,
  Forall (fun n => manyToManyConnections n = []) ns ->
  foldM (fun b node =>
           foldM (addJoinRow node) (manyToManyConnections node) b) ns b s =
  (s, Ok b).
Proof.
  induction ns as [|n ns IH]; intros b s Hall; [reflexivity|].
  inversion Hall as [|? ? Hn Hns]; subst. cbn [foldM].
  unfold mbind at 1. rewrite Hn. cbn [foldM]. unfold ret at 1.
  now apply IH.
Qed.

Lemma joinRowBatch_none s :
  noJoinRows (graph s) ->
  _createManyToManyRelationJoinRowBatch s = (s, Ok []).
Proof.
  intros H. unfold _createManyToManyRelationJoinRowBatch, mbind at 1, get.
  unfold mbind at 1. rewrite (joinRows_none _ _ _ H). reflexivity.
Qed.

(** What the rounds keep of the graph. *)
Record roundInv (s : state) : Prop := {
  ri_uids : uidsConsistent (heap_ s) (graph s);
  ri_distinct : distinctModels (graph s);
  ri_resolvers : resolversKeepUids (graph s);
  ri_omittable : Forall omittable (map modelClass (nodes (graph s)));
  ri_tables : uidPerTable (graph s);
  ri_noJoin : noJoinRows (graph s)
}.

Lemma noJoinRows_static g g' :
  map static (nodes g') = map static (nodes g) ->
  noJoinRows g -> noJoinRows g'.
Proof.
  intros Hs H. apply List.Forall_forall. intros n' Hn'.
  destruct (static_In g g' n' Hs Hn') as (n & Hn & E).
  apply static_fields in E as (_ & _ & _ & _ & _ & ->).
  unfold noJoinRows in H. rewrite List.Forall_forall in H. auto.
Qed.

Lemma uidPerTable_static g g' :
  map static (nodes g') = map static (nodes g) ->
  uidPerTable g -> uidPerTable g'.
Proof.
  intros Hs H n1 n2 H1 H2.
  destruct (static_In g g' n1 Hs H1) as (m1 & Hm1 & E1).
  destruct (static_In g g' n2 Hs H2) as (m2 & Hm2 & E2).
  apply static_fields in E1 as (_ & _ & -> & _).
  apply static_fields in E2 as (_ & _ & -> & _).
  now apply H.
Qed.

Lemma insertBatches_runs inserter :
  inserterKeepsUids inserter -> neverRejects inserter ->
  forall fuel s,
    (done s = false -> roundInv s) ->
    fuelNeeded s <= fuel ->
    exists s1, insertBatches fuel inserter s = (s1, Ok tt).
Proof.
  intros HI Hnr. induction fuel as [|fuel IH]; intros s Hinv Hfuel.
  - unfold fuelNeeded in Hfuel. destruct (done s); lia.
  - destruct (done s) eqn:Hdone.
    + exists s. cbn [insertBatches]. unfold mbind.
      now rewrite (nextBatch_done s Hdone).
    + destruct (Hinv eq_refl) as [Hu Hd HR Hom Hpt Hnj].
      unfold fuelNeeded in Hfuel. rewrite Hdone in Hfuel.
      assert (Hcase : _createBatch (graph s) = [] \/
                      _createBatch (graph s) <> []).
      { destruct (_createBatch (graph s)); [now left | now right]. }
      destruct Hcase as [Eb|Hne].
      * destruct (nextBatch_joinRows s Hdone Eb) as [Hnb _].
        rewrite (joinRowBatch_none (withDone s) Hnj) in Hnb.
        destruct (IH (nextRound (withDone s))) as (s1 & Hs1).
        { discriminate. }
        { unfold fuelNeeded. simpl. lia. }
        exists s1. cbn [insertBatches]. unfold mbind at 1. rewrite Hnb.
        exact Hs1.
      * destruct (entity_round_runs inserter s Hdone Hu Hd Hom Hpt Hnr Hne)
          as (g' & s2 & Hnb & Hrun).
        destruct (entity_round inserter s Hdone Hu Hd HR HI Hne)
          as (g1 & Hnb1 & HM & Hd' & HR' & Hpost).
        assert (g1 = g').
        { rewrite Hnb in Hnb1. now injection Hnb1. }
        subst g1.
        rewrite Hrun in Hpost.
        destruct Hpost as (Hg & Hdn & _ & _ & Hu2 & _).
        destruct (IH s2) as (s1 & Hs1).
        { intros _.
          pose proof (mk_static _ _ _ HM) as Hst.
          constructor; rewrite ?Hg; auto.
          - now rewrite (map_modelClass_static _ _ Hst).
          - now apply (uidPerTable_static (graph s)).
          - now apply (noJoinRows_static (graph s)). }
        { unfold fuelNeeded. rewrite Hdn, Hg.
          pose proof (Marked_unhandledCount _ _ _ HM) as Hcnt.
          pose proof (createBatch_nonempty _ Hne) as Hms.
          destruct (batchModels (_createBatch (graph s)));
            [congruence | simpl in Hcnt; lia]. }
        exists s1. cbn [insertBatches]. unfold mbind at 1. rewrite Hnb.
        unfold mbind. rewrite Hrun. exact Hs1.
Qed.

(** *** [_finalize] runs to its end *)

(** The model of [r] is an object, and when [r] is a reference its ref
    leads to a node with a model of its own. *)
Definition resolvable (s : state) (r : DependencyNode) : Prop :=
  exists c o, heap_ s !! model r = Some (Obj c o) /\
    (isRefNode (heap_ s) r = true ->
     exists a ca oa, actualOf s r a /\
       heap_ s !! model a = Some (Obj ca oa) /\ model r <> model a).

Lemma finalizeAll_runs : forall l s,
  NoDup (map model l) -> Forall (resolvable s) l ->
  exists s', forEach l finalizeNode s = (s', Ok tt).
Proof.
  induction l as [|n l IH]; intros s Hnd Hall; [now exists s|].
  simpl in Hnd. apply NoDup_cons in Hnd as [Hnotin Hnd].
  inversion Hall as [|? ? (cr & oref & Hcell & Href) Hl]; subst.
  cbn [forEach]. unfold mbind at 1.
  destruct (isRefNode (heap_ s) n) eqn:Hr.
  - destruct (Href eq_refl) as (a & ca & oa & (j & Hid & Hj) & Ha & Hne).
    unfold isRefNode, refOf in Hr. rewrite Hcell in Hr.
    unfold refOf in Hid. rewrite Hcell in Hid.
    rewrite (finalizeNode_ref s n j a cr oref ca oa _ Hcell eq_refl Hr Hid Hj
               Ha Hne).
    apply IH; [exact Hnd|].
    apply List.Forall_forall. intros r Hin.
    rewrite List.Forall_forall in Hl.
    destruct (Hl r Hin) as (c & o & Hc & Hrr).
    assert (Hmr : model r <> model n).
    { intros E. apply Hnotin. rewrite <- E.
      apply list_elem_of_In. now apply in_map. }
    exists c, o. simpl. split; [now rewrite list_lookup_insert_ne by auto|].
    unfold isRefNode. rewrite refOf_insert_ne by auto. intros Hrt.
    destruct (Hrr Hrt) as (a' & ca' & oa' & (j' & Hid' & Hj') & Ha' & Hne').
    destruct (decide (model a' = model n)) as [E|Hd].
    + exists a', cr. eexists. split; [|split; [|exact Hne']].
      * exists j'. simpl. now rewrite refOf_insert_ne by auto.
      * rewrite E. apply list_lookup_insert_eq.
        eapply lookup_lt_Some; eauto.
    + exists a', ca', oa'. split; [|split; [|exact Hne']].
      * exists j'. simpl. now rewrite refOf_insert_ne by auto.
      * now rewrite list_lookup_insert_ne by auto.
  - unfold isRefNode, refOf in Hr. rewrite Hcell in Hr.
    rewrite (finalizeNode_plain s n cr oref Hcell Hr).
    now apply IH.
Qed.

Lemma finalizeNode_static n n' :
  static n = static n' -> finalizeNode n = finalizeNode n'.
Proof.
  intros H. apply static_fields in H as (_ & Hm & Hc & _).
  unfold finalizeNode. now rewrite Hm, Hc.
Qed.

Lemma cons_eq_inv {A} (x y : A) (l l' : list A) :
  x :: l = y :: l' -> x = y /\ l = l'.
Proof. intros [= -> ->]. auto. Qed.

Lemma finalizeAll_static : forall l l',
  map static l = map static l' ->
  forEach l finalizeNode = forEach l' finalizeNode.
Proof.
  induction l as [|n l IH]; intros [|n' l'] H; try discriminate;
    [reflexivity|].
  simpl in H. apply cons_eq_inv in H as [Hn Hl]. cbn [forEach].
  now rewrite (finalizeNode_static n n' Hn), (IH l' Hl).
Qed.

Lemma refOf_kept g h h' n :
  In n (nodes g) -> modelsAllocated h g -> keepsRefs g h h' ->
  refOf h' n = refOf h n.
Proof.
  intros Hn Hal Hk. destruct (Hal n Hn) as (c & o & Ho).
  destruct (Hk n Hn c o Ho) as (o' & Ho' & E).
  unfold refOf. now rewrite Ho, Ho'.
Qed.

(** Every reference leads to a node. *)
Definition refsResolve (h : heap) (g : DependencyGraph) : Prop :=
  forall r, In r (nodes g) -> isRefNode h r = true ->
    exists j a, nodeById g (refOf h r) = Ok (Some j) /\
                nodes g !! j = Some a.

(** The state [_finalize] starts in, seen from the start. *)
Section Finalize.
Variables (g : DependencyGraph) (h : heap) (input : value) (s1 : state).
Hypothesis Hinv : refInv g h s1.
Hypothesis Hal : modelsAllocated h g.

Lemma isRefNode_kept r : In r (nodes g) ->
  isRefNode (heap_ s1) r = isRefNode h r.
Proof.
  intros Hr. unfold isRefNode.
  now rewrite (refOf_kept g h _ r Hr Hal (proj2 (proj2 Hinv))).
Qed.

Lemma actualOf_kept r a :
  In r (nodes g) -> actualOf s1 r a ->
  exists a0, actualOf (newGraphInserter h input g) r a0 /\
             static a = static a0.
Proof.
  intros Hr (j & Hid & Hj). destruct Hinv as (Hst & Hby & Hk).
  destruct (static_lookup_ex _ _ j a (eq_sym Hst) Hj) as (a0 & Hj0 & E).
  exists a0. split; [|now symmetry].
  exists j. simpl. split; [|exact Hj0].
  rewrite <- (refOf_kept g h _ r Hr Hal Hk).
  unfold nodeById in *. now rewrite <- Hby.
Qed.

Lemma targetsApart_kept :
  targetsApart (newGraphInserter h input g) (nodes g) ->
  targetsApart s1 (nodes g).
Proof.
  intros Hap r a r' Hr Hrr Ha Hr' Hrr'.
  rewrite isRefNode_kept in Hrr, Hrr' by auto.
  destruct (actualOf_kept r a Hr Ha) as (a0 & Ha0 & E).
  apply static_fields in E as (_ & -> & _).
  now apply (Hap r a0 r').
Qed.

Lemma resolvable_kept :
  targetsApart (newGraphInserter h input g) (nodes g) ->
  refsResolve h g ->
  Forall (resolvable s1) (nodes g).
Proof.
  intros Hap Hres. apply List.Forall_forall. intros r Hr.
  destruct Hinv as (Hst & Hby & Hk).
  destruct (Hal r Hr) as (c & o & Ho).
  destruct (Hk r Hr c o Ho) as (o' & Ho' & _).
  exists c, o'. split; [exact Ho'|]. intros Hrr.
  rewrite isRefNode_kept in Hrr by auto.
  destruct (Hres r Hr Hrr) as (j & a0 & Hid & Hj).
  destruct (static_lookup_ex _ _ j a0 Hst Hj) as (a & Hja & E).
  apply static_fields in E as (_ & Em & _).
  assert (Ha0 : In a0 (nodes g)).
  { apply list_elem_of_In. eapply list_elem_of_lookup_2; eauto. }
  destruct (Hal a0 Ha0) as (ca & oa & Hoa).
  destruct (Hk a0 Ha0 ca oa Hoa) as (oa' & Hoa' & _).
  exists a, ca, oa'. rewrite Em. split; [|split; [exact Hoa'|]].
  - exists j. split; [|exact Hja].
    rewrite (refOf_kept g h _ r Hr Hal Hk).
    unfold nodeById in *. now rewrite Hby.
  - apply (Hap r a0 r); auto.
    exists j. simpl. auto.
Qed.

End Finalize.
(** *** A graph with a reference: [[{name: 'a', "#id": 'u1'}, {"#ref": 'u1'}]] *)

Definition refHeap : list cell :=
  [ Obj (Some Parent) [("name", VPrim (PStr "a")); ("#id", VPrim (PStr "u1"))];
    Obj (Some Parent) [("#ref", VPrim (PStr "u1")); ("#id", VPrim (PStr "r1"))];
    Arr [VRef 0; VRef 1] ].

Definition refNode : DependencyNode :=
  {| id := "r1"; model := 1; modelClass := Parent; needs := [];
     isNeededBy := []; manyToManyConnections := []; handled := true;
     numHandledNeeds := 0 |}.

Definition refGraph : DependencyGraph :=
  {| nodes := [ exNode "u1" 0 Parent [] []; refNode ];
     nodesById := {[ "u1" := 0; "r1" := 1 ]};
     inputNodesById := {[ "u1"; "r1" ]} |}.

Definition refStart : state := newGraphInserter refHeap (VRef 2) refGraph.



Lemma writeProp_keepsRef h a k v h' n :
  writeProp h (VRef a) k v = Ok h' -> uidRefProp (modelClass n) <> k ->
  keepsRef h h' n.
Proof.
  intros H Hk c o Ho. unfold writeProp in H.
  destruct (h !! a) as [[c' o'|]|] eqn:E; try discriminate.
  injection H as <-. destruct (decide (model n = a)) as [En|Hne].
  - rewrite En in *. rewrite E in Ho. injection Ho as -> ->.
    exists (setProp o k v). split.
    + apply list_lookup_insert_eq. eapply lookup_lt_Some; eauto.
    + apply getProp_setProp_ne. auto.
  - exists o. split; [|reflexivity].
    now rewrite list_lookup_insert_ne by auto.
Qed.

Lemma exInserter_keepsRefs g :
  (forall n, In n (nodes g) -> uidRefProp (modelClass n) <> "id") ->
  inserterKeepsRefs g exInserter.
Proof.
  intros Hid ti h h' [= <-]. revert h.
  induction (models ti) as [|b ms IH]; intros h; [apply keepsRefs_refl|].
  cbn [fold_left]. eapply keepsRefs_trans; [|apply IH].
  unfold assignId.
  destruct (writeProp h (VRef b) "id" (VPrim (PNum (Z.of_nat (10 + b)))))
    as [h1|] eqn:E; [|apply keepsRefs_refl].
  intros n Hn. eapply writeProp_keepsRef; eauto.
Qed.

Lemma refGraph_targets : targetsApart refStart (nodes refGraph).
Proof.
  intros r a r' Hr Hrr (j & Hj & Ha) Hr' Hrr'.
  simpl in Hr, Hr'.
  destruct Hr as [<-|[<-|[]]]; [vm_compute in Hrr; discriminate|].
  destruct Hr' as [<-|[<-|[]]]; [vm_compute in Hrr'; discriminate|].
  vm_compute in Hj. injection Hj as <-.
  vm_compute in Ha. injection Ha as <-. discriminate.
Qed.


(** *** A reference to a reference *)

(** [[{"#id": 'u1', "#ref": 'u2'}, {"#id": 'u2', "#ref": 'u3'},
    {"#id": 'u3', name: 'c'}]]: a reference to a reference. *)
Definition chainHeap : list cell :=
  [ Obj (Some Parent) [("#ref", VPrim (PStr "u2")); ("#id", VPrim (PStr "u1"))];
    Obj (Some Parent) [("#ref", VPrim (PStr "u3")); ("#id", VPrim (PStr "u2"))];
    Obj (Some Parent) [("name", VPrim (PStr "c")); ("#id", VPrim (PStr "u3"))];
    Arr [VRef 0; VRef 1; VRef 2] ].

Definition handledNode (uid : string) (m : nat) (c : ModelClass)
  : DependencyNode :=
  {| id := uid; model := m; modelClass := c; needs := [];
     isNeededBy := []; manyToManyConnections := []; handled := true;
     numHandledNeeds := 0 |}.

Definition chainGraph : DependencyGraph :=
  {| nodes := [ handledNode "u1" 0 Parent; handledNode "u2" 1 Parent;
                exNode "u3" 2 Parent [] [] ];
     nodesById := {[ "u1" := 0; "u2" := 1; "u3" := 2 ]};
     inputNodesById := {[ "u1"; "u2"; "u3" ]} |}.

(** A class whose uid property [$omit] leaves alone. *)
Definition Marked_ : ModelClass :=
  {| tableName := "marked"; idColumn := ["id"];
     uidProp := "$uid"; uidRefProp := "#ref"; relationNames := [];
     parseDatabaseJson := fun json => json;
     validateJson := fun json => Some json |}.

Definition markedHeap : list cell :=
  [ Obj (Some Marked_) [("name", VPrim (PStr "a"));
                        ("$uid", VPrim (PStr "u1"))];
    Obj (Some Marked_) [("#ref", VPrim (PStr "u1"));
                        ("$uid", VPrim (PStr "r1"))];
    Arr [VRef 0; VRef 1] ].

Definition markedGraph : DependencyGraph :=
  {| nodes := [ exNode "u1" 0 Marked_ [] []; handledNode "r1" 1 Marked_ ];
     nodesById := {[ "u1" := 0; "r1" := 1 ]};
     inputNodesById := {[ "u1"; "r1" ]} |}.


End Finalization.

Module JoinRows.
Import JS Heap Monad Graph GraphInserter GraphSpec JSFacts MonadFacts InserterFacts MarkFacts MarkInvFacts BatchFacts RunFacts FuelFacts RoundFacts TerminationFacts TraceFacts RoundTraceFacts ExecuteFacts GraphExample UidStripping.
Local Open Scope js_scope.

(** *** _.uniqBy *)

Section UniqBy.
Context {A : Type} (f : A -> string).

Lemma seen_In (seen : list string) k :
  existsb (String.eqb k) seen = true <-> In k seen.
Proof.
  rewrite existsb_exists. split.
  - intros (x & Hx & E). apply String.eqb_eq in E. now subst.
  - intros H. exists k. split; auto. apply String.eqb_refl.
Qed.

Lemma uniqByFrom_In seen l x :
  In x (Lodash.uniqByFrom String.eqb f seen l) ->
  In x l /\ ~ In (f x) seen.
Proof.
  revert seen. induction l as [|y l IH]; intros seen H; simpl in H.
  - destruct H.
  - destruct (existsb (String.eqb (f y)) seen) eqn:E.
    + destruct (IH _ H). split; auto. now right.
    + destruct H as [<-|H].
      * split; [now left|]. intros Hin. apply seen_In in Hin. congruence.
      * destruct (IH _ H) as [H1 H2]. split; [now right|].
        intros Hin. apply H2. now right.
Qed.

(** No two kept elements have the same key. *)
Lemma uniqByFrom_NoDup seen l :
  List.NoDup (map f (Lodash.uniqByFrom String.eqb f seen l)).
Proof.
  revert seen. induction l as [|y l IH]; intros seen; simpl.
  - constructor.
  - destruct (existsb (String.eqb (f y)) seen); auto.
    simpl. constructor; auto.
    intros Hin. apply in_map_iff in Hin as (x & E & Hx).
    apply uniqByFrom_In in Hx as [_ Hx]. apply Hx. rewrite E. now left.
Qed.

(** Every key is the key of a kept element. *)
Lemma uniqByFrom_covers seen l x :
  In x l ->
  In (f x) seen \/ In (f x) (map f (Lodash.uniqByFrom String.eqb f seen l)).
Proof.
  revert seen. induction l as [|y l IH]; intros seen H; [destruct H|].
  simpl. destruct (existsb (String.eqb (f y)) seen) eqn:E.
  - destruct H as [<-|H]; [left; now apply seen_In | now apply IH].
  - destruct H as [<-|H]; [right; now left|].
    destruct (IH (f y :: seen) H) as [[Heq|Hs]|Hk].
    + right. left. auto.
    + now left.
    + right. now right.
Qed.

(** The kept elements, in the order they had. *)
Lemma uniqByFrom_sublist seen l :
  sublist (Lodash.uniqByFrom String.eqb f seen l) l.
Proof.
  revert seen. induction l as [|y l IH]; intros seen; simpl.
  - constructor.
  - destruct (existsb (String.eqb (f y)) seen).
    + apply sublist_cons, IH.
    + apply sublist_skip, IH.
Qed.

Lemma uniqByFrom_all_seen seen l :
  (forall x, In x l -> In (f x) seen) ->
  Lodash.uniqByFrom String.eqb f seen l = [].
Proof.
  induction l as [|y l IH]; intros H; simpl; auto.
  assert (E : existsb (String.eqb (f y)) seen = true).
  { apply seen_In, H. now left. }
  rewrite E. apply IH. intros x Hx. apply H. now right.
Qed.

(** The first element of a key is kept. *)
Lemma uniqByFrom_first seen : forall l i x,
  l !! i = Some x -> ~ In (f x) seen ->
  (forall j y, j < i -> l !! j = Some y -> f y <> f x) ->
  In x (Lodash.uniqByFrom String.eqb f seen l).
Proof.
  intros l. revert seen. induction l as [|y l IH]; intros seen i x Hi Hs Hj.
  - now rewrite lookup_nil in Hi.
  - simpl. destruct i as [|i]; simpl in Hi.
    + injection Hi as ->.
      destruct (existsb (String.eqb (f x)) seen) eqn:E;
        [apply seen_In in E; contradiction | now left].
    + assert (Hy : f y <> f x) by (apply (Hj 0 y); [lia | reflexivity]).
      assert (Hrest : forall j z, j < i -> l !! j = Some z -> f z <> f x).
      { intros j z Hlt Hz. apply (Hj (S j) z); [lia | exact Hz]. }
      destruct (existsb (String.eqb (f y)) seen).
      * now apply (IH seen i).
      * right. apply (IH (f y :: seen) i); auto.
        intros [E|Hin]; [now apply Hy | now apply Hs].
Qed.

(** Elements that all have one key collapse to the first of them. *)
Lemma uniqBy_same_key x l :
  (forall y, In y l -> f y = f x) ->
  Lodash.uniqBy String.eqb f (x :: l) = [x].
Proof.
  intros H. unfold Lodash.uniqBy. simpl. f_equal.
  apply uniqByFrom_all_seen. intros y Hy. left. symmetry. auto.
Qed.

End UniqBy.

(** *** $propKey *)

(** The string forms of values. *)
Fixpoint strs (vs : list value) : result (list string) :=
  match vs with
  | [] => Ok []
  | v :: vs' =>
      bind (ModelJS.str v) (fun s =>
      bind (strs vs') (fun ss => Ok (s :: ss)))
  end.

Lemma propKeyLoop_join this ps : forall key,
  ModelJS.propKeyLoop this ps key =
  bind (strs (map (getProp this) ps))
       (fun ss => Ok (key +:+ String.concat "," ss)).
Proof.
  induction ps as [|p ps IH]; intros key; simpl.
  - now rewrite append_nil_r.
  - destruct (ModelJS.str (getProp this p)) as [s|e]; simpl; auto.
    rewrite IH. destruct ps as [|p' ps]; simpl.
    + now rewrite !append_nil_r.
    + destruct (ModelJS.str (getProp this p')) as [s'|e]; simpl; auto.
      destruct (strs (map (getProp this) ps)) as [ss|e]; simpl; auto.
      now rewrite !append_assoc.
Qed.

(** [$propKey(props)] is the string forms of the values of [props], joined
    by commas. *)
Lemma propKey_join this ps :
  ModelJS.propKey this ps =
  bind (strs (map (getProp this) ps)) (fun ss => Ok (String.concat "," ss)).
Proof.
  destruct ps as [|p0 [|p1 [|p2 [|p3 ps]]]].
  - reflexivity.
  - simpl. destruct (ModelJS.str (getProp this p0)); simpl; auto.
    now rewrite append_nil_r.
  - simpl. destruct (ModelJS.str (getProp this p0)); simpl; auto.
    destruct (ModelJS.str (getProp this p1)); simpl; auto.
  - simpl. destruct (ModelJS.str (getProp this p0)); simpl; auto.
    destruct (ModelJS.str (getProp this p1)); simpl; auto.
    destruct (ModelJS.str (getProp this p2)); simpl; auto.
  - unfold ModelJS.propKey. now rewrite propKeyLoop_join.
Qed.

(** Models with the same values of [ps] have the same key. *)
Lemma propKey_ext o1 o2 ps :
  (forall k, In k ps -> getProp o1 k = getProp o2 k) ->
  ModelJS.propKey o1 ps = ModelJS.propKey o2 ps.
Proof.
  intros H. rewrite !propKey_join.
  replace (map (getProp o1) ps) with (map (getProp o2) ps); auto.
  apply map_ext_in. intros k Hk. symmetry. auto.
Qed.

(** *** Keys that tell rows apart *)

Fixpoint hasChar (c : ascii) (s : string) : bool :=
  match s with
  | EmptyString => false
  | String c' s' => Ascii.eqb c c' || hasChar c s'
  end.

Lemma append_char_inj c : forall a a' r r',
  hasChar c a = false -> hasChar c a' = false ->
  a +:+ String c r = a' +:+ String c r' -> a = a' /\ r = r'.
Proof.
  induction a as [|x a IH]; intros [|x' a'] r r' Ha Ha' E.
  - change (String c r = String c r') in E. now injection E.
  - change (String c r = String x' (a' +:+ String c r')) in E.
    injection E as -> _. simpl in Ha'. now rewrite Ascii.eqb_refl in Ha'.
  - change (String x (a +:+ String c r) = String c r') in E.
    injection E as -> _. simpl in Ha. now rewrite Ascii.eqb_refl in Ha.
  - rewrite !append_cons in E. injection E as -> E.
    simpl in Ha, Ha'. apply orb_false_iff in Ha as [_ Ha].
    apply orb_false_iff in Ha' as [_ Ha'].
    destruct (IH a' r r' Ha Ha' E) as [-> ->]. auto.
Qed.

Lemma concat_comma_inj : forall ss ss',
  length ss = length ss' ->
  Forall (fun s => hasChar "," s = false) ss ->
  Forall (fun s => hasChar "," s = false) ss' ->
  String.concat "," ss = String.concat "," ss' -> ss = ss'.
Proof.
  induction ss as [|x ss IH]; intros [|x' ss'] Hl Hs Hs' E;
    try discriminate; auto.
  inversion Hs as [|? ? Hx Hss]; subst.
  inversion Hs' as [|? ? Hx' Hss']; subst.
  destruct ss as [|y ss], ss' as [|y' ss']; try discriminate.
  - simpl in E. now subst.
  - change (x +:+ String "," (String.concat "," (y :: ss)) =
            x' +:+ String "," (String.concat "," (y' :: ss'))) in E.
    destruct (append_char_inj _ _ _ _ _ Hx Hx' E) as [-> E'].
    f_equal. apply IH; auto.
Qed.

Lemma strs_length : forall vs ss, strs vs = Ok ss -> length ss = length vs.
Proof.
  induction vs as [|v vs IH]; intros ss; simpl.
  - now intros [= <-].
  - destruct (ModelJS.str v); simpl; [|discriminate].
    destruct (strs vs) as [ss'|]; simpl; [|discriminate].
    intros [= <-]. simpl. now rewrite (IH ss').
Qed.

Lemma strs_same : forall ps o1 o2 ss,
  strs (map (getProp o1) ps) = Ok ss ->
  strs (map (getProp o2) ps) = Ok ss ->
  forall p, In p ps -> ModelJS.str (getProp o1 p) = ModelJS.str (getProp o2 p).
Proof.
  induction ps as [|p0 ps IH]; intros o1 o2 ss; simpl; [tauto|].
  destruct (ModelJS.str (getProp o1 p0)) as [s1|] eqn:E1; simpl; [|discriminate].
  destruct (strs (map (getProp o1) ps)) as [ss1|] eqn:F1; simpl;
    [|discriminate].
  destruct (ModelJS.str (getProp o2 p0)) as [s2|] eqn:E2; simpl; [|discriminate].
  destruct (strs (map (getProp o2) ps)) as [ss2|] eqn:F2; simpl;
    [|discriminate].
  intros [= <-] [= -> ->] p [<-|Hin]; [congruence|].
  exact (IH o1 o2 ss1 F1 F2 p Hin).
Qed.

(** The values of the properties [ps] of [o], as strings, have no comma. *)
Definition commaFree (o : props) (ps : list string) : Prop :=
  forall p s, In p ps -> ModelJS.str (getProp o p) = Ok s -> hasChar "," s = false.

(** Two objects whose values contain no comma have the same key exactly
    when every property has the same string form in both. *)
Lemma propKey_same_iff (o1 o2 : props) (ps : list string)
    (key : string) :
  commaFree o1 ps -> commaFree o2 ps ->
  ModelJS.propKey o1 ps = Ok key ->
  (ModelJS.propKey o2 ps = Ok key <->
   forall p, In p ps -> ModelJS.str (getProp o1 p) = ModelJS.str (getProp o2 p)).
Proof.
  intros Hc1 Hc2. rewrite !propKey_join.
  destruct (strs (map (getProp o1) ps)) as [ss1|] eqn:E1; simpl;
    [|discriminate].
  intros [= <-]. split.
  - destruct (strs (map (getProp o2) ps)) as [ss2|] eqn:E2; simpl;
      [|discriminate].
    intros [= E].
    assert (ss2 = ss1); [|subst; eapply strs_same; eauto].
    apply concat_comma_inj; auto.
    + rewrite (strs_length _ _ E1), (strs_length _ _ E2).
      now rewrite !length_map.
    + apply List.Forall_forall. intros s Hs.
      assert (H : exists p, In p ps /\ ModelJS.str (getProp o2 p) = Ok s).
      { clear -E2 Hs. revert ss2 E2 Hs.
        induction ps as [|p0 ps IH]; intros ss2; simpl.
        - intros [= <-] [].
        - destruct (ModelJS.str (getProp o2 p0)) as [s0|] eqn:E0; simpl;
            [|discriminate].
          destruct (strs (map (getProp o2) ps)) as [ss'|]; simpl;
            [|discriminate].
          intros [= <-] [<-|Hin]; [exists p0; auto|].
          destruct (IH ss' eq_refl Hin) as (p & Hp & E'). eauto. }
      destruct H as (p & Hp & E'). eapply Hc2; eauto.
    + apply List.Forall_forall. intros s Hs.
      assert (H : exists p, In p ps /\ ModelJS.str (getProp o1 p) = Ok s).
      { clear -E1 Hs. revert ss1 E1 Hs.
        induction ps as [|p0 ps IH]; intros ss1; simpl.
        - intros [= <-] [].
        - destruct (ModelJS.str (getProp o1 p0)) as [s0|] eqn:E0; simpl;
            [|discriminate].
          destruct (strs (map (getProp o1) ps)) as [ss'|]; simpl;
            [|discriminate].
          intros [= <-] [<-|Hin]; [exists p0; auto|].
          destruct (IH ss' eq_refl Hin) as (p & Hp & E'). eauto. }
      destruct H as (p & Hp & E'). eapply Hc1; eauto.
  - intros Hsame.
    assert (E : strs (map (getProp o2) ps) = Ok ss1).
    { clear -E1 Hsame. revert ss1 E1.
      induction ps as [|p0 ps IH]; intros ss1; simpl; auto.
      rewrite <- (Hsame p0 (or_introl eq_refl)).
      destruct (ModelJS.str (getProp o1 p0)); simpl; [|discriminate].
      destruct (strs (map (getProp o1) ps)) as [ss'|] eqn:F; simpl;
        [|discriminate].
      intros [= <-]. rewrite (IH (fun p Hp => Hsame p (or_intror Hp)) ss')
        by reflexivity.
      reflexivity. }
    now rewrite E.
Qed.


Lemma combine_lookup {A B} : forall (l : list A) (k : list B) i a b,
  combine l k !! i = Some (a, b) <-> l !! i = Some a /\ k !! i = Some b.
Proof.
  induction l as [|x l IH]; intros k i a b.
  - simpl. rewrite !lookup_nil. split; [discriminate | now intros [H _]].
  - destruct k as [|y k].
    + simpl. rewrite !lookup_nil. split; [discriminate | now intros [_ H]].
    + destruct i as [|i]; simpl.
      * split; [intros [= -> ->]; auto | intros [[= ->] [= ->]]; auto].
      * apply IH.
Qed.

(** *** "Remove duplicates" *)

(** [_.uniq(_.flatMap(tableInsertion.models, _.keys))] *)
Definition keyUnion (rows : list props) : list string :=
  Lodash.uniq (Lodash.flatMap JS.keys rows).

(** The rows have the same values of the keys of the union. *)
Definition rowsAgree (rows : list props) : Prop :=
  forall o1 o2 k, In o1 rows -> In o2 rows -> In k (keyUnion rows) ->
    getProp o1 k = getProp o2 k.

(** The rows have the same string forms of the values of [ks]. *)
Definition sameForms (ks : list string) (o1 o2 : props) : Prop :=
  forall k, In k ks -> ModelJS.str (getProp o1 k) = ModelJS.str (getProp o2 k).

(** [ti'] is [ti] without the duplicates among its models: the models kept
    are models of [ti], in their order, no two of them have the same
    [$propKey] over the union of the keys, every model of [ti] has the
    [$propKey] of one of them, and models that all agree on the union of the
    keys leave the first of them.  For rows whose values contain no comma,
    two rows have the same [$propKey] exactly when the values of every key
    of the union have the same string form in both, and a row that differs
    so from all the rows before it is kept. *)
Definition deduplicated (h : heap) (ti ti' : TableInsertion) : Prop :=
  ti_modelClass ti' = ti_modelClass ti /\
  isJoinTableInsertion ti' = isJoinTableInsertion ti /\
  exists rows pks kept,
    snapshot h (models ti) = Ok rows /\
    Forall2 (fun o pk => ModelJS.propKey o (keyUnion rows) = Ok pk) rows pks /\
    sublist kept (combine (models ti) pks) /\
    List.NoDup (map snd kept) /\
    (forall pk, In pk pks -> In pk (map snd kept)) /\
    models ti' = map fst kept /\
    (models ti <> [] -> isInputModel ti' = repeat false (length kept)) /\
    (forall i j o1 o2 pk1 pk2,
       rows !! i = Some o1 -> rows !! j = Some o2 ->
       pks !! i = Some pk1 -> pks !! j = Some pk2 ->
       (forall k, In k (keyUnion rows) -> getProp o1 k = getProp o2 k) ->
       pk1 = pk2) /\
    (rowsAgree rows -> forall a ms, models ti = a :: ms -> models ti' = [a]) /\
    (forall i j o1 o2 pk1 pk2,
       rows !! i = Some o1 -> rows !! j = Some o2 ->
       pks !! i = Some pk1 -> pks !! j = Some pk2 ->
       commaFree o1 (keyUnion rows) -> commaFree o2 (keyUnion rows) ->
       (pk1 = pk2 <-> sameForms (keyUnion rows) o1 o2)) /\
    (Forall (fun o => commaFree o (keyUnion rows)) rows ->
     forall i a o,
       models ti !! i = Some a -> rows !! i = Some o ->
       (forall j o', j < i -> rows !! j = Some o' ->
                     ~ sameForms (keyUnion rows) o' o) ->
       In a (models ti')).

Lemma keyUnion_In rows k :
  In k (keyUnion rows) <-> exists o, In o rows /\ In k (keys o).
Proof.
  unfold keyUnion, Lodash.uniq, Lodash.uniqBy, Lodash.flatMap. split.
  - intros H. apply (uniqByFrom_In (fun s => s)) in H as [H _].
    apply in_concat in H as (ks & Hks & Hk).
    apply in_map_iff in Hks as (o & <- & Ho). eauto.
  - intros (o & Ho & Hk).
    assert (Hin : In k (concat (map keys rows))).
    { apply in_concat. exists (keys o). split; auto. now apply in_map. }
    destruct (uniqByFrom_covers (fun s => s) [] _ k Hin) as [[]|H].
    now rewrite map_id in H.
Qed.

Lemma propKeys_Forall2 ks rows pks :
  fold_right (fun o acc =>
                bind (ModelJS.propKey o ks) (fun k =>
                bind acc (fun ks => Ok (k :: ks))))
             (Ok []) rows = Ok pks ->
  Forall2 (fun o pk => ModelJS.propKey o ks = Ok pk) rows pks.
Proof.
  revert pks. induction rows as [|o rows IH]; simpl; intros pks H.
  - injection H as <-. constructor.
  - apply bind_Ok in H as (pk & Hpk & H).
    apply bind_Ok in H as (pks' & Hpks & H). injection H as <-.
    constructor; auto.
Qed.

Lemma Forall2_same_key {A} (F : A -> result string) rows pks pk :
  Forall2 (fun o p => F o = Ok p) rows pks ->
  (forall o, In o rows -> F o = Ok pk) ->
  forall p, In p pks -> p = pk.
Proof.
  induction 1 as [|o p rows pks Hp Hrest IH]; intros Hall q Hq;
    [destruct Hq|].
  destruct Hq as [<-|Hq].
  - specialize (Hall o (or_introl eq_refl)). congruence.
  - apply IH; auto. intros o' Ho'. apply Hall. now right.
Qed.

Lemma dedupInsertion_spec h ti ti' :
  dedupInsertion h ti = Ok ti' -> deduplicated h ti ti'.
Proof.
  unfold dedupInsertion, deduplicated.
  destruct (models ti) as [|a ms] eqn:Em.
  - intros [= <-]. split; auto. split; auto.
    exists [], [], []. rewrite Em. simpl.
    split; [reflexivity|]. split; [constructor|]. split; [constructor|].
    split; [constructor|]. split; [tauto|]. split; [reflexivity|].
    split; [tauto|]. split; [|split; [discriminate|split]].
    + intros i j o1 o2 pk1 pk2 Hi. now rewrite lookup_nil in Hi.
    + intros i j o1 o2 pk1 pk2 Hi. now rewrite lookup_nil in Hi.
    + intros _ i a o Hi. now rewrite lookup_nil in Hi.
  - intros H. apply bind_Ok in H as (rows & Hrows & H).
    apply bind_Ok in H as (pks & Hpks & H). injection H as <-. simpl.
    split; auto. split; auto.
    fold (keyUnion rows) in Hpks. apply propKeys_Forall2 in Hpks.
    exists rows, pks, (Lodash.uniqBy String.eqb snd (combine (a :: ms) pks)).
    split; [exact Hrows|]. split; [exact Hpks|].
    split; [apply uniqByFrom_sublist|].
    split; [apply uniqByFrom_NoDup|]. split.
    { intros pk Hpk.
      assert (Hl : length (a :: ms) = length pks).
      { apply Forall2_length in Hpks. rewrite <- Hpks. clear -Hrows.
        revert rows Hrows. generalize (a :: ms) as l.
        induction l as [|x l IH]; simpl; intros rows H.
        - now injection H as <-.
        - apply bind_Ok in H as (o & _ & H).
          apply bind_Ok in H as (os & Hos & H). injection H as <-.
          simpl. f_equal. auto. }
      assert (Hin : exists x, In x (combine (a :: ms) pks) /\ snd x = pk).
      { clear -Hl Hpk. revert pks Hl Hpk. generalize (a :: ms) as l.
        induction l as [|x l IH]; intros [|p pks] Hl Hpk; simpl in *;
          try discriminate; try tauto.
        destruct Hpk as [->|Hpk].
        - exists (x, pk). auto.
        - destruct (IH pks) as (y & Hy & E); auto. exists y. auto. }
      destruct Hin as (x & Hx & <-).
      destruct (uniqByFrom_covers snd [] _ x Hx) as [[]|H]. exact H. }
    split; [reflexivity|].
    split; [intros _; simpl; now rewrite length_map|].
    split.
    { intros i j o1 o2 pk1 pk2 Hi Hj Hpi Hpj Hsame.
      pose proof (Forall2_lookup_lr _ _ _ _ _ _ Hpks Hi Hpi) as E1.
      pose proof (Forall2_lookup_lr _ _ _ _ _ _ Hpks Hj Hpj) as E2.
      simpl in E1, E2. rewrite (propKey_ext o1 o2) in E1 by auto.
      congruence. }
    assert (Hiff : forall i j o1 o2 pk1 pk2,
              rows !! i = Some o1 -> rows !! j = Some o2 ->
              pks !! i = Some pk1 -> pks !! j = Some pk2 ->
              commaFree o1 (keyUnion rows) -> commaFree o2 (keyUnion rows) ->
              (pk1 = pk2 <-> sameForms (keyUnion rows) o1 o2)).
    { intros i j o1 o2 pk1 pk2 Hi Hj Hpi Hpj Hc1 Hc2.
      pose proof (Forall2_lookup_lr _ _ _ _ _ _ Hpks Hi Hpi) as E1.
      pose proof (Forall2_lookup_lr _ _ _ _ _ _ Hpks Hj Hpj) as E2.
      simpl in E1, E2.
      rewrite <- (propKey_same_iff o1 o2 _ pk1 Hc1 Hc2 E1).
      split; intros H; congruence. }
    split; [|split; [exact Hiff|]].
    2:{ intros Hfree i a0 o Hi Hoi Hdiff.
        assert (Hlen : length (a :: ms) = length rows).
        { apply snapshot_Ok, Forall2_length in Hrows. exact Hrows. }
        destruct (pks !! i) as [pk|] eqn:Hpi.
        2:{ apply lookup_ge_None in Hpi.
            apply Forall2_length in Hpks.
            apply lookup_lt_Some in Hoi. lia. }
        apply in_map_iff. exists (a0, pk). split; [reflexivity|].
        apply (uniqByFrom_first snd [] (combine (a :: ms) pks) i);
          [|tauto|].
        - apply (proj2 (combine_lookup (a :: ms) pks i a0 pk)). auto.
        - intros j [aj pkj] Hlt Hj E. simpl in E. subst pkj.
          apply (proj1 (combine_lookup (a :: ms) pks j aj pk)) in Hj
            as [Haj Hpj].
          destruct (rows !! j) as [oj|] eqn:Hoj.
          2:{ apply lookup_ge_None in Hoj. apply lookup_lt_Some in Haj.
              lia. }
          apply (Hdiff j oj Hlt Hoj).
          rewrite List.Forall_forall in Hfree.
          apply (Hiff j i oj o pk pk Hoj Hoi Hpj Hpi); auto.
          + apply Hfree, list_elem_of_In. eapply list_elem_of_lookup_2; eauto.
          + apply Hfree, list_elem_of_In. eapply list_elem_of_lookup_2; eauto. }
    intros Hagree a' ms' [= <- <-].
    simpl in Hrows. apply bind_Ok in Hrows as (o & _ & Hrows).
    apply bind_Ok in Hrows as (rows' & _ & Hrows). injection Hrows as <-.
    inversion Hpks as [|? pk ? pks' Hpk Hrest]; subst.
    cbn [combine]. rewrite uniqBy_same_key; [reflexivity|].
    intros [b pkb] Hb. simpl. apply in_combine_r in Hb.
    clear -Hagree Hpk Hrest Hb.
    assert (Hall : forall o', In o' rows' ->
              ModelJS.propKey o' (keyUnion (o :: rows')) = Ok pk).
    { intros o' Ho'. rewrite <- Hpk. apply propKey_ext. intros k Hk.
      apply Hagree; simpl; auto. }
    apply (Forall2_same_key _ _ _ _ Hrest Hall _ Hb).
Qed.

(** *** The batch of join rows, table by table *)

Definition dedupStep (h : heap) (acc : result batch)
    (kv : string * TableInsertion) : result batch :=
  bind acc (fun b' =>
  bind (dedupInsertion h (snd kv)) (fun ti =>
    Ok (batchSet b' (fst kv) ti))).

Lemma dedupStep_Err h l e : fold_left (dedupStep h) l (Err e) = Err e.
Proof. induction l; simpl; auto. Qed.

Lemma batchSet_fresh (pre : batch) k x ti l :
  ~ In k (map fst pre) ->
  batchSet (pre ++ (k, x) :: l) k ti = pre ++ (k, ti) :: l.
Proof.
  induction pre as [|[k' y] pre IH]; intros Hk; simpl.
  - now rewrite String.eqb_refl.
  - destruct (String.eqb_spec k' k) as [->|Hne].
    + exfalso. apply Hk. now left.
    + f_equal. apply IH. intros H. apply Hk. now right.
Qed.

Lemma batchSet_keys b k ti :
  map fst (batchSet b k ti) =
  match batchGet b k with
  | Some _ => map fst b
  | None => map fst b ++ [k]
  end.
Proof.
  induction b as [|[k' y] b IH]; simpl; auto.
  destruct (String.eqb_spec k' k) as [->|Hne]; simpl; auto.
  rewrite IH. now destruct (batchGet b k).
Qed.

Lemma batchGet_None b k : batchGet b k = None -> ~ In k (map fst b).
Proof.
  induction b as [|[k' y] b IH]; simpl; auto.
  destruct (String.eqb_spec k' k) as [->|Hne]; [discriminate|].
  intros H [E|Hin]; [congruence | now apply IH].
Qed.

Definition distinctTables (b : batch) : Prop := List.NoDup (map fst b).

Lemma distinctTables_batchSet b k ti :
  distinctTables b -> distinctTables (batchSet b k ti).
Proof.
  unfold distinctTables. intros H. rewrite batchSet_keys.
  destruct (batchGet b k) eqn:E; auto.
  apply NoDup_ListNoDup, NoDup_app. apply NoDup_ListNoDup in H.
  split; [exact H|]. split.
  - intros x Hx Hk. apply list_elem_of_In in Hk. destruct Hk as [<-|[]].
    apply (batchGet_None _ _ E). now apply list_elem_of_In.
  - apply NoDup_singleton.
Qed.

Lemma addJoinRow_distinct node b conn s s' b' :
  distinctTables b -> addJoinRow node b conn s = (s', Ok b') ->
  distinctTables b'.
Proof.
  intros Hb H. unfold addJoinRow in H.
  repeat match goal with
         | H : mbind _ _ _ = (_, Ok _) |- _ =>
             apply mbind_Ok in H as (? & ? & _ & H)
         end.
  destruct (batchGet b (tableKey (joinTable (conn_relation conn))));
    injection H as _ <-; now apply distinctTables_batchSet.
Qed.

(** Every insertion of the batch is replaced by its deduplicated form. *)
Lemma dedupAll_spec h r : forall (l pre done : batch),
  distinctTables (pre ++ l) ->
  Forall2 (fun kv kv' => fst kv' = fst kv /\
                         dedupInsertion h (snd kv) = Ok (snd kv')) pre done ->
  fold_left (dedupStep h) l (Ok (done ++ l)) = Ok r ->
  Forall2 (fun kv kv' => fst kv' = fst kv /\
                         dedupInsertion h (snd kv) = Ok (snd kv'))
          (pre ++ l) r.
Proof.
  induction l as [|[k ti] l IH]; intros pre done Hd Hpre H; simpl in H.
  - rewrite app_nil_r in *. now injection H as <-.
  - destruct (dedupInsertion h ti) as [ti'|e] eqn:Eti; simpl in H;
      [|now rewrite dedupStep_Err in H].
    assert (Hkeys : map fst done = map fst pre).
    { clear -Hpre. induction Hpre as [|x y ? ? [E _] _ IH]; simpl; auto.
      now rewrite E, IH. }
    rewrite batchSet_fresh in H.
    + replace (pre ++ (k, ti) :: l) with ((pre ++ [(k, ti)]) ++ l)
        by now rewrite <- app_assoc.
      apply (IH (pre ++ [(k, ti)]) (done ++ [(k, ti')])).
      * now rewrite <- app_assoc.
      * apply Forall2_app; auto.
      * now rewrite <- app_assoc.
    + rewrite Hkeys. unfold distinctTables in Hd.
      rewrite map_app in Hd. simpl in Hd.
      apply NoDup_remove_2 in Hd. intros Hin. apply Hd.
      apply in_or_app. now left.
Qed.

(** *** A pair related twice: a person whose movies name the same movie
    directly and by reference *)

Definition Person : ModelClass := Model "Person" ["movies"].
Definition Movie : ModelClass := Model "Movie" [].
Definition Person_Movie : ModelClass := Model "Person_Movie" [].

Definition movies : Relation :=
  {| name := "movies"; isOneToOne := false;
     ownerProp := ["id"]; relatedProp := ["id"];
     joinTable := Some "Person_Movie";
     joinTableOwnerProp := ["personId"]; joinTableRelatedProp := ["movieId"];
     joinTableExtras := []; joinTableModelClass := Person_Movie |}.

Definition pairHeap : list cell :=
  [ Obj (Some Person) [("name", VPrim (PStr "p")); ("id", VPrim (PNum 1))];
    Obj (Some Movie) [("name", VPrim (PStr "m")); ("id", VPrim (PNum 2))];
    Obj (Some Movie) [("#ref", VPrim (PStr "m"))] ].

Definition pairNode (uid : string) (m : nat) (c : ModelClass)
    (conns : list ManyToManyConnection) : DependencyNode :=
  {| id := uid; model := m; modelClass := c; needs := []; isNeededBy := [];
     manyToManyConnections := conns; handled := true;
     numHandledNeeds := 0 |}.

Definition pairGraph : DependencyGraph :=
  {| nodes :=
       [ pairNode "p" 0 Person
           [ {| conn_node := 1; conn_refNode := None;
                conn_relation := movies |};
             {| conn_node := 1; conn_refNode := Some 2;
                conn_relation := movies |} ];
         pairNode "m" 1 Movie [];
         pairNode "r" 2 Movie [] ];
     nodesById := {[ "p" := 0; "m" := 1; "r" := 2 ]};
     inputNodesById := {[ "p" ]} |}.

Definition pairState : state := newGraphInserter pairHeap (VRef 0) pairGraph.

(** The one join row left, the first of the two built. *)
Definition pairJoinRows : batch :=
  [ ("Person_Movie",
     {| ti_modelClass := Person_Movie; isJoinTableInsertion := true;
        models := [3]; isInputModel := [false] |}) ].

Lemma pair_related_twice :
  snd (_createManyToManyRelationJoinRowBatch pairState) = Ok pairJoinRows /\
  heap_ (fst (_createManyToManyRelationJoinRowBatch pairState)) !! 3 =
  Some (Obj (Some Person_Movie)
          [("personId", VPrim (PNum 1)); ("movieId", VPrim (PNum 2))]).
Proof. split; vm_compute; reflexivity. Qed.


(** *** The duplicates are always removed *)

(** The models are objects whose properties hold primitive values, as
    join rows made of identifiers do. *)
Definition primRows (h : heap) (ms : list nat) : Prop :=
  Forall (fun a => exists c o,
            h !! a = Some (Obj c o) /\
            Forall (fun kv => exists p, snd kv = VPrim p) o) ms.

Lemma getProp_prim o k :
  Forall (fun kv => exists p, snd kv = VPrim p) o ->
  exists p, getProp o k = VPrim p.
Proof.
  induction 1 as [|[k' v] o [p Hp] _ IH]; simpl.
  - now exists PUndefined.
  - destruct (String.eqb k' k); [now exists p | exact IH].
Qed.

Lemma strs_runs o :
  Forall (fun kv => exists p, snd kv = VPrim p) o ->
  forall ks, exists ss, strs (map (getProp o) ks) = Ok ss.
Proof.
  intros Ho. induction ks as [|k ks [ss IH]]; simpl; [now exists []|].
  destruct (getProp_prim o k Ho) as [p ->]. simpl. rewrite IH. simpl. eauto.
Qed.

Lemma propKeys_run ks : forall rows,
  Forall (Forall (fun kv => exists p, snd kv = VPrim p)) rows ->
  exists pks,
    fold_right (fun o acc =>
                  bind (ModelJS.propKey o ks) (fun k =>
                  bind acc (fun ks => Ok (k :: ks))))
               (Ok []) rows = Ok pks.
Proof.
  induction 1 as [|o rows Ho _ [pks IH]]; simpl; [now exists []|].
  rewrite propKey_join. destruct (strs_runs o Ho ks) as [ss ->]. simpl.
  rewrite IH. simpl. eauto.
Qed.

Lemma dedupInsertion_runs h ti :
  primRows h (models ti) -> exists ti', dedupInsertion h ti = Ok ti'.
Proof.
  intros Hp. unfold dedupInsertion.
  destruct (models ti) as [|a ms] eqn:Em; [now exists ti|].
  assert (Hobj : Forall (isObject h) (a :: ms)).
  { eapply Forall_impl; [exact Hp|]. intros b (c & o & Hb & _).
    now exists c, o. }
  pose proof (snapshot_runs h (a :: ms) Hobj) as Hsn.
  unfold snapshot in Hsn. rewrite Hsn. cbn [bind].
  match goal with
  | |- context [fold_right _ (Ok []) ?rows] =>
      destruct (propKeys_run
                  (Lodash.uniq (Lodash.flatMap JS.keys rows)) rows)
        as [pks Hpks]
  end.
  - apply Forall_map. eapply Forall_impl; [exact Hp|].
    intros b (c & o & Hb & Ho). now rewrite Hb.
  - rewrite Hpks. simpl. eauto.
Qed.

(** C2, amended: the batch of join rows is the batch built from the
    many-to-many connections, table by table, with every insertion
    deduplicated by [$propKey] over the union of the keys of all the rows
    of the table, which joins the string forms of the values with commas.
    The models kept are models of the insertion, in their order; no two of
    them have the same key; every row has the key of a row that is kept;
    rows with the same values have the same key, so the same pair related
    twice leaves one row, the first.  For rows whose values contain no
    comma, two rows have the same key exactly when the values of every key
    of the union have the same string form in both, and a row that differs
    so from all the rows before it is kept.  Removing the duplicates never
    fails on rows of primitive values. *)
Theorem join_rows_deduplicated (s s' : state) (jb : batch) :
  _createManyToManyRelationJoinRowBatch s = (s', Ok jb) ->
  (exists built,
     foldM (fun b node =>
              foldM (addJoinRow node) (manyToManyConnections node) b)
           (nodes (graph s)) [] s = (s', Ok built) /\
     Forall2 (fun kv kv' => fst kv' = fst kv /\
                            deduplicated (heap_ s') (snd kv) (snd kv'))
             built jb) /\
  (forall h ti, primRows h (models ti) ->
     exists ti', dedupInsertion h ti = Ok ti').
Proof.
  intros H. split; [|intros h ti; apply dedupInsertion_runs].
  revert H. unfold _createManyToManyRelationJoinRowBatch. intros H.
  apply mbind_Ok in H as (s1 & s0 & Hget & H).
  injection Hget as <- <-.
  apply mbind_Ok in H as (s2 & built & Hb & H).
  apply mbind_Ok in H as (s3 & s4 & Hget & H).
  injection Hget as <- <-.
  apply lift_Ok in H as [<- H].
  exists built. split; [exact Hb|].
  assert (Hd : distinctTables built).
  { revert Hb. apply (foldM_Ok_inv distinctTables); [|constructor].
    intros acc node t t' acc' Hacc.
    apply (foldM_Ok_inv distinctTables); auto.
    intros acc1 conn u u' acc2. apply addJoinRow_distinct. }
  change (fold_left (dedupStep (heap_ s')) built (Ok ([] ++ built)) = Ok jb)
    in H.
  apply (dedupAll_spec _ _ built [] []) in H; auto.
  simpl in H. eapply Forall2_impl; [exact H|].
  intros kv kv' [E Hk]. split; auto. now apply dedupInsertion_spec.
Qed.


(** *** A person with two movies, one of them named twice *)

Definition castHeap : list cell :=
  [ Obj (Some Person) [("name", VPrim (PStr "p")); ("id", VPrim (PNum 1))];
    Obj (Some Movie) [("name", VPrim (PStr "m")); ("id", VPrim (PNum 2))];
    Obj (Some Movie) [("#ref", VPrim (PStr "m"))];
    Obj (Some Movie) [("name", VPrim (PStr "n")); ("id", VPrim (PNum 3))] ].

Definition castGraph : DependencyGraph :=
  {| nodes :=
       [ pairNode "p" 0 Person
           [ {| conn_node := 1; conn_refNode := None;
                conn_relation := movies |};
             {| conn_node := 1; conn_refNode := Some 2;
                conn_relation := movies |};
             {| conn_node := 3; conn_refNode := None;
                conn_relation := movies |} ];
         pairNode "m" 1 Movie [];
         pairNode "r" 2 Movie [];
         pairNode "n" 3 Movie [] ];
     nodesById := {[ "p" := 0; "m" := 1; "r" := 2; "n" := 3 ]};
     inputNodesById := {[ "p" ]} |}.

Definition castState : state := newGraphInserter castHeap (VRef 0) castGraph.

(** The rows left: the first and the third of the three built. *)
Definition castJoinRows : batch :=
  [ ("Person_Movie",
     {| ti_modelClass := Person_Movie; isJoinTableInsertion := true;
        models := [4; 6]; isInputModel := [false; false] |}) ].

Lemma join_rows_deduplicated_witness :
  _createManyToManyRelationJoinRowBatch castState =
    (fst (_createManyToManyRelationJoinRowBatch castState),
     Ok castJoinRows) /\
  (exists built,
     foldM (fun b node =>
              foldM (addJoinRow node) (manyToManyConnections node) b)
           (nodes (graph castState)) [] castState =
       (fst (_createManyToManyRelationJoinRowBatch castState), Ok built) /\
     Forall2 (fun kv kv' =>
                fst kv' = fst kv /\
                deduplicated
                  (heap_ (fst (_createManyToManyRelationJoinRowBatch
                                 castState)))
                  (snd kv) (snd kv'))
             built castJoinRows) /\
  (forall h ti, primRows h (models ti) ->
     exists ti', dedupInsertion h ti = Ok ti').
Proof.
  assert (Hrun : _createManyToManyRelationJoinRowBatch castState =
                 (fst (_createManyToManyRelationJoinRowBatch castState),
                  Ok castJoinRows)) by (vm_compute; reflexivity).
  split; [exact Hrun|].
  exact (join_rows_deduplicated castState _ castJoinRows Hrun).
Defined.

(** *** Rows that differ and have one key *)

(** Two persons whose identifiers are the number 1 and the string ['1'],
    with the same movie. *)
Definition namesakeHeap : list cell :=
  [ Obj (Some Person) [("name", VPrim (PStr "p")); ("id", VPrim (PNum 1))];
    Obj (Some Person) [("name", VPrim (PStr "q")); ("id", VPrim (PStr "1"))];
    Obj (Some Movie) [("name", VPrim (PStr "m")); ("id", VPrim (PNum 2))] ].

Definition oneMovie : list ManyToManyConnection :=
  [ {| conn_node := 2; conn_refNode := None; conn_relation := movies |} ].

Definition namesakeGraph : DependencyGraph :=
  {| nodes := [ pairNode "p" 0 Person oneMovie;
                pairNode "q" 1 Person oneMovie;
                pairNode "m" 2 Movie [] ];
     nodesById := {[ "p" := 0; "q" := 1; "m" := 2 ]};
     inputNodesById := {[ "p"; "q" ]} |}.

(** Identifiers with a comma: ['x,y'] with the movie ['z'], and ['x'] with
    the movie ['y,z']. *)
Definition commaHeap : list cell :=
  [ Obj (Some Person) [("id", VPrim (PStr "x,y"))];
    Obj (Some Person) [("id", VPrim (PStr "x"))];
    Obj (Some Movie) [("id", VPrim (PStr "z"))];
    Obj (Some Movie) [("id", VPrim (PStr "y,z"))] ].

Definition commaGraph : DependencyGraph :=
  {| nodes :=
       [ pairNode "p" 0 Person
           [ {| conn_node := 2; conn_refNode := None;
                conn_relation := movies |} ];
         pairNode "q" 1 Person
           [ {| conn_node := 3; conn_refNode := None;
                conn_relation := movies |} ];
         pairNode "m" 2 Movie [];
         pairNode "n" 3 Movie [] ];
     nodesById := {[ "p" := 0; "q" := 1; "m" := 2; "n" := 3 ]};
     inputNodesById := {[ "p"; "q" ]} |}.

(** C2 as stated fails: the rows are compared by the string key of
    [$propKey], not by their values.  The join rows of the two persons
    differ in [personId] and only the first is left; so it is with the
    rows ['x,y'], ['z'] and ['x'], ['y,z']. *)
Lemma rows_that_differ_are_merged :
  (exists s' ti o1 o2,
     _createManyToManyRelationJoinRowBatch
       (newGraphInserter namesakeHeap (VRef 0) namesakeGraph) =
       (s', Ok [("Person_Movie", ti)]) /\
     models ti = [3] /\
     heap_ s' !! 3 = Some (Obj (Some Person_Movie) o1) /\
     heap_ s' !! 4 = Some (Obj (Some Person_Movie) o2) /\
     getProp o1 "personId" = VPrim (PNum 1) /\
     getProp o2 "personId" = VPrim (PStr "1")) /\
  (exists s' ti o1 o2,
     _createManyToManyRelationJoinRowBatch
       (newGraphInserter commaHeap (VRef 0) commaGraph) =
       (s', Ok [("Person_Movie", ti)]) /\
     models ti = [4] /\
     heap_ s' !! 4 = Some (Obj (Some Person_Movie) o1) /\
     heap_ s' !! 5 = Some (Obj (Some Person_Movie) o2) /\
     getProp o1 "movieId" = VPrim (PStr "z") /\
     getProp o2 "movieId" = VPrim (PStr "y,z")).
Proof.
  split; eexists _, _, _, _; (split; [vm_compute; reflexivity|]);
    repeat split; reflexivity.
Qed.

End JoinRows.

Module AliasLength.
Import JS Heap Monad Graph JSString RelationJoinBuilder JSFacts MonadFacts.
Local Open Scope js_scope.

(** *** The aliases [buildSelects] computes *)

(** The columns selected: those the filter passes and the id columns. *)
Definition selectedColumn (args : SelectArgs) (col : string) : bool :=
  selectFilter args col
  || existsb (String.eqb col) (idColumn (arg_modelClass args)).

(** The aliases of the selects, in the order they are pushed. *)
Definition aliasesOf (opt : Options) (args : SelectArgs)
    (columns : list string) : list string :=
  map (joinPath (separator opt) (encPath (arg_info args)))
      (List.filter (selectedColumn args) columns)
  ++ match arg_relation args with
     | Some relation =>
         map (fun extra => joinPath (separator opt) (encPath (arg_info args))
                                    (aliasCol extra))
             (List.filter (fun extra => selectFilter args (joinTableCol extra))
                          (joinTableExtras relation))
     | None => []
     end.

Definition longAlias (alias : string) : bool :=
  Nat.ltb idLengthLimit (String.length alias).

Lemma selectColumns_spec opt rootTable args columns : forall acc s,
  exists s' sels,
    foldM (selectColumn opt rootTable args) columns acc s =
      (s', Ok (acc ++ sels)) /\
    map sel_alias sels =
      map (joinPath (separator opt) (encPath (arg_info args)))
          (List.filter (selectedColumn args) columns) /\
    bs_selected s' = bs_selected s /\ bs_encoder s' = bs_encoder s.
Proof.
  induction columns as [|col columns IH]; intros acc s; simpl.
  - exists s, []. rewrite app_nil_r. auto.
  - unfold mbind at 1, selectColumn at 1. unfold selectedColumn at 1.
    destruct (selectFilter args col) eqn:Hf; simpl.
    + match goal with
      | |- context [foldM _ columns ?a ?t] =>
          destruct (IH a t) as (s' & sels & Hrun & Hal & Hsel & Henc)
      end.
      eexists s', (_ :: sels). rewrite <- app_assoc in Hrun.
      split; [exact Hrun|]. simpl. rewrite Hal. auto.
    + destruct (existsb (String.eqb col) (idColumn (arg_modelClass args)))
        eqn:Hid; simpl.
      * unfold omitCol, modify. simpl.
        match goal with
        | |- context [foldM _ columns ?a ?t] =>
            destruct (IH a t) as (s' & sels & Hrun & Hal & Hsel & Henc)
        end.
        eexists s', (_ :: sels). rewrite <- app_assoc in Hrun.
        split; [exact Hrun|]. simpl. rewrite Hal. auto.
      * destruct (IH acc s) as (s' & sels & H).
        exists s', sels. exact H.
Qed.

Lemma encode_returns opt path e :
  exists e' encPath, encode opt path e = (e', Ok encPath).
Proof.
  unfold encode, mbind, get.
  destruct (match encodings e !! path with
            | Some encPath => negb (String.eqb encPath "")
            | None => false
            end); [unfold ret; eauto|].
  destruct (negb (minimize opt)); [unfold ret, remember, modify; eauto|].
  destruct (String.eqb path ""); unfold ret, nextEncodedPath, remember, modify;
    eauto.
Qed.

Lemma selectExtras_spec opt args joinTable extras : forall acc,
  exists sels,
    fold_left (selectExtra opt args joinTable) extras acc = acc ++ sels /\
    map sel_alias sels =
      map (fun extra => joinPath (separator opt) (encPath (arg_info args))
                                 (aliasCol extra))
          (List.filter (fun extra => selectFilter args (joinTableCol extra))
                       extras).
Proof.
  induction extras as [|x extras IH]; intros acc; simpl.
  - exists []. now rewrite app_nil_r.
  - unfold selectExtra at 2.
    destruct (selectFilter args (joinTableCol x)); simpl.
    + match goal with
      | |- context [fold_left _ extras ?a] =>
          destruct (IH a) as (sels & Hrun & Hal)
      end.
      eexists (_ :: sels). rewrite <- app_assoc in Hrun.
      split; [exact Hrun|]. simpl. now rewrite Hal.
    + apply IH.
Qed.

Lemma filter_tooLong sels :
  map sel_alias (List.filter tooLong sels) =
  List.filter longAlias (map sel_alias sels).
Proof.
  induction sels as [|x sels IH]; simpl; auto.
  unfold tooLong at 1, longAlias at 1.
  destruct (Nat.ltb idLengthLimit (String.length (sel_alias x))); simpl;
    now rewrite IH.
Qed.

(** C4: with the columns of the table known, [buildSelects] throws a
    ValidationError naming the first alias of more than 63 characters, and
    has not called [builder.select] then; when no alias is longer than 63
    characters it returns, after one call of [builder.select]. *)
Theorem long_alias_rejected
    (opt : Options) (rootModelClass : ModelClass)
    (columnInfo : gmap string (list string)) (args : SelectArgs)
    (columns : list string) (s : BuildState) :
  columnInfo !! tableName (arg_modelClass args) = Some columns ->
  let r := buildSelects opt rootModelClass columnInfo args s in
  match List.filter longAlias (aliasesOf opt args columns) with
  | alias :: _ =>
      snd r = Err (ValidationError (tooLongMessage alias)) /\
      bs_selected (fst r) = bs_selected s
  | [] =>
      snd r = Ok tt /\
      exists selects, bs_selected (fst r) = bs_selected s ++ [selects]
  end.
Proof.
  intros Hcols r. subst r. unfold buildSelects. rewrite Hcols.
  destruct (selectColumns_spec opt (tableName rootModelClass) args columns
              [] s) as (s1 & sels & Hrun & Hal & Hsel & Henc).
  simpl app in Hrun. unfold mbind. rewrite Hrun. cbv beta iota.
  unfold aliasesOf.
  destruct (arg_relation args) as [relation|].
  - unfold onEncoder.
    destruct (encode_returns opt (joinTableForPath (path (arg_info args)))
                (bs_encoder s1)) as (e' & joinTable & Henc').
    rewrite Henc'. unfold ret. cbv beta iota.
    destruct (selectExtras_spec opt args joinTable (joinTableExtras relation)
                sels) as (xs & Hx & Hxal).
    rewrite Hx.
    rewrite <- Hal, <- Hxal, <- map_app, <- filter_tooLong.
    destruct (List.filter tooLong (sels ++ xs)) as [|select rest];
      unfold builderSelect, modify, throw; simpl.
    + split; auto. rewrite Hsel. eauto.
    + split; auto.
  - unfold ret.
    rewrite app_nil_r, <- Hal, <- filter_tooLong.
    destruct (List.filter tooLong sels) as [|select rest];
      unfold builderSelect, modify, throw; simpl.
    + split; auto. rewrite Hsel. eauto.
    + split; auto.
Qed.

(** *** A path whose alias with a column has 70 characters *)

Definition City : ModelClass := Model "City" [].

Definition capital : Relation :=
  {| name := "capital"; isOneToOne := true;
     ownerProp := ["capitalId"]; relatedProp := ["id"];
     joinTable := None; joinTableOwnerProp := []; joinTableRelatedProp := [];
     joinTableExtras := []; joinTableModelClass := City |}.

Definition longPath : string :=
  "parent:children:pets:owner:employers:headquarters:countries:capital".

Definition capitalInfo : PathInfo :=
  {| path := longPath; encPath := longPath;
     encParentPath :=
       Some "parent:children:pets:owner:employers:headquarters:countries";
     pi_modelClass := City; relation := Some capital; omitCols := [];
     children := []; idGetter := createIdGetter ":" City longPath;
     oneToOne := true |}.

Definition capitalArgs : SelectArgs :=
  {| selectFilter := fun col => String.eqb col "name";
     arg_modelClass := City; arg_relation := Some capital;
     arg_info := capitalInfo; hasSelection := fun _ => false |}.

Definition capitalStart : BuildState :=
  {| bs_encoder := newEncoder; bs_omitCols := []; bs_selected := [] |}.

Definition cityColumns : gmap string (list string) :=
  {[ "City" := ["id"; "name"; "population"] ]}.

Lemma long_alias_rejected_witness :
  String.length (longPath +:+ ":id") = 70 /\
  snd (buildSelects defaultOptions City cityColumns capitalArgs capitalStart) =
    Err (ValidationError (tooLongMessage (longPath +:+ ":id"))) /\
  bs_selected
    (fst (buildSelects defaultOptions City cityColumns capitalArgs
            capitalStart)) = [].
Proof.
  split; [reflexivity|].
  pose proof (long_alias_rejected defaultOptions City cityColumns capitalArgs
                ["id"; "name"; "population"] capitalStart eq_refl) as W.
  vm_compute in W. vm_compute. exact W.
Defined.

End AliasLength.

Module AliasEncoding.
Import JS Heap Monad Graph JSString RelationJoinBuilder JSFacts MonadFacts.
Local Open Scope js_scope.

(** *** The generated tokens *)

Lemma to_uint_nonnil n : Nat.to_uint n <> Decimal.Nil.
Proof.
  intros H. pose proof (Unsigned.to_of (Nat.to_uint n)) as E.
  rewrite Unsigned.of_to in E. rewrite E in H.
  exact (DecimalFacts.unorm_nonnil _ H).
Qed.

Lemma string_of_nat_inj n m : string_of_nat n = string_of_nat m -> n = m.
Proof.
  unfold string_of_nat. intros H.
  assert (E : NilZero.uint_of_string (NilZero.string_of_uint (Nat.to_uint n)) =
              NilZero.uint_of_string (NilZero.string_of_uint (Nat.to_uint m)))
    by now rewrite H.
  rewrite !NilZero.usu in E by apply to_uint_nonnil.
  injection E as E.
  rewrite <- (Unsigned.of_to n), <- (Unsigned.of_to m). now rewrite E.
Qed.

Lemma token_inj n m : token n = token m -> n = m.
Proof. unfold token. intros [= H]. now apply string_of_nat_inj. Qed.

Lemma token_nonempty n : token n <> "".
Proof. discriminate. Qed.

(** *** encode *)

(** The encoding of a path in the default mode. *)
Definition encOf (opt : Options) (path : string) : string :=
  if String.eqb path "" then path else aliasEncode opt path.

(** Whether [encode] finds a truthy encoding of [path]. *)
Definition cached (e : Encoder) (path : string) : bool :=
  match encodings e !! path with
  | Some encPath => negb (String.eqb encPath "")
  | None => false
  end.

Definition remembered (e : Encoder) (path encPath : string) : Encoder :=
  {| encodings := <[path := encPath]> (encodings e);
     decodings := <[encPath := path]> (decodings e);
     encIdx := encIdx e |}.

Lemma encode_cached opt path e :
  cached e path = true ->
  encode opt path e = (e, Ok (default "" (encodings e !! path))).
Proof.
  intros H. unfold encode, mbind, get. fold (cached e path). now rewrite H.
Qed.

Lemma encode_default opt path e :
  cached e path = false -> minimize opt = false ->
  encode opt path e = (remembered e path (encOf opt path), Ok (encOf opt path)).
Proof.
  intros H Hm. unfold encode, mbind, get. fold (cached e path).
  rewrite H, Hm. reflexivity.
Qed.

Lemma encode_root opt e :
  cached e "" = false -> minimize opt = true ->
  encode opt "" e = (remembered e "" "", Ok "").
Proof.
  intros H Hm. unfold encode, mbind, get. fold (cached e "").
  rewrite H, Hm. reflexivity.
Qed.

Lemma encode_token opt path e :
  cached e path = false -> minimize opt = true -> path <> "" ->
  encode opt path e =
  (remembered {| encodings := encodings e; decodings := decodings e;
                 encIdx := S (encIdx e) |} path (token (S (encIdx e))),
   Ok (token (S (encIdx e)))).
Proof.
  intros H Hm Hp. unfold encode, mbind, get. fold (cached e path).
  rewrite H, Hm. simpl.
  destruct (String.eqb_spec path ""); [contradiction | reflexivity].
Qed.

(** What holds of the two tables while paths of [ps] are encoded.  In the
    default mode every encoding is the one the alias table gives; in the
    minimize mode the encoding of a path other than the root is one of the
    tokens generated so far. *)
Definition tables (opt : Options) (ps : list string) (e : Encoder) : Prop :=
  forall p enc, encodings e !! p = Some enc ->
    decodings e !! enc = Some p /\
    if minimize opt
    then (p = "" /\ enc = "") \/
         (p <> "" /\ exists n, 1 <= n <= encIdx e /\ enc = token n)
    else enc = encOf opt p /\ In p ps.

(** The paths of [ps] have encodings of their own. *)
Definition distinctEncodings (opt : Options) (ps : list string) : Prop :=
  forall p q, In p ps -> In q ps -> encOf opt p = encOf opt q -> p = q.

Lemma cached_false_entry e p enc :
  cached e p = false -> encodings e !! p = Some enc -> enc = "".
Proof.
  unfold cached. intros H E. rewrite E in H.
  destruct (String.eqb_spec enc ""); [assumption | discriminate].
Qed.

Lemma encOf_root opt : encOf opt "" = "".
Proof. reflexivity. Qed.

(** One call of [encode]. *)
Lemma encode_step opt ps q e :
  minimize opt = true \/ distinctEncodings opt ps ->
  tables opt ps e -> In q ps ->
  exists e' enc,
    encode opt q e = (e', Ok enc) /\
    tables opt ps e' /\
    encodings e' !! q = Some enc /\
    (forall p enc0, encodings e !! p = Some enc0 ->
                    encodings e' !! p = Some enc0).
Proof.
  intros Hmode Ht Hq.
  destruct (cached e q) eqn:Hc.
  - (* a truthy encoding is there *)
    exists e, (default "" (encodings e !! q)).
    split; [now apply encode_cached|]. split; [assumption|].
    split; [|auto]. unfold cached in Hc.
    destruct (encodings e !! q); [reflexivity | discriminate].
  - destruct (minimize opt) eqn:Hm.
    + destruct (String.eqb_spec q "") as [->|Hne].
      * (* the root, minimize mode *)
        exists (remembered e "" ""), "".
        split; [now apply encode_root|]. split; [|split].
        -- intros p enc Hp. unfold remembered in *. simpl in *.
           rewrite Hm.
           destruct (decide (p = "")) as [->|Hp'].
           ++ rewrite lookup_insert_eq in Hp. injection Hp as <-.
              rewrite lookup_insert_eq. auto.
           ++ rewrite lookup_insert_ne in Hp by congruence.
              destruct (Ht p enc Hp) as [Hd Hk]. rewrite Hm in Hk.
              destruct Hk as [[-> _]|[_ (n & Hn & ->)]]; [contradiction|].
              rewrite lookup_insert_ne by (apply not_eq_sym, token_nonempty).
              split; auto. right. split; auto. exists n. auto.
        -- simpl. apply lookup_insert_eq.
        -- intros p enc0 Hp. simpl.
           destruct (decide (p = "")) as [->|Hp'].
           ++ rewrite (cached_false_entry _ _ _ Hc Hp).
              apply lookup_insert_eq.
           ++ rewrite lookup_insert_ne by congruence. assumption.
      * (* a new token *)
        eexists _, _. split; [now apply encode_token|]. split; [|split].
        -- intros p enc Hp. simpl in *. rewrite Hm.
           destruct (decide (p = q)) as [->|Hp'].
           ++ rewrite lookup_insert_eq in Hp. injection Hp as <-.
              rewrite lookup_insert_eq. split; auto. right. split; auto.
              exists (S (encIdx e)). split; [lia | reflexivity].
           ++ rewrite lookup_insert_ne in Hp by congruence.
              destruct (Ht p enc Hp) as [Hd Hk]. rewrite Hm in Hk.
              destruct Hk as [[-> ->]|[Hp0 (n & Hn & ->)]].
              ** rewrite lookup_insert_ne by apply token_nonempty.
                 split; auto.
              ** rewrite lookup_insert_ne.
                 { split; auto. right. split; auto. exists n.
                   split; [lia | reflexivity]. }
                 intros E. apply token_inj in E. lia.
        -- simpl. apply lookup_insert_eq.
        -- intros p enc0 Hp. simpl.
           destruct (decide (p = q)) as [->|Hp'].
           ++ pose proof (cached_false_entry _ _ _ Hc Hp) as ->.
              destruct (Ht q "" Hp) as [_ Hk]. rewrite Hm in Hk.
              destruct Hk as [[-> _]|[_ (n & _ & E)]]; [contradiction|].
              symmetry in E. now apply token_nonempty in E.
           ++ rewrite lookup_insert_ne by congruence. assumption.
    + (* the default mode *)
      destruct Hmode as [Hmode|Hinj]; [discriminate|].
      exists (remembered e q (encOf opt q)), (encOf opt q).
      split; [now apply encode_default|]. split; [|split].
      * intros p enc Hp. simpl in *. rewrite Hm.
        destruct (decide (p = q)) as [->|Hp'].
        -- rewrite lookup_insert_eq in Hp. injection Hp as <-.
           rewrite lookup_insert_eq. auto.
        -- rewrite lookup_insert_ne in Hp by congruence.
           destruct (Ht p enc Hp) as [Hd Hk]. rewrite Hm in Hk.
           destruct Hk as [-> Hin].
           rewrite lookup_insert_ne; [auto|].
           intros E. apply Hp'. symmetry. now apply Hinj.
      * simpl. apply lookup_insert_eq.
      * intros p enc0 Hp. simpl.
        destruct (decide (p = q)) as [->|Hp'].
        -- destruct (Ht q enc0 Hp) as [_ Hk]. rewrite Hm in Hk.
           destruct Hk as [-> _]. apply lookup_insert_eq.
        -- rewrite lookup_insert_ne by congruence. assumption.
Qed.

(** The paths [l] encoded one after the other. *)
Lemma encodeAll_spec opt ps : forall l e,
  minimize opt = true \/ distinctEncodings opt ps ->
  tables opt ps e -> incl l ps ->
  exists e' encs,
    mapM (encode opt) l e = (e', Ok encs) /\
    tables opt ps e' /\
    Forall2 (fun p enc => encodings e' !! p = Some enc) l encs /\
    (forall p enc0, encodings e !! p = Some enc0 ->
                    encodings e' !! p = Some enc0).
Proof.
  induction l as [|q l IH]; intros e Hmode Ht Hl; simpl.
  - exists e, []. unfold ret. split; [reflexivity|]. split; [assumption|].
    split; [constructor | auto].
  - destruct (encode_step opt ps q e Hmode Ht) as (e1 & enc & Hq & Ht1 & H1 & Hk1).
    { apply Hl. now left. }
    destruct (IH e1 Hmode Ht1) as (e2 & encs & Hrun & Ht2 & Hf & Hk2).
    { intros x Hx. apply Hl. now right. }
    exists e2, (enc :: encs). unfold mbind. rewrite Hq, Hrun.
    split; [reflexivity|]. split; [assumption|]. split; [|auto].
    constructor; auto.
Qed.

Lemma tables_new opt ps : tables opt ps newEncoder.
Proof. intros p enc H. simpl in H. now rewrite lookup_empty in H. Qed.

(** *** Without aliases the default encoding is the path itself *)

Lemma concat_cons sep x xs :
  xs <> [] -> String.concat sep (x :: xs) = x +:+ sep +:+ String.concat sep xs.
Proof. destruct xs; [contradiction | reflexivity]. Qed.

Lemma concat_chars s : String.concat "" (chars s) = s.
Proof.
  induction s as [|c s IH]; [reflexivity|].
  simpl chars. destruct s as [|c' s'].
  - reflexivity.
  - rewrite concat_cons by discriminate. now rewrite IH.
Qed.

Lemma splitGo_nonempty sep s : forall skip cur, splitGo sep skip cur s <> [].
Proof.
  induction s as [|c s IH]; intros skip cur; cbn [splitGo]; [discriminate|].
  destruct skip; [|apply IH].
  destruct (String.prefix sep (String c s)); [discriminate | apply IH].
Qed.

Lemma prefix_append sep : forall s,
  String.prefix sep s = true -> exists rest, s = sep +:+ rest.
Proof.
  induction sep as [|c sep IH]; intros s H.
  - exists s. reflexivity.
  - destruct s as [|c' s]; simpl in H; [discriminate|].
    destruct (Ascii.ascii_dec c c') as [->|]; [|discriminate].
    destruct (IH s H) as (rest & ->). exists rest. reflexivity.
Qed.

Lemma splitGo_skip sep cur pre : forall rest,
  splitGo sep (String.length pre) cur (pre +:+ rest) = splitGo sep 0 cur rest.
Proof.
  induction pre as [|c pre IH]; intros rest; [reflexivity|].
  rewrite append_cons. simpl. apply IH.
Qed.

Lemma splitGo_join sep : sep <> "" ->
  forall n s cur, String.length s <= n ->
    String.concat sep (splitGo sep 0 cur s) = cur +:+ s.
Proof.
  intros Hsep. induction n as [|n IH]; intros s cur Hn.
  - destruct s; [|simpl in Hn; lia]. simpl. now rewrite append_nil_r.
  - destruct s as [|c s]; [simpl; now rewrite append_nil_r|].
    cbn [splitGo].
    destruct (String.prefix sep (String c s)) eqn:Hp.
    + destruct (prefix_append _ _ Hp) as (rest & E).
      destruct sep as [|c0 sep0]; [contradiction|].
      rewrite append_cons in E. injection E as <- ->.
      rewrite concat_cons by apply splitGo_nonempty.
      replace (String.length (String c sep0) - 1) with (String.length sep0)
        by (simpl; lia).
      rewrite splitGo_skip.
      rewrite IH.
      * simpl. now rewrite !append_cons.
      * simpl in Hn. rewrite length_append in Hn. lia.
    + rewrite IH by (simpl in Hn; lia).
      rewrite append_assoc. reflexivity.
Qed.

Lemma join_split s sep : join (split s sep) sep = s.
Proof.
  unfold join, split. destruct (String.eqb_spec sep "") as [->|Hsep].
  - apply concat_chars.
  - now rewrite (splitGo_join sep Hsep (String.length s)).
Qed.

(** No segment of the paths names a member of [Object.prototype]. *)
Definition plainSegments (opt : Options) (ps : list string) : Prop :=
  forall p part, In p ps -> In part (split p (separator opt)) ->
    inherited part = false.

Lemma encOf_no_aliases opt p :
  aliases opt = ∅ ->
  (forall part, In part (split p (separator opt)) -> inherited part = false) ->
  encOf opt p = p.
Proof.
  intros Ha Hp. unfold encOf. destruct (String.eqb p ""); auto.
  unfold aliasEncode.
  replace (map (aliasPart opt) (split p (separator opt)))
    with (split p (separator opt)); [apply join_split|].
  rewrite <- (map_id (split p (separator opt))) at 1.
  apply map_ext_in. intros part Hin. unfold aliasPart.
  now rewrite Ha, lookup_empty, (Hp part Hin).
Qed.

Lemma plainSegments_distinct opt ps :
  aliases opt = ∅ -> plainSegments opt ps -> distinctEncodings opt ps.
Proof.
  intros Ha Hp p q Hi Hj.
  rewrite !encOf_no_aliases; auto; intros part; now apply Hp.
Qed.

(** *** An alias that is the name of another relation *)

Definition aliasOptions : Options :=
  {| minimize := false; separator := ":"; aliases := {[ "a" := "x" ]} |}.

(** Without any alias, a segment that names a member of
    [Object.prototype] is encoded as the string of that member, which
    another path may be: after [encode('valueOf')] and the encoding of
    that string, [decode] of the shared encoding is the second path. *)
Lemma decode_after_inherited_collision :
  exists encs e,
    mapM (encode defaultOptions)
         ["valueOf"; "function valueOf() { [native code] }"] newEncoder =
      (e, Ok encs) /\
    encs = ["function valueOf() { [native code] }";
            "function valueOf() { [native code] }"] /\
    decode e "function valueOf() { [native code] }" =
      Some "function valueOf() { [native code] }".
Proof.
  eexists _, _. split; [vm_compute; reflexivity|].
  split; [reflexivity|]. vm_compute. reflexivity.
Qed.

(** C5 as stated fails in the default mode: with the alias table
    [{a: 'x'}], after [encode('a')] and [encode('x')] both paths are encoded
    as ['x'], and [decode('x')] is ['x']. *)
Lemma decode_after_alias_collision :
  exists encs e,
    mapM (encode aliasOptions) ["a"; "x"] newEncoder = (e, Ok encs) /\
    encs = ["x"; "x"] /\
    decode e "x" = Some "x" /\
    ~ Forall2 (fun p enc => decode e enc = Some p) ["a"; "x"] encs.
Proof.
  eexists _, _. split; [vm_compute; reflexivity|].
  split; [reflexivity|]. split; [vm_compute; reflexivity|].
  intros H. inversion H as [|? ? ? ? Ha _]; subst.
  vm_compute in Ha. discriminate.
Qed.

Lemma decode_entries opt ps e :
  minimize opt = true \/ distinctEncodings opt ps ->
  tables opt ps e ->
  forall l encs,
    Forall2 (fun p enc => encodings e !! p = Some enc) l encs ->
    incl l ps ->
    Forall2 (fun p enc =>
               decode e enc = Some p /\
               snd (encode opt p e) = Ok enc /\
               decode (fst (encode opt p e)) enc = Some p)
            l encs.
Proof.
  intros Hmode Ht l encs Hf.
  induction Hf as [|p enc l encs Hp Hf IH]; intros Hl; constructor.
  - destruct (encode_step opt ps p e Hmode Ht)
      as (e' & enc' & Hq & Ht' & H1 & Hk).
    { apply Hl. now left. }
    rewrite Hq. simpl.
    assert (enc' = enc) by (apply Hk in Hp; congruence). subst enc'.
    split; [apply (Ht p enc Hp)|]. split; [reflexivity|].
    apply (Ht' p enc H1).
  - apply IH. intros x Hx. apply Hl. now right.
Qed.

(** C5, amended: in the minimize mode, or when the alias table is empty
    and no segment of a path names a member of [Object.prototype], or
    when the encodings the alias table gives to the paths of the build
    are distinct, the paths [ps] encoded one after the other by a new
    builder all have an encoding; after the build [decode] takes the
    encoding of each of them back to the path, and [encode] called again
    returns that encoding and leaves it so. *)
Theorem decode_inverts_encode (opt : Options) (ps : list string) :
  minimize opt = true \/ (aliases opt = ∅ /\ plainSegments opt ps) \/
  distinctEncodings opt ps ->
  exists e encs,
    mapM (encode opt) ps newEncoder = (e, Ok encs) /\
    Forall2 (fun p enc =>
               decode e enc = Some p /\
               snd (encode opt p e) = Ok enc /\
               decode (fst (encode opt p e)) enc = Some p)
            ps encs.
Proof.
  intros Hmode.
  assert (Hmode' : minimize opt = true \/ distinctEncodings opt ps).
  { destruct Hmode as [H|[[H Hp]|H]]; auto. right.
    now apply plainSegments_distinct. }
  destruct (encodeAll_spec opt ps ps newEncoder Hmode' (tables_new opt ps)
              (incl_refl ps)) as (e & encs & Hrun & Ht & Hf & _).
  exists e, encs. split; [exact Hrun|].
  apply (decode_entries opt ps e Hmode' Ht); auto. apply incl_refl.
Qed.

Lemma decode_inverts_encode_witness :
  exists e encs,
    mapM (encode {| minimize := true; separator := ":";
                    aliases := {[ "a" := "x" ]} |})
         [""; "a"; "x"; "a:b"; "a"] newEncoder = (e, Ok encs) /\
    Forall2 (fun p enc => decode e enc = Some p)
            [""; "a"; "x"; "a:b"; "a"] encs.
Proof.
  destruct (decode_inverts_encode
              {| minimize := true; separator := ":";
                 aliases := {[ "a" := "x" ]} |}
              [""; "a"; "x"; "a:b"; "a"]) as (e & encs & Hrun & Hf).
  - left. reflexivity.
  - exists e, encs. split; [exact Hrun|].
    eapply Forall2_impl; [exact Hf|]. intros p enc H. apply H.
Defined.

End AliasEncoding.

Module FalsyIdentifiers.
Import JS Heap Monad Graph JSString RelationJoinBuilder JSFacts MonadFacts TreeFacts TreeExample.
Local Open Scope js_scope.

(** A person whose id is the empty string, after a person with a child. *)
Definition emptyIdRows : list Row :=
  [ joinedRow (PNum 1) (PStr "a") (PNum 7) (PStr "c7") PNull PNull;
    joinedRow (PStr "") (PStr "z") (PNum 5) (PStr "c5") PNull PNull ].

(** C10.  [rowsToTree] on [emptyIdRows]: the second row holds the falsy
    id [''] at the root path, and the getter reports the identifier
    absent; the root path is skipped for the row, but the path [children]
    below it is not: the child with id 5 is created for the second row and
    is put into the branch the first row left as the current one, so that
    it ends in the array of children of the person 1. *)
Theorem child_of_skipped_parent_is_built :
  idGetter rootInfo (nth 1 emptyIdRows []) = PNull /\
  snd (run emptyIdRows) = Ok (Tree (VRef 5)) /\
  map (fun v => (v_row v, v_encPath v, v_id v, v_model v, v_created v))
      (visits (fst (run emptyIdRows))) =
    [ (0, "", "id:1", VRef 1, true);
      (0, "children", "id:7", VRef 3, true);
      (1, "children", "id:5", VRef 4, true) ] /\
  contents (t_heap (fst (run emptyIdRows))) =
    [ inl [("id:1", VRef 1)];
      inl [("id", VPrim (PNum 1)); ("name", VPrim (PStr "a"));
           ("children", VRef 6); ("pet", VPrim PNull)];
      inl [("id:7", VRef 3); ("id:5", VRef 4)];
      inl [("id", VPrim (PNum 7)); ("name", VPrim (PStr "c7"))];
      inl [("id", VPrim (PNum 5)); ("name", VPrim (PStr "c5"))];
      inr [VRef 1];
      inr [VRef 3; VRef 4] ].
Proof. repeat split; vm_compute; reflexivity. Qed.

End FalsyIdentifiers.

Module AbsentIdentifiers.
Import JS Heap Monad Graph JSString RelationJoinBuilder JSFacts MonadFacts TreeFacts TreeExample.
Local Open Scope js_scope.

(** A person with the id 0 and a pet, after a person without a pet. *)
Definition zeroIdRows : list Row :=
  [ joinedRow (PNum 1) (PStr "a") PNull PNull PNull PNull;
    joinedRow (PNum 0) (PStr "z") PNull PNull (PNum 9) (PStr "rex") ].

(** C7.  [rowsToTree] on [zeroIdRows]: the getter of the root path reports
    the identifier of the second row absent, and the root path is skipped
    for the row, but the path [pet] below it is not: the pet 9 is created
    for the second row and is stored in the model the stack still holds
    for the root path, the person of the first row, whose own row has no
    pet. *)
Theorem pet_of_skipped_parent_is_built :
  idGetter rootInfo (nth 1 zeroIdRows []) = PNull /\
  snd (run zeroIdRows) = Ok (Tree (VRef 3)) /\
  map (fun v => (v_row v, v_encPath v, v_id v, v_model v, v_created v))
      (visits (fst (run zeroIdRows))) =
    [ (0, "", "id:1", VRef 1, true);
      (1, "pet", "id:9", VRef 2, true) ] /\
  contents (t_heap (fst (run zeroIdRows))) =
    [ inl [("id:1", VRef 1)];
      inl [("id", VPrim (PNum 1)); ("name", VPrim (PStr "a"));
           ("pet", VRef 2); ("children", VRef 4)];
      inl [("id", VPrim (PNum 9)); ("name", VPrim (PStr "rex"))];
      inr [VRef 1];
      inr [] ].
Proof. repeat split; vm_compute; reflexivity. Qed.

(** A person with a child and no pet: the columns of the pet are null. *)
Definition nullPetRows : list Row :=
  [ joinedRow (PNum 1) (PStr "a") (PNum 7) (PStr "c") PNull PNull ].

(** The scenario of the spec: the pet is [null], not an empty object. *)
Lemma null_pet_scenario :
  snd (run nullPetRows) = Ok (Tree (VRef 4)) /\
  contents (t_heap (fst (run nullPetRows))) =
    [ inl [("id:1", VRef 1)];
      inl [("id", VPrim (PNum 1)); ("name", VPrim (PStr "a"));
           ("children", VRef 5); ("pet", VPrim PNull)];
      inl [("id:7", VRef 3)];
      inl [("id", VPrim (PNum 7)); ("name", VPrim (PStr "c"))];
      inr [VRef 1];
      inr [VRef 3] ].
Proof. split; vm_compute; reflexivity. Qed.

End AbsentIdentifiers.

Module ModelProperties.
Import JS Heap Monad ModelJS ModelOps JSFacts JoinRows.
Local Open Scope js_scope.

(** *** [$omit] and [$pick] *)

Lemma contains_In arr value : contains arr value = true <-> In value arr.
Proof.
  induction arr as [|x arr IH]; simpl; [split; [discriminate | tauto]|].
  destruct (String.eqb_spec x value) as [->|Hne]; [tauto|].
  rewrite IH. split; [tauto | intros [?|?]; [contradiction | assumption]].
Qed.

Lemma filter_filter {A} (p q : A -> bool) l :
  List.filter p (List.filter q l) = List.filter (fun x => q x && p x) l.
Proof.
  induction l as [|x l IH]; simpl; auto.
  destruct (q x); simpl; [destruct (p x)|]; now rewrite IH.
Qed.

Lemma hasProp_filter (p : string -> bool) o k :
  hasProp (List.filter (fun kv => p (fst kv)) o) k = hasProp o k && p k.
Proof.
  induction o as [|[k0 v0] o IH]; simpl; auto.
  destruct (p k0) eqn:E; simpl.
  - destruct (String.eqb_spec k0 k) as [->|Hne]; [now rewrite E | exact IH].
  - destruct (String.eqb_spec k0 k) as [->|Hne]; [|exact IH].
    rewrite IH, E. apply andb_false_r.
Qed.

Lemma getProp_filter (p : string -> bool) o k :
  p k = true -> getProp (List.filter (fun kv => p (fst kv)) o) k = getProp o k.
Proof.
  intros Hk. induction o as [|[k0 v0] o IH]; simpl; auto.
  destruct (p k0) eqn:E; simpl.
  - destruct (String.eqb k0 k); auto.
  - destruct (String.eqb_spec k0 k) as [->|Hne]; [congruence | exact IH].
Qed.

(** Whether [$omit] with the keys [ks] deletes the property [k]. *)
Definition omitted (ks : list string) (k : string) : bool :=
  negb (startsWithDollar k) && contains ks k.

(** Whether [$pick] with the keys [ks] keeps the property [k]. *)
Definition picked (ks : list string) (k : string) : bool :=
  startsWithDollar k || contains ks k.

Lemma omitArray_filter : forall ks model,
  omitArray model ks =
  List.filter (fun kv => negb (omitted ks (fst kv))) model.
Proof.
  induction ks as [|key ks IH]; intros model; simpl.
  - induction model as [|kv model IHm]; simpl; auto.
    unfold omitted at 1. simpl. rewrite andb_false_r. simpl. congruence.
  - rewrite IH.
    destruct (negb (startsWithDollar key) && hasProp model key) eqn:E.
    + apply andb_true_iff in E as [Hd _]. apply negb_true_iff in Hd.
      rewrite delProp_filter, filter_filter. apply filter_ext.
      intros [k v]. unfold omitted. simpl.
      destruct (String.eqb_spec key k) as [->|Hne]; simpl.
      * rewrite String.eqb_refl, Hd. reflexivity.
      * destruct (String.eqb_spec k key); [congruence | reflexivity].
    + apply filter_ext_in. intros [k v] Hin. unfold omitted. simpl.
      destruct (String.eqb_spec key k) as [->|Hne]; [|reflexivity].
      destruct (startsWithDollar k) eqn:Hd; [reflexivity|]. simpl in E.
      assert (hasProp model k = true).
      { apply hasProp_In. apply in_map_iff. now exists (k, v). }
      congruence.
Qed.

(** A loop that deletes the keys of [ks] that [drop] selects. *)
Lemma deleteLoop_filter (drop : string -> bool) : forall ks m,
  fold_left (fun m key => if drop key then delProp m key else m) ks m =
  List.filter
    (fun kv => negb (existsb (fun key => drop key && String.eqb key (fst kv)) ks))
    m.
Proof.
  induction ks as [|key ks IH]; intros m; simpl.
  - induction m as [|kv m IHm]; simpl; congruence.
  - rewrite IH. destruct (drop key) eqn:E; simpl.
    + rewrite delProp_filter, filter_filter. apply filter_ext.
      intros [k v]. simpl.
      destruct (String.eqb_spec key k) as [->|Hne]; simpl.
      * now rewrite String.eqb_refl.
      * destruct (String.eqb_spec k key); [congruence | reflexivity].
    + reflexivity.
Qed.

Lemma pickLoop_filter (drop keep : string -> bool) model :
  (forall k, drop k = negb (keep k)) ->
  fold_left (fun m key => if drop key then delProp m key else m)
            (keys model) model =
  List.filter (fun kv => keep (fst kv)) model.
Proof.
  intros Hdrop. rewrite (deleteLoop_filter drop).
  apply filter_ext_in. intros [k v] Hin. simpl.
  destruct (keep k) eqn:E; simpl.
  - apply negb_true_iff. apply not_true_is_false. intros H.
    apply existsb_exists in H as (key & _ & H).
    apply andb_true_iff in H as [H1 H2]. apply String.eqb_eq in H2. subst key.
    rewrite Hdrop, E in H1. discriminate.
  - apply negb_false_iff. apply existsb_exists. exists k. split.
    + apply in_map_iff. now exists (k, v).
    + now rewrite Hdrop, E, String.eqb_refl.
Qed.

Lemma pickArray_filter model pick :
  pickArray model pick = List.filter (fun kv => picked pick (fst kv)) model.
Proof.
  unfold pickArray. apply pickLoop_filter.
  intros k. unfold picked. now rewrite negb_orb.
Qed.

(** The keys an object argument stands for. *)
Definition truthyKeys (keyObj : props) : list string :=
  List.filter (fun k => truthy (getProp keyObj k)) (keys keyObj).

Lemma contains_truthyKeys keyObj k :
  contains (truthyKeys keyObj) k = truthy (getProp keyObj k).
Proof.
  destruct (truthy (getProp keyObj k)) eqn:E.
  - apply contains_In. apply filter_In. split; [|exact E].
    apply hasProp_In. destruct (hasProp keyObj k) eqn:Eh; auto.
    rewrite (getProp_absent _ _ Eh) in E. discriminate.
  - apply not_true_is_false. intros H. apply contains_In in H.
    apply filter_In in H as [_ H]. congruence.
Qed.

Lemma omitObject_omitArray keyObj : forall ks model,
  fold_left
    (fun m key =>
       if truthy (getProp keyObj key) && negb (startsWithDollar key)
          && hasProp m key
       then delProp m key else m) ks model =
  omitArray model (List.filter (fun k => truthy (getProp keyObj k)) ks).
Proof.
  induction ks as [|key ks IH]; intros model; simpl; auto.
  rewrite IH. destruct (truthy (getProp keyObj key)); simpl; reflexivity.
Qed.

(** The members of [Object.prototype] that [keyObj] does not shadow:
    [keyObj[key]] finds them, and they are truthy. *)
Definition inheritedKeys (keyObj : props) : list string :=
  List.filter (fun k => negb (hasProp keyObj k)) objectPrototype.

Lemma contains_app l1 l2 k :
  contains (l1 ++ l2) k = contains l1 k || contains l2 k.
Proof.
  induction l1 as [|x l1 IH]; simpl; [reflexivity|].
  destruct (String.eqb x k); auto.
Qed.

Lemma inherited_In k : inherited k = true <-> In k objectPrototype.
Proof.
  unfold inherited. rewrite existsb_exists. split.
  - intros (x & Hx & E). apply String.eqb_eq in E. now subst.
  - intros H. exists k. split; [exact H | apply String.eqb_refl].
Qed.

Lemma contains_inheritedKeys keyObj k :
  contains (inheritedKeys keyObj) k = negb (hasProp keyObj k) && inherited k.
Proof.
  apply eq_true_iff_eq. rewrite contains_In, andb_true_iff, inherited_In.
  unfold inheritedKeys. rewrite filter_In. tauto.
Qed.

Lemma contains_pickKeys keyObj k :
  contains (truthyKeys keyObj ++ inheritedKeys keyObj) k = truthyIn keyObj k.
Proof.
  rewrite contains_app, contains_truthyKeys, contains_inheritedKeys.
  unfold truthyIn. destruct (hasProp keyObj k) eqn:E; simpl.
  - apply orb_false_r.
  - now rewrite (getProp_absent _ _ E).
Qed.

Lemma pickObject_filter model keyObj :
  pickObject model keyObj =
  List.filter
    (fun kv => picked (truthyKeys keyObj ++ inheritedKeys keyObj) (fst kv))
    model.
Proof.
  unfold pickObject. apply pickLoop_filter.
  intros k. unfold picked. now rewrite negb_orb, contains_pickKeys.
Qed.

(** X1.  [$omit] deletes the properties that are listed and whose name does
    not start with ['$'], and nothing else: the properties left are the
    others, with their values, in their order. *)
Theorem omit_deletes_listed_properties (this : props) (ks : list string) :
  omit_ this (Spread ks) =
    List.filter (fun kv => negb (omitted ks (fst kv))) this /\
  omit_ this (OneArray ks) = omit_ this (Spread ks) /\
  (forall k, hasProp (omit_ this (Spread ks)) k =
             hasProp this k && negb (omitted ks k)) /\
  (forall k, omitted ks k = false ->
             getProp (omit_ this (Spread ks)) k = getProp this k).
Proof.
  simpl. rewrite omitArray_filter. split; [reflexivity|].
  split; [reflexivity|]. split.
  - intros k. apply (hasProp_filter (fun k => negb (omitted ks k))).
  - intros k Hk. apply (getProp_filter (fun k => negb (omitted ks k))).
    now rewrite Hk.
Qed.

(** X2.  [$pick] keeps the properties that are listed and those whose name
    starts with ['$'], with their values and in their order, and deletes
    all the others; so it keeps what [$omit] with the same keys deletes,
    apart from the ['$'] properties, which both leave alone. *)
Theorem pick_keeps_listed_properties (this : props) (ks : list string) :
  pick_ this (Spread ks) =
    List.filter (fun kv => picked ks (fst kv)) this /\
  pick_ this (OneArray ks) = pick_ this (Spread ks) /\
  (forall k, startsWithDollar k = false ->
     hasProp (pick_ this (Spread ks)) k =
     hasProp this k && negb (hasProp (omit_ this (Spread ks)) k)) /\
  (forall k, startsWithDollar k = true ->
     getProp (pick_ this (Spread ks)) k = getProp this k /\
     getProp (omit_ this (Spread ks)) k = getProp this k).
Proof.
  simpl. rewrite pickArray_filter, omitArray_filter.
  split; [reflexivity|]. split; [reflexivity|]. split.
  - intros k Hd.
    rewrite (hasProp_filter (picked ks)).
    rewrite (hasProp_filter (fun k => negb (omitted ks k))).
    unfold picked, omitted. rewrite Hd. simpl.
    destruct (hasProp this k), (contains ks k); reflexivity.
  - intros k Hd. split.
    + apply (getProp_filter (picked ks)). unfold picked. now rewrite Hd.
    + apply (getProp_filter (fun k => negb (omitted ks k))).
      unfold omitted. now rewrite Hd.
Qed.

(** X3.  With one object as the argument, [$omit] takes the own
    properties of the object that hold a truthy value as the keys:
    [$omit({a: true, b: false})] is [$omit('a')].  [$pick] looks every key
    of the model up in the object, through its prototype chain: it keeps
    the truthy own properties and also the members of [Object.prototype]
    the object does not shadow, so [$pick({a: true})] keeps a property
    [valueOf] of the model, which [$pick('a')] deletes. *)
Theorem object_argument_lists_truthy_keys (this keyObj : props) :
  omit_ this (OneObject keyObj) = omit_ this (OneArray (truthyKeys keyObj)) /\
  pick_ this (OneObject keyObj) =
    pick_ this (OneArray (truthyKeys keyObj ++ inheritedKeys keyObj)) /\
  pick_ [("a", VPrim (PNum 1)); ("valueOf", VPrim (PNum 2));
         ("b", VPrim (PNum 3))]
        (OneObject [("a", VPrim (PBool true))]) =
    [("a", VPrim (PNum 1)); ("valueOf", VPrim (PNum 2))] /\
  pick_ [("a", VPrim (PNum 1)); ("valueOf", VPrim (PNum 2));
         ("b", VPrim (PNum 3))]
        (OneArray ["a"]) =
    [("a", VPrim (PNum 1))].
Proof.
  simpl pick_ at 1 2. simpl omit_. split; [|split; [|split]].
  - apply omitObject_omitArray.
  - now rewrite pickObject_filter, pickArray_filter.
  - vm_compute. reflexivity.
  - vm_compute. reflexivity.
Qed.

(** *** [$set] and [fromDatabaseJson] *)

(** Whether [$set] copies the property [k] holding [v]. *)
Definition settable (k : string) (v : value) : bool :=
  negb (startsWithDollar k) && negb (isFunction v).

Lemma set_getProp : forall obj this k,
  List.NoDup (keys obj) ->
  getProp (set_ this obj) k =
    (if hasProp obj k && settable k (getProp obj k)
     then getProp obj k else getProp this k) /\
  hasProp (set_ this obj) k =
    hasProp this k || (hasProp obj k && settable k (getProp obj k)).
Proof.
  unfold set_.
  induction obj as [|[k0 v0] obj IH]; intros this k Hnd; simpl.
  - now rewrite orb_false_r.
  - inversion Hnd as [|? ? Hk0 Hnd']; subst.
    destruct (IH (if negb (startsWithDollar k0) && negb (isFunction v0)
                  then setProp this k0 v0 else this) k Hnd') as [Hg Hh].
    simpl in Hg, Hh. rewrite Hg, Hh. clear Hg Hh IH.
    destruct (String.eqb_spec k0 k) as [->|Hne]; simpl.
    + assert (Hab : hasProp obj k = false).
      { apply not_true_is_false. intros H. apply hasProp_In in H.
        exact (Hk0 H). }
      rewrite Hab. simpl. unfold settable.
      destruct (negb (startsWithDollar k) && negb (isFunction v0)).
      * rewrite getProp_setProp_eq, hasProp_setProp, String.eqb_refl.
        split; [reflexivity | now rewrite orb_true_r].
      * split; [reflexivity | now rewrite !orb_false_r].
    + destruct (negb (startsWithDollar k0) && negb (isFunction v0)).
      * rewrite getProp_setProp_ne, hasProp_setProp by auto.
        destruct (String.eqb_spec k0 k); [congruence|]. simpl. auto.
      * auto.
Qed.

(** X4.  [$set(obj)] copies the properties of [obj] whose name does not
    start with ['$'] and whose value is not a function, and leaves the
    other properties of the model as they are; setting the same object
    again changes nothing. *)
Theorem set_copies_plain_properties (this obj : props) :
  List.NoDup (keys obj) ->
  (forall k,
     getProp (set_ this obj) k =
       (if hasProp obj k && settable k (getProp obj k)
        then getProp obj k else getProp this k) /\
     hasProp (set_ this obj) k =
       hasProp this k || (hasProp obj k && settable k (getProp obj k))) /\
  (forall k,
     getProp (set_ (set_ this obj) obj) k = getProp (set_ this obj) k /\
     hasProp (set_ (set_ this obj) obj) k = hasProp (set_ this obj) k).
Proof.
  intros Hnd. split; [intros k; now apply set_getProp|].
  intros k.
  destruct (set_getProp obj (set_ this obj) k Hnd) as [Hg Hh].
  destruct (set_getProp obj this k Hnd) as [Hg0 Hh0].
  rewrite Hg, Hh, Hg0, Hh0.
  destruct (hasProp obj k && settable k (getProp obj k)); split; auto.
  - now rewrite !orb_true_r.
  - now rewrite !orb_false_r.
Qed.

Lemma set_copies_plain_properties_witness :
  getProp (set_ [("a", VPrim (PNum 1)); ("$x", VPrim (PNum 2))]
                [("a", VPrim (PNum 5)); ("$x", VPrim (PNum 6));
                 ("f", VFun 0); ("b", VPrim (PStr "s"))]) "$x" =
  VPrim (PNum 2).
Proof.
  assert (Hnd : List.NoDup (keys [("a", VPrim (PNum 5)); ("$x", VPrim (PNum 6));
                             ("f", VFun 0); ("b", VPrim (PStr "s"))])).
  { repeat constructor; simpl; intuition discriminate. }
  destruct (set_copies_plain_properties
              [("a", VPrim (PNum 1)); ("$x", VPrim (PNum 2))]
              [("a", VPrim (PNum 5)); ("$x", VPrim (PNum 6));
               ("f", VFun 0); ("b", VPrim (PStr "s"))] Hnd) as [H _].
  destruct (H "$x") as [Hg _]. exact Hg.
Defined.

Lemma setProp_new o k v : hasProp o k = false -> setProp o k v = o ++ [(k, v)].
Proof.
  induction o as [|[k0 v0] o IH]; simpl; auto.
  destruct (String.eqb k0 k); [discriminate|]. intros H. now rewrite IH.
Qed.

Lemma hasProp_app o o' k : hasProp (o ++ o') k = hasProp o k || hasProp o' k.
Proof.
  induction o as [|[k0 v0] o IH]; simpl; auto.
  destruct (String.eqb k0 k); auto.
Qed.

Lemma copyAll_app : forall json acc,
  List.NoDup (keys json) ->
  (forall k, In k (keys json) -> hasProp acc k = false) ->
  fold_left (fun acc kv => setProp acc (fst kv) (snd kv)) json acc =
  acc ++ json.
Proof.
  induction json as [|[k v] json IH]; intros acc Hnd Hacc; simpl.
  - now rewrite app_nil_r.
  - inversion Hnd as [|? ? Hk Hnd']; subst.
    rewrite setProp_new by (apply Hacc; now left).
    rewrite IH; auto.
    + now rewrite <- app_assoc.
    + intros k' Hk'. rewrite hasProp_app, Hacc by now right. simpl.
      destruct (String.eqb_spec k k') as [->|]; [contradiction | reflexivity].
Qed.

(** X5.  [fromDatabaseJson] makes a model with the properties of the row
    as [$parseDatabaseJson] returns it, all of them and in their order:
    unlike [$set], it copies the properties whose name starts with ['$']
    and the functions too. *)
Theorem fromDatabaseJson_copies_every_property
    (cls : ModelClass) (json : props) :
  List.NoDup (keys (parseDatabaseJson cls json)) ->
  fromDatabaseJson cls json = parseDatabaseJson cls json /\
  setDatabaseJson cls [] json = fromDatabaseJson cls json /\
  forall this k,
    getProp (setDatabaseJson cls this json) k =
      (if hasProp (parseDatabaseJson cls json) k
       then getProp (parseDatabaseJson cls json) k else getProp this k).
Proof.
  intros Hnd. unfold fromDatabaseJson, setDatabaseJson. split; [|split].
  - now rewrite copyAll_app.
  - reflexivity.
  - intros this k. revert this Hnd.
    induction (parseDatabaseJson cls json) as [|[k0 v0] row IH];
      intros this Hnd; simpl; auto.
    inversion Hnd as [|? ? Hk0 Hnd']; subst.
    rewrite IH by assumption.
    destruct (String.eqb_spec k0 k) as [->|Hne].
    + assert (Hab : hasProp row k = false).
      { apply not_true_is_false. intros H. apply hasProp_In in H.
        exact (Hk0 H). }
      rewrite Hab. apply getProp_setProp_eq.
    + destruct (hasProp row k); auto. now apply getProp_setProp_ne.
Qed.

Lemma fromDatabaseJson_copies_every_property_witness :
  fromDatabaseJson (Model "persons" [])
    [("id", VPrim (PNum 1)); ("$tmp", VPrim PNull); ("f", VFun 0)] =
  [("id", VPrim (PNum 1)); ("$tmp", VPrim PNull); ("f", VFun 0)].
Proof.
  apply (fromDatabaseJson_copies_every_property (Model "persons" [])
           [("id", VPrim (PNum 1)); ("$tmp", VPrim PNull); ("f", VFun 0)]).
  repeat constructor; simpl; intuition discriminate.
Defined.

(** *** [$propKey] *)

(** X6.  [$propKey] joins the string forms of the values with commas,
    whatever the number of properties.  Two objects whose values contain no
    comma have the same key exactly when every property has the same string
    form in both: [$propKey] tells such rows apart. *)
Theorem propKey_tells_rows_apart (o1 o2 : props) (ps : list string)
    (key : string) :
  commaFree o1 ps -> commaFree o2 ps ->
  propKey o1 ps = Ok key ->
  (propKey o2 ps = Ok key <->
   forall p, In p ps -> str (getProp o1 p) = str (getProp o2 p)).
Proof. apply propKey_same_iff. Qed.

Lemma propKey_tells_rows_apart_witness :
  propKey [("a", VPrim (PNum 1)); ("b", VPrim (PStr "x"))] ["a"; "b"] =
    Ok "1,x" <->
  forall p, In p ["a"; "b"] ->
    str (getProp [("b", VPrim (PStr "x")); ("a", VPrim (PStr "1"))] p) =
    str (getProp [("a", VPrim (PNum 1)); ("b", VPrim (PStr "x"))] p).
Proof.
  apply (propKey_tells_rows_apart
           [("b", VPrim (PStr "x")); ("a", VPrim (PStr "1"))]
           [("a", VPrim (PNum 1)); ("b", VPrim (PStr "x"))]
           ["a"; "b"] "1,x").
  - intros p s [<-|[<-|[]]] [= <-]; reflexivity.
  - intros p s [<-|[<-|[]]] [= <-]; reflexivity.
  - reflexivity.
Defined.

(** *** [$id] *)

Lemma setIds_other : forall ps vs model k,
  ~ In k ps -> getProp (setIds model ps vs) k = getProp model k.
Proof.
  induction ps as [|p ps IH]; intros [|v vs] model k Hk; simpl; auto.
  rewrite IH by (intros H; apply Hk; now right).
  apply getProp_setProp_ne. intros ->. apply Hk. now left.
Qed.

Lemma setIds_values : forall ps vs model,
  List.NoDup ps -> length vs = length ps ->
  values_ (setIds model ps vs) ps = vs.
Proof.
  unfold values_.
  induction ps as [|p ps IH]; intros [|v vs] model Hnd Hl;
    try discriminate; simpl; auto.
  inversion Hnd as [|? ? Hp Hnd']; subst.
  rewrite setIds_other by assumption. rewrite getProp_setProp_eq.
  f_equal. apply IH; auto.
Qed.

(** The properties an identifier is stored in. *)
Definition idProps (idProp : OneOrMany string) : list string :=
  match idProp with
  | One p => [p]
  | Many ps => ps
  end.

(** The identifier has the shape of the id property: a value for one
    property, an array of as many values as there are properties. *)
Definition fits (idProp : OneOrMany string) (id : OneOrMany value) : Prop :=
  match idProp, id with
  | One _, One _ => True
  | Many ps, Many vs => length vs = length ps /\ List.NoDup ps
  | _, _ => False
  end.

(** X7.  [$id(id)] followed by [$id()] gives [id] back when it has the
    shape of the id property, and changes no other property; an array of
    another length than the id property is refused, and so is a single
    value for a composite key.  A single value for an id property that is
    an array of one column is stored, and read back as an array. *)
Theorem id_set_then_get (cls : ModelClass) (idColumn idProp : OneOrMany string)
    (model : props) :
  getIdProperty cls idColumn = Returned idProp ->
  (forall id, fits idProp id ->
     exists model',
       setId cls idColumn model id = Returned model' /\
       getId cls idColumn model' = Returned id /\
       forall k, ~ In k (idProps idProp) ->
                 getProp model' k = getProp model k) /\
  (forall vs, length vs <> length (idProps idProp) ->
     setId cls idColumn model (Many vs) = Thrown invalidIdentifier) /\
  (forall v ps, idProp = Many ps ->
     if Nat.ltb 1 (length ps)
     then setId cls idColumn model (One v) = Thrown invalidIdentifier
     else exists model',
            setId cls idColumn model (One v) = Returned model' /\
            getId cls idColumn model' =
              Returned (Many (map (fun _ => v) ps))).
Proof.
  intros Hp. unfold setId, getId. rewrite Hp. split; [|split].
  - intros id Hfit. destruct idProp as [p|ps], id as [v|vs];
      simpl in Hfit; try contradiction.
    + exists (setProp model p v). split; [reflexivity|]. split.
      * now rewrite getProp_setProp_eq.
      * intros k Hk. apply getProp_setProp_ne. intros ->. apply Hk. now left.
    + destruct Hfit as [Hl Hnd]. exists (setIds model ps vs).
      rewrite Hl, Nat.eqb_refl. simpl. split; [reflexivity|]. split.
      * now rewrite setIds_values.
      * intros k Hk. now apply setIds_other.
  - intros vs Hl. destruct idProp as [p|ps]; simpl in Hl.
    + destruct vs as [|v [|v' vs]]; simpl in Hl; auto. contradiction.
    + destruct (Nat.eqb_spec (length vs) (length ps)); [contradiction|].
      reflexivity.
  - intros v ps ->. destruct (Nat.ltb 1 (length ps)) eqn:E; [reflexivity|].
    eexists. split; [reflexivity|].
    destruct ps as [|p [|p' ps]]; simpl in E; try discriminate; simpl.
    + reflexivity.
    + unfold values_. simpl. now rewrite getProp_setProp_eq.
Qed.

Lemma id_set_then_get_witness :
  exists model',
    setId (Model "persons" []) (Many ["a"; "b"])
          [("name", VPrim (PStr "x"))]
          (Many [VPrim (PNum 1); VPrim (PNum 2)]) = Returned model' /\
    getId (Model "persons" []) (Many ["a"; "b"]) model' =
      Returned (Many [VPrim (PNum 1); VPrim (PNum 2)]) /\
    forall k, ~ In k ["a"; "b"] ->
              getProp model' k = getProp [("name", VPrim (PStr "x"))] k.
Proof.
  destruct (id_set_then_get (Model "persons" []) (Many ["a"; "b"])
              (Many ["a"; "b"]) [("name", VPrim (PStr "x"))] eq_refl)
    as [H _].
  apply (H (Many [VPrim (PNum 1); VPrim (PNum 2)])).
  split; [reflexivity|].
  repeat constructor; simpl; intuition discriminate.
Defined.



End ModelProperties.

Module InsertionRuns.
Import JS Heap Monad Graph GraphInserter GraphSpec JSFacts MonadFacts InserterFacts MarkFacts MarkInvFacts BatchFacts RunFacts FuelFacts RoundFacts TerminationFacts TraceFacts RoundTraceFacts ExecuteFacts GraphExample.
Local Open Scope js_scope.

(** *** The two phases of a run *)

(** What holds between two batches of entity rows; [g0] is the graph the
    inserter started from. *)
Definition RunInv (g0 : DependencyGraph) (s : state) : Prop :=
  uidsConsistent (heap_ s) (graph s) /\ distinctModels (graph s) /\
  resolversKeepUids (graph s) /\ edgesReversed (graph s) /\
  countsConsistent (graph s) /\ TraceInv g0 s /\
  Forall (fun c => entityCall c = true) (calls s).

Lemma finalize_result s s' res :
  _finalize s = (s', Ok res) -> res = inputModels s.
Proof.
  unfold _finalize, mbind, get.
  destruct (forEach (nodes (graph s)) finalizeNode s) as [s1 [[]|e]];
    [|discriminate].
  unfold ret. now intros [= _ <-].
Qed.

(** A run that resolves: batches of entity rows until a scan finds no
    eligible node (the state [s1]), then the batch of join rows [js]. *)
Lemma execute_phases ins g0 :
  inserterKeepsUids ins ->
  forall fuel s s' res,
    done s = false -> RunInv g0 s ->
    _executeNextBatch fuel ins s = (s', Ok res) ->
    exists s1 js,
      done s1 = false /\ RunInv g0 s1 /\ _createBatch (graph s1) = [] /\
      graph s' = graph s1 /\ calls s' = calls s1 ++ js /\
      Forall (fun c => entityCall c = false /\ call_round c = rounds s1) js /\
      res = inputModels s.
Proof.
  intros HI. induction fuel as [|fuel IH]; intros s s' res Hdone Hinv Hrun;
    [discriminate|].
  destruct Hinv as (Hu & Hd & HR & He & Hc & HT & Hent).
  simpl in Hrun. unfold mbind at 1 in Hrun.
  assert (Hcase : _createBatch (graph s) = [] \/ _createBatch (graph s) <> []).
  { destruct (_createBatch (graph s)); [now left | now right]. }
  destruct Hcase as [Eb|Hne].
  - destruct (nextBatch_joinRows s Hdone Eb) as [Enb _].
    pose proof (onlyHeap_joinRowBatch (withDone s) (withDone s)
                  (sameFields_refl _)) as (Hi1 & Hd1 & Hg1 & Hr1 & Hc1).
    pose proof (joinRowBatch_allJoin (withDone s)) as Hjoin.
    rewrite Enb in Hrun.
    destruct (_createManyToManyRelationJoinRowBatch (withDone s))
      as [sj [jb|e]]; simpl in *; [|discriminate].
    specialize (Hjoin sj jb eq_refl).
    assert (HR1 : resolversKeepUids (graph sj)) by now rewrite Hg1.
    pose proof (runBatch_hoare ins jb sj HI HR1 sj eq_refl) as Hb.
    unfold mbind at 1 in Hrun.
    destruct (runBatch ins jb sj) as [s2 [[]|e]]; simpl in *; [|discriminate].
    destruct Hb as (Hg2 & Hd2 & Hi2 & Hr2 & _ & cs & Hcs & Hf).
    destruct fuel as [|fuel]; [discriminate|].
    rewrite executeNextBatch_done in Hrun by congruence.
    pose proof (onlyHeap_finalize s2 s2 (sameFields_refl _)) as Hfin.
    pose proof (finalize_result _ _ _ Hrun) as Hres.
    rewrite Hrun in Hfin. destruct Hfin as (_ & _ & Hg3 & _ & Hc3).
    simpl in Hg3, Hc3.
    exists s, cs. split; [assumption|].
    split; [exact (conj Hu (conj Hd (conj HR (conj He (conj Hc (conj HT Hent))))))|].
    split; [assumption|]. split; [congruence|]. split; [congruence|].
    split; [|congruence].
    pose proof (join_calls (rounds sj) jb jb cs Hjoin (reflexivity _) Hf)
      as Hj.
    rewrite List.Forall_forall in *. intros c Hin. split; [auto|].
    clear -Hf Hin Hr1. induction Hf as [|kv c' es cs' [Hr _] Hf IHf];
      [destruct Hin|].
    destruct Hin as [<-|Hin]; [congruence | auto].
  - destruct (entity_round ins s Hdone Hu Hd HR HI Hne)
      as (g' & Hnb & HM & Hd' & HR' & Hb).
    rewrite Hnb in Hrun. unfold mbind at 1 in Hrun.
    destruct (runBatch ins (_createBatch (graph s)) (withGraph s g'))
      as [s2 [[]|e]]; simpl in *; [|discriminate].
    destruct Hb as (Hg & Hdn & Hi2 & Hr & Hu2 & cs & Hcs & Hf).
    destruct (IH s2 s' res Hdn) as (s1 & js & H1 & H2 & H3 & H4 & H5 & H6 & H7);
      [|assumption|].
    + unfold RunInv. rewrite Hg. split; [assumption|]. split; [assumption|].
      split; [assumption|]. split; [now apply (mk_edges _ _ _ HM)|].
      split; [now apply (mk_counts _ _ _ HM)|]. split.
      * eapply TraceInv_round; eauto.
      * rewrite Hcs. apply Forall_app. split; [assumption|].
        destruct (calls_of_entries _ _ _ _ (createBatch_entries (graph s)) Hf)
          as (_ & _ & Hall).
        apply List.Forall_forall. intros c Hin. now apply Hall.
    + exists s1, js. repeat (split; [assumption|]). congruence.
Qed.

Lemma RunInv_start h input g :
  uidsConsistent h g -> distinctModels g -> resolversKeepUids g ->
  edgesReversed g -> countsConsistent g ->
  RunInv g (newGraphInserter h input g).
Proof.
  intros Hu Hd HR He Hc. repeat (split; [assumption|]). split.
  - split; simpl; auto.
    + intros c [].
    + intros j n0 n H0 H1 Hh. left. congruence.
    + intros c a [].
    + intros c j n d [].
    + unfold insertedOnce. simpl. constructor.
  - constructor.
Qed.



(** *** Graphs without cycles *)

(** Every edge of [needs] leads to a node of the graph. *)
Definition needsInGraph (g : DependencyGraph) : Prop :=
  forall i n d, nodes g !! i = Some n -> In d (needs n) ->
    dep_node d < length (nodes g).

(** [rank] decreases along the edges of [needs]: there is no cycle. *)
Definition ranked (g : DependencyGraph) (rank : nat -> nat) : Prop :=
  forall i n d, nodes g !! i = Some n -> In d (needs n) ->
    rank (dep_node d) < rank i.

Lemma filter_all_length {A} (p : A -> bool) l :
  (forall x, In x l -> p x = true) -> length (List.filter p l) = length l.
Proof.
  induction l as [|x l IH]; intros H; simpl; auto.
  rewrite (H x (or_introl eq_refl)). simpl. f_equal. apply IH.
  intros y Hy. apply H. now right.
Qed.

(** When a scan finds no eligible node in a graph without cycles, every
    node has been handled. *)
Lemma empty_scan_all_handled g rank :
  countsConsistent g -> needsInGraph g -> ranked g rank ->
  _createBatch g = [] ->
  forall i n, nodes g !! i = Some n -> handled n = true.
Proof.
  intros Hc Hin Hrank Hb i.
  induction i as [i IH] using (induction_ltof1 _ rank).
  intros n Hi. destruct (handled n) eqn:Hh; [reflexivity|]. exfalso.
  assert (He : eligible n = true).
  { unfold eligible. rewrite Hh. simpl. apply Nat.eqb_eq.
    rewrite (Hc i n Hi Hh). unfold handledNeeds. symmetry.
    apply filter_all_length. intros d Hd. unfold isHandled.
    pose proof (Hin i n d Hi Hd) as Hlt.
    destruct (nodes g !! dep_node d) as [nd|] eqn:End.
    - apply (IH (dep_node d)); [|exact End].
      unfold ltof. exact (Hrank i n d Hi Hd).
    - apply lookup_ge_None in End. lia. }
  assert (Hm : In (model n) (batchModels (_createBatch g))).
  { apply createBatch_In. eauto. }
  rewrite Hb in Hm. destruct Hm.
Qed.

Lemma static_needs n n' : static n' = static n -> needs n' = needs n.
Proof. unfold static. now intros [= _ _ _ -> _ _]. Qed.

Lemma static_model n n' : static n' = static n -> model n' = model n.
Proof. unfold static. now intros [= _ -> _ _ _ _]. Qed.

(** X10.  In a dependency graph without cycles nothing is left out: when
    the run resolves, every node that was not handled at the start has had
    its model handed to the insert callback, in a batch of entity rows. *)
Theorem acyclic_graph_fully_inserted
    (inserter : Inserter) (h : list cell) (input : value)
    (g : DependencyGraph) (rank : nat -> nat) (fuel : nat)
    (s' : state) (res : value) :
  uidsConsistent h g -> distinctModels g -> resolversKeepUids g ->
  edgesReversed g -> countsConsistent g -> inserterKeepsUids inserter ->
  needsInGraph g -> ranked g rank ->
  execute fuel inserter (newGraphInserter h input g) = (s', Ok res) ->
  (forall i n, nodes (graph s') !! i = Some n -> handled n = true) /\
  forall i n, nodes g !! i = Some n -> handled n = false ->
    exists c, In c (calls s') /\ entityCall c = true /\
              In (model n) (models (call_insertion c)).
Proof.
  intros Hu Hd HR He Hc HI Hin Hrank Hrun.
  destruct (execute_phases inserter g HI fuel
              (newGraphInserter h input g) s' res eq_refl
              (RunInv_start h input g Hu Hd HR He Hc) Hrun)
    as (s1 & js & _ & Hinv & Hb & Hg & Hcalls & _ & _).
  destruct Hinv as (_ & _ & _ & _ & Hc1 & HT & _).
  pose proof (ti_static _ _ HT) as Hst.
  assert (Hall : forall i n, nodes (graph s1) !! i = Some n ->
                             handled n = true).
  { apply (empty_scan_all_handled (graph s1) rank); auto.
    - intros i n d Hi Hd1.
      destruct (static_lookup_ex _ _ i n (eq_sym Hst) Hi) as (n0 & Hi0 & E).
      rewrite <- (length_map static (nodes (graph s1))), Hst, length_map.
      apply (Hin i n0 d Hi0). now rewrite (static_needs _ _ E).
    - intros i n d Hi Hd1.
      destruct (static_lookup_ex _ _ i n (eq_sym Hst) Hi) as (n0 & Hi0 & E).
      apply (Hrank i n0 d Hi0). now rewrite (static_needs _ _ E). }
  split; [now rewrite Hg|].
  intros i n Hi Hh.
  destruct (static_lookup_ex _ _ i n Hst Hi) as (n1 & Hi1 & E).
  destruct (ti_handled _ _ HT i n n1 Hi Hi1 (Hall i n1 Hi1)) as [H|H];
    [congruence|].
  destruct H as (c & Hcin & Hce & _ & Hm).
  exists c. rewrite Hcalls. split; [apply in_or_app; now left|].
  split; [exact Hce|]. now rewrite <- (static_model _ _ E).
Qed.

(** The parent and its child, without the two nodes on a cycle. *)
Definition chainGraph : DependencyGraph :=
  {| nodes := [ exNode "u1" 0 Parent [] [edge 1 1];
                exNode "u2" 1 Child [edge 0 1] [] ];
     nodesById := {[ "u1" := 0; "u2" := 1 ]};
     inputNodesById := {[ "u1" ]} |}.

Lemma chainGraph_uids : uidsConsistent exHeap chainGraph.
Proof.
  intros i n Hi _. unfold uidLeadsTo.
  destruct i as [|[|i]]; simpl in Hi; try discriminate;
    injection Hi as <-; eexists; eexists; (split; [reflexivity|]);
    (split; [reflexivity|]); reflexivity.
Qed.

Lemma chainGraph_distinct : distinctModels chainGraph.
Proof.
  unfold distinctModels. simpl. apply NoDup_ListNoDup.
  repeat constructor; simpl; intuition discriminate.
Qed.

Lemma chainGraph_resolvers : resolversKeepUids chainGraph.
Proof.
  intros n d Hn Hd m h nj Hnj.
  assert (Hu : uidProp (modelClass nj) <> "parentId").
  { simpl in Hnj. destruct Hnj as [<-|[<-|[]]]; discriminate. }
  simpl in Hn.
  repeat (destruct Hn as [<-|Hn];
          [simpl in Hd;
           repeat (destruct Hd as [<-|Hd];
                   [now apply writeForeignKey_keepsUid|]);
           destruct Hd|]).
  destruct Hn.
Qed.

Lemma chainGraph_edges : edgesReversed chainGraph.
Proof.
  intros i j ni nj Hi Hj _ _.
  destruct i as [|[|i]]; simpl in Hi; try discriminate;
    injection Hi as <-;
    destruct j as [|[|j]]; simpl in Hj; try discriminate;
    injection Hj as <-; reflexivity.
Qed.

Lemma chainGraph_counts : countsConsistent chainGraph.
Proof.
  intros i n Hi _.
  destruct i as [|[|i]]; simpl in Hi; try discriminate;
    injection Hi as <-; reflexivity.
Qed.

Lemma chainGraph_needs : needsInGraph chainGraph.
Proof.
  intros i n d Hi Hd.
  destruct i as [|[|i]]; simpl in Hi; try discriminate;
    injection Hi as <-; simpl in Hd.
  - destruct Hd.
  - destruct Hd as [<-|[]]. simpl. lia.
Qed.

Lemma chainGraph_ranked : ranked chainGraph (fun i => i).
Proof.
  intros i n d Hi Hd.
  destruct i as [|[|i]]; simpl in Hi; try discriminate;
    injection Hi as <-; simpl in Hd.
  - destruct Hd.
  - destruct Hd as [<-|[]]. simpl. lia.
Qed.

Lemma acyclic_graph_fully_inserted_witness :
  exists c,
    In c (calls (fst (execute 4 exInserter
                        (newGraphInserter exHeap (VRef 0) chainGraph)))) /\
    entityCall c = true /\
    In (model (exNode "u2" 1 Child [edge 0 1] []))
       (models (call_insertion c)).
Proof.
  destruct (acyclic_graph_fully_inserted exInserter exHeap (VRef 0) chainGraph
              (fun i => i) 4
              (fst (execute 4 exInserter
                      (newGraphInserter exHeap (VRef 0) chainGraph)))
              (VRef 0)
              chainGraph_uids chainGraph_distinct chainGraph_resolvers
              chainGraph_edges chainGraph_counts exInserter_keepsUids
              chainGraph_needs chainGraph_ranked) as [_ H].
  - vm_compute. reflexivity.
  - apply (H 1 (exNode "u2" 1 Child [edge 0 1] [])); reflexivity.
Defined.

(** *** The empty graph *)

(** X11.  With no node in the graph nothing is inserted: the first scan is
    empty, the batch of join rows is empty too, the insert callback is never
    invoked, the heap stays as it is, and the promise resolves with
    [this.models]. *)
Theorem empty_graph_inserts_nothing
    (inserter : Inserter) (h : list cell) (input : value)
    (g : DependencyGraph) (fuel : nat) :
  nodes g = [] -> 2 <= fuel ->
  execute fuel inserter (newGraphInserter h input g) =
    ({| heap_ := h; inputModels := input; done := true; graph := g;
        rounds := 1; calls := [] |}, Ok input).
Proof.
  intros Hn Hfuel. destruct fuel as [|[|fuel]]; [lia | lia |].
  destruct g as [ns byId inputs]. simpl in Hn. subst ns. reflexivity.
Qed.

Lemma empty_graph_inserts_nothing_witness :
  snd (execute 2 exInserter
         (newGraphInserter exHeap (VRef 0)
            {| nodes := []; nodesById := ∅; inputNodesById := ∅ |})) =
  Ok (VRef 0).
Proof.
  rewrite (empty_graph_inserts_nothing exInserter exHeap (VRef 0)
             {| nodes := []; nodesById := ∅; inputNodesById := ∅ |} 2
             eq_refl (le_n 2)).
  reflexivity.
Defined.

End InsertionRuns.

Module JoinBuilderProperties.
Import JS Heap Monad Graph JSString RelationJoinBuilder JSFacts MonadFacts TreeFacts AliasLength AliasEncoding JoinRows ModelProperties.
Local Open Scope js_scope.

(** *** [encode] called again *)

Lemma append_empty (a b : string) : a +:+ b = "" -> a = "" /\ b = "".
Proof.
  destruct a as [|x a]; [intros H; split; [reflexivity | exact H]|].
  rewrite append_cons. discriminate.
Qed.

Lemma concat_empty sep : forall l,
  String.concat sep l = "" ->
  Forall (fun s => s = "") l /\ (length l <= 1 \/ sep = "").
Proof.
  induction l as [|x [|y l] IH]; intros H.
  - split; [constructor | simpl; auto].
  - simpl in H. subst. split; [repeat constructor | simpl; auto].
  - rewrite concat_cons in H by discriminate.
    apply append_empty in H as [-> H]. apply append_empty in H as [-> H].
    destruct (IH H) as [Hall _]. split; [now constructor | now right].
Qed.

Lemma concat_of_empty sep : forall l,
  Forall (fun s => s = "") l -> (length l <= 1 \/ sep = "") ->
  String.concat sep l = "".
Proof.
  induction l as [|x [|y l] IH]; intros Hall Hl; [reflexivity| |].
  - now inversion Hall.
  - destruct Hl as [Hl| ->]; [simpl in Hl; lia|].
    inversion Hall as [|? ? -> Hall']; subst.
    rewrite concat_cons by discriminate. rewrite IH; auto.
Qed.

Lemma aliasPart_empty opt part : aliasPart opt part = "" -> part = "".
Proof.
  unfold aliasPart. destruct (aliases opt !! part) as [a|].
  - destruct (String.eqb_spec a ""); auto. intros ->. contradiction.
  - destruct (inherited part); auto. unfold inheritedString.
    destruct (String.eqb part "__proto__"); [discriminate|].
    destruct (String.eqb part "constructor"); discriminate.
Qed.

(** A path other than the root has a truthy encoding. *)
Lemma aliasEncode_nonempty opt p : p <> "" -> aliasEncode opt p <> "".
Proof.
  intros Hp He. apply Hp. unfold aliasEncode, join in He.
  apply concat_empty in He as [Hall Hl]. rewrite length_map in Hl.
  rewrite <- (join_split p (separator opt)). unfold join.
  apply concat_of_empty; [|exact Hl].
  apply List.Forall_forall. intros part Hin.
  rewrite List.Forall_forall in Hall.
  apply (aliasPart_empty opt). apply Hall. now apply in_map.
Qed.

Lemma cached_remembered e p enc :
  enc <> "" -> cached (remembered e p enc) p = true.
Proof.
  intros H. unfold cached, remembered. simpl. rewrite lookup_insert_eq.
  destruct (String.eqb_spec enc ""); [contradiction | reflexivity].
Qed.

Lemma remembered_twice e p enc :
  remembered (remembered e p enc) p enc = remembered e p enc.
Proof.
  unfold remembered. simpl. now rewrite !insert_insert_eq.
Qed.

(** X12.  [encode] always returns, and calling it again with the same path
    returns the same encoding and changes nothing.  In the minimize mode a
    path other than the root uses up one number, the first time it is
    encoded; nothing else changes the counter. *)
Theorem encode_again_changes_nothing
    (opt : Options) (path : string) (e : Encoder) :
  exists e1 enc,
    encode opt path e = (e1, Ok enc) /\
    encode opt path e1 = (e1, Ok enc) /\
    encIdx e1 =
      (if cached e path || negb (minimize opt) || String.eqb path ""
       then encIdx e else S (encIdx e)).
Proof.
  destruct (cached e path) eqn:Hc.
  - exists e, (default "" (encodings e !! path)).
    rewrite encode_cached by assumption. auto.
  - destruct (minimize opt) eqn:Hm; simpl.
    + destruct (String.eqb_spec path "") as [->|Hp].
      * exists (remembered e "" ""), "".
        rewrite encode_root by assumption. split; [reflexivity|].
        split; [|reflexivity].
        rewrite encode_root, remembered_twice; auto.
        unfold cached, remembered. simpl. now rewrite lookup_insert_eq.
      * eexists _, _. rewrite encode_token by assumption.
        split; [reflexivity|]. split; [|reflexivity].
        rewrite encode_cached by (apply cached_remembered, token_nonempty).
        unfold remembered. simpl. now rewrite lookup_insert_eq.
    + exists (remembered e path (encOf opt path)), (encOf opt path).
      rewrite encode_default by assumption. split; [reflexivity|].
      split; [|reflexivity].
      destruct (String.eqb_spec path "") as [->|Hp].
      * rewrite encOf_root. rewrite encode_default, encOf_root; auto.
        -- now rewrite remembered_twice.
        -- unfold cached, remembered. simpl. now rewrite lookup_insert_eq.
      * assert (Hne : encOf opt path <> "").
        { unfold encOf. destruct (String.eqb_spec path "");
            [contradiction|]. now apply aliasEncode_nonempty. }
        rewrite encode_cached by now apply cached_remembered.
        unfold remembered. simpl. now rewrite lookup_insert_eq.
Qed.

(** *** The encodings of the minimize mode *)

(** The paths [ps] have the encodings [_tn] for the numbers [ns]. *)
Definition numbered (e : Encoder) (ps : list string) (ns : list nat) : Prop :=
  Forall2 (fun p n => encodings e !! p = Some (token n) /\
                      decode e (token n) = Some p) ps ns.

Lemma numbered_remembered e ps ns q :
  numbered e ps ns -> ~ In q ps -> Forall (fun n => n <= encIdx e) ns ->
  numbered (remembered {| encodings := encodings e; decodings := decodings e;
                          encIdx := S (encIdx e) |} q (token (S (encIdx e))))
           ps ns.
Proof.
  intros Hn. induction Hn as [|p n ps ns [Hp Hd] Hn IH]; intros Hq Hle;
    constructor.
  - inversion Hle; subst. unfold remembered, decode. simpl. split.
    + rewrite lookup_insert_ne; auto. intros ->. apply Hq. now left.
    + rewrite lookup_insert_ne; auto. intros H. apply token_inj in H. lia.
  - apply IH; [intros H; apply Hq; now right | now inversion Hle].
Qed.

Lemma seq_le_last start len :
  Forall (fun n => n <= start + len) (seq (S start) len).
Proof.
  apply List.Forall_forall. intros n Hn. apply in_seq in Hn. lia.
Qed.

Lemma encodeAll_tokens opt k0 : minimize opt = true ->
  forall ps prev e,
    List.NoDup (prev ++ ps) -> ~ In "" ps ->
    (forall p, In p ps -> encodings e !! p = None) ->
    encIdx e = k0 + length prev ->
    numbered e prev (seq (S k0) (length prev)) ->
    exists e',
      mapM (encode opt) ps e =
        (e', Ok (map token (seq (S (encIdx e)) (length ps)))) /\
      encIdx e' = encIdx e + length ps /\
      numbered e' (prev ++ ps) (seq (S k0) (length (prev ++ ps))).
Proof.
  intros Hm. induction ps as [|p ps IH];
    intros prev e Hnd Hroot Hnew Hidx Hprev; simpl.
  - exists e. split; [reflexivity|]. split; [lia|]. now rewrite app_nil_r.
  - assert (Hc : cached e p = false).
    { unfold cached. now rewrite (Hnew p (or_introl eq_refl)). }
    assert (Hpr : p <> "") by (intros ->; apply Hroot; now left).
    assert (Hp : ~ In p prev /\ ~ In p ps /\ List.NoDup ((prev ++ [p]) ++ ps)).
    { rewrite <- app_assoc. simpl. split; [|split; [|exact Hnd]].
      - intros H. apply NoDup_remove_2 in Hnd. apply Hnd.
        apply in_or_app. now left.
      - intros H. apply NoDup_remove_2 in Hnd. apply Hnd.
        apply in_or_app. now right. }
    destruct Hp as (Hp1 & Hp2 & Hnd1).
    unfold mbind at 1. rewrite (encode_token opt p e Hc Hm Hpr).
    set (e1 := remembered _ p (token (S (encIdx e)))).
    destruct (IH (prev ++ [p]) e1) as (e' & Hrun & Hidx' & Hall); auto.
    { intros H. apply Hroot. now right. }
    { intros q Hq. unfold e1, remembered. simpl.
      rewrite lookup_insert_ne by (intros ->; contradiction).
      apply Hnew. now right. }
    { unfold e1, remembered. simpl. rewrite length_app. simpl. lia. }
    { rewrite length_app. simpl. rewrite seq_app. simpl.
      apply Forall2_app.
      - apply numbered_remembered; auto. rewrite Hidx. apply seq_le_last.
      - constructor; [|constructor]. unfold e1, remembered, decode. simpl.
        replace (S (k0 + length prev)) with (S (encIdx e)) by lia.
        now rewrite !lookup_insert_eq. }
    exists e'. unfold mbind. rewrite Hrun.
    split; [reflexivity|]. split.
    + rewrite Hidx'. unfold e1, remembered. simpl. lia.
    + now rewrite <- app_assoc in Hall.
Qed.

(** X13.  In the minimize mode the builder numbers the paths in the order
    it meets them: the n-th new path other than the root is encoded as
    ['_tn'], whatever its name and the alias table, and decodes back to the
    path. *)
Theorem minimized_paths_are_numbered (opt : Options) (ps : list string) :
  minimize opt = true -> List.NoDup ps -> ~ In "" ps ->
  exists e',
    mapM (encode opt) ps newEncoder =
      (e', Ok (map token (seq 1 (length ps)))) /\
    encIdx e' = length ps /\
    Forall2 (fun p n => decode e' (token n) = Some p)
            ps (seq 1 (length ps)).
Proof.
  intros Hm Hnd Hroot.
  assert (Hnew : forall p, In p ps -> encodings newEncoder !! p = None).
  { intros p _. apply lookup_empty. }
  assert (Hprev : numbered newEncoder [] (seq 1 (length (@nil string)))).
  { constructor. }
  destruct (encodeAll_tokens opt 0 Hm ps [] newEncoder Hnd Hroot Hnew eq_refl
              Hprev)
    as (e' & H1 & H2 & H3).
  exists e'. split; [exact H1|]. split; [exact H2|].
  simpl in H3. eapply Forall2_impl; [exact H3|]. now intros p n [_ H].
Qed.

Lemma minimized_paths_are_numbered_witness :
  exists e',
    mapM (encode {| minimize := true; separator := ":"; aliases := ∅ |})
         ["children"; "children:pets"] newEncoder =
      (e', Ok (map token (seq 1 2))) /\
    encIdx e' = 2 /\
    Forall2 (fun p n => decode e' (token n) = Some p)
            ["children"; "children:pets"] (seq 1 2).
Proof.
  apply (minimized_paths_are_numbered
           {| minimize := true; separator := ":"; aliases := ∅ |}
           ["children"; "children:pets"]).
  - reflexivity.
  - repeat constructor; simpl; intuition discriminate.
  - simpl. intuition discriminate.
Defined.

(** X14.  In the default mode without aliases every path none of whose
    segments names a member of [Object.prototype] is encoded as itself; a
    segment such as ['valueOf'] is encoded as the string of the inherited
    function instead. *)
Theorem paths_without_aliases_encode_as_themselves
    (opt : Options) (ps : list string) :
  minimize opt = false -> aliases opt = ∅ -> plainSegments opt ps ->
  (exists e',
     mapM (encode opt) ps newEncoder = (e', Ok ps) /\
     Forall (fun p => decode e' p = Some p) ps) /\
  snd (encode defaultOptions "valueOf" newEncoder) =
    Ok "function valueOf() { [native code] }".
Proof.
  intros Hm Ha Hplain. split; [|vm_compute; reflexivity].
  assert (Hd : distinctEncodings opt ps)
    by now apply plainSegments_distinct.
  destruct (encodeAll_spec opt ps ps newEncoder (or_intror Hd)
              (tables_new opt ps) (incl_refl _))
    as (e' & encs & Hrun & Ht & Hall & _).
  assert (E : forall l encs0,
             Forall2 (fun p enc => encodings e' !! p = Some enc) l encs0 ->
             encs0 = l /\ Forall (fun p => decode e' p = Some p) l).
  { clear -Ht Hm Ha Hplain. induction 1 as [|p enc l encs Hp Hall IH].
    - split; [reflexivity | constructor].
    - destruct IH as [-> IH]. destruct (Ht p enc Hp) as [Hdec Hmode].
      rewrite Hm in Hmode. destruct Hmode as [-> Hin].
      rewrite encOf_no_aliases in *
        by (auto; intros part; now apply Hplain).
      split; [reflexivity|]. constructor; assumption. }
  destruct (E ps encs Hall) as [-> E']. exists e'. split; assumption.
Qed.

Lemma paths_without_aliases_encode_as_themselves_witness :
  (exists e',
     mapM (encode defaultOptions) [""; "children"; "children:pets"]
          newEncoder = (e', Ok [""; "children"; "children:pets"]) /\
     Forall (fun p => decode e' p = Some p)
            [""; "children"; "children:pets"]) /\
  snd (encode defaultOptions "valueOf" newEncoder) =
    Ok "function valueOf() { [native code] }".
Proof.
  apply (paths_without_aliases_encode_as_themselves defaultOptions
           [""; "children"; "children:pets"]); [reflexivity..|].
  intros p part Hp Hpart.
  repeat (destruct Hp as [<-|Hp];
          [vm_compute in Hpart; intuition (subst; reflexivity)|]).
  destruct Hp.
Defined.

(** *** Aliases read back by [createKeyInfo] *)

Lemma prefix_char c x s :
  String.prefix (String c "") (String x s) = Ascii.eqb c x.
Proof.
  simpl. destruct (Ascii.ascii_dec c x) as [->|Hne].
  - rewrite Ascii.eqb_refl. now destruct s.
  - symmetry. now apply Ascii.eqb_neq.
Qed.

Lemma lastIndexFrom_absent c : forall s i last,
  hasChar c s = false -> lastIndexFrom (String c "") s i last = last.
Proof.
  induction s as [|x s IH]; intros i last H; [reflexivity|].
  simpl in H. apply orb_false_iff in H as [Hx Hs].
  cbn [lastIndexFrom]. rewrite prefix_char, Hx. now apply IH.
Qed.

Lemma lastIndexFrom_last c col : hasChar c col = false ->
  forall e i last,
    lastIndexFrom (String c "") (e +:+ String c col) i last =
    Some (i + String.length e).
Proof.
  intros Hcol. induction e as [|x e IH]; intros i last.
  - change ("" +:+ String c col) with (String c col).
    cbn [lastIndexFrom]. rewrite prefix_char, Ascii.eqb_refl.
    rewrite lastIndexFrom_absent by assumption. simpl. f_equal. lia.
  - rewrite append_cons. cbn [lastIndexFrom]. rewrite IH. simpl.
    f_equal. lia.
Qed.

Lemma substring_all s : String.substring 0 (String.length s) s = s.
Proof. induction s as [|x s IH]; simpl; congruence. Qed.

Lemma substring_prefix : forall e r,
  String.substring 0 (String.length e) (e +:+ r) = e.
Proof.
  induction e as [|x e IH]; intros r.
  - change ("" +:+ r) with r. now destruct r.
  - rewrite append_cons. simpl. now rewrite IH.
Qed.

Lemma substring_suffix : forall e r n,
  String.substring (String.length e) n (e +:+ r) = String.substring 0 n r.
Proof.
  induction e as [|x e IH]; intros r n.
  - reflexivity.
  - rewrite append_cons. simpl. apply IH.
Qed.

(** The entry [createKeyInfo] pushes for the column [col] of [path] read
    from the key [key]: none when the column is in [omitCols]. *)
Definition keyEntry (b : Builder) (path key col : string)
  : result (option KeyInfo) :=
  match lookupPath (pathInfo b) path with
  | None => Err TypeError
  | Some pInfo =>
      Ok (if existsb (String.eqb col) (omitCols pInfo) then None
          else Some {| kInfo_pInfo := pInfo; kInfo_key := key;
                       kInfo_col := col |})
  end.

(** X15.  [createKeyInfo] reads the aliases of [buildSelects] back: with a
    separator of one character that does not occur in the column name, the
    key [joinPath(encPath, col)] is split at its last separator into
    [encPath], which is decoded to find the PathInfo, and [col]; a key
    without separator is a column of the root. *)
Theorem alias_is_split_into_path_and_column
    (b : Builder) (c : ascii) (e col : string) :
  sep b = String c "" -> hasChar c col = false ->
  keyInfoOf b (joinPath (sep b) e col) =
  keyEntry b (if String.eqb e "" then ""
              else default "undefined" (decode (encoder b) e))
           (joinPath (sep b) e col) col.
Proof.
  intros Hsep Hcol. unfold keyInfoOf, keyEntry, joinPath. rewrite Hsep.
  destruct (String.eqb_spec e "") as [->|He].
  - unfold lastIndexOf. now rewrite lastIndexFrom_absent.
  - change (String c "" +:+ col) with (String c col).
    unfold lastIndexOf. rewrite lastIndexFrom_last by assumption. simpl.
    unfold substr, substrFrom. rewrite substring_prefix.
    replace (String.length e + 1) with (String.length (e +:+ String c ""))
      by (rewrite length_append; reflexivity).
    replace (e +:+ String c col) with ((e +:+ String c "") +:+ col)
      by (rewrite append_assoc; reflexivity).
    rewrite substring_suffix, length_append, Nat.add_comm, Nat.add_sub.
    now rewrite substring_all.
Qed.

Lemma alias_is_split_into_path_and_column_witness :
  keyInfoOf TreeExample.familyBuilder "children:name" =
  keyEntry TreeExample.familyBuilder "children" "children:name" "name".
Proof.
  apply (alias_is_split_into_path_and_column TreeExample.familyBuilder
           ":"%char "children" "name"); reflexivity.
Defined.

(** *** Identifier columns the filter rejects *)

(** A column that is selected only because it is an identifier column. *)
Definition fetchedForId (args : SelectArgs) (col : string) : bool :=
  negb (selectFilter args col)
  && existsb (String.eqb col) (idColumn (arg_modelClass args)).

Lemma selectColumns_omit opt rootTable args : forall columns acc s,
  exists s' sels,
    foldM (selectColumn opt rootTable args) columns acc s = (s', Ok sels) /\
    forall col, In col (bs_omitCols s') <->
                In col (bs_omitCols s) \/
                (In col columns /\ fetchedForId args col = true).
Proof.
  induction columns as [|col0 columns IH]; intros acc s; simpl.
  - exists s, acc. split; [reflexivity|]. intros col. tauto.
  - unfold mbind at 1, selectColumn at 1. unfold fetchedForId.
    destruct (selectFilter args col0) eqn:Hf; simpl.
    + match goal with
      | |- context [foldM _ columns ?a ?t] =>
          destruct (IH a t) as (s' & sels & Hrun & Hom)
      end.
      exists s', sels. split; [exact Hrun|]. intros col. rewrite Hom.
      unfold fetchedForId. split; [tauto|].
      intros [H|[[<-|H] Hc]]; [tauto | | tauto].
      rewrite Hf in Hc. discriminate.
    + destruct (existsb (String.eqb col0) (idColumn (arg_modelClass args)))
        eqn:Hid; simpl.
      * unfold omitCol, modify. simpl.
        match goal with
        | |- context [foldM _ columns ?a ?t] =>
            destruct (IH a t) as (s' & sels & Hrun & Hom)
        end.
        exists s', sels. split; [exact Hrun|]. intros col. rewrite Hom.
        simpl. unfold fetchedForId.
        assert (Hin : In col (if existsb (String.eqb col0) (bs_omitCols s)
                              then bs_omitCols s else bs_omitCols s ++ [col0])
                      <-> In col (bs_omitCols s) \/ col0 = col).
        { destruct (existsb (String.eqb col0) (bs_omitCols s)) eqn:Ex.
          - split; [tauto|]. intros [H|<-]; auto.
            apply existsb_exists in Ex as (x & Hx & E).
            apply String.eqb_eq in E. now subst.
          - rewrite in_app_iff. simpl. tauto. }
        rewrite Hin. split; [|tauto].
        intros [[H|<-]|H]; [tauto | | tauto].
        right. split; [now left|]. now rewrite Hf, Hid.
      * destruct (IH acc s) as (s' & sels & Hrun & Hom).
        exists s', sels. split; [exact Hrun|]. intros col. rewrite Hom.
        unfold fetchedForId. split; [tauto|].
        intros [H|[[<-|H] Hc]]; [tauto | | tauto].
        rewrite Hf, Hid in Hc. discriminate.
Qed.

(** The properties of the object [createModel] hands to
    [fromDatabaseJson]: one for every entry of the path, named as the
    column of the entry. *)
Lemma hasProp_rowJson row col : forall ks json,
  hasProp
    (fold_left (fun json k =>
                  setProp json (kInfo_col k)
                          (VPrim (rowGet row (kInfo_key k))))
               ks json) col = true ->
  hasProp json col = true \/ exists k, In k ks /\ kInfo_col k = col.
Proof.
  induction ks as [|k ks IH]; intros json H; simpl in H; [now left|].
  apply IH in H as [H|(k' & Hk & E)].
  - destruct (String.eqb_spec (kInfo_col k) col) as [E|Hne].
    + right. exists k. split; [now left | exact E].
    + left. rewrite hasProp_setProp in H.
      apply String.eqb_neq in Hne. now rewrite Hne in H.
  - right. exists k'. split; [now right | exact E].
Qed.

Lemma keyInfoOf_kept b key k :
  keyInfoOf b key = Ok (Some k) ->
  existsb (String.eqb (kInfo_col k)) (omitCols (kInfo_pInfo k)) = false.
Proof.
  unfold keyInfoOf.
  destruct (lastIndexOf key (sep b)) as [i|];
    match goal with
    | |- context [lookupPath ?m ?p] => destruct (lookupPath m p) as [pInfo|]
    end; try discriminate;
    match goal with
    | |- context [existsb ?f ?l] => destruct (existsb f l) eqn:E
    end; try discriminate; intros [= <-]; exact E.
Qed.

Lemma keyInfos_kept b : forall aliases ks,
  keyInfos b aliases = Ok ks ->
  Forall (fun k => existsb (String.eqb (kInfo_col k))
                           (omitCols (kInfo_pInfo k)) = false) ks.
Proof.
  intros l. induction l as [|key l IH]; intros ks; simpl.
  - intros [= <-]. constructor.
  - destruct (keyInfoOf b key) as [k|e] eqn:Hk; [|discriminate]. simpl.
    destruct (keyInfos b l) as [ks'|e]; [|discriminate]. simpl.
    intros [= <-]. specialize (IH ks' eq_refl).
    destruct k as [k|]; [|exact IH].
    constructor; [exact (keyInfoOf_kept b key k Hk) | exact IH].
Qed.

(** X16.  [buildSelects] records in [omitCols] the columns it selects only
    because they are identifier columns (the filter rejects them), and no
    other column, whether it then throws or not.  [createKeyInfo] makes no
    entry for a column its PathInfo omits, and the object [createModel]
    builds from a row is [fromDatabaseJson] of an object whose properties
    are columns of the entries of the path: a column fetched only to tell
    the rows apart is left out of the models. *)
Theorem rejected_id_columns_are_omitted
    (opt : Options) (rootModelClass : ModelClass)
    (columnInfo : gmap string (list string)) (args : SelectArgs)
    (columns : list string) (s : BuildState) :
  columnInfo !! tableName (arg_modelClass args) = Some columns ->
  (forall col,
     In col (bs_omitCols (fst (buildSelects opt rootModelClass columnInfo
                                 args s))) <->
     In col (bs_omitCols s) \/
     (In col columns /\ fetchedForId args col = true)) /\
  (forall b rows keyInfo,
     createKeyInfo b rows = Ok keyInfo ->
     Forall (fun k => ~ In (kInfo_col k) (omitCols (kInfo_pInfo k)))
            keyInfo) /\
  (forall row pInfo keyInfo t t' m,
     createModel row pInfo keyInfo t = (t', Ok m) ->
     exists a json,
       m = VRef a /\
       t_heap t' !! a =
         Some (Obj (Some (pi_modelClass pInfo))
                   (ModelJS.fromDatabaseJson (pi_modelClass pInfo) json)) /\
       forall col, hasProp json col = true ->
         exists k, In k keyInfo /\ kInfo_col k = col /\
                   encPath (kInfo_pInfo k) = encPath pInfo).
Proof.
  intros Hcols. split; [|split].
  - unfold buildSelects. rewrite Hcols.
    destruct (selectColumns_omit opt (tableName rootModelClass) args columns
                [] s) as (s1 & sels & Hrun & Hom).
    unfold mbind. rewrite Hrun. cbv beta iota.
    destruct (arg_relation args) as [relation|].
    + unfold onEncoder.
      destruct (encode_returns opt (joinTableForPath (path (arg_info args)))
                  (bs_encoder s1)) as (e' & joinTable & Henc).
      rewrite Henc. unfold ret. cbv beta iota.
      destruct (List.filter tooLong _) as [|select rest];
        unfold builderSelect, modify, throw; simpl; exact Hom.
    + unfold ret.
      destruct (List.filter tooLong _) as [|select rest];
        unfold builderSelect, modify, throw; simpl; exact Hom.
  - intros b rows keyInfo H. unfold createKeyInfo in H.
    destruct rows as [|row0 rows]; [discriminate|].
    apply keyInfos_kept in H. eapply Forall_impl; [exact H|].
    intros k E Hin. simpl in E.
    assert (E' : existsb (String.eqb (kInfo_col k))
                         (omitCols (kInfo_pInfo k)) = true).
    { apply existsb_exists. exists (kInfo_col k).
      split; [exact Hin | apply String.eqb_refl]. }
    congruence.
  - intros row pInfo keyInfo t t' m. unfold createModel.
    destruct (keyInfoFor keyInfo (encPath pInfo)) as [ks|] eqn:Hks;
      [|discriminate].
    unfold allocT, alloc. intros [= <- <-].
    eexists _, _. split; [reflexivity|]. split.
    + simpl. rewrite lookup_app_r, Nat.sub_diag by lia. reflexivity.
    + intros col Hcol. apply hasProp_rowJson in Hcol as [Hcol|(k & Hk & E)];
        [discriminate|].
      exists k. unfold keyInfoFor in Hks.
      assert (Hin : In k (List.filter
                            (fun k => String.eqb (encPath (kInfo_pInfo k))
                                                 (encPath pInfo)) keyInfo)).
      { destruct (List.filter _ keyInfo); [discriminate|].
        injection Hks as <-. exact Hk. }
      apply filter_In in Hin as [Hin He]. apply String.eqb_eq in He. auto.
Qed.

(** The root of a query whose filter rejects the identifier column. *)
Definition namedInfo : PathInfo :=
  {| path := ""; encPath := ""; encParentPath := None;
     pi_modelClass := TreeExample.Person; relation := None;
     omitCols := ["id"]; children := [];
     idGetter := createIdGetter ":" TreeExample.Person "";
     oneToOne := false |}.

Definition namedBuilder : Builder :=
  {| rootModelClass := TreeExample.Person; opt := defaultOptions;
     encoder := {| encodings := {[ "" := "" ]}; decodings := {[ "" := "" ]};
                   encIdx := 0 |};
     pathInfo := [("", namedInfo)] |}.

Definition namedRows : list Row :=
  [ [("id", PNum 1); ("name", PStr "a")];
    [("id", PNum 2); ("name", PStr "b")] ].

Definition nameArgs : SelectArgs :=
  {| selectFilter := fun col => String.eqb col "name";
     arg_modelClass := TreeExample.Person;
     arg_relation := None;
     arg_info := TreeExample.rootInfo;
     hasSelection := fun _ => false |}.

Lemma rejected_id_columns_are_omitted_witness :
  (In "id" (bs_omitCols
              (fst (buildSelects defaultOptions TreeExample.Person
                      {[ "Person" := ["id"; "name"] ]} nameArgs
                      {| bs_encoder := newEncoder; bs_omitCols := [];
                         bs_selected := [] |}))) <->
   In "id" [] \/
   (In "id" ["id"; "name"] /\ fetchedForId nameArgs "id" = true)) /\
  createKeyInfo namedBuilder namedRows =
    Ok [{| kInfo_pInfo := namedInfo; kInfo_key := "name";
           kInfo_col := "name" |}] /\
  Forall (fun k => ~ In (kInfo_col k) (omitCols (kInfo_pInfo k)))
         [{| kInfo_pInfo := namedInfo; kInfo_key := "name";
             kInfo_col := "name" |}] /\
  exists t' m,
    createModel [("id", PNum 1); ("name", PStr "a")] namedInfo
      [{| kInfo_pInfo := namedInfo; kInfo_key := "name";
          kInfo_col := "name" |}] (newTreeState []) = (t', Ok m) /\
    exists a json,
      m = VRef a /\
      t_heap t' !! a =
        Some (Obj (Some TreeExample.Person)
                  (ModelJS.fromDatabaseJson TreeExample.Person json)) /\
      forall col, hasProp json col = true ->
        exists k,
          In k [{| kInfo_pInfo := namedInfo; kInfo_key := "name";
                   kInfo_col := "name" |}] /\
          kInfo_col k = col /\
          encPath (kInfo_pInfo k) = encPath namedInfo.
Proof.
  destruct (rejected_id_columns_are_omitted defaultOptions TreeExample.Person
              {[ "Person" := ["id"; "name"] ]} nameArgs ["id"; "name"]
              {| bs_encoder := newEncoder; bs_omitCols := [];
                 bs_selected := [] |}) as (H1 & H2 & H3).
  - reflexivity.
  - split; [exact (H1 "id")|]. split; [reflexivity|].
    split; [exact (H2 namedBuilder namedRows _ eq_refl)|].
    set (r := createModel [("id", PNum 1); ("name", PStr "a")] namedInfo
                [{| kInfo_pInfo := namedInfo; kInfo_key := "name";
                    kInfo_col := "name" |}] (newTreeState [])).
    assert (E : r = (fst r, Ok (VRef 0))) by (vm_compute; reflexivity).
    exists (fst r), (VRef 0). split; [exact E|].
    exact (H3 _ _ _ _ _ _ E).
Defined.

(** *** The identifiers of the rows *)

Lemma append_same_prefix p : forall a b, p +:+ a = p +:+ b -> a = b.
Proof.
  induction p as [|c p IH]; intros a b E.
  - exact E.
  - rewrite !append_cons in E. injection E as E. now apply IH.
Qed.

(** The identifier columns of the row hold truthy values whose string
    forms have no comma. *)
Definition plainIds (idCols : list string) (row : Row) : Prop :=
  Forall (fun v => truthy_prim v = true /\ hasChar "," (ToString v) = false)
         (idValues idCols row).

Lemma plainIds_truthy idCols row :
  plainIds idCols row -> forallb truthy_prim (idValues idCols row) = true.
Proof.
  unfold plainIds. induction 1 as [|v vs [Hv _] _ IH]; simpl; [reflexivity|].
  now rewrite Hv.
Qed.

(** X22.  Whatever the number of identifier columns, the getter made by
    [createIdGetter] returns, for a row whose identifier columns hold
    truthy values, ['id:'] followed by the string forms of the values,
    separated by commas.  When the string forms have no comma, two rows get
    the same identifier exactly when the string forms of their values
    agree, column by column. *)
Theorem identifier_tells_rows_apart
    (sep : string) (cls : ModelClass) (path : string) (row1 row2 : Row) :
  let idCols := map (joinPath sep path) (idColumn cls) in
  plainIds idCols row1 -> plainIds idCols row2 ->
  createIdGetter sep cls path row1 =
    PStr ("id:" +:+ String.concat "," (map ToString (idValues idCols row1))) /\
  (createIdGetter sep cls path row1 = createIdGetter sep cls path row2 <->
   map ToString (idValues idCols row1) = map ToString (idValues idCols row2)).
Proof.
  intros idCols H1 H2. rewrite !createIdGetter_spec. fold idCols.
  unfold identifier.
  rewrite (plainIds_truthy _ _ H1), (plainIds_truthy _ _ H2).
  split; [reflexivity|]. split.
  - intros [= E]. apply append_same_prefix in E.
    apply concat_comma_inj in E; auto.
    + unfold idValues. now rewrite !length_map.
    + apply Forall_map. eapply Forall_impl; [exact H1|]. now intros v [_ H].
    + apply Forall_map. eapply Forall_impl; [exact H2|]. now intros v [_ H].
  - now intros ->.
Qed.

(** A class with two identifier columns. *)
Definition Membership : ModelClass :=
  {| tableName := "Membership"; idColumn := ["groupId"; "userId"];
     uidProp := "#id"; uidRefProp := "#ref"; relationNames := [];
     parseDatabaseJson := fun json => json;
     validateJson := fun json => Some json |}.

Lemma identifier_tells_rows_apart_witness :
  createIdGetter ":" Membership "members"
    [("members:groupId", PNum 1); ("members:userId", PStr "7")] =
    PStr "id:1,7" /\
  (createIdGetter ":" Membership "members"
     [("members:groupId", PNum 1); ("members:userId", PStr "7")] =
   createIdGetter ":" Membership "members"
     [("members:userId", PNum 7); ("members:groupId", PStr "1")] <->
   ["1"; "7"] = ["1"; "7"]).
Proof.
  apply (identifier_tells_rows_apart ":" Membership "members"
           [("members:groupId", PNum 1); ("members:userId", PStr "7")]
           [("members:userId", PNum 7); ("members:groupId", PStr "1")]);
    repeat constructor.
Defined.

End JoinBuilderProperties.

Module JoinedTree.
Import JS Heap Monad Graph JSString RelationJoinBuilder JSFacts MonadFacts TreeFacts TreeExample.
Local Open Scope js_scope.


(** *** The objects of [rowsToTree], by what they are for *)

Inductive kind :=
| KModel (e : string)    (* a model of the path encoded as [e] *)
| KBranch (e : string)   (* a branch of models of that path; [tree] for the root *)
| KArray (e : string)    (* a finalized branch *)
| KOther.                (* an object that was there before *)

(** [v] is a reference to an object of kind [k]. *)
Definition typed (T : list kind) (v : value) (k : kind) : Prop :=
  exists a, v = VRef a /\ T !! a = Some k.

(** What a model of the parent holds for the relation of [p]. *)
Definition slotKind (p : PathInfo) : kind :=
  if oneToOne p then KModel (encPath p) else KBranch (encPath p).

(** What a property may hold: nothing yet, an object of the kind expected
    and, once finalized, [null] or the array made of a branch. *)
Definition holds (fin : bool) (T : list kind) (v : value) (k : kind) : Prop :=
  v = undefined \/ typed T v k \/
  (fin = true /\ (v = null \/ exists e, k = KBranch e /\ typed T v (KArray e))).

Section Typing.
Variable infos : list PathInfo.

(** [p] is the child of [parent] for the relation [r]. *)
Definition childOf (parent : PathInfo) (r : string) (p : PathInfo) : Prop :=
  In parent infos /\ In (r, p) (children parent).

(** The PathInfo objects as [doBuild] makes them: the encoded paths are
    distinct, [children] has the PathInfo of every child relation, under the
    name of the relation, and every PathInfo with a relation is the child of
    its parent. *)
Record wellFormed : Prop := {
  wf_distinct : forall p p',
    In p infos -> In p' infos -> encPath p = encPath p' -> p = p';
  wf_children : forall parent r p, childOf parent r p ->
    In p infos /\ (exists rel, relation p = Some rel /\ name rel = r) /\
    encParentPath p = Some (encPath parent);
  wf_parent : forall p, In p infos -> relation p <> None ->
    exists parent r, childOf parent r p;
  wf_names : forall parent r p p',
    childOf parent r p -> childOf parent r p' -> p = p'
}.

(** A cell of kind [K]. *)
Definition cellOK (fin : bool) (T : list kind) (K : kind) (c : cell) : Prop :=
  match K with
  | KModel e =>
      exists cls o, c = Obj cls o /\
        forall parent r p, childOf parent r p -> encPath parent = e ->
          holds fin T (getProp o r) (slotKind p)
  | KBranch e =>
      exists cls o, c = Obj cls o /\
        Forall (fun kv => typed T (snd kv) (KModel e)) o /\
        List.NoDup (keys o)
  | KArray e =>
      exists elems, c = Arr elems /\
        Forall (fun v => typed T v (KModel e)) elems
  | KOther => True
  end.

Definition heapTyped (fin : bool) (T : list kind) (h : list cell) : Prop :=
  length T = length h /\
  forall a K, T !! a = Some K ->
    exists c, h !! a = Some c /\ cellOK fin T K c.

Definition stackTyped (T : list kind) (st : props) : Prop :=
  forall e, holds false T (getProp st e) (KModel e).

Lemma typed_mono T T' v k : T `prefix_of` T' -> typed T v k -> typed T' v k.
Proof.
  intros Hp (a & -> & Ha). exists a. split; auto.
  eapply prefix_lookup_Some; eauto.
Qed.

Lemma holds_mono fin T T' v k :
  T `prefix_of` T' -> holds fin T v k -> holds fin T' v k.
Proof.
  intros Hp [H|[H|(Hf & [H|(e & He & H)])]].
  - now left.
  - right. left. eapply typed_mono; eauto.
  - right. right. auto.
  - right. right. split; auto. right. exists e. split; auto.
    eapply typed_mono; eauto.
Qed.

Lemma holds_weaken T v k : holds false T v k -> holds true T v k.
Proof. intros [H|[H|[H _]]]; [now left | right; now left | discriminate]. Qed.

Lemma cellOK_mono fin T T' K c :
  T `prefix_of` T' -> cellOK fin T K c -> cellOK fin T' K c.
Proof.
  intros Hp. destruct K as [e|e|e|]; simpl; auto.
  - intros (cls & o & -> & H). exists cls, o. split; auto.
    intros parent r p Hc He. eapply holds_mono; eauto.
  - intros (cls & o & -> & H & Hnd). exists cls, o. split; auto.
    split; [|exact Hnd].
    eapply Forall_impl; [exact H|]. intros kv. now apply typed_mono.
  - intros (elems & -> & H). exists elems. split; auto.
    eapply Forall_impl; [exact H|]. intros v. now apply typed_mono.
Qed.

Lemma cellOK_weaken T K c : cellOK false T K c -> cellOK true T K c.
Proof.
  destruct K as [e|e|e|]; simpl; auto.
  intros (cls & o & -> & H). exists cls, o. split; auto.
  intros parent r p Hc He. apply holds_weaken. eauto.
Qed.

Lemma heapTyped_weaken T h : heapTyped false T h -> heapTyped true T h.
Proof.
  intros [Hl H]. split; auto. intros a K Ha.
  destruct (H a K Ha) as (c & Hc & Hok). exists c. split; auto.
  now apply cellOK_weaken.
Qed.

(** A new object. *)
Lemma heapTyped_alloc fin T h K c :
  heapTyped fin T h -> cellOK fin (T ++ [K]) K c ->
  heapTyped fin (T ++ [K]) (h ++ [c]).
Proof.
  intros [Hl H] Hc. split; [rewrite !length_app; simpl; lia|].
  intros a K' Ha.
  destruct (decide (a < length T)) as [Hlt|Hge].
  - rewrite lookup_app_l in Ha by lia.
    destruct (H a K' Ha) as (c' & Hc' & Hok). exists c'. split.
    + now apply lookup_app_l_Some.
    + eapply cellOK_mono; [|exact Hok]. now apply prefix_app_r.
  - assert (a = length T).
    { apply lookup_lt_Some in Ha. rewrite length_app in Ha. simpl in Ha. lia. }
    subst a. rewrite lookup_app_r in Ha by lia.
    rewrite Nat.sub_diag in Ha. injection Ha as <-.
    exists c. split; [|exact Hc].
    rewrite Hl, lookup_app_r by lia. now rewrite Nat.sub_diag.
Qed.

Lemma keys_setProp o k v :
  List.NoDup (keys o) -> List.NoDup (keys (setProp o k v)).
Proof.
  assert (Hin : forall o k0, In k0 (keys (setProp o k v)) ->
                             k0 = k \/ In k0 (keys o)).
  { clear o. induction o as [|[k1 v1] o IH]; simpl; intros k0.
    - intros [<-|[]]. now left.
    - destruct (String.eqb_spec k1 k) as [->|Hne]; simpl.
      + intros [<-|H]; auto.
      + intros [<-|H]; [auto|]. destruct (IH k0 H); auto. }
  induction o as [|[k1 v1] o IH]; simpl; intros Hnd.
  - constructor; [intros [] | constructor].
  - inversion Hnd as [|? ? Hk1 Hnd']; subst.
    destruct (String.eqb_spec k1 k) as [->|Hne]; simpl.
    + constructor; assumption.
    + constructor; [|now apply IH]. intros H.
      destruct (Hin o k1 H) as [E|E]; [now apply Hne | now apply Hk1].
Qed.

Lemma Forall_setProp (P : string * value -> Prop) o k v :
  Forall P o -> (forall k', P (k', v)) -> Forall P (setProp o k v).
Proof.
  intros Ho Hv. induction Ho as [|[k0 v0] o H0 Ho IH]; simpl.
  - constructor; auto.
  - destruct (String.eqb k0 k); constructor; auto.
Qed.

Lemma getProp_Forall (P : string * value -> Prop) o k :
  Forall P o -> getProp o k = undefined \/ exists k', P (k', getProp o k).
Proof.
  induction 1 as [|[k0 v0] o H0 Ho IH]; simpl; [now left|].
  destruct (String.eqb k0 k); [right; eauto | exact IH].
Qed.

(** What may be written to the property [k] of the object at [b]. *)
Definition writeOK (fin : bool) (T : list kind) (b : nat) (k : string)
    (v : value) : Prop :=
  match T !! b with
  | Some (KModel e) =>
      forall parent r p, childOf parent r p -> encPath parent = e -> r = k ->
        holds fin T v (slotKind p)
  | Some (KBranch e) => typed T v (KModel e)
  | _ => True
  end.

Lemma heapTyped_write fin T h b cls o k v :
  heapTyped fin T h -> h !! b = Some (Obj cls o) -> writeOK fin T b k v ->
  heapTyped fin T (<[b := Obj cls (setProp o k v)]> h).
Proof.
  intros [Hl H] Hb Hw. split; [now rewrite length_insert|].
  intros a K Ha. destruct (decide (a = b)) as [->|Hne].
  - exists (Obj cls (setProp o k v)). split.
    + apply list_lookup_insert_eq. eapply lookup_lt_Some; eauto.
    + destruct (H b K Ha) as (c & Hc & Hok). rewrite Hb in Hc.
      injection Hc as <-. unfold writeOK in Hw. rewrite Ha in Hw.
      destruct K as [e|e|e|]; simpl in *; auto.
      * destruct Hok as (cls' & o' & [= <- <-] & Hslots).
        exists cls, (setProp o k v). split; auto.
        intros parent r p Hch He.
        destruct (String.eqb_spec k r) as [->|Hk].
        -- rewrite getProp_setProp_eq. eauto.
        -- rewrite getProp_setProp_ne by auto. eauto.
      * destruct Hok as (cls' & o' & [= <- <-] & Hall & Hnd).
        exists cls, (setProp o k v). split; auto.
        split; [apply Forall_setProp; auto | now apply keys_setProp].
      * destruct Hok as (elems & [=] & _).
  - destruct (H a K Ha) as (c & Hc & Hok). exists c. split; auto.
    now rewrite list_lookup_insert_ne by auto.
Qed.

(** The property [k] of the object at [a] is where models of [p] are
    kept: any property of a branch of [p], and the property of a model of
    the parent named as the relation when [p] is one-to-one. *)
Definition modelSlot (T : list kind) (a : nat) (k : string) (p : PathInfo)
  : Prop :=
  In p infos /\
  ((oneToOne p = false /\ T !! a = Some (KBranch (encPath p))) \/
   (oneToOne p = true /\
    exists parent, childOf parent k p /\
                   T !! a = Some (KModel (encPath parent)))).

(** A model is kept only where a visit found or put one. *)
Definition visited (T : list kind) (h : list cell) (vs : list Visit) : Prop :=
  forall a k p val,
    modelSlot T a k p -> readProp h (VRef a) k = Ok val -> val <> undefined ->
    exists v, In v vs /\ v_branch v = VRef a /\ v_key v = k /\
              v_encPath v = encPath p.

Hypothesis wf : wellFormed.

Lemma modelSlot_mono T T' a k p :
  T `prefix_of` T' -> modelSlot T a k p -> modelSlot T' a k p.
Proof.
  intros Hp [Hin H]. split; auto.
  destruct H as [[H1 H2]|[H1 (parent & Hc & H2)]].
  - left. split; auto. eapply prefix_lookup_Some; eauto.
  - right. split; auto. exists parent. split; auto.
    eapply prefix_lookup_Some; eauto.
Qed.

Lemma modelSlot_old T K a k p :
  a < length T -> modelSlot (T ++ [K]) a k p -> modelSlot T a k p.
Proof.
  intros Ha [Hin H]. split; auto. rewrite lookup_app_l in H by lia. exact H.
Qed.

(** One property keeps the models of one path. *)
Lemma modelSlot_path T a k p p' :
  modelSlot T a k p -> modelSlot T a k p' -> p = p'.
Proof.
  intros [Hin H] [Hin' H'].
  destruct H as [[H1 H2]|[H1 (parent & Hc & H2)]];
    destruct H' as [[H1' H2']|[H1' (parent' & Hc' & H2')]];
    rewrite H2 in *; try discriminate.
  - injection H2' as E. now apply (wf_distinct wf).
  - injection H2' as E.
    assert (parent = parent').
    { apply (wf_distinct wf); auto; [apply Hc | apply Hc']. }
    subst parent'. eapply (wf_names wf); eauto.
Qed.

(** What a property that keeps models of [p] holds. *)
Lemma modelSlot_content T h a k p val :
  heapTyped false T h -> modelSlot T a k p ->
  readProp h (VRef a) k = Ok val ->
  val = undefined \/ typed T val (KModel (encPath p)).
Proof.
  intros [_ Hh] [Hin H] Hr. unfold readProp in Hr.
  destruct H as [[H1 H2]|[H1 (parent & Hc & H2)]].
  - destruct (Hh _ _ H2) as (c & Hc & cls & o & -> & Hall & _).
    rewrite Hc in Hr. injection Hr as <-.
    destruct (getProp_Forall _ o k Hall) as [E|[k' E]]; auto.
  - destruct (Hh _ _ H2) as (c & Hc' & cls & o & -> & Hslots).
    rewrite Hc' in Hr. injection Hr as <-.
    destruct (Hslots parent k p Hc eq_refl) as [E|[E|[E _]]];
      [now left | | discriminate].
    right. unfold slotKind in E. now rewrite H1 in E.
Qed.

Lemma visited_log T h vs v : visited T h vs -> visited T h (vs ++ [v]).
Proof.
  intros H a k p val Hs Hr Hv. destruct (H a k p val Hs Hr Hv) as (v1 & Hin & E).
  exists v1. split; auto. apply in_or_app. now left.
Qed.

Lemma visited_alloc T h vs K c :
  length T = length h -> visited T h vs ->
  (forall k p val, modelSlot (T ++ [K]) (length T) k p ->
     readProp (h ++ [c]) (VRef (length T)) k = Ok val -> val = undefined) ->
  visited (T ++ [K]) (h ++ [c]) vs.
Proof.
  intros Hl H Hnew a k p val Hs Hr Hv.
  destruct (decide (a < length T)) as [Hlt|Hge].
  - apply (H a k p val); auto.
    + eapply modelSlot_old; eauto.
    + unfold readProp in *. rewrite lookup_app_l in Hr by lia. exact Hr.
  - assert (a = length T).
    { unfold readProp in Hr.
      destruct ((h ++ [c]) !! a) eqn:E; [|discriminate].
      apply lookup_lt_Some in E. rewrite length_app in E. simpl in E. lia. }
    subst a. now rewrite (Hnew k p val Hs Hr) in Hv.
Qed.

Lemma visited_write T h vs vs' b cls o k v :
  visited T h vs -> h !! b = Some (Obj cls o) -> incl vs vs' ->
  (forall p, modelSlot T b k p -> v <> undefined ->
     exists v', In v' vs' /\ v_branch v' = VRef b /\ v_key v' = k /\
                v_encPath v' = encPath p) ->
  visited T (<[b := Obj cls (setProp o k v)]> h) vs'.
Proof.
  intros H Hb Hincl Hnew a k' p val Hs Hr Hv.
  assert (Hold : readProp h (VRef a) k' = Ok val ->
                 exists v1, In v1 vs' /\ v_branch v1 = VRef a /\
                            v_key v1 = k' /\ v_encPath v1 = encPath p).
  { intros Hr0. destruct (H a k' p val Hs Hr0 Hv) as (v1 & Hin & E).
    exists v1. split; auto. }
  destruct (decide (a = b)) as [->|Hne].
  - destruct (String.eqb_spec k k') as [->|Hk].
    + apply Hnew; auto. unfold readProp in Hr.
      rewrite list_lookup_insert_eq in Hr by (eapply lookup_lt_Some; eauto).
      rewrite getProp_setProp_eq in Hr. congruence.
    + apply Hold. unfold readProp in *.
      rewrite list_lookup_insert_eq in Hr by (eapply lookup_lt_Some; eauto).
      rewrite getProp_setProp_ne in Hr by auto. now rewrite Hb.
  - apply Hold. unfold readProp in *.
    now rewrite list_lookup_insert_ne in Hr by auto.
Qed.

Lemma stackTyped_mono T T' st :
  T `prefix_of` T' -> stackTyped T st -> stackTyped T' st.
Proof. intros Hp H e. eapply holds_mono; eauto. Qed.

Lemma stackTyped_set T st e v :
  stackTyped T st -> typed T v (KModel e) -> stackTyped T (setProp st e v).
Proof.
  intros H Hv e'. destruct (String.eqb_spec e e') as [->|Hne].
  - rewrite getProp_setProp_eq. right. now left.
  - rewrite getProp_setProp_ne by auto. apply H.
Qed.

(** From [h] to [h']: every model keeps its class and the properties
    that are no relations of its path. *)
Definition columnsKept (T : list kind) (h h' : list cell) : Prop :=
  forall a p cls o,
    T !! a = Some (KModel (encPath p)) -> In p infos ->
    h !! a = Some (Obj cls o) ->
    exists o', h' !! a = Some (Obj cls o') /\
      forall col, ~ In col (map fst (children p)) ->
                  getProp o' col = getProp o col.

Lemma columnsKept_refl T h : columnsKept T h h.
Proof. intros a p cls o _ _ H. eauto. Qed.

Lemma columnsKept_trans T T' h1 h2 h3 :
  T `prefix_of` T' -> columnsKept T h1 h2 -> columnsKept T' h2 h3 ->
  columnsKept T h1 h3.
Proof.
  intros Hp H1 H2 a p cls o Ha Hin Ho.
  destruct (H1 a p cls o Ha Hin Ho) as (o2 & Ho2 & E2).
  destruct (H2 a p cls o2 (prefix_lookup_Some _ _ _ _ Ha Hp) Hin Ho2)
    as (o3 & Ho3 & E3).
  exists o3. split; [exact Ho3|]. intros col Hcol.
  now rewrite E3, E2.
Qed.

Lemma columnsKept_alloc T h c : columnsKept T h (h ++ [c]).
Proof.
  intros a p cls o _ _ H. exists o. split; [|reflexivity].
  now apply lookup_app_l_Some.
Qed.

Lemma columnsKept_write T h b cls o k v :
  h !! b = Some (Obj cls o) ->
  (forall p, T !! b = Some (KModel (encPath p)) -> In p infos ->
             In k (map fst (children p))) ->
  columnsKept T h (<[b := Obj cls (setProp o k v)]> h).
Proof.
  intros Hb Hk a p cls0 o0 Ha Hin Ho.
  destruct (decide (a = b)) as [->|Hne].
  - rewrite Hb in Ho. injection Ho as <- <-.
    exists (setProp o k v). split.
    + apply list_lookup_insert_eq. eapply lookup_lt_Some; eauto.
    + intros col Hcol. apply getProp_setProp_ne.
      intros ->. apply Hcol. now apply Hk.
  - exists o0. split; [|reflexivity].
    now rewrite list_lookup_insert_ne by auto.
Qed.

(** A branch is the branch of one model: no two models hold the same
    object for a relation to many. *)
Definition branchesApart (T : list kind) (h : list cell) : Prop :=
  forall a1 a2 p1 p2 r1 r2 c1 c2 bk,
    T !! a1 = Some (KModel (encPath p1)) ->
    T !! a2 = Some (KModel (encPath p2)) ->
    childOf p1 r1 c1 -> childOf p2 r2 c2 ->
    oneToOne c1 = false -> oneToOne c2 = false ->
    readProp h (VRef a1) r1 = Ok (VRef bk) ->
    readProp h (VRef a2) r2 = Ok (VRef bk) ->
    a1 = a2.

(** What a model holds for a relation to many is an object that is
    there. *)
Lemma branch_allocated T h a p r c bk :
  heapTyped false T h -> T !! a = Some (KModel (encPath p)) ->
  childOf p r c -> readProp h (VRef a) r = Ok (VRef bk) ->
  bk < length h.
Proof.
  intros [Hlen Hcells] Ha Hch Hr.
  destruct (Hcells a _ Ha) as (c0 & Hc0 & cls & o & -> & Hslots).
  unfold readProp in Hr. rewrite Hc0 in Hr. injection Hr as Hr.
  pose proof (Hslots p r c Hch eq_refl) as Hv. rewrite Hr in Hv.
  destruct Hv as [Hv|[(b & Hb & HTb)|[Hf _]]]; try discriminate.
  injection Hb as <-. rewrite <- Hlen. eapply lookup_lt_Some; eauto.
Qed.

(** A new branch, stored as the relation [r] of the model at [a]. *)
Lemma branchesApart_branch T h a cls o r e :
  heapTyped false T h -> branchesApart T h ->
  h !! a = Some (Obj cls o) ->
  branchesApart (T ++ [KBranch e])
    (<[a := Obj cls (setProp o r (VRef (length h)))]> (h ++ [Obj None []])).
Proof.
  intros Hh Hap Ha a1 a2 p1 p2 r1 r2 c1 c2 bk H1 H2 Hc1 Hc2 Ho1 Ho2 Hr1 Hr2.
  assert (Hold : forall x p, (T ++ [KBranch e]) !! x = Some (KModel (encPath p)) ->
                             T !! x = Some (KModel (encPath p))).
  { intros x p Hx. apply lookup_app_Some in Hx as [Hx|[_ Hx]]; [exact Hx|].
    destruct (x - length T); simpl in Hx; discriminate. }
  apply Hold in H1, H2.
  assert (Hread : forall x p r0 c,
            T !! x = Some (KModel (encPath p)) -> childOf p r0 c ->
            readProp (<[a := Obj cls (setProp o r (VRef (length h)))]>
                        (h ++ [Obj None []])) (VRef x) r0 = Ok (VRef bk) ->
            (x = a /\ r0 = r /\ bk = length h) \/
            (readProp h (VRef x) r0 = Ok (VRef bk) /\ bk < length h)).
  { intros x p r0 c Hx Hch Hr.
    assert (Hxl : x < length h).
    { rewrite <- (proj1 Hh). eapply lookup_lt_Some; eauto. }
    assert (Hal : a < length (h ++ [Obj None []])).
    { rewrite length_app. apply lookup_lt_Some in Ha. lia. }
    unfold readProp in Hr. destruct (decide (x = a)) as [->|Hne].
    - rewrite list_lookup_insert_eq in Hr by exact Hal.
      destruct (String.eqb_spec r r0) as [<-|Hrr].
      + rewrite getProp_setProp_eq in Hr. injection Hr as <-. now left.
      + rewrite getProp_setProp_ne in Hr by exact Hrr. right.
        assert (Hr' : readProp h (VRef a) r0 = Ok (VRef bk))
          by (unfold readProp; now rewrite Ha).
        split; [exact Hr'|]. eapply branch_allocated; eauto.
    - rewrite list_lookup_insert_ne in Hr by auto.
      rewrite lookup_app_l in Hr by exact Hxl. right.
      split; [exact Hr|]. eapply branch_allocated; eauto. }
  destruct (Hread _ _ _ _ H1 Hc1 Hr1) as [(-> & _ & E1)|[Hr1' Hlt1]];
    destruct (Hread _ _ _ _ H2 Hc2 Hr2) as [(-> & _ & E2)|[Hr2' Hlt2]];
    try reflexivity; try lia.
  eapply Hap; eauto.
Qed.

(** A new model, stored in the branch at [b]. *)
Lemma branchesApart_model T h b cls o key p om :
  heapTyped false T h -> branchesApart T h ->
  In p infos -> h !! b = Some (Obj cls o) ->
  (forall r c, childOf p r c -> getProp om r = undefined) ->
  (forall parent, T !! b = Some (KModel (encPath parent)) ->
     oneToOne p = true /\ exists parent', childOf parent' key p /\
       T !! b = Some (KModel (encPath parent'))) ->
  branchesApart (T ++ [KModel (encPath p)])
    (<[b := Obj cls (setProp o key (VRef (length h)))]>
       (h ++ [Obj (Some (pi_modelClass p)) om])).
Proof.
  intros Hh Hap Hp Hb Hnew Hone
         a1 a2 p1 p2 r1 r2 c1 c2 bk H1 H2 Hc1 Hc2 Ho1 Ho2 Hr1 Hr2.
  assert (Hbl : b < length h) by (eapply lookup_lt_Some; eauto).
  assert (Hread : forall x q r0 c,
            (T ++ [KModel (encPath p)]) !! x = Some (KModel (encPath q)) ->
            childOf q r0 c -> oneToOne c = false ->
            readProp (<[b := Obj cls (setProp o key (VRef (length h)))]>
                        (h ++ [Obj (Some (pi_modelClass p)) om]))
                     (VRef x) r0 = Ok (VRef bk) ->
            T !! x = Some (KModel (encPath q)) /\
            readProp h (VRef x) r0 = Ok (VRef bk)).
  { intros x q r0 c Hx Hch Hc Hr. unfold readProp in Hr.
    apply lookup_app_Some in Hx as [Hx|[Hge Hx]].
    - split; [exact Hx|].
      assert (Hxl : x < length h).
      { rewrite <- (proj1 Hh). eapply lookup_lt_Some; eauto. }
      destruct (decide (x = b)) as [->|Hne].
      + rewrite list_lookup_insert_eq in Hr by (rewrite length_app; lia).
        destruct (Hone q Hx) as (Hp1 & parent' & Hch' & HT').
        rewrite Hx in HT'. injection HT' as E.
        assert (q = parent')
          by (apply (wf_distinct wf); [apply Hch | apply Hch' | exact E]).
        subst parent'.
        destruct (String.eqb_spec key r0) as [<-|Hkr].
        * rewrite (wf_names wf _ _ _ _ Hch Hch') in Hc. congruence.
        * rewrite getProp_setProp_ne in Hr by exact Hkr.
          unfold readProp. now rewrite Hb.
      + rewrite list_lookup_insert_ne in Hr by auto.
        now rewrite lookup_app_l in Hr by exact Hxl.
    - exfalso. assert (x = length h).
      { rewrite <- (proj1 Hh). destruct (x - length T) eqn:E;
          [lia | simpl in Hx; discriminate]. }
      subst x. replace (length h - length T) with 0 in Hx
        by (rewrite (proj1 Hh); lia).
      injection Hx as E.
      assert (p = q)
        by (apply (wf_distinct wf); [exact Hp | apply Hch | exact E]).
      subst q.
      rewrite list_lookup_insert_ne in Hr by lia.
      rewrite lookup_app_r, Nat.sub_diag in Hr by lia. simpl in Hr.
      rewrite (Hnew r0 c Hch) in Hr. discriminate. }
  destruct (Hread _ _ _ _ H1 Hc1 Ho1 Hr1) as [H1' Hr1'].
  destruct (Hread _ _ _ _ H2 Hc2 Ho2 Hr2) as [H2' Hr2'].
  eapply Hap; eauto.
Qed.

(** *** The steps of the loop, run forward *)

Lemma mbind_eq {S A B} (m : M S A) (k : A -> M S B) s s1 a :
  m s = (s1, Ok a) -> mbind m k s = k a s1.
Proof. intros H. unfold mbind. now rewrite H. Qed.

Lemma mbind_err {S A B} (m : M S A) (k : A -> M S B) s s1 e :
  m s = (s1, Err e) -> mbind m k s = (s1, Err e).
Proof. intros H. unfold mbind. now rewrite H. Qed.

Lemma readP_eq v k s x :
  readProp (t_heap s) v k = Ok x -> readP v k s = (s, Ok x).
Proof. intros H. unfold readP, mbind, get, lift. now rewrite H. Qed.

Lemma writeP_eq v k x s h' :
  writeProp (t_heap s) v k x = Ok h' ->
  writeP v k x s = (withTHeap s h', Ok tt).
Proof. intros H. unfold writeP. now rewrite H. Qed.

Lemma getModelFromBranch_eq pInfo branch id s found :
  (oneToOne pInfo = true -> relation pInfo <> None) ->
  readProp (t_heap s) branch (branchKey pInfo id) = Ok found ->
  getModelFromBranch pInfo branch id s = (s, Ok found).
Proof.
  unfold getModelFromBranch, branchKey, relationName.
  destruct (oneToOne pInfo); intros Hr Hread; [|now apply readP_eq].
  destruct (relation pInfo) as [r|]; [|now destruct (Hr eq_refl)].
  unfold mbind, lift. now apply readP_eq.
Qed.

(** Code that leaves the trace of [finalizeOne] alone. *)
Definition unfinalized {A} (m : M TreeState A) : Prop :=
  forall s s' r, m s = (s', r) -> finalized s' = finalized s.

Lemma unfinalized_ret {A} (a : A) : unfinalized (ret a).
Proof. now intros s s' r [= <- _]. Qed.

Lemma unfinalized_throw {A} e : unfinalized (@throw TreeState A e).
Proof. now intros s s' r [= <- _]. Qed.

Lemma unfinalized_lift {A} (r : result A) : unfinalized (lift r).
Proof. now intros s s' r' [= <- _]. Qed.

Lemma unfinalized_bind {A B} (m : M TreeState A) (k : A -> M TreeState B) :
  unfinalized m -> (forall a, unfinalized (k a)) -> unfinalized (mbind m k).
Proof.
  intros Hm Hk s s' r. unfold mbind.
  destruct (m s) as [s1 [a|e]] eqn:E; intros H.
  - rewrite (Hk a _ _ _ H). exact (Hm _ _ _ E).
  - injection H as <- _. exact (Hm _ _ _ E).
Qed.

Lemma unfinalized_get_bind {B} (k : TreeState -> M TreeState B) :
  (forall s, unfinalized (k s)) -> unfinalized (mbind get k).
Proof. intros H s s' r. unfold mbind, get. apply H. Qed.

Lemma unfinalized_readP v k : unfinalized (readP v k).
Proof. intros s s' r. unfold readP, mbind, get, lift. now intros [= <- _]. Qed.

Lemma unfinalized_writeP x k v : unfinalized (writeP x k v).
Proof.
  intros s s' r. unfold writeP.
  destruct (writeProp (t_heap s) x k v); now intros [= <- _].
Qed.

Lemma unfinalized_allocT c : unfinalized (allocT c).
Proof. intros s s' r. unfold allocT. simpl. now intros [= <- _]. Qed.

Lemma unfinalized_modify f :
  (forall s, finalized (f s) = finalized s) -> unfinalized (modify f).
Proof. intros H s s' r [= <- _]. apply H. Qed.

Lemma unfinalized_enterBranch pInfo : unfinalized (enterBranch pInfo).
Proof.
  unfold enterBranch.
  destruct (relation pInfo) as [r|]; [|apply unfinalized_ret].
  apply unfinalized_get_bind. intros s0. cbv zeta.
  apply unfinalized_bind.
  { unfold getBranch. destruct (oneToOne pInfo); [apply unfinalized_ret|].
    apply unfinalized_bind; [apply unfinalized_lift|].
    intros nm. apply unfinalized_readP. }
  intros b. apply unfinalized_bind;
    [|intros; apply unfinalized_modify; reflexivity].
  destruct (negb (truthy b)); [|apply unfinalized_ret].
  unfold createBranch. destruct (oneToOne pInfo); [apply unfinalized_ret|].
  apply unfinalized_bind; [apply unfinalized_allocT|]. intros br.
  apply unfinalized_bind; [apply unfinalized_lift|]. intros nm.
  apply unfinalized_bind; [apply unfinalized_writeP|].
  intros; apply unfinalized_ret.
Qed.

Lemma unfinalized_findOrCreate keyInfo i row pInfo id :
  unfinalized (findOrCreate keyInfo i row pInfo id).
Proof.
  unfold findOrCreate. apply unfinalized_get_bind. intros s0. cbv zeta.
  apply unfinalized_bind.
  { unfold getModelFromBranch. destruct (oneToOne pInfo).
    - apply unfinalized_bind; [apply unfinalized_lift|].
      intros nm. apply unfinalized_readP.
    - apply unfinalized_readP. }
  intros found. apply unfinalized_bind.
  { destruct (negb (truthy found)); [|apply unfinalized_ret].
    apply unfinalized_bind.
    - unfold createModel. destruct (keyInfoFor keyInfo (encPath pInfo));
        [apply unfinalized_allocT | apply unfinalized_throw].
    - intros model. apply unfinalized_bind; [|intros; apply unfinalized_ret].
      unfold setModelToBranch. destruct (oneToOne pInfo).
      + apply unfinalized_bind; [apply unfinalized_lift|].
        intros nm. apply unfinalized_writeP.
      + apply unfinalized_writeP. }
  intros model. apply unfinalized_bind;
    [apply unfinalized_modify; reflexivity|].
  intros. apply unfinalized_modify. reflexivity.
Qed.


(** [enterBranch] when the stack holds a model for the parent path. *)
Lemma enterBranch_run T pInfo rel parent a s :
  relation pInfo = Some rel -> childOf parent (name rel) pInfo ->
  heapTyped false T (t_heap s) -> visited T (t_heap s) (visits s) ->
  getProp (stack s) (encPath parent) = VRef a ->
  T !! a = Some (KModel (encPath parent)) ->
  branchesApart T (t_heap s) ->
  exists s1 T1 bk,
    enterBranch pInfo s = (s1, Ok tt) /\
    stack s1 = stack s /\ visits s1 = visits s /\
    T `prefix_of` T1 /\ heapTyped false T1 (t_heap s1) /\
    visited T1 (t_heap s1) (visits s1) /\
    curBranch s1 = VRef bk /\
    (forall id, modelSlot T1 bk (branchKey pInfo id) pInfo) /\
    (if oneToOne pInfo then bk = a
     else readProp (t_heap s1) (VRef a) (name rel) = Ok (VRef bk)) /\
    columnsKept T (t_heap s) (t_heap s1) /\
    branchesApart T1 (t_heap s1).
Proof.
  intros Hrel Hch Hh Hvis Ha HTa Hap.
  destruct (wf_children wf _ _ _ Hch) as (Hin & _ & Hpar).
  pose proof Hh as [Hlen Hcells].
  destruct (Hcells a _ HTa) as (c & Hc & cls & o & -> & Hslots).
  unfold enterBranch. rewrite Hrel. unfold mbind at 1, get. cbv zeta.
  unfold parentKey. rewrite Hpar. simpl default. rewrite Ha.
  unfold getBranch, createBranch, relationName. rewrite Hrel.
  destruct (oneToOne pInfo) eqn:Hone.
  - (* one-to-one: the branch is the parent model *)
    eexists _, T, a. split; [reflexivity|]. simpl.
    split; [reflexivity|]. split; [reflexivity|]. split; [reflexivity|].
    split; [exact Hh|]. split; [exact Hvis|]. split; [reflexivity|].
    split; [|split; [reflexivity|split; [apply columnsKept_refl|exact Hap]]].
    intros id. split; [exact Hin|]. right. split; [exact Hone|].
    exists parent. unfold branchKey. rewrite Hone, Hrel. auto.
  - pose proof (Hslots parent (name rel) pInfo Hch eq_refl) as Hb.
    unfold slotKind in Hb. rewrite Hone in Hb.
    assert (Hread : readProp (t_heap s) (VRef a) (name rel) =
                    Ok (getProp o (name rel))).
    { unfold readProp. now rewrite Hc. }
    rewrite (mbind_eq _ _ s s (getProp o (name rel)))
      by (unfold mbind, lift; now apply readP_eq).
    destruct Hb as [Hb|[(bk & Hb & HTb)|[Hf _]]]; [| |discriminate].
    + (* no branch yet: it is created *)
      rewrite Hb. simpl negb. cbv iota.
      set (n := length (t_heap s)).
      set (h1 := t_heap s ++ [Obj None []]).
      set (h2 := <[a := Obj cls (setProp o (name rel) (VRef n))]> h1).
      assert (Hc1 : h1 !! a = Some (Obj cls o))
        by (now apply lookup_app_l_Some).
      assert (Hrun : mbind
                (branch <- allocT (Obj None []) ;;
                 name <- lift (Ok (name rel)) ;;
                 writeP (VRef a) name branch ;;; ret branch)
                setCurBranch s =
              ({| t_heap := h2; stack := stack s; curBranch := VRef n;
                  visits := visits s; finalized := finalized s |}, Ok tt)).
      { unfold mbind, allocT, alloc, lift, writeP, writeProp, ret,
          setCurBranch, modify. simpl. fold n. fold h1. rewrite Hc1.
        reflexivity. }
      set (T1 := T ++ [KBranch (encPath pInfo)]).
      assert (Hn : n = length T) by (unfold n; auto).
      assert (Hpre : T `prefix_of` T1) by now apply prefix_app_r.
      assert (HT1a : T1 !! a = Some (KModel (encPath parent)))
        by (eapply prefix_lookup_Some; eauto).
      assert (HT1n : T1 !! n = Some (KBranch (encPath pInfo))).
      { unfold T1. rewrite Hn, lookup_app_r, Nat.sub_diag by lia.
        reflexivity. }
      eexists _, T1, n. split; [exact Hrun|]. simpl.
      split; [reflexivity|]. split; [reflexivity|]. split; [exact Hpre|].
      split; [|split; [|split; [reflexivity|split; [|split; [|split]]]]].
      * (* the heap *)
        unfold h2. apply heapTyped_write; [|exact Hc1|].
        -- unfold h1, T1. apply heapTyped_alloc; [exact Hh|].
           simpl. exists None, []. split; [reflexivity|].
           split; constructor.
        -- unfold writeOK. rewrite HT1a. intros parent' r p Hch' He Hr.
           subst r.
           assert (parent' = parent).
           { apply (wf_distinct wf); auto; [apply Hch' | apply Hch]. }
           subst parent'.
           rewrite (wf_names wf _ _ _ _ Hch' Hch).
           unfold slotKind. rewrite Hone. right. left.
           exists n. auto.
      * (* no model is kept where there was no visit *)
        unfold h2. apply visited_write with (vs := visits s);
          [|exact Hc1|apply incl_refl|].
        -- unfold h1, T1. apply visited_alloc; [exact Hlen|exact Hvis|].
           intros k p val _. unfold readProp.
           rewrite <- Hn. unfold n. rewrite lookup_app_r, Nat.sub_diag by lia.
           simpl. now intros [= <-].
        -- intros p [_ Hs] _. exfalso.
           destruct Hs as [[_ Hs]|[Hp1 (parent' & Hch' & Hs)]];
             rewrite HT1a in Hs; [discriminate|].
           injection Hs as E.
           assert (parent' = parent).
           { symmetry. apply (wf_distinct wf); auto;
               [apply Hch | apply Hch']. }
           subst parent'.
           rewrite (wf_names wf _ _ _ _ Hch' Hch) in Hp1. congruence.
      * intros id. split; [exact Hin|]. left. split; [exact Hone|].
        exact HT1n.
      * unfold h2. unfold readProp.
        rewrite list_lookup_insert_eq by (eapply lookup_lt_Some; eauto).
        now rewrite getProp_setProp_eq.
      * (* the write is to a relation of the parent model *)
        unfold h2. eapply columnsKept_trans;
          [reflexivity | apply columnsKept_alloc |].
        apply columnsKept_write; [exact Hc1|].
        intros p0 Hp0 Hin0. rewrite HTa in Hp0. injection Hp0 as E.
        assert (parent = p0)
          by (apply (wf_distinct wf); [apply Hch | exact Hin0 | exact E]).
        subst p0. apply in_map_iff. exists (name rel, pInfo).
        split; [reflexivity | apply Hch].
      * unfold h2, h1, T1, n. now apply branchesApart_branch.
    + (* the branch is there *)
      rewrite Hb. simpl negb. cbv iota.
      eexists _, T, bk. split; [reflexivity|]. simpl.
      split; [reflexivity|]. split; [reflexivity|]. split; [reflexivity|].
      split; [exact Hh|]. split; [exact Hvis|]. split; [reflexivity|].
      split; [|split; [|split]].
      * intros id. split; [exact Hin|]. left. auto.
      * now rewrite <- Hb.
      * apply columnsKept_refl.
      * exact Hap.
Qed.

(** A model made from a row has no property named as a relation of its
    path: the columns are not named as relations. *)
Definition freshModels (keyInfo : list KeyInfo) : Prop :=
  forall p row ks r ch,
    In p infos -> keyInfoFor keyInfo (encPath p) = Some ks ->
    In (r, ch) (children p) ->
    match modelOf row p ks with
    | Obj _ o => getProp o r = undefined
    | Arr _ => False
    end.

(** Every path has columns in the rows. *)
Definition allKeyed (keyInfo : list KeyInfo) : Prop :=
  forall p, In p infos -> keyInfoFor keyInfo (encPath p) <> None.

(** [findOrCreate] in a branch of [pInfo]. *)
Lemma findOrCreate_run T keyInfo i row pInfo id bk s :
  freshModels keyInfo -> keyInfoFor keyInfo (encPath pInfo) <> None ->
  heapTyped false T (t_heap s) -> stackTyped T (stack s) ->
  visited T (t_heap s) (visits s) ->
  curBranch s = VRef bk -> modelSlot T bk (branchKey pInfo id) pInfo ->
  branchesApart T (t_heap s) ->
  exists s' T' v,
    findOrCreate keyInfo i row pInfo id s = (s', Ok tt) /\
    T `prefix_of` T' /\ heapTyped false T' (t_heap s') /\
    stackTyped T' (stack s') /\ visited T' (t_heap s') (visits s') /\
    visits s' = visits s ++ [v] /\ visitOf i pInfo id s v /\
    stack s' = setProp (stack s) (encPath pInfo) (v_model v) /\
    typed T' (v_model v) (KModel (encPath pInfo)) /\
    keeps (t_heap s) (t_heap s') /\
    (v_created v = false ->
     exists v1, In v1 (visits s) /\ v_branch v1 = v_branch v /\
                v_key v1 = v_key v /\ v_encPath v1 = v_encPath v) /\
    columnsKept T (t_heap s) (t_heap s') /\
    (v_created v = true ->
     exists ks, keyInfoFor keyInfo (encPath pInfo) = Some ks /\
                v_model v = VRef (length (t_heap s)) /\
                t_heap s' !! length (t_heap s) = Some (modelOf row pInfo ks)) /\
    branchesApart T' (t_heap s').
Proof.
  intros Hfresh Hks Hh Hst Hvis Hcur Hslot Hap.
  pose proof Hh as [Hlen Hcells]. pose proof Hslot as [Hin Hkind].
  (* the branch is an object *)
  assert (Hobj : exists cls o, t_heap s !! bk = Some (Obj cls o)).
  { destruct Hkind as [[_ HT]|[_ (parent & _ & HT)]];
      destruct (Hcells _ _ HT) as (c & Hc & cls & o & -> & _); eauto. }
  destruct Hobj as (cls & o & Hbk).
  assert (Hrel : oneToOne pInfo = true -> relation pInfo <> None).
  { intros Hone. destruct Hkind as [[H _]|[_ (parent & Hch & _)]];
      [congruence|].
    destruct (wf_children wf _ _ _ Hch) as (_ & (rel & Hr & _) & _).
    congruence. }
  set (key := branchKey pInfo id) in *.
  assert (Hread : readProp (t_heap s) (VRef bk) key = Ok (getProp o key)).
  { unfold readProp. now rewrite Hbk. }
  pose proof (getModelFromBranch_eq pInfo (VRef bk) id s _ Hrel Hread) as Hget.
  destruct (keyInfoFor keyInfo (encPath pInfo)) as [ks|] eqn:Eks;
    [|contradiction].
  (* the call returns *)
  assert (Hrun : exists s', findOrCreate keyInfo i row pInfo id s =
                            (s', Ok tt)).
  { unfold findOrCreate, mbind at 1, get. cbv zeta. rewrite Hcur.
    rewrite (mbind_eq _ _ _ _ _ Hget).
    destruct (truthy (getProp o key)) eqn:Ht; simpl negb; cbv iota.
    - eexists. reflexivity.
    - unfold mbind at 1 2. unfold createModel. rewrite Eks.
      unfold allocT at 1. simpl.
      rewrite (setModelToBranch_eq _ _ _ _ _ _ Hget).
      unfold mbind, writeP, writeProp, ret, logVisit, setStack, modify.
      simpl. rewrite (lookup_app_l_Some _ _ _ _ Hbk). eexists. reflexivity. }
  destruct Hrun as [s' Hrun].
  destruct (findOrCreate_effect _ _ _ _ _ _ _ _ Hrun) as [Hkeeps Heff].
  destruct Heff as (v & Hv & _ & Hvo & (found & Hfr & Hfound) & Hstack & _).
  pose proof Hvo as (_ & _ & _ & Hvb & _ & Hvk).
  rewrite Hvb, Hcur, Hvk in Hfr. fold key in Hfr. rewrite Hread in Hfr.
  injection Hfr as <-.
  destruct (modelSlot_content _ _ _ _ _ _ Hh Hslot Hread) as [Hu|Hty].
  - (* nothing there: the model is created *)
    rewrite Hu in Hfound. simpl in Hfound.
    destruct Hfound as (Hcr & Hm & ks' & b & c & o' & Hks' & Hb & Hbo & Hheap).
    rewrite Hvb, Hcur in Hb. injection Hb as <-.
    rewrite Hbk in Hbo. injection Hbo as <- <-.
    rewrite Eks in Hks'. injection Hks' as <-.
    set (n := length (t_heap s)) in *.
    set (T' := T ++ [KModel (encPath pInfo)]).
    assert (Hn : n = length T) by (unfold n; auto).
    assert (Hpre : T `prefix_of` T') by now apply prefix_app_r.
    assert (HTn : T' !! n = Some (KModel (encPath pInfo))).
    { unfold T'. rewrite Hn, lookup_app_r, Nat.sub_diag by lia. reflexivity. }
    assert (Hmodel : typed T' (VRef n) (KModel (encPath pInfo)))
      by (exists n; auto).
    assert (Hnew : forall parent r p,
              childOf parent r p -> encPath parent = encPath pInfo ->
              match modelOf row pInfo ks with
              | Obj _ o1 => getProp o1 r = undefined
              | Arr _ => False
              end).
    { intros parent r p Hch He.
      assert (parent = pInfo)
        by (apply (wf_distinct wf); auto; apply Hch).
      subst parent. apply (Hfresh pInfo row ks r p); auto. apply Hch. }
    assert (Hb1 : (t_heap s ++ [modelOf row pInfo ks]) !! bk =
                  Some (Obj cls o)) by now apply lookup_app_l_Some.
    exists s', T', v. split; [exact Hrun|]. split; [exact Hpre|].
    rewrite Hheap, Hv, Hstack, Hm, Hvk. fold key.
    split; [|split; [|split; [|split; [reflexivity|split; [exact Hvo|]]]]].
    + (* the heap *)
      apply heapTyped_write; [|exact Hb1|].
      * apply heapTyped_alloc; [exact Hh|]. simpl.
        unfold modelOf in *. eexists _, _. split; [reflexivity|].
        intros parent r p Hch He. left. exact (Hnew parent r p Hch He).
      * unfold writeOK.
        destruct Hkind as [[Hone HT]|[Hone (parent & Hch & HT)]];
          rewrite (prefix_lookup_Some _ _ _ _ HT Hpre).
        -- exact Hmodel.
        -- intros parent' r p Hch' He Hr. subst r.
           assert (parent' = parent).
           { apply (wf_distinct wf); auto; [apply Hch' | apply Hch]. }
           subst parent'.
           rewrite (wf_names wf _ _ _ _ Hch' Hch).
           unfold slotKind. rewrite Hone. right. now left.
    + apply stackTyped_set; [|exact Hmodel].
      eapply stackTyped_mono; eauto.
    + apply visited_write with (vs := visits s);
        [|exact Hb1|apply incl_appl, incl_refl|].
      * apply visited_alloc; [exact Hlen|exact Hvis|].
        intros k p val [_ Hs] Hr. rewrite <- Hn in Hs, Hr.
        fold T' in Hs. rewrite HTn in Hs.
        destruct Hs as [[_ Hs]|[_ (parent & Hch & Hs)]]; [discriminate|].
        injection Hs as E. unfold readProp in Hr. unfold n in Hr.
        rewrite lookup_app_r, Nat.sub_diag in Hr by lia. simpl in Hr.
        pose proof (Hnew parent k p Hch (eq_sym E)) as Hf.
        unfold modelOf in *. injection Hr as <-. exact Hf.
      * intros p Hp _. exists v. split; [apply in_or_app; right; now left|].
        rewrite Hvb, Hcur, Hvk. fold key. split; [reflexivity|].
        split; [reflexivity|].
        destruct Hvo as (_ & He & _). rewrite He. f_equal.
        eapply modelSlot_path; [|exact Hp].
        eapply modelSlot_mono; eauto.
    + split; [reflexivity|]. split; [exact Hmodel|].
      split; [|split; [|split; [|split]]].
      * rewrite Hheap, Hvk in Hkeeps. exact Hkeeps.
      * rewrite Hcr. discriminate.
      * (* the write is to the branch *)
        eapply columnsKept_trans;
          [reflexivity | apply columnsKept_alloc |].
        apply columnsKept_write; [exact Hb1|].
        intros p0 Hp0 Hin0.
        destruct Hkind as [[_ HT]|[_ (parent & Hch & HT)]];
          rewrite HT in Hp0; [discriminate|]. injection Hp0 as E.
        assert (parent = p0)
          by (apply (wf_distinct wf); [apply Hch | exact Hin0 | exact E]).
        subst p0. apply in_map_iff. exists (key, pInfo).
        split; [reflexivity | apply Hch].
      * intros _. exists ks. split; [reflexivity|]. split; [reflexivity|].
        assert (Hlt : bk < n) by (eapply lookup_lt_Some; eauto).
        rewrite list_lookup_insert_ne by lia.
        unfold n. now rewrite lookup_app_r, Nat.sub_diag by lia.
      * unfold modelOf in *. unfold T', n.
        apply branchesApart_model; auto.
        -- intros r c Hch. exact (Hnew pInfo r c Hch eq_refl).
        -- intros parent HT.
           destruct Hkind as [[_ HTb]|[Hone (parent' & Hch & HTb)]];
             [rewrite HTb in HT; discriminate|].
           split; [exact Hone|]. exists parent'. auto.
  - (* a model is there *)
    assert (Ht : truthy (getProp o key) = true)
      by (destruct Hty as (a & -> & _); reflexivity).
    rewrite Ht in Hfound. destruct Hfound as (Hm & Hcr & Hheap).
    exists s', T, v. split; [exact Hrun|]. split; [reflexivity|].
    rewrite Hheap, Hv, Hstack, Hm.
    split; [exact Hh|]. split; [now apply stackTyped_set|].
    split; [now apply visited_log|]. split; [reflexivity|].
    split; [exact Hvo|]. split; [reflexivity|]. split; [exact Hty|].
    split; [apply keeps_refl|].
    split; [|split; [apply columnsKept_refl
                    |split; [rewrite Hcr; discriminate | exact Hap]]].
    intros _.
    destruct (Hvis bk key pInfo _ Hslot Hread) as (v1 & Hv1 & Hb1 & Hk1 & He1).
    { destruct Hty as (a & -> & _). discriminate. }
    exists v1. rewrite Hvb, Hcur, Hvk.
    destruct Hvo as (_ & He & _). rewrite He. auto.
Qed.

(** *** The loop over the rows *)

Section Rows.
Variable rows : list Row.
Variable keyInfo : list KeyInfo.
Variable root : PathInfo.
Variable rest : list PathInfo.
Variable tree : nat.

(** The PathInfo objects in the order of [this.pathInfo]: the root, which
    has no relation, then the others, each after its parent. *)
Record rootFirst : Prop := {
  rf_infos : infos = root :: rest;
  rf_root : relation root = None /\ oneToOne root = false;
  rf_rest : Forall (fun p => relation p <> None) rest;
  rf_parents : forall pre p post parent r,
    infos = pre ++ p :: post -> childOf parent r p -> In parent pre
}.

(** In a row a path has an identifier only when its parent path has one,
    as in the rows of a chain of left joins. *)
Definition parentsPresent : Prop :=
  forall row parent r p,
    In row rows -> childOf parent r p ->
    truthy_prim (idGetter p row) = true ->
    truthy_prim (idGetter parent row) = true.

Hypothesis Hrf : rootFirst.
Hypothesis Hfresh : freshModels keyInfo.
Hypothesis Hkeyed : allKeyed keyInfo.
Hypothesis Hpresent : parentsPresent.

(** The visit comes from a row that has an identifier at its path. *)
Definition fromRows (v : Visit) : Prop :=
  exists p row,
    In p infos /\ rows !! v_row v = Some row /\ v_encPath v = encPath p /\
    truthy_prim (idGetter p row) = true /\
    v_id v = ToString (idGetter p row) /\
    v_key v = branchKey p (v_id v).

(** The branch of the visit [v] at the path [p] is the one of the model of
    the visit [u]. *)
Definition under (h : list cell) (p : PathInfo) (rel : Relation)
    (u v : Visit) : Prop :=
  if oneToOne p then v_branch v = v_model u
  else readProp h (v_model u) (name rel) = Ok (v_branch v).

(** The properties [createModel] gives the model of [row] at [p]. *)
Definition columnsOf (row : Row) (p : PathInfo) (ks : list KeyInfo) : props :=
  match modelOf row p ks with
  | Obj _ o => o
  | Arr _ => []
  end.

(** The model of the visit [v] is an object of the class of its path, and
    but for the relations it holds what [createModel] made of the row of
    the visit. *)
Definition origin (h : list cell) (v : Visit) : Prop :=
  exists a row p ks o,
    v_model v = VRef a /\ rows !! v_row v = Some row /\
    In p infos /\ v_encPath v = encPath p /\
    keyInfoFor keyInfo (encPath p) = Some ks /\
    h !! a = Some (Obj (Some (pi_modelClass p)) o) /\
    forall col, ~ In col (map fst (children p)) ->
                getProp o col = getProp (columnsOf row p ks) col.

(** What holds of a visit [v] that comes after the visits [before]. *)
Definition visitOK (T : list kind) (h : list cell) (before : list Visit)
    (v : Visit) : Prop :=
  fromRows v /\
  typed T (v_model v) (KModel (v_encPath v)) /\
  (exists bk, v_branch v = VRef bk) /\
  (v_created v = false ->
   exists v1, In v1 before /\ v_branch v1 = v_branch v /\
              v_key v1 = v_key v /\ v_encPath v1 = v_encPath v) /\
  (forall p rel parent,
     In p infos -> v_encPath v = encPath p -> relation p = Some rel ->
     childOf parent (name rel) p ->
     exists u, In u before /\ v_row u = v_row v /\
               v_encPath u = encPath parent /\ under h p rel u v) /\
  (forall p, In p infos -> v_encPath v = encPath p -> relation p = None ->
     v_branch v = VRef tree) /\
  (v_created v = true ->
   (forall u, In u before -> v_model u <> v_model v) /\ origin h v).

Definition Traced (T : list kind) (h : list cell) (vs : list Visit) : Prop :=
  forall vs1 v vs2, vs = vs1 ++ v :: vs2 -> visitOK T h vs1 v.

Lemma origin_kept T h h' v :
  columnsKept T h h' -> typed T (v_model v) (KModel (v_encPath v)) ->
  origin h v -> origin h' v.
Proof.
  intros Hck (a' & Ha' & HTa)
         (a & row & p & ks & o & Hm & Hrow & Hp & He & Hks & Ha & Hcols).
  rewrite Hm in Ha'. injection Ha' as <-. rewrite He in HTa.
  destruct (Hck a p _ o HTa Hp Ha) as (o' & Ho' & E).
  exists a, row, p, ks, o'. repeat (split; [assumption|]).
  intros col Hcol. now rewrite E, Hcols.
Qed.

Lemma visitOK_mono T T' h h' before v :
  T `prefix_of` T' -> keeps h h' -> columnsKept T h h' ->
  visitOK T h before v -> visitOK T' h' before v.
Proof.
  intros Hp Hk Hck (H1 & H2 & H3 & H4 & H5 & H6 & H7).
  split; [exact H1|]. split; [eapply typed_mono; eauto|].
  split; [exact H3|]. split; [exact H4|]. split; [|split; [exact H6|]].
  - intros p rel parent Hin He Hr Hch.
    destruct (H5 p rel parent Hin He Hr Hch) as (u & Hu & Hrow & Hpath & Hun).
    exists u. repeat (split; [assumption|]).
    unfold under in *. destruct (oneToOne p); [exact Hun|].
    apply Hk; [exact Hun|]. destruct H3 as [bk ->]. reflexivity.
  - intros Hc. destruct (H7 Hc) as [Hnew Ho]. split; [exact Hnew|].
    eapply origin_kept; eauto.
Qed.

Lemma Traced_mono T T' h h' vs :
  T `prefix_of` T' -> keeps h h' -> columnsKept T h h' ->
  Traced T h vs -> Traced T' h' vs.
Proof.
  intros Hp Hk Hck H vs1 v vs2 E. eapply visitOK_mono; eauto.
Qed.

Lemma Traced_snoc T h vs v :
  Traced T h vs -> visitOK T h vs v -> Traced T h (vs ++ [v]).
Proof.
  intros H Hv vs1 v1 vs2 E.
  destruct vs2 as [|v2 vs2 _] using rev_ind.
  - apply app_inj_tail in E as [-> ->]. exact Hv.
  - rewrite app_comm_cons, app_assoc in E.
    apply app_inj_tail in E as [-> _]. now apply (H vs1 v1 vs2).
Qed.

(** What holds between two steps of the loop. *)
Definition Built (T : list kind) (s : TreeState) : Prop :=
  heapTyped false T (t_heap s) /\ stackTyped T (stack s) /\
  visited T (t_heap s) (visits s) /\
  T !! tree = Some (KBranch (encPath root)) /\
  Traced T (t_heap s) (visits s) /\
  branchesApart T (t_heap s).

(** The stack holds the models of the paths [done] of row [i]. *)
Definition onStack (i : nat) (row : Row) (done : list PathInfo)
    (s : TreeState) : Prop :=
  forall q, In q done -> truthy_prim (idGetter q row) = true ->
    exists u, In u (visits s) /\ v_row u = i /\ v_encPath u = encPath q /\
              getProp (stack s) (encPath q) = v_model u.

Lemma rowStep_run T i row done p post s :
  infos = done ++ p :: post -> rows !! i = Some row ->
  Built T s -> onStack i row done s ->
  (done = [] -> curBranch s = VRef tree) ->
  exists s' T',
    rowStep keyInfo i row p s = (s', Ok tt) /\
    T `prefix_of` T' /\ Built T' s' /\ onStack i row (done ++ [p]) s' /\
    finalized s' = finalized s.
Proof.
  intros Hsplit Hrow (Hh & Hst & Hvis & Htree & Htr & Hap) Hon Hfirst.
  assert (Hp : In p infos).
  { rewrite Hsplit. apply in_or_app. right. now left. }
  destruct (truthy_prim (idGetter p row)) eqn:Hid.
  2:{ exists s, T. rewrite rowStep_skip by assumption.
      split; [reflexivity|]. split; [reflexivity|].
      split; [exact (conj Hh (conj Hst (conj Hvis (conj Htree
                      (conj Htr Hap)))))|].
      split; [|reflexivity].
      intros q Hq Hqid. apply in_app_or in Hq as [Hq|[<-|[]]];
        [now apply Hon | congruence]. }
  unfold rowStep. rewrite Hid. simpl negb. cbv iota.
  set (id := ToString (idGetter p row)).
  (* the branch *)
  assert (Henter : exists s1 T1 bk,
            enterBranch p s = (s1, Ok tt) /\
            stack s1 = stack s /\ visits s1 = visits s /\
            T `prefix_of` T1 /\ heapTyped false T1 (t_heap s1) /\
            visited T1 (t_heap s1) (visits s1) /\
            curBranch s1 = VRef bk /\
            modelSlot T1 bk (branchKey p id) p /\
            (forall p' rel parent,
               In p' infos -> encPath p = encPath p' ->
               relation p' = Some rel -> childOf parent (name rel) p' ->
               exists u, In u (visits s) /\ v_row u = i /\
                         v_encPath u = encPath parent /\
                         if oneToOne p' then VRef bk = v_model u
                         else readProp (t_heap s1) (v_model u) (name rel) =
                              Ok (VRef bk)) /\
            (forall p', In p' infos -> encPath p = encPath p' ->
                        relation p' = None -> bk = tree) /\
            columnsKept T (t_heap s) (t_heap s1) /\
            branchesApart T1 (t_heap s1)).
  { destruct done as [|d done].
    - (* the root *)
      simpl in Hsplit. rewrite (rf_infos Hrf) in Hsplit.
      injection Hsplit as <- _.
      destruct (rf_root Hrf) as [Hr Hone].
      exists s, T, tree. unfold enterBranch. rewrite Hr.
      split; [reflexivity|]. split; [reflexivity|]. split; [reflexivity|].
      split; [reflexivity|]. split; [exact Hh|]. split; [exact Hvis|].
      split; [now apply Hfirst|].
      split; [|split; [|split; [reflexivity
                               |split; [apply columnsKept_refl | exact Hap]]]].
      + split; [exact Hp|]. left. auto.
      + intros p' rel parent Hp' He Hr' _.
        rewrite <- (wf_distinct wf _ _ Hp Hp' He) in Hr'. congruence.
    - (* another path: its parent has been visited in this row *)
      assert (Hrel : relation p <> None).
      { pose proof (rf_rest Hrf) as Hall. rewrite List.Forall_forall in Hall.
        apply Hall. rewrite (rf_infos Hrf) in Hsplit. simpl in Hsplit.
        injection Hsplit as _ ->. apply in_or_app. right. now left. }
      destruct (relation p) as [rel|] eqn:Er; [clear Hrel|contradiction].
      destruct (wf_parent wf p Hp) as (parent & r & Hch); [congruence|].
      destruct (wf_children wf _ _ _ Hch) as (_ & (rel' & Hr' & Hn) & Hpar).
      rewrite Er in Hr'. injection Hr' as <-. subst r.
      pose proof (rf_parents Hrf _ _ _ _ _ Hsplit Hch) as Hpd.
      assert (Hrowin : In row rows).
      { apply list_elem_of_In. eapply list_elem_of_lookup_2; eauto. }
      pose proof (Hpresent row parent _ p Hrowin Hch Hid) as Hpid.
      destruct (Hon parent Hpd Hpid) as (u & Hu & Hurow & Hupath & Hustack).
      apply in_split in Hu as Hus. destruct Hus as (vs1 & vs2 & Hvs).
      destruct (Htr vs1 u vs2 Hvs) as (_ & (a & Hua & HTa) & _).
      rewrite Hupath in HTa. rewrite Hua in Hustack.
      destruct (enterBranch_run T p rel parent a s Er Hch Hh Hvis Hustack HTa
                  Hap)
        as (s1 & T1 & bk & Hrun & Hs1 & Hv1 & Hpre & Hh1 & Hvis1 & Hcur &
            Hslot & Hlink & Hck & Hap1).
      exists s1, T1, bk. repeat (split; [assumption|]).
      split; [apply Hslot|]. split; [|split; [|exact (conj Hck Hap1)]].
      + intros p' rel0 parent0 Hp' He Hr0 Hch0.
        pose proof (wf_distinct wf _ _ Hp Hp' He) as Epp. subst p'.
        rewrite Er in Hr0. injection Hr0 as <-.
        assert (parent0 = parent).
        { destruct (wf_children wf _ _ _ Hch0) as (_ & _ & Hpar0).
          rewrite Hpar in Hpar0. injection Hpar0 as E0.
          symmetry. apply (wf_distinct wf); auto; [apply Hch | apply Hch0]. }
        subst parent0. exists u. repeat (split; [assumption|]).
        rewrite Hua. destruct (oneToOne p); [now subst|exact Hlink].
      + intros p' Hp' He Hr0.
        rewrite <- (wf_distinct wf _ _ Hp Hp' He) in Hr0. congruence. }
  destruct Henter as (s1 & T1 & bk & Hrun1 & Hs1 & Hv1 & Hpre1 & Hh1 & Hvis1 &
                      Hcur1 & Hslot & Hlink & Hrootlink & Hck1 & Hap1).
  pose proof (enterBranch_quiet p s s1 _ Hrun1) as [Hk1 _].
  destruct (findOrCreate_run T1 keyInfo i row p id bk s1 Hfresh
              (Hkeyed p Hp) Hh1
              ltac:(rewrite Hs1; eapply stackTyped_mono; eauto)
              Hvis1 Hcur1 Hslot Hap1)
    as (s' & T' & v & Hrun2 & Hpre2 & Hh2 & Hst2 & Hvis2 & Hv2 & Hvo & Hstack &
        Hmodel & Hk2 & Hfirstv & Hck2 & Horig & Hap2).
  destruct Hvo as (Hvrow & Hvpath & Hvone & Hvbranch & Hvid & Hvkey).
  assert (Hpre : T `prefix_of` T') by (etransitivity; eauto).
  exists s', T'. split.
  { cbn [negb]. unfold mbind. rewrite Hrun1. exact Hrun2. }
  split; [exact Hpre|]. split; [|split].
  - split; [exact Hh2|]. split; [exact Hst2|]. split; [exact Hvis2|].
    split; [eapply prefix_lookup_Some; eauto|]. split; [|exact Hap2].
    rewrite Hv2, Hv1. apply Traced_snoc.
    + eapply Traced_mono; [exact Hpre| | |exact Htr].
      * eapply keeps_trans; eauto.
      * eapply columnsKept_trans; [exact Hpre1 | exact Hck1 | exact Hck2].
    + split; [|split; [|split; [|split; [|split; [|split]]]]].
      * exists p, row. rewrite Hvrow, Hvpath, Hvid, Hvkey. auto 10.
      * now rewrite Hvpath.
      * exists bk. congruence.
      * rewrite <- Hv1. exact Hfirstv.
      * intros p' rel parent Hp' He Hr Hch. rewrite Hvpath in He.
        destruct (Hlink p' rel parent Hp' He Hr Hch)
          as (u & Hu & Hurow & Hupath & Hun).
        exists u. split; [exact Hu|]. split; [congruence|].
        split; [exact Hupath|]. unfold under. rewrite Hvbranch, Hcur1.
        destruct (oneToOne p'); [exact Hun|]. apply Hk2; auto.
      * intros p' Hp' He Hr. rewrite Hvpath in He.
        rewrite Hvbranch, Hcur1. f_equal. eauto.
      * (* a model that is created is a new object, made of the row *)
        intros Hc. destruct (Horig Hc) as (ks & Hks & Hm & Hcell). split.
        -- intros u Hu Heq. apply in_split in Hu as (vs1 & vs2 & E).
           destruct (Htr vs1 u vs2 E) as (_ & (a & Hua & HTa) & _).
           apply lookup_lt_Some in HTa.
           pose proof (prefix_length _ _ Hpre1) as Hle.
           rewrite (proj1 Hh), (proj1 Hh1) in *.
           rewrite Hua, Hm in Heq. injection Heq as ->. lia.
        -- exists (length (t_heap s1)), row, p, ks, (columnsOf row p ks).
           split; [exact Hm|]. split; [now rewrite Hvrow|].
           split; [exact Hp|]. split; [exact Hvpath|]. split; [exact Hks|].
           split; [exact Hcell | reflexivity].
  - intros q Hq Hqid. rewrite Hstack, Hs1, Hv2, Hv1.
    destruct (String.eqb_spec (encPath p) (encPath q)) as [E|E].
    + exists v. split; [apply in_or_app; right; now left|].
      split; [exact Hvrow|]. split; [congruence|].
      rewrite E. now rewrite getProp_setProp_eq.
    + apply in_app_or in Hq as [Hq|[<-|[]]]; [|congruence].
      destruct (Hon q Hq Hqid) as (u & Hu & Hur & Hup & Hus).
      exists u. split; [apply in_or_app; now left|].
      split; [exact Hur|]. split; [exact Hup|].
      now rewrite getProp_setProp_ne.
  - rewrite (unfinalized_findOrCreate _ _ _ _ _ _ _ _ Hrun2).
    exact (unfinalized_enterBranch _ _ _ _ Hrun1).
Qed.

Lemma rowSteps_run i row : rows !! i = Some row ->
  forall todo done T s,
    infos = done ++ todo ->
    Built T s -> onStack i row done s ->
    (done = [] -> curBranch s = VRef tree) ->
    exists s' T',
      forEach todo (rowStep keyInfo i row) s = (s', Ok tt) /\
      T `prefix_of` T' /\ Built T' s' /\ finalized s' = finalized s /\
      onStack i row infos s'.
Proof.
  intros Hrow. induction todo as [|p todo IH];
    intros done T s Hsplit Hb Hon Hfirst.
  - exists s, T. split; [reflexivity|]. split; [reflexivity|].
    split; [exact Hb|]. split; [reflexivity|].
    rewrite Hsplit, app_nil_r. exact Hon.
  - destruct (rowStep_run T i row done p todo s Hsplit Hrow Hb Hon Hfirst)
      as (s1 & T1 & Hrun1 & Hpre1 & Hb1 & Hon1 & Hf1).
    destruct (IH (done ++ [p]) T1 s1)
      as (s' & T' & Hrun & Hpre & Hb' & Hf' & Hon'); auto.
    { now rewrite <- app_assoc. }
    { intros E. destruct done; discriminate. }
    exists s', T'. split.
    + simpl. unfold mbind. rewrite Hrun1. exact Hrun.
    + split; [etransitivity; eauto|]. split; [exact Hb'|].
      split; [congruence | exact Hon'].
Qed.

(** The visits are only added to. *)
Lemma rowStep_grows vs i row pInfo :
  preserves (fun s => incl vs (visits s)) (rowStep keyInfo i row pInfo).
Proof.
  unfold rowStep.
  destruct (negb (truthy_prim (idGetter pInfo row))); [apply preserves_ret|].
  apply preserves_bind.
  { intros s Hs. destruct (enterBranch pInfo s) as [s' r] eqn:E. simpl.
    now rewrite (proj2 (enterBranch_quiet _ _ _ _ E)). }
  intros _ s Hs.
  destruct (findOrCreate keyInfo i row pInfo (ToString (idGetter pInfo row)) s)
    as [s' r] eqn:E. simpl.
  pose proof (findOrCreate_effect _ _ _ _ _ _ _ _ E) as [_ Hr].
  destruct r as [[]|e]; [|now rewrite Hr].
  destruct Hr as (v & Hv & _). rewrite Hv.
  intros x Hx. apply in_or_app. left. now apply Hs.
Qed.

Lemma rowLoop_grows vs ir :
  preserves (fun s => incl vs (visits s))
            (rowLoop keyInfo infos (VRef tree) ir).
Proof.
  unfold rowLoop. apply preserves_bind.
  - intros s Hs. exact Hs.
  - intros _. apply preserves_forEach. intros pInfo _.
    apply rowStep_grows.
Qed.

(** The visits are logged row after row. *)
Definition rowsAscend (vs : list Visit) : Prop :=
  forall k1 k2 v1 v2, k1 <= k2 -> vs !! k1 = Some v1 -> vs !! k2 = Some v2 ->
    v_row v1 <= v_row v2.

Lemma rowsAscend_app vs l i :
  rowsAscend vs -> Forall (fun v => v_row v < i) vs ->
  Forall (fun v => v_row v = i) l -> rowsAscend (vs ++ l).
Proof.
  intros Ha Hlt Hl k1 k2 v1 v2 Hk H1 H2.
  apply lookup_app_Some in H1 as [H1|[Hg1 H1]];
    apply lookup_app_Some in H2 as [H2|[Hg2 H2]].
  - eapply Ha; eauto.
  - pose proof (Forall_lookup_1 _ _ _ _ Hlt H1) as E1. simpl in E1.
    pose proof (Forall_lookup_1 _ _ _ _ Hl H2) as E2. simpl in E2. lia.
  - apply lookup_lt_Some in H2. lia.
  - pose proof (Forall_lookup_1 _ _ _ _ Hl H1) as E1. simpl in E1.
    pose proof (Forall_lookup_1 _ _ _ _ Hl H2) as E2. simpl in E2. lia.
Qed.

(** The visits of the row [i] are visits of the row [i]. *)
Definition ofRow (vs0 : list Visit) (i : nat) (s : TreeState) : Prop :=
  exists l, visits s = vs0 ++ l /\ Forall (fun v => v_row v = i) l.

Lemma rowStep_ofRow vs0 i row pInfo :
  preserves (ofRow vs0 i) (rowStep keyInfo i row pInfo).
Proof.
  unfold rowStep.
  destruct (negb (truthy_prim (idGetter pInfo row))); [apply preserves_ret|].
  apply preserves_bind.
  { intros s Hs. destruct (enterBranch pInfo s) as [s' r] eqn:E. simpl.
    unfold ofRow. now rewrite (proj2 (enterBranch_quiet _ _ _ _ E)). }
  intros _ s (l & Hl & Hall).
  destruct (findOrCreate keyInfo i row pInfo (ToString (idGetter pInfo row)) s)
    as [s' r] eqn:E. simpl.
  pose proof (findOrCreate_effect _ _ _ _ _ _ _ _ E) as [_ Hr].
  unfold ofRow. destruct r as [[]|e]; [|rewrite Hr; eauto].
  destruct Hr as (v & Hv & _ & Hvo & _). rewrite Hv, Hl.
  exists (l ++ [v]). split; [now rewrite app_assoc|].
  apply Forall_app. split; [exact Hall|].
  constructor; [apply Hvo | constructor].
Qed.

Lemma rowLoop_ofRow vs0 i row :
  preserves (ofRow vs0 i) (rowLoop keyInfo infos (VRef tree) (i, row)).
Proof.
  unfold rowLoop. apply preserves_bind.
  - intros s Hs. exact Hs.
  - intros _. apply preserves_forEach. intros pInfo _.
    apply rowStep_ofRow.
Qed.

Lemma rowLoops_ascend : forall l i0 s,
  rowsAscend (visits s) -> Forall (fun v => v_row v < i0) (visits s) ->
  rowsAscend
    (visits (fst (forEach (combine (seq i0 (length l)) l)
                          (rowLoop keyInfo infos (VRef tree)) s))).
Proof.
  induction l as [|row l IH]; intros i0 s Ha Hlt; [exact Ha|].
  simpl. unfold mbind.
  assert (H0 : ofRow (visits s) i0 s).
  { exists []. split; [now rewrite app_nil_r | constructor]. }
  pose proof (rowLoop_ofRow (visits s) i0 row s H0) as (l' & Hl' & Hall).
  destruct (rowLoop keyInfo infos (VRef tree) (i0, row) s) as [s1 [[]|e]];
    simpl in Hl' |- *.
  - apply IH.
    + rewrite Hl'. now apply rowsAscend_app with i0.
    + rewrite Hl'. apply Forall_app. split.
      * eapply Forall_impl; [exact Hlt|]. simpl. intros; lia.
      * eapply Forall_impl; [exact Hall|]. simpl. intros; lia.
  - rewrite Hl'. now apply rowsAscend_app with i0.
Qed.

(** The models of a row: a visit of every path that has an identifier in
    the row. *)
Definition rowVisited (i : nat) (row : Row) (vs : list Visit) : Prop :=
  forall q, In q infos -> truthy_prim (idGetter q row) = true ->
    exists u, In u vs /\ v_row u = i /\ v_encPath u = encPath q.

Lemma rowLoop_run T i row s :
  rows !! i = Some row -> Built T s ->
  exists s' T',
    rowLoop keyInfo infos (VRef tree) (i, row) s = (s', Ok tt) /\
    T `prefix_of` T' /\ Built T' s' /\ finalized s' = finalized s /\
    incl (visits s) (visits s') /\ rowVisited i row (visits s').
Proof.
  intros Hrow Hb.
  pose proof (rowLoop_grows (visits s) (i, row) s (fun x Hx => Hx)) as Hg.
  revert Hg. unfold rowLoop. simpl fst. simpl snd.
  set (s0 := {| t_heap := t_heap s; stack := stack s; curBranch := VRef tree;
                visits := visits s; finalized := finalized s |}).
  destruct (rowSteps_run i row Hrow infos [] T s0 eq_refl)
    as (s' & T' & Hrun & Hp & Hb' & Hf & Hon); auto.
  - intros q [].
  - intros Hg. exists s', T'.
    assert (Hrun' : mbind (setCurBranch (VRef tree))
                      (fun _ => forEach infos (rowStep keyInfo i row)) s
                    = (s', Ok tt)).
    { unfold mbind, setCurBranch, modify. exact Hrun. }
    rewrite Hrun' in Hg. simpl in Hg.
    split; [exact Hrun'|]. split; [exact Hp|]. split; [exact Hb'|].
    split; [exact Hf|]. split; [exact Hg|].
    intros q Hq Hid. destruct (Hon q Hq Hid) as (u & Hu & Hi & He & _).
    eauto.
Qed.

Lemma rowLoops_run : forall l i0 T s,
  (forall j row, l !! j = Some row -> rows !! (i0 + j) = Some row) ->
  Built T s ->
  exists s' T',
    forEach (combine (seq i0 (length l)) l)
            (rowLoop keyInfo infos (VRef tree)) s = (s', Ok tt) /\
    T `prefix_of` T' /\ Built T' s' /\ finalized s' = finalized s /\
    incl (visits s) (visits s') /\
    forall j row, l !! j = Some row -> rowVisited (i0 + j) row (visits s').
Proof.
  induction l as [|row l IH]; intros i0 T s Hl Hb.
  - exists s, T. split; [reflexivity|]. split; [reflexivity|].
    split; [exact Hb|]. split; [reflexivity|].
    split; [intros x Hx; exact Hx|]. intros j row Hj.
    now rewrite lookup_nil in Hj.
  - assert (Hrow : rows !! i0 = Some row).
    { rewrite <- (Nat.add_0_r i0). now apply Hl. }
    destruct (rowLoop_run T i0 row s Hrow Hb)
      as (s1 & T1 & Hrun1 & Hpre1 & Hb1 & Hf1 & Hg1 & Hv1).
    destruct (IH (S i0) T1 s1)
      as (s' & T' & Hrun & Hpre & Hb' & Hf' & Hg & Hv); auto.
    { intros j r Hj. replace (S i0 + j) with (i0 + S j) by lia.
      now apply Hl. }
    exists s', T'. split.
    { simpl. unfold mbind. rewrite Hrun1. exact Hrun. }
    split; [etransitivity; eauto|]. split; [exact Hb'|].
    split; [congruence|]. split; [intros x Hx; auto|].
    intros [|j] r Hj.
    + injection Hj as <-. rewrite Nat.add_0_r. intros q Hq Hid.
      destruct (Hv1 q Hq Hid) as (u & Hu & H). exists u. split; auto.
    + replace (i0 + S j) with (S i0 + j) by lia. now apply Hv.
Qed.
End Rows.

(** *** [finalize] *)

Section Finalizing.

(** The models a property of a parent model stands for, as the relation of
    [c]: the model itself when [c] is one-to-one, and the values of the
    branch, or of the array made of it, otherwise. *)
Definition content (h : list cell) (c : PathInfo) (val : value)
  : list value :=
  if oneToOne c then (if truthy val then [val] else [])
  else match valuesOf h val with Ok l => l | Err _ => [] end.

(** The models [finalize(pInfo, models)] runs over. *)
Definition modelsOf (h : list cell) (models : value) : list value :=
  match models with
  | VRef a =>
      match h !! a with
      | Some (Arr elems) => elems
      | _ => [models]
      end
  | _ => if truthy models then [models] else []
  end.

(** What a finalized model holds for the relation of [c]. *)
Definition final (T : list kind) (val : value) (c : PathInfo) : Prop :=
  if oneToOne c then val = null \/ typed T val (KModel (encPath c))
  else typed T val (KArray (encPath c)).

(** From [h] to [h']: the relations of the models keep their content, and
    what is finalized stays so. *)
Definition advances (T : list kind) (h : list cell) (T' : list kind)
    (h' : list cell) : Prop :=
  T `prefix_of` T' /\
  ((forall a elems, h !! a = Some (Arr elems) -> h' !! a = Some (Arr elems)) /\
   columnsKept T h h') /\
  forall a p r c val,
    T !! a = Some (KModel (encPath p)) -> childOf p r c ->
    readProp h (VRef a) r = Ok val ->
    exists val', readProp h' (VRef a) r = Ok val' /\
                 content h' c val' = content h c val /\
                 (final T val c -> final T' val' c).

(** A call of [finalizeOne] that has returned: the relations of the model
    are finalized, and [finalizeOne] was called with every model in them. *)
Definition settledEntry (T : list kind) (log : list (string * value))
    (h : list cell) (em : string * value) : Prop :=
  exists a p,
    snd em = VRef a /\ fst em = encPath p /\ In p infos /\
    T !! a = Some (KModel (encPath p)) /\
    forall r c, In (r, c) (children p) ->
      exists val, readProp h (VRef a) r = Ok val /\ final T val c /\
                  forall x, In x (content h c val) -> In (encPath c, x) log.

(** The calls of [finalizeOne] so far, of which [X] have not returned. *)
Definition settled (X : list (string * value)) (T : list kind)
    (log : list (string * value)) (h : list cell) : Prop :=
  forall em, In em log -> In em X \/ settledEntry T log h em.

Definition Finalizing (X : list (string * value)) (T : list kind)
    (s : TreeState) : Prop :=
  heapTyped true T (t_heap s) /\ settled X T (finalized s) (t_heap s).

Lemma advances_refl T h : advances T h T h.
Proof.
  split; [reflexivity|]. split; [split; [auto | apply columnsKept_refl]|].
  intros a p r c val _ _ H. exists val. auto.
Qed.

Lemma advances_trans T1 h1 T2 h2 T3 h3 :
  advances T1 h1 T2 h2 -> advances T2 h2 T3 h3 -> advances T1 h1 T3 h3.
Proof.
  intros (Hp1 & [A1 C1] & H1) (Hp2 & [A2 C2] & H2).
  split; [etransitivity; eauto|].
  split; [split; [auto | eapply columnsKept_trans; eauto]|].
  intros a p r c val Ha Hch Hr.
  destruct (H1 a p r c val Ha Hch Hr) as (v2 & Hr2 & Hc2 & Hf2).
  destruct (H2 a p r c v2 (prefix_lookup_Some _ _ _ _ Ha Hp1) Hch Hr2)
    as (v3 & Hr3 & Hc3 & Hf3).
  exists v3. split; [exact Hr3|]. split; [congruence | auto].
Qed.

Lemma final_mono T T' val c :
  T `prefix_of` T' -> final T val c -> final T' val c.
Proof.
  intros Hp. unfold final. destruct (oneToOne c).
  - intros [H|H]; [now left | right; eapply typed_mono; eauto].
  - now apply typed_mono.
Qed.

Lemma settled_advances X T log h T' h' :
  settled X T log h -> advances T h T' h' -> settled X T' log h'.
Proof.
  intros Hs (Hp & _ & Ha) em Hem.
  destruct (Hs em Hem) as [H|(a & p & Hm & He & Hin & HT & Hslots)];
    [now left | right].
  exists a, p. split; [exact Hm|]. split; [exact He|]. split; [exact Hin|].
  split; [eapply prefix_lookup_Some; eauto|].
  intros r c Hrc. destruct (Hslots r c Hrc) as (val & Hr & Hf & Hlog).
  destruct (Ha a p r c val HT (conj Hin Hrc) Hr) as (val' & Hr' & Hc' & Hf').
  exists val'. split; [exact Hr'|]. split; [auto|].
  intros x Hx. apply Hlog. now rewrite <- Hc'.
Qed.

Lemma settled_more X X' T log log' h :
  settled X T log h -> incl X X' ->
  (forall em, In em log' -> In em log \/ In em X') -> incl log log' ->
  settled X' T log' h.
Proof.
  intros Hs HX Hnew Hincl em Hem.
  destruct (Hnew em Hem) as [Hold|Hx]; [|now left].
  destruct (Hs em Hold) as [H|(a & p & Hm & He & Hin & HT & Hslots)];
    [left; auto | right].
  exists a, p. repeat (split; [assumption|]).
  intros r c Hrc. destruct (Hslots r c Hrc) as (val & Hr & Hf & Hlog).
  exists val. split; [exact Hr|]. split; [exact Hf|].
  intros x Hx. apply Hincl. now apply Hlog.
Qed.

(** What a model holds for a relation is [undefined], [null], or a
    reference to an object that is no model of the parent path. *)
Lemma content_stable T h h' c val :
  holds true T val (slotKind c) ->
  (forall a K, T !! a = Some K -> (forall e, K <> KModel e) ->
               h' !! a = h !! a) ->
  content h' c val = content h c val.
Proof.
  intros Hv Hsame. unfold content, slotKind in *.
  destruct (oneToOne c); [reflexivity|].
  destruct Hv as [->|[(a & -> & Ha)|(_ & [->|(e & He & a & -> & Ha)])]];
    try reflexivity.
  - simpl. rewrite (Hsame a _ Ha); [reflexivity | discriminate].
  - simpl. rewrite (Hsame a _ Ha); [reflexivity | discriminate].
Qed.

Lemma slot_holds T h a p r c val :
  heapTyped true T h -> T !! a = Some (KModel (encPath p)) ->
  childOf p r c -> readProp h (VRef a) r = Ok val ->
  holds true T val (slotKind c).
Proof.
  intros Hh Ha Hch Hr.
  destruct (proj2 Hh a _ Ha) as (c0 & Hc0 & cls & o & -> & Hslots).
  unfold readProp in Hr. rewrite Hc0 in Hr. injection Hr as <-.
  now apply (Hslots p r c).
Qed.

(** A new array. *)
Lemma advances_alloc T h K c :
  heapTyped true T h -> advances T h (T ++ [K]) (h ++ [c]).
Proof.
  intros Hh. split; [now apply prefix_app_r|].
  split; [split; [intros a elems Ha; now apply lookup_app_l_Some
                 | apply columnsKept_alloc]|].
  intros a p r c0 val Ha Hch Hr. exists val.
  split; [now apply readProp_alloc|]. split.
  - apply (content_stable T); [eapply slot_holds; eauto|].
    intros a' K' Ha' _. apply lookup_app_l.
    rewrite <- (proj1 Hh). eapply lookup_lt_Some; eauto.
  - apply final_mono. now apply prefix_app_r.
Qed.

(** The write of [finalizeBranch]: [b] is stored as the relation [rn] of
    the model at [m]. *)
Lemma advances_write T h m cls o p rn ch b :
  heapTyped true T h ->
  h !! m = Some (Obj cls o) -> T !! m = Some (KModel (encPath p)) ->
  childOf p rn ch ->
  let h' := <[m := Obj cls (setProp o rn b)]> h in
  content h' ch b = content h ch (getProp o rn) ->
  (final T (getProp o rn) ch -> final T b ch) ->
  advances T h T h'.
Proof.
  intros Hh Hm HTm Hch h' Hcont Hfin. split; [reflexivity|].
  split.
  { split.
    - intros a elems Ha. unfold h'. rewrite list_lookup_insert_ne; [exact Ha|].
      intros <-. rewrite Hm in Ha. discriminate.
    - unfold h'. apply columnsKept_write; [exact Hm|].
      intros p0 Hp0 Hin0. rewrite HTm in Hp0. injection Hp0 as E.
      assert (p = p0)
        by (apply (wf_distinct wf); [apply Hch | exact Hin0 | exact E]).
      subst p0. apply in_map_iff. exists (rn, ch).
      split; [reflexivity | apply Hch]. }
  assert (Hsame : forall a K, T !! a = Some K -> (forall e, K <> KModel e) ->
                              h' !! a = h !! a).
  { intros a K Ha HK. unfold h'. apply list_lookup_insert_ne.
    intros <-. rewrite HTm in Ha. injection Ha as <-.
    now apply (HK (encPath p)). }
  intros a p' r c val Ha Hch' Hr.
  pose proof (slot_holds _ _ _ _ _ _ _ Hh Ha Hch' Hr) as Hval.
  destruct (decide (a = m)) as [->|Hne].
  - rewrite HTm in Ha. injection Ha as E.
    assert (p' = p).
    { apply (wf_distinct wf); [apply Hch' | apply Hch | now symmetry]. }
    subst p'. unfold readProp in Hr. rewrite Hm in Hr. injection Hr as <-.
    destruct (String.eqb_spec rn r) as [<-|Hr].
    + assert (c = ch) by exact (wf_names wf p rn c ch Hch' Hch). subst c.
      exists b. split; [|split; assumption].
      unfold h', readProp.
      rewrite list_lookup_insert_eq by (eapply lookup_lt_Some; eauto).
      now rewrite getProp_setProp_eq.
    + exists (getProp o r). split; [|split; [|auto]].
      * unfold h', readProp.
        rewrite list_lookup_insert_eq by (eapply lookup_lt_Some; eauto).
        now rewrite getProp_setProp_ne.
      * now apply (content_stable T).
  - exists val. split; [|split; [|auto]].
    + unfold h', readProp. now rewrite list_lookup_insert_ne.
    + now apply (content_stable T).
Qed.

(** What [finalizeBranch] returns. *)
Lemma final_modelsOf T h res c :
  heapTyped true T h -> final T res c ->
  modelsOf h res = content h c res /\
  Forall (fun x => typed T x (KModel (encPath c))) (modelsOf h res).
Proof.
  intros Hh. unfold final, content. destruct (oneToOne c).
  - intros [->|(a & -> & Ha)]; [split; [reflexivity | constructor]|].
    destruct (proj2 Hh a _ Ha) as (c0 & Hc0 & cls & o & -> & _).
    simpl. rewrite Hc0. split; [reflexivity|].
    constructor; [exists a; auto | constructor].
  - intros (a & -> & Ha).
    destruct (proj2 Hh a _ Ha) as (c0 & Hc0 & elems & -> & Hall).
    simpl. rewrite Hc0. auto.
Qed.

Lemma finalizeBranch_run X T s m p rn ch branch :
  Finalizing X T s -> T !! m = Some (KModel (encPath p)) ->
  childOf p rn ch ->
  readProp (t_heap s) (VRef m) rn = Ok branch ->
  exists s' T' res,
    finalizeBranch ch branch (VRef m) s = (s', Ok res) /\
    advances T (t_heap s) T' (t_heap s') /\ Finalizing X T' s' /\
    finalized s' = finalized s /\
    readProp (t_heap s') (VRef m) rn = Ok res /\ final T' res ch.
Proof.
  destruct s as [h0 st cb vs fin]. unfold Finalizing. simpl.
  intros (Hh & Hlog) HTm Hch Hread.
  destruct (proj2 Hh m _ HTm) as (c & Hm & cls & o & -> & Hslots).
  assert (branch = getProp o rn).
  { unfold readProp in Hread. rewrite Hm in Hread. now injection Hread. }
  subst branch.
  pose proof (Hslots p rn ch Hch eq_refl) as Hslot.
  destruct (wf_children wf _ _ _ Hch) as (_ & (rel & Hrel & Hname) & _).
  assert (Hwrite : forall (h1 : list cell) b,
            h1 !! m = Some (Obj cls o) ->
            readProp (<[m := Obj cls (setProp o rn b)]> h1) (VRef m) rn
            = Ok b).
  { intros h1 b Hm1. unfold readProp.
    rewrite list_lookup_insert_eq by (eapply lookup_lt_Some; eauto).
    now rewrite getProp_setProp_eq. }
  assert (HwOK : forall T1 b, T `prefix_of` T1 ->
            holds true T1 b (slotKind ch) -> writeOK true T1 m rn b).
  { intros T1 b Hp1 Hb. unfold writeOK.
    rewrite (prefix_lookup_Some _ _ _ _ HTm Hp1).
    intros parent r p' Hch' He ->.
    assert (parent = p).
    { apply (wf_distinct wf); [apply Hch' | apply Hch | exact He]. }
    subst parent. now rewrite (wf_names wf _ _ _ _ Hch' Hch). }
  unfold finalizeBranch.
  destruct (oneToOne ch) eqn:Hone.
  - set (b := if truthy (getProp o rn) then getProp o rn else null).
    assert (Hb : holds true T b (slotKind ch) /\ final T b ch /\
                 content (<[m := Obj cls (setProp o rn b)]> h0) ch b =
                 content h0 ch (getProp o rn)).
    { unfold b, final, content, slotKind in *. rewrite Hone in *.
      destruct Hslot as [->|[(a & -> & Ha)|(_ & [->|(e & He & _)])]].
      - simpl. split; [right; right; auto | split; [now left | reflexivity]].
      - simpl. split; [right; left; exists a; auto|].
        split; [right; exists a; auto | reflexivity].
      - simpl. split; [right; right; auto | split; [now left | reflexivity]].
      - discriminate. }
    destruct Hb as (Hb & Hfin & Hcont).
    pose proof (advances_write T h0 m cls o p rn ch b Hh Hm HTm Hch Hcont
                  (fun _ => Hfin)) as Hadv.
    eexists _, T, b. split.
    { unfold mbind, lift, relationName. rewrite Hrel, Hname.
      unfold writeP, writeProp. simpl. rewrite Hm. reflexivity. }
    simpl. split; [exact Hadv|]. split; [split|].
    + apply heapTyped_write; [exact Hh | exact Hm|]. now apply HwOK.
    + eapply settled_advances; [exact Hlog | exact Hadv].
    + split; [reflexivity|]. split; [now apply Hwrite | exact Hfin].
  - assert (Hvals : exists elems,
              valuesOf h0 (getProp o rn) = Ok elems /\
              Forall (fun v => typed T v (KModel (encPath ch))) elems).
    { unfold slotKind in Hslot. rewrite Hone in Hslot.
      destruct Hslot as [->|[(a & -> & Ha)|(_ & [->|(e & He & a & -> & Ha)])]].
      - exists []. split; [reflexivity | constructor].
      - destruct (proj2 Hh a _ Ha) as (c & Hc & cls' & o' & -> & Hall & _).
        exists (values o'). split; [simpl; now rewrite Hc|].
        unfold values. apply Forall_map. exact Hall.
      - exists []. split; [reflexivity | constructor].
      - injection He as <-.
        destruct (proj2 Hh a _ Ha) as (c & Hc & elems & -> & Hall).
        exists elems. split; [simpl; now rewrite Hc | exact Hall]. }
    destruct Hvals as (elems & Hvals & Hall).
    set (n := length h0).
    set (T1 := T ++ [KArray (encPath ch)]).
    set (h1 := h0 ++ [Arr elems]).
    assert (HT1 : T `prefix_of` T1) by now apply prefix_app_r.
    assert (Hn1 : T1 !! n = Some (KArray (encPath ch))).
    { unfold T1, n. rewrite <- (proj1 Hh).
      rewrite lookup_app_r, Nat.sub_diag by lia. reflexivity. }
    assert (Hh1 : heapTyped true T1 h1).
    { apply heapTyped_alloc; [exact Hh|]. exists elems. split; auto.
      eapply Forall_impl; [exact Hall|]. intros v. now apply typed_mono. }
    assert (Hm1 : h1 !! m = Some (Obj cls o))
      by now apply lookup_app_l_Some.
    assert (HTm1 : T1 !! m = Some (KModel (encPath p)))
      by (eapply prefix_lookup_Some; eauto).
    assert (Hnm : n <> m).
    { intros E. rewrite E in Hn1. rewrite HTm1 in Hn1. discriminate. }
    assert (Hfin : final T1 (VRef n) ch).
    { unfold final. rewrite Hone. exists n. auto. }
    assert (Hadv1 : advances T h0 T1 h1) by now apply advances_alloc.
    assert (Hadv2 : advances T1 h1 T1
                      (<[m := Obj cls (setProp o rn (VRef n))]> h1)).
    { apply (advances_write T1 h1 m cls o p rn ch); auto.
      unfold content. rewrite Hone. simpl.
      rewrite list_lookup_insert_ne by auto.
      unfold h1 at 1, n. rewrite lookup_app_r, Nat.sub_diag by lia. simpl.
      destruct (Hadv1) as (_ & _ & H).
      destruct (H m p rn ch (getProp o rn) HTm Hch Hread)
        as (val' & Hr' & Hc' & _).
      unfold readProp in Hr'. rewrite Hm1 in Hr'. injection Hr' as <-.
      unfold content in Hc'. rewrite Hone, Hvals in Hc'.
      now rewrite Hc'. }
    eexists _, T1, (VRef n). split.
    { unfold mbind, get. cbn [t_heap]. rewrite Hvals. unfold lift at 1.
      unfold allocT, alloc. unfold lift, relationName. rewrite Hrel, Hname.
      unfold writeP, writeProp. simpl. fold h1.
      rewrite Hm1. reflexivity. }
    simpl. split; [eapply advances_trans; eauto|]. split; [split|].
    + apply heapTyped_write; [exact Hh1 | exact Hm1|].
      apply HwOK; [exact HT1|].
      unfold slotKind. rewrite Hone. right. right. split; auto. right.
      exists (encPath ch). split; auto. exists n. auto.
    + eapply settled_advances; [|exact Hadv2].
      eapply settled_advances; [exact Hlog | exact Hadv1].
    + split; [reflexivity|]. split; [now apply Hwrite | exact Hfin].
Qed.

(** [one] finalizes a model of the path [p]. *)
Definition finalizes (one : value -> M TreeState unit) (p : PathInfo)
  : Prop :=
  forall X model T s,
    Finalizing X T s -> typed T model (KModel (encPath p)) ->
    exists s' T',
      one model s = (s', Ok tt) /\
      advances T (t_heap s) T' (t_heap s') /\ Finalizing X T' s' /\
      incl (finalized s) (finalized s') /\
      In (encPath p, model) (finalized s').

Lemma finalizeEach_run one p (Hone : finalizes one p) X :
  forall elems T s,
    Finalizing X T s ->
    Forall (fun v => typed T v (KModel (encPath p))) elems ->
    exists s' T',
      forEach elems one s = (s', Ok tt) /\
      advances T (t_heap s) T' (t_heap s') /\ Finalizing X T' s' /\
      incl (finalized s) (finalized s') /\
      forall x, In x elems -> In (encPath p, x) (finalized s').
Proof.
  induction elems as [|v elems IH]; intros T s Hf Hall.
  - exists s, T. split; [reflexivity|]. split; [apply advances_refl|].
    split; [exact Hf|]. split; [intros x Hx; exact Hx | intros x []].
  - inversion Hall as [|? ? Hv Hall']; subst.
    destruct (Hone X v T s Hf Hv)
      as (s1 & T1 & Hrun1 & Ha1 & Hf1 & Hi1 & Hl1).
    destruct (IH T1 s1 Hf1) as (s' & T' & Hrun & Ha & Hf' & Hi & Hl).
    { eapply Forall_impl; [exact Hall'|]. intros x.
      apply typed_mono. apply Ha1. }
    exists s', T'. split.
    { simpl. unfold mbind. rewrite Hrun1. exact Hrun. }
    split; [eapply advances_trans; eauto|]. split; [exact Hf'|].
    split; [intros x Hx; auto|].
    intros x [<-|Hx]; auto.
Qed.

Lemma finalizeModels_run one p (Hone : finalizes one p) X res T s :
  Finalizing X T s -> final T res p ->
  exists s' T',
    finalizeModels one res s = (s', Ok tt) /\
    advances T (t_heap s) T' (t_heap s') /\ Finalizing X T' s' /\
    incl (finalized s) (finalized s') /\
    forall x, In x (content (t_heap s) p res) ->
              In (encPath p, x) (finalized s').
Proof.
  intros Hf Hres.
  destruct (final_modelsOf T (t_heap s) res p (proj1 Hf) Hres) as [E Hall].
  rewrite <- E.
  destruct (finalizeEach_run one p Hone X _ T s Hf Hall)
    as (s' & T' & Hrun & H).
  exists s', T'. split; [|exact H].
  unfold finalizeModels, mbind, get. unfold modelsOf in Hrun.
  destruct res as [pr| |a].
  - destruct (truthy (VPrim pr)); [|exact Hrun].
    simpl in Hrun. unfold mbind in Hrun.
    destruct (one (VPrim pr) s) as [s1 [[]|e]]; [exact Hrun | discriminate].
  - simpl in Hrun. simpl. unfold mbind in Hrun.
    destruct (one (VFun f) s) as [s1 [[]|e]]; [exact Hrun | discriminate].
  - destruct (t_heap s !! a) as [[cls o|elems]|]; try exact Hrun.
    + simpl in Hrun. unfold mbind in Hrun.
      destruct (one (VRef a) s) as [s1 [[]|e]]; [exact Hrun | discriminate].
    + simpl in Hrun. unfold mbind in Hrun.
      destruct (one (VRef a) s) as [s1 [[]|e]]; [exact Hrun | discriminate].
Qed.

(** The loop of [finalizeOne] over the child relations [cs] of [pInfo]. *)
Lemma finalizeChildren_run pInfo m X :
  In pInfo infos ->
  forall cs,
    Forall (fun c => finalizes (finalizeOne (snd c)) (snd c)) cs ->
    incl cs (children pInfo) ->
    forall T s,
      Finalizing X T s -> T !! m = Some (KModel (encPath pInfo)) ->
      exists s' T',
        finalizeChildren (VRef m) cs s = (s', Ok tt) /\
        advances T (t_heap s) T' (t_heap s') /\ Finalizing X T' s' /\
        incl (finalized s) (finalized s') /\
        forall r c, In (r, c) cs ->
          exists val, readProp (t_heap s') (VRef m) r = Ok val /\
                      final T' val c /\
                      forall x, In x (content (t_heap s') c val) ->
                                In (encPath c, x) (finalized s').
Proof.
  intros Hin. induction cs as [|[rn ch] cs IH]; intros Hall Hincl T s Hf HTm.
  - exists s, T. split; [reflexivity|]. split; [apply advances_refl|].
    split; [exact Hf|]. split; [intros x Hx; exact Hx | intros r c []].
  - inversion Hall as [|? ? Hch Hall']; subst. simpl in Hch.
    assert (Hchild : childOf pInfo rn ch).
    { split; [exact Hin|]. apply Hincl. now left. }
    destruct (proj2 (proj1 Hf) m _ HTm) as (c0 & Hm & cls & o & -> & _).
    assert (Hread : readProp (t_heap s) (VRef m) rn = Ok (getProp o rn)).
    { unfold readProp. now rewrite Hm. }
    destruct (finalizeBranch_run X T s m pInfo rn ch _ Hf HTm Hchild Hread)
      as (s1 & T1 & res & Hrun1 & Ha1 & Hf1 & Hl1 & Hres & Hfin).
    destruct (finalizeModels_run _ ch Hch X res T1 s1 Hf1 Hfin)
      as (s2 & T2 & Hrun2 & Ha2 & Hf2 & Hi2 & Hlog2).
    assert (HTm1 : T1 !! m = Some (KModel (encPath pInfo))).
    { eapply prefix_lookup_Some; [exact HTm | apply Ha1]. }
    assert (HTm2 : T2 !! m = Some (KModel (encPath pInfo))).
    { eapply prefix_lookup_Some; [exact HTm1 | apply Ha2]. }
    destruct (IH Hall' (fun x Hx => Hincl x (or_intror Hx)) T2 s2 Hf2 HTm2)
      as (s' & T' & Hrun & Ha & Hf' & Hi & Hslots).
    exists s', T'. split.
    { simpl. unfold mbind at 1, readP, mbind at 1, get, lift.
      rewrite Hread. unfold mbind at 1. rewrite Hrun1.
      unfold mbind. rewrite Hrun2. exact Hrun. }
    split; [eapply advances_trans; [|exact Ha];
            eapply advances_trans; eauto|].
    split; [exact Hf'|]. split.
    { intros x Hx. apply Hi, Hi2. now rewrite Hl1. }
    intros r c [[= <- <-]|Hrc]; [|exact (Hslots r c Hrc)].
    destruct (proj2 (proj2 (advances_trans _ _ _ _ _ _ Ha2 Ha))
                m pInfo rn ch res
                HTm1 Hchild Hres) as (val & Hr & Hc & Hfin').
    exists val. split; [exact Hr|]. split; [auto|].
    intros x Hx. rewrite Hc in Hx. auto.
Qed.

Lemma finalizeOne_run : forall pInfo,
  In pInfo infos -> finalizes (finalizeOne pInfo) pInfo.
Proof.
  induction pInfo as [pInfo IH] using PathInfo_induction.
  intros Hin X model T s Hf (m & -> & HTm).
  rewrite finalizeOne_eq.
  set (s0 := {| t_heap := t_heap s; stack := stack s;
                curBranch := curBranch s; visits := visits s;
                finalized := finalized s ++ [(encPath pInfo, VRef m)] |}).
  assert (Hf0 : Finalizing ((encPath pInfo, VRef m) :: X) T s0).
  { destruct Hf as (H1 & H2). split; [exact H1|]. simpl.
    eapply settled_more; [exact H2 | | |].
    - intros x Hx. now right.
    - intros em Hem. apply in_app_or in Hem.
      destruct Hem as [H|[<-|[]]]; [now left | right; now left].
    - intros x Hx. apply in_or_app. now left. }
  assert (Hall : Forall (fun c => finalizes (finalizeOne (snd c)) (snd c))
                        (children pInfo)).
  { rewrite Forall_forall in IH |- *. intros [rn ch] Hc. simpl.
    apply (IH _ Hc).
    apply (wf_children wf pInfo rn ch).
    split; [exact Hin | now apply list_elem_of_In]. }
  destruct (finalizeChildren_run pInfo m _ Hin (children pInfo) Hall
              (fun x Hx => Hx) T s0 Hf0 HTm)
    as (s' & T' & Hrun & Ha & (H1 & H2) & Hi & Hslots).
  assert (Hlogged : In (encPath pInfo, VRef m) (finalized s')).
  { apply Hi. simpl. apply in_or_app. right. now left. }
  exists s', T'. split.
  { unfold mbind, logFinalized, modify. exact Hrun. }
  split; [exact Ha|]. split; [split; [exact H1|]|].
  - intros em Hem. destruct (H2 em Hem) as [[<-|H]|H];
      [right | now left | now right].
    exists m, pInfo. split; [reflexivity|]. split; [reflexivity|].
    split; [exact Hin|]. split; [|exact Hslots].
    eapply prefix_lookup_Some; [exact HTm | apply Ha].
  - split; [|exact Hlogged].
    intros x Hx. apply Hi. simpl. apply in_or_app. now left.
Qed.
End Finalizing.

(** *** [rowsToTree] *)

(** [child] is the model that [parent] has for the relation [r] of the
    path [p], or is in the array of them. *)
Definition related (h : list cell) (p : PathInfo) (r : string)
    (parent child : value) : Prop :=
  exists val, readProp h parent r = Ok val /\
    if oneToOne p then val = child
    else exists a elems,
      val = VRef a /\ h !! a = Some (Arr elems) /\ In child elems.

(** What [parent] has for the relation [r] of the path [p] when there is
    no model: [null], or an empty array. *)
Definition unrelated (h : list cell) (p : PathInfo) (r : string)
    (parent : value) : Prop :=
  exists val, readProp h parent r = Ok val /\
    if oneToOne p then val = null
    else exists a, val = VRef a /\ h !! a = Some (Arr []).

(** [m] is the model that was found or created for the row [i] at the
    path [p]. *)
Definition modelAt (s : TreeState) (i : nat) (p : PathInfo) (m : value)
  : Prop :=
  exists v, In v (visits s) /\ v_row v = i /\ v_encPath v = encPath p /\
            v_model v = m.

(** What a model holds for the relation of [p] once it is finalized:
    [null] or the model of a row at [p] when the relation is one-to-one,
    and an array of models of rows at [p] otherwise. *)
Definition finalValue (s : TreeState) (p : PathInfo) (val : value) : Prop :=
  if oneToOne p
  then val = null \/ exists j, modelAt s j p val
  else exists a elems,
    val = VRef a /\ t_heap s !! a = Some (Arr elems) /\
    Forall (fun x => exists j, modelAt s j p x) elems.

(** The rows [rowi] and [rowj] give the same key at the path [p]: the
    identifiers, as property keys, are the same; a one-to-one path has one
    key, the name of the relation. *)
Definition agree (p : PathInfo) (rowi rowj : Row) : Prop :=
  oneToOne p = true \/
  ToString (idGetter p rowi) = ToString (idGetter p rowj).

(** The rows [i] and [j] have the same parent model at the path [p]: [p]
    is the root path, or one object is the model of both rows at the parent
    path. *)
Definition sameParent (s : TreeState) (i j : nat) (p : PathInfo) : Prop :=
  relation p = None \/
  exists parent r m,
    childOf parent r p /\ modelAt s i parent m /\ modelAt s j parent m.

(** [q] is the path [p] or a path below it. *)
Inductive below (p : PathInfo) : PathInfo -> Prop :=
| below_self : In p infos -> below p p
| below_child q r c : below p q -> childOf q r c -> below p c.

Lemma getProp_values o k :
  getProp o k <> undefined -> In (getProp o k) (values o).
Proof.
  induction o as [|[k0 v0] o IH]; simpl; [congruence|].
  destruct (String.eqb k0 k); [now left | right; auto].
Qed.

Lemma getProp_NoDup o k x :
  List.NoDup (keys o) -> In (k, x) o -> getProp o k = x.
Proof.
  induction o as [|[k0 v0] o IH]; simpl; [intros _ []|].
  intros Hnd [[= -> ->]|Hin]; [now rewrite String.eqb_refl|].
  inversion Hnd as [|? ? Hk0 Hnd1]; subst.
  destruct (String.eqb_spec k0 k) as [->|Hne]; [|now apply IH].
  exfalso. apply Hk0. unfold keys.
  change k with (fst (k, x)). now apply in_map.
Qed.

Lemma truthy_defined v : truthy v = true -> v <> undefined.
Proof. intros H ->. discriminate. Qed.

Section Tree.
Variable b : Builder.
Variable rows : list Row.
Variable h : list cell.
Variable keyInfo : list KeyInfo.
Variable root : PathInfo.
Variable rest : list PathInfo.
Hypothesis Hb : map snd (pathInfo b) = infos.
Hypothesis Hkey : createKeyInfo b rows = Ok keyInfo.
Hypothesis Hrf : rootFirst root rest.
Hypothesis Hfresh : freshModels keyInfo.
Hypothesis Hkeyed : allKeyed keyInfo.
Hypothesis Hpresent : parentsPresent rows.

(** The branch of the root models. *)
Definition treeAt : nat := length h.

(** The state when the loop over the rows has ended, and the state when
    [rowsToTree] returns [models]. *)
Record treeRun (s3 : TreeState) (T3 : list kind) (s' : TreeState)
    (T' : list kind) (models : nat) (roots : list value) : Prop := {
  run_result :
    rowsToTree b rows (newTreeState h) = (s', Ok (Tree (VRef models)));
  run_built : Built rows keyInfo root treeAt T3 s3;
  run_kept : visitsKept s3;
  run_rows : forall i row, rows !! i = Some row ->
                           rowVisited i row (visits s3);
  run_visits : visits s' = visits s3;
  run_advances : advances T3 (t_heap s3) T' (t_heap s');
  run_final : Finalizing [] T' s';
  run_models : t_heap s' !! models = Some (Arr roots);
  run_roots : valuesOf (t_heap s3) (VRef treeAt) = Ok roots;
  run_logged : forall x, In x roots -> In (encPath root, x) (finalized s');
  run_sorted : rowsAscend (visits s3)
}.

Lemma rowsToTree_run :
  exists s3 T3 s' T' models roots, treeRun s3 T3 s' T' models roots.
Proof.
  set (T0 := replicate (length h) KOther).
  set (T1 := T0 ++ [KBranch (encPath root)]).
  set (s2 := {| t_heap := h ++ [Obj None []]; stack := [];
                curBranch := undefined; visits := []; finalized := [] |}).
  assert (Hroot : infos = root :: rest) by apply Hrf.
  assert (HT0 : heapTyped false T0 h).
  { split; [apply length_replicate|]. intros a K Ha.
    assert (Hlt : a < length h).
    { apply lookup_lt_Some in Ha. unfold T0 in Ha.
      now rewrite length_replicate in Ha. }
    destruct (lookup_lt_is_Some_2 h a Hlt) as [c Hc]. exists c.
    split; [exact Hc|].
    unfold T0 in Ha. apply lookup_replicate in Ha as [-> _]. exact I. }
  assert (Htree : T1 !! treeAt = Some (KBranch (encPath root))).
  { unfold T1, treeAt. rewrite lookup_app_r by (unfold T0; now rewrite length_replicate).
    unfold T0. now rewrite length_replicate, Nat.sub_diag. }
  assert (HB : Built rows keyInfo root treeAt T1 s2).
  { split; [|split; [|split; [|split; [|split]]]].
    - apply heapTyped_alloc; [exact HT0|]. exists None, []. split; auto.
      split; constructor.
    - intros e. now left.
    - intros a k p val Hslot Hr Hval. exfalso. apply Hval.
      assert (a = treeAt).
      { destruct Hslot as [_ [[_ Ha]|(_ & parent & _ & Ha)]];
          apply lookup_lt_Some in Ha as Hlt;
          unfold T1 in Hlt; rewrite length_app in Hlt; simpl in Hlt;
          (destruct (decide (a < length T0)) as [Hlt0|];
           [|unfold treeAt; unfold T0 in *; rewrite length_replicate in *; lia]);
          unfold T1 in Ha; rewrite lookup_app_l in Ha by exact Hlt0;
          unfold T0 in Ha; apply lookup_replicate in Ha as [Ha _];
          discriminate. }
      subst a. simpl in Hr. unfold readProp, treeAt in Hr.
      rewrite lookup_app_r, Nat.sub_diag in Hr by lia. simpl in Hr.
      now injection Hr.
    - exact Htree.
    - intros vs1 v vs2 E. simpl in E. destruct vs1; discriminate.
    - intros a1 a2 p1 p2 r1 r2 c1 c2 bk H1. exfalso. unfold T1 in H1.
      apply lookup_app_Some in H1 as [H1|[_ H1]].
      + unfold T0 in H1. apply lookup_replicate in H1 as [H1 _]. discriminate.
      + destruct (a1 - length T0); simpl in H1; discriminate. }
  assert (HK : visitsKept s2).
  { split; [constructor|]. intros i j v1 v2 _ Hi. simpl in Hi.
    now rewrite lookup_nil in Hi. }
  destruct (rowLoops_run rows keyInfo root rest treeAt Hrf Hfresh Hkeyed
              Hpresent rows 0 T1 s2 (fun j row H => H) HB)
    as (s3 & T3 & Hrun3 & Hp3 & HB3 & Hf3 & _ & Hv3).
  assert (Hsorted : rowsAscend (visits s3)).
  { pose proof (rowLoops_ascend keyInfo treeAt rows 0 s2) as H.
    rewrite Hrun3 in H. apply H; [|constructor].
    intros k1 k2 v1 v2 _ H1. simpl in H1. now rewrite lookup_nil in H1. }
  fold (indexed rows) in Hrun3.
  assert (HK3 : visitsKept s3).
  { pose proof (preserves_forEach visitsKept (indexed rows)
                  (rowLoop keyInfo infos (VRef treeAt))
                  (fun ir _ => rowLoop_visitsKept keyInfo _ _ ir) s2 HK) as H.
    now rewrite Hrun3 in H. }
  destruct HB3 as (Hh3 & Hst3 & Hvis3 & Htree3 & Htr3 & Hap3).
  destruct (proj2 Hh3 _ _ Htree3) as (c & Hc & cls & o & -> & Hall & Hnd).
  set (roots := values o).
  set (models := length (t_heap s3)).
  set (T4 := T3 ++ [KArray (encPath root)]).
  set (s4 := withTHeap s3 (t_heap s3 ++ [Arr roots])).
  assert (Hroots : Forall (fun v => typed T3 v (KModel (encPath root))) roots).
  { unfold roots, values. apply Forall_map. exact Hall. }
  assert (Hh4 : heapTyped true T4 (t_heap s4)).
  { unfold s4. destruct s3; simpl in *.
    apply heapTyped_alloc; [now apply heapTyped_weaken|].
    exists roots. split; auto.
    eapply Forall_impl; [exact Hroots|]. intros v. apply typed_mono.
    now apply prefix_app_r. }
  assert (HF4 : Finalizing [] T4 s4).
  { split; [exact Hh4|]. unfold s4. destruct s3; simpl in *.
    rewrite Hf3. intros em []. }
  assert (Hm4 : T4 !! models = Some (KArray (encPath root))).
  { unfold T4, models. rewrite <- (proj1 Hh3).
    rewrite lookup_app_r, Nat.sub_diag by lia. reflexivity. }
  assert (Hfin4 : final T4 (VRef models) root).
  { unfold final. rewrite (proj2 (rf_root _ _ Hrf)). exists models. auto. }
  assert (Hin : In root infos) by (rewrite Hroot; now left).
  destruct (finalizeModels_run _ root (finalizeOne_run root Hin) []
              (VRef models) T4 s4 HF4 Hfin4)
    as (s' & T' & Hrun & Hadv & HF' & _ & Hlog).
  assert (Hrun' : finalize root (VRef models) s4 = (s', Ok (VRef models))).
  { unfold finalize, mbind. now rewrite Hrun. }
  assert (Hadv4 : advances T3 (t_heap s3) T4 (t_heap s4)).
  { unfold s4. destruct s3; simpl in *. apply advances_alloc.
    now apply heapTyped_weaken. }
  assert (Harr4 : t_heap s4 !! models = Some (Arr roots)).
  { unfold s4, models. destruct s3; simpl in *.
    rewrite lookup_app_r, Nat.sub_diag by lia. reflexivity. }
  exists s3, T3, s', T', models, roots. constructor.
  - unfold rowsToTree. destruct rows as [|row0 rows'] eqn:Erows;
      [discriminate|]. rewrite <- Erows in *.
    unfold mbind at 1, lift at 1. rewrite Hkey.
    unfold mbind at 1, allocT at 1, alloc. simpl.
    unfold mbind at 1, modify at 1. simpl.
    rewrite Hb. fold treeAt. fold s2.
    unfold mbind at 1. rewrite Hrun3. rewrite Hroot.
    unfold mbind at 1, get. unfold mbind at 1, lift at 1.
    simpl valuesOf. rewrite Hc. fold roots.
    unfold mbind at 1, allocT at 1, alloc. fold models. fold s4.
    unfold mbind. rewrite Hrun'. reflexivity.
  - exact (conj Hh3 (conj Hst3 (conj Hvis3 (conj Htree3 (conj Htr3 Hap3))))).
  - exact HK3.
  - intros i row Hi. apply (Hv3 i row Hi).
  - rewrite (silent_finalize _ _ _ _ _ Hrun'). unfold s4. now destruct s3.
  - eapply advances_trans; eauto.
  - exact HF'.
  - apply (proj1 (proj1 (proj2 Hadv))). exact Harr4.
  - simpl. now rewrite Hc.
  - intros x Hx. apply Hlog. unfold content.
    rewrite (proj2 (rf_root _ _ Hrf)). unfold valuesOf. now rewrite Harr4.
  - exact Hsorted.
Qed.

Section Run.
Variables (s3 : TreeState) (T3 : list kind) (s' : TreeState)
          (T' : list kind) (models : nat) (roots : list value).
Hypothesis Hrun : treeRun s3 T3 s' T' models roots.

(** The visit [v] of the path [p]. *)
Definition visitAtPath (v : Visit) (p : PathInfo) : Prop :=
  In p infos /\ v_encPath v = encPath p.

Lemma visit_facts k v :
  visits s3 !! k = Some v ->
  visitOK rows keyInfo treeAt T3 (t_heap s3) (take k (visits s3)) v /\
  kept (t_heap s3) v.
Proof.
  intros Hk. split.
  - apply (proj1 (proj2 (proj2 (proj2 (proj2 (run_built _ _ _ _ _ _ Hrun)))))
             (take k (visits s3)) v (drop (S k) (visits s3))).
    symmetry. now apply take_drop_middle.
  - destruct (run_kept _ _ _ _ _ _ Hrun) as [H _].
    rewrite List.Forall_forall in H. apply H.
    apply list_elem_of_In. eapply list_elem_of_lookup_2; eauto.
Qed.

Lemma visit_path v p :
  fromRows rows v -> visitAtPath v p -> v_key v = branchKey p (v_id v).
Proof.
  intros (p' & row & Hp' & _ & He & _ & _ & Hk) [Hp He'].
  assert (p' = p) by (apply (wf_distinct wf); congruence). now subst p'.
Qed.

(** A root model is in the branch of the root models. *)
Lemma root_stored k v p :
  visits s3 !! k = Some v -> visitAtPath v p -> relation p = None ->
  p = root /\ In (v_model v) roots.
Proof.
  intros Hk [Hp He] Hrel.
  destruct (visit_facts k v Hk)
    as [(Hfrom & _ & _ & _ & _ & Hroot & _) [Hkept Htruthy]].
  assert (p = root).
  { rewrite (rf_infos _ _ Hrf) in Hp. destruct Hp as [<-|Hp]; [reflexivity|].
    pose proof (rf_rest _ _ Hrf) as Hrest.
    rewrite List.Forall_forall in Hrest. now destruct (Hrest p Hp). }
  split; [assumption|].
  rewrite (Hroot p Hp He Hrel) in Hkept.
  pose proof (run_roots _ _ _ _ _ _ Hrun) as Hroots.
  unfold readProp in Hkept. simpl in Hroots.
  destruct (t_heap s3 !! treeAt) as [[cls o|elems]|]; try discriminate.
  injection Hkept as Hkept. injection Hroots as <-.
  rewrite <- Hkept. apply getProp_values. rewrite Hkept.
  now apply truthy_defined.
Qed.

(** A model of a relation is kept by the model of the same row at the
    parent path. *)
Lemma child_stored k v p rel :
  visits s3 !! k = Some v -> visitAtPath v p -> relation p = Some rel ->
  exists parent u a val,
    childOf parent (name rel) p /\
    In u (take k (visits s3)) /\ v_row u = v_row v /\
    v_encPath u = encPath parent /\ v_model u = VRef a /\
    T3 !! a = Some (KModel (encPath parent)) /\
    readProp (t_heap s3) (VRef a) (name rel) = Ok val /\
    In (v_model v) (content (t_heap s3) p val).
Proof.
  intros Hk [Hp He] Hrel.
  destruct (visit_facts k v Hk)
    as [(Hfrom & _ & _ & _ & Hparent & _) [Hkept Htruthy]].
  pose proof (visit_path v p Hfrom (conj Hp He)) as Hvkey.
  destruct (wf_parent wf p Hp) as (parent & r & Hch); [congruence|].
  destruct (wf_children wf _ _ _ Hch) as (_ & (rel' & Hrel' & Hname) & _).
  assert (rel' = rel) by congruence. subst rel' r.
  destruct (Hparent p rel parent Hp He Hrel Hch)
    as (u & Hu & Hrow & Hpath & Hunder).
  assert (Hu' : exists k', visits s3 !! k' = Some u).
  { apply list_elem_of_In, list_elem_of_lookup_1 in Hu as [k' Hk'].
    exists k'. rewrite lookup_take_Some in Hk'. apply Hk'. }
  destruct Hu' as [k' Hk'].
  destruct (visit_facts k' u Hk') as [(_ & (a & Ha & HTa) & _) _].
  rewrite Hpath in HTa.
  destruct (proj2 (proj1 (run_built _ _ _ _ _ _ Hrun)) a _ HTa)
    as (c & Hc & cls & o & -> & _).
  exists parent, u, a, (getProp o (name rel)).
  split; [exact Hch|]. split; [exact Hu|]. split; [exact Hrow|].
  split; [exact Hpath|]. split; [exact Ha|]. split; [exact HTa|].
  split; [unfold readProp; now rewrite Hc|].
  unfold under in Hunder. unfold content. unfold branchKey in Hvkey.
  destruct (oneToOne p).
  - rewrite Hrel in Hvkey. rewrite Hunder, Ha, Hvkey in Hkept.
    unfold readProp in Hkept. rewrite Hc in Hkept. injection Hkept as ->.
    rewrite Htruthy. now left.
  - rewrite Ha in Hunder. unfold readProp in Hunder. rewrite Hc in Hunder.
    injection Hunder as ->. unfold readProp in Hkept.
    destruct (v_branch v) as [pr| |bk]; simpl.
    + destruct pr; discriminate.
    + discriminate.
    + destruct (t_heap s3 !! bk) as [[cls' o'|elems]|]; try discriminate.
      injection Hkept as Hkept. rewrite <- Hkept. apply getProp_values.
      rewrite Hkept. now apply truthy_defined.
Qed.

(** [finalizeOne] was called with the model of every visit. *)
Lemma visits_finalized : forall k v,
  visits s3 !! k = Some v -> In (v_encPath v, v_model v) (finalized s').
Proof.
  induction k as [k IH] using lt_wf_ind. intros v Hk.
  destruct (visit_facts k v Hk) as [((p & row & Hp & _ & He & _) & _) _].
  destruct (relation p) as [rel|] eqn:Hrel.
  - destruct (child_stored k v p rel Hk (conj Hp He) Hrel)
      as (parent & u & a & val & Hch & Hu & _ & Hpath & Ha & HTa & Hr & Hin).
    apply list_elem_of_In, list_elem_of_lookup_1 in Hu as [k' Hk'].
    rewrite lookup_take_Some in Hk'. destruct Hk' as [Hk' Hlt].
    pose proof (IH k' Hlt u Hk') as Hlog. rewrite Hpath, Ha in Hlog.
    destruct (proj2 (run_final _ _ _ _ _ _ Hrun) _ Hlog)
      as [[]|(a' & p' & Ha' & Hp' & Hin' & HT' & Hslots)].
    simpl in Ha', Hp'. injection Ha' as <-.
    assert (p' = parent).
    { apply (wf_distinct wf); [exact Hin' | apply Hch | congruence]. }
    subst p'.
    destruct (Hslots (name rel) p (proj2 Hch)) as (val' & Hr' & _ & Hall).
    destruct (proj2 (proj2 (run_advances _ _ _ _ _ _ Hrun))
                a parent (name rel) p val HTa Hch Hr)
      as (val'' & Hr'' & Hc'' & _).
    assert (val'' = val') by congruence. subst val''.
    rewrite He. apply Hall. now rewrite Hc''.
  - destruct (root_stored k v p Hk (conj Hp He) Hrel) as [-> Hin].
    rewrite He. now apply (run_logged _ _ _ _ _ _ Hrun).
Qed.

(** What the model of a visit at [parent] holds, in the end, for the
    relation of [p]. *)
Lemma relation_finalized k u parent r p :
  visits s3 !! k = Some u -> v_encPath u = encPath parent ->
  childOf parent r p ->
  exists a val3 val,
    v_model u = VRef a /\ T3 !! a = Some (KModel (encPath parent)) /\
    readProp (t_heap s3) (VRef a) r = Ok val3 /\
    readProp (t_heap s') (VRef a) r = Ok val /\ final T' val p /\
    content (t_heap s') p val = content (t_heap s3) p val3.
Proof.
  intros Hk Hpath Hch.
  destruct (visit_facts k u Hk) as [(_ & (a & Ha & HTa) & _) _].
  rewrite Hpath in HTa.
  destruct (proj2 (proj1 (run_built _ _ _ _ _ _ Hrun)) a _ HTa)
    as (c & Hc & cls & o & -> & _).
  assert (Hr : readProp (t_heap s3) (VRef a) r = Ok (getProp o r)).
  { unfold readProp. now rewrite Hc. }
  pose proof (visits_finalized k u Hk) as Hlog. rewrite Hpath, Ha in Hlog.
  destruct (proj2 (run_final _ _ _ _ _ _ Hrun) _ Hlog)
    as [[]|(a' & p' & Ha' & Hp' & Hin' & HT' & Hslots)].
  simpl in Ha', Hp'. injection Ha' as <-.
  assert (p' = parent).
  { apply (wf_distinct wf); [exact Hin' | apply Hch | congruence]. }
  subst p'.
  destruct (Hslots r p (proj2 Hch)) as (val' & Hr' & Hfin & _).
  destruct (proj2 (proj2 (run_advances _ _ _ _ _ _ Hrun))
              a parent r p _ HTa Hch Hr)
    as (val'' & Hr'' & Hc'' & _).
  assert (val'' = val') by congruence. subst val''.
  exists a, (getProp o r), val'. auto 10.
Qed.

Lemma content_related p r a val x :
  readProp (t_heap s') (VRef a) r = Ok val -> final T' val p ->
  In x (content (t_heap s') p val) ->
  related (t_heap s') p r (VRef a) x.
Proof.
  intros Hr Hfin Hin. exists val. split; [exact Hr|].
  unfold final, content in *. destruct (oneToOne p).
  - destruct (truthy val); [|destruct Hin].
    destruct Hin as [->|[]]. reflexivity.
  - destruct Hfin as (n & -> & Hn).
    destruct (proj2 (proj1 (run_final _ _ _ _ _ _ Hrun)) n _ Hn)
      as (c & Hc & elems & -> & _).
    simpl in Hin. rewrite Hc in Hin. exists n, elems. auto.
Qed.

Lemma content_unrelated p r a val :
  readProp (t_heap s') (VRef a) r = Ok val -> final T' val p ->
  content (t_heap s') p val = [] ->
  unrelated (t_heap s') p r (VRef a).
Proof.
  intros Hr Hfin Hnil. exists val. split; [exact Hr|].
  unfold final, content in *. destruct (oneToOne p).
  - destruct Hfin as [->|(n & -> & _)]; [reflexivity | discriminate].
  - destruct Hfin as (n & -> & Hn).
    destruct (proj2 (proj1 (run_final _ _ _ _ _ _ Hrun)) n _ Hn)
      as (c & Hc & elems & -> & _).
    simpl in Hnil. rewrite Hc in Hnil. subst elems. exists n. auto.
Qed.

(** Without a visit of [p] the models of the parent path hold nothing for
    its relation when the loop over the rows has ended. *)
Lemma unvisited_empty a parent r p val :
  (forall v, In v (visits s3) -> v_encPath v <> encPath p) ->
  T3 !! a = Some (KModel (encPath parent)) -> childOf parent r p ->
  readProp (t_heap s3) (VRef a) r = Ok val ->
  content (t_heap s3) p val = [].
Proof.
  intros Hnone HTa Hch Hr.
  destruct (run_built _ _ _ _ _ _ Hrun) as (Hh3 & _ & Hvis3 & _).
  destruct (wf_children wf _ _ _ Hch) as (Hp & _).
  destruct (proj2 Hh3 a _ HTa) as (c & Hc & cls & o & -> & Hslots).
  assert (val = getProp o r).
  { unfold readProp in Hr. rewrite Hc in Hr. now injection Hr. }
  subst val. pose proof (Hslots parent r p Hch eq_refl) as Hslot.
  unfold content, slotKind in *. destruct (oneToOne p) eqn:Hone.
  - destruct (truthy (getProp o r)) eqn:Ht; [|reflexivity]. exfalso.
    destruct (Hvis3 a r p (getProp o r)) as (v & Hv & _ & _ & He); auto.
    + split; [exact Hp|]. right. split; [exact Hone|]. exists parent. auto.
    + now apply truthy_defined.
    + exact (Hnone v Hv He).
  - destruct Hslot as [->|[(bk & -> & Hbk)|[Hf _]]];
      [reflexivity | | discriminate].
    destruct (proj2 Hh3 bk _ Hbk) as (c' & Hc' & cls' & o' & -> & Hall & _).
    simpl. rewrite Hc'. destruct o' as [|[k0 x0] o']; [reflexivity|].
    exfalso. inversion Hall as [|? ? (n & Hx0 & _) _]; subst.
    simpl in Hx0. subst x0.
    destruct (Hvis3 bk k0 p (VRef n)) as (v & Hv & _ & _ & He).
    + split; [exact Hp|]. left. auto.
    + unfold readProp. rewrite Hc'. simpl. now rewrite String.eqb_refl.
    + discriminate.
    + exact (Hnone v Hv He).
Qed.

(** What the models hold for a relation when the loop over the rows has
    ended are models of visits. *)
Lemma slot_sourced a k p x :
  modelSlot T3 a k p -> readProp (t_heap s3) (VRef a) k = Ok x ->
  x <> undefined ->
  exists v, In v (visits s3) /\ v_encPath v = encPath p /\ v_model v = x.
Proof.
  intros Hslot Hr Hx.
  destruct (run_built _ _ _ _ _ _ Hrun) as (_ & _ & Hvis3 & _).
  destruct (Hvis3 a k p x Hslot Hr Hx) as (v & Hv & Hvb & Hvk & He).
  exists v. split; [exact Hv|]. split; [exact He|].
  destruct (run_kept _ _ _ _ _ _ Hrun) as [H _].
  rewrite List.Forall_forall in H. destruct (H v Hv) as [Hkept _].
  rewrite Hvb, Hvk in Hkept. congruence.
Qed.

Lemma branch_sourced bk p cls o x :
  In p infos -> oneToOne p = false ->
  T3 !! bk = Some (KBranch (encPath p)) ->
  t_heap s3 !! bk = Some (Obj cls o) -> In x (values o) ->
  exists v, In v (visits s3) /\ v_encPath v = encPath p /\ v_model v = x.
Proof.
  intros Hp Hone Hbk Hc Hx.
  destruct (proj2 (proj1 (run_built _ _ _ _ _ _ Hrun)) bk _ Hbk)
    as (c1 & Hc1 & cls1 & o1 & -> & Hall & Hnd).
  rewrite Hc in Hc1. injection Hc1 as <- <-.
  unfold values in Hx. apply in_map_iff in Hx as ([k x1] & E & Hin).
  simpl in E. subst x1.
  rewrite List.Forall_forall in Hall.
  destruct (Hall _ Hin) as (n & Hn & _). simpl in Hn.
  apply (slot_sourced bk k p x).
  - split; [exact Hp|]. left. auto.
  - unfold readProp. rewrite Hc. f_equal. now apply getProp_NoDup.
  - rewrite Hn. discriminate.
Qed.

Lemma content_sourced a parent r p val x :
  T3 !! a = Some (KModel (encPath parent)) -> childOf parent r p ->
  readProp (t_heap s3) (VRef a) r = Ok val ->
  In x (content (t_heap s3) p val) ->
  exists v, In v (visits s3) /\ v_encPath v = encPath p /\ v_model v = x.
Proof.
  intros HTa Hch Hr Hin.
  destruct (run_built _ _ _ _ _ _ Hrun) as (Hh3 & _).
  destruct (wf_children wf _ _ _ Hch) as (Hp & _).
  destruct (proj2 Hh3 a _ HTa) as (c & Hc & cls & o & -> & Hslots).
  assert (val = getProp o r).
  { unfold readProp in Hr. rewrite Hc in Hr. now injection Hr. }
  subst val. pose proof (Hslots parent r p Hch eq_refl) as Hslot.
  unfold content, slotKind in *. destruct (oneToOne p) eqn:Hone.
  - destruct (truthy (getProp o r)) eqn:Ht; [|destruct Hin].
    destruct Hin as [<-|[]].
    apply (slot_sourced a r p); auto.
    + split; [exact Hp|]. right. split; [exact Hone|]. exists parent. auto.
    + now apply truthy_defined.
  - destruct Hslot as [E|[(bk & E & Hbk)|[Hf _]]]; [| |discriminate].
    + rewrite E in Hin. destruct Hin.
    + rewrite E in Hin. simpl in Hin.
      destruct (proj2 Hh3 bk _ Hbk) as (c1 & Hc1 & cls1 & o1 & -> & _).
      rewrite Hc1 in Hin. now apply (branch_sourced bk p cls1 o1).
Qed.

Lemma visit_models p x :
  (exists v, In v (visits s3) /\ v_encPath v = encPath p /\ v_model v = x) ->
  exists j, modelAt s' j p x.
Proof.
  intros (v & Hv & He & Hm). exists (v_row v), v.
  rewrite (run_visits _ _ _ _ _ _ Hrun). auto.
Qed.

Lemma modelAt_visit i p m :
  modelAt s' i p m ->
  exists k v, visits s3 !! k = Some v /\ v_row v = i /\
              v_encPath v = encPath p /\ v_model v = m.
Proof.
  intros (v & Hv & Hi & He & Hm).
  rewrite (run_visits _ _ _ _ _ _ Hrun) in Hv.
  apply list_elem_of_In, list_elem_of_lookup_1 in Hv as [k Hk]. eauto 6.
Qed.

Lemma visit_modelAt k v p :
  visits s3 !! k = Some v -> v_encPath v = encPath p ->
  modelAt s' (v_row v) p (v_model v).
Proof.
  intros Hk He. exists v. rewrite (run_visits _ _ _ _ _ _ Hrun).
  split; [|auto]. apply list_elem_of_In. eapply list_elem_of_lookup_2; eauto.
Qed.

Lemma row_modelAt i row p :
  rows !! i = Some row -> In p infos ->
  truthy_prim (idGetter p row) = true ->
  exists k v, visits s3 !! k = Some v /\ v_row v = i /\
              v_encPath v = encPath p.
Proof.
  intros Hi Hp Hid.
  destruct (run_rows _ _ _ _ _ _ Hrun i row Hi p Hp Hid) as (v & Hv & H).
  apply list_elem_of_In, list_elem_of_lookup_1 in Hv as [k Hk]. eauto.
Qed.

(** The array of the root models. *)
Lemma run_root_models :
  Forall (fun x => (exists a cls o,
                      x = VRef a /\ t_heap s' !! a = Some (Obj cls o)) /\
                   exists j, modelAt s' j root x) roots /\
  forall i row, rows !! i = Some row ->
    truthy_prim (idGetter root row) = true ->
    exists m, modelAt s' i root m /\ In m roots.
Proof.
  split.
  - rewrite List.Forall_forall. intros x Hx. split.
    + pose proof (run_logged _ _ _ _ _ _ Hrun x Hx) as Hlog.
      destruct (proj2 (run_final _ _ _ _ _ _ Hrun) _ Hlog)
        as [[]|(a & p & Ha & _ & _ & HT & _)].
      simpl in Ha. subst x.
      destruct (proj2 (proj1 (run_final _ _ _ _ _ _ Hrun)) a _ HT)
        as (c & Hc & cls & o & -> & _). eauto.
    + apply visit_models.
      destruct (run_built _ _ _ _ _ _ Hrun) as (Hh3 & _ & _ & Htree & _).
      destruct (proj2 Hh3 _ _ Htree) as (c1 & Hc1 & cls1 & o1 & -> & _).
      pose proof (run_roots _ _ _ _ _ _ Hrun) as Hroots. simpl in Hroots.
      rewrite Hc1 in Hroots. injection Hroots as E. rewrite <- E in Hx.
      apply (branch_sourced treeAt root cls1 o1); auto.
      * rewrite (rf_infos _ _ Hrf). now left.
      * apply Hrf.
  - intros i row Hi Hid.
    assert (Hin : In root infos).
    { rewrite (rf_infos _ _ Hrf). now left. }
    destruct (row_modelAt i row root Hi Hin Hid) as (k & v & Hk & <- & He).
    exists (v_model v). split; [now apply (visit_modelAt k)|].
    apply (root_stored k v root Hk (conj Hin He)). apply Hrf.
Qed.

(** The model of a row at a path is kept by the model of the row at the
    parent path. *)
Lemma run_nested i row parent r p :
  rows !! i = Some row -> childOf parent r p ->
  truthy_prim (idGetter p row) = true ->
  exists mp m,
    modelAt s' i parent mp /\ modelAt s' i p m /\
    related (t_heap s') p r mp m.
Proof.
  intros Hi Hch Hid.
  destruct (wf_children wf _ _ _ Hch) as (Hp & (rel & Hrel & Hname) & Hpar).
  destruct (row_modelAt i row p Hi Hp Hid) as (k & v & Hk & Hrow & He).
  destruct (child_stored k v p rel Hk (conj Hp He) Hrel)
    as (parent' & u & a & val & Hch' & Hu & Hrow' & Hpath & Ha & HTa & Hr
        & Hin).
  assert (parent' = parent).
  { destruct (wf_children wf _ _ _ Hch') as (_ & _ & Hpar').
    apply (wf_distinct wf); [apply Hch' | apply Hch | congruence]. }
  subst parent' r.
  apply list_elem_of_In, list_elem_of_lookup_1 in Hu as [k' Hk'].
  rewrite lookup_take_Some in Hk'. destruct Hk' as [Hk' _].
  destruct (relation_finalized k' u parent (name rel) p Hk' Hpath Hch)
    as (a' & val3 & val' & Ha' & _ & Hr3 & Hr' & Hfin & Hc).
  assert (a' = a) by congruence. subst a'.
  assert (val3 = val) by congruence. subst val3.
  exists (v_model u), (v_model v).
  split; [rewrite <- Hrow, <- Hrow'; now apply (visit_modelAt k')|].
  split; [rewrite <- Hrow; now apply (visit_modelAt k)|].
  rewrite Ha. apply (content_related p (name rel) a val'); auto.
  now rewrite Hc.
Qed.

(** The relations of every model are finalized. *)
Lemma run_shape i parent r p m :
  modelAt s' i parent m -> childOf parent r p ->
  exists val, readProp (t_heap s') m r = Ok val /\ finalValue s' p val.
Proof.
  intros Hm Hch.
  destruct (modelAt_visit i parent m Hm) as (k & u & Hk & _ & Hpath & <-).
  destruct (relation_finalized k u parent r p Hk Hpath Hch)
    as (a & val3 & val & Ha & HTa & Hr3 & Hr & Hfin & Hc).
  rewrite Ha. exists val. split; [exact Hr|].
  pose proof (proj1 (run_final _ _ _ _ _ _ Hrun)) as Hh.
  assert (Hsrc : forall x, In x (content (t_heap s') p val) ->
                           exists j, modelAt s' j p x).
  { intros x Hx. rewrite Hc in Hx. apply visit_models.
    now apply (content_sourced a parent r p val3). }
  unfold final, finalValue, content in *. destruct (oneToOne p).
  - destruct Hfin as [->|(n & -> & Hn)]; [now left | right].
    apply Hsrc. now left.
  - destruct Hfin as (n & -> & Hn).
    destruct (proj2 Hh n _ Hn) as (c & Hc1 & elems & -> & _).
    exists n, elems. split; [reflexivity|]. split; [exact Hc1|].
    rewrite List.Forall_forall. intros x Hx. apply Hsrc.
    simpl. now rewrite Hc1.
Qed.

(** A relation without an identifier in any row. *)
Lemma run_absent i parent r p m :
  (forall row, In row rows -> truthy_prim (idGetter p row) = false) ->
  modelAt s' i parent m -> childOf parent r p ->
  unrelated (t_heap s') p r m.
Proof.
  intros Hnone Hm Hch.
  destruct (wf_children wf _ _ _ Hch) as (Hp & _).
  destruct (modelAt_visit i parent m Hm) as (k & u & Hk & _ & Hpath & <-).
  destruct (relation_finalized k u parent r p Hk Hpath Hch)
    as (a & val3 & val & Ha & HTa & Hr3 & Hr & Hfin & Hc).
  rewrite Ha. apply (content_unrelated p r a val Hr Hfin).
  rewrite Hc. apply (unvisited_empty a parent r p val3); auto.
  intros v Hv He.
  apply list_elem_of_In, list_elem_of_lookup_1 in Hv as [k' Hk'].
  destruct (visit_facts k' v Hk')
    as [((p' & row & Hp' & Hrow & He' & Hid & _) & _) _].
  assert (p' = p) by (apply (wf_distinct wf); congruence). subst p'.
  rewrite Hnone in Hid; [discriminate|].
  apply list_elem_of_In. eapply list_elem_of_lookup_2; eauto.
Qed.

(** *** One object for a key of a branch *)

Lemma in_take_lookup k u :
  In u (take k (visits s3)) ->
  exists k', k' < k /\ visits s3 !! k' = Some u.
Proof.
  intros Hu. apply list_elem_of_In, list_elem_of_lookup_1 in Hu as [k' Hk'].
  rewrite lookup_take_Some in Hk'. destruct Hk'; eauto.
Qed.

(** The first visit of the key of a visit in its branch: it created the
    model. *)
Lemma first_visit : forall k v,
  visits s3 !! k = Some v ->
  exists k1 v1,
    k1 <= k /\ visits s3 !! k1 = Some v1 /\
    v_branch v1 = v_branch v /\ v_key v1 = v_key v /\
    v_encPath v1 = v_encPath v /\ v_created v1 = true /\
    v_model v1 = v_model v /\
    forall k2 v2, visits s3 !! k2 = Some v2 ->
      v_branch v2 = v_branch v -> v_key v2 = v_key v -> k1 <= k2.
Proof.
  destruct (run_kept _ _ _ _ _ _ Hrun) as [_ Hfw].
  induction k as [k IH] using lt_wf_ind. intros v Hk.
  destruct (v_created v) eqn:Hc.
  - exists k, v. repeat (split; [auto|]).
    intros k2 v2 H2 Hbr Hky. destruct (le_lt_dec k k2) as [|Hlt]; [auto|].
    destruct (Hfw k2 k v2 v Hlt H2 Hk Hbr Hky) as [_ Hf]. congruence.
  - destruct (visit_facts k v Hk) as [(_ & _ & _ & Hfound & _) _].
    destruct (Hfound Hc) as (u & Hu & Hbr & Hky & He).
    destruct (in_take_lookup k u Hu) as (k' & Hlt & Hk').
    destruct (IH k' Hlt u Hk')
      as (k1 & v1 & Hle & H1 & Hb1 & Hk1 & He1 & Hc1 & Hm1 & Hmin).
    destruct (Hfw k' k u v Hlt Hk' Hk Hbr Hky) as [Hm _].
    exists k1, v1. split; [lia|]. split; [exact H1|].
    split; [congruence|]. split; [congruence|]. split; [congruence|].
    split; [exact Hc1|]. split; [congruence|].
    intros k2 v2 H2 Hb2 Hkey2. apply (Hmin k2 v2 H2); congruence.
Qed.

(** The models that are created are different objects. *)
Lemma created_apart k1 k2 v1 v2 :
  visits s3 !! k1 = Some v1 -> visits s3 !! k2 = Some v2 ->
  v_created v1 = true -> v_created v2 = true ->
  v_model v1 = v_model v2 -> k1 = k2.
Proof.
  assert (H : forall k1 k2 v1 v2, k1 < k2 ->
            visits s3 !! k1 = Some v1 -> visits s3 !! k2 = Some v2 ->
            v_created v2 = true -> v_model v1 <> v_model v2).
  { clear k1 k2 v1 v2. intros k1 k2 v1 v2 Hlt H1 H2 Hc.
    destruct (visit_facts k2 v2 H2) as [(_ & _ & _ & _ & _ & _ & Hnew) _].
    apply (proj1 (Hnew Hc)). apply list_elem_of_In.
    apply (list_elem_of_lookup_2 _ k1). apply lookup_take_Some. auto. }
  intros H1 H2 Hc1 Hc2 Hm.
  destruct (lt_eq_lt_dec k1 k2) as [[Hlt|E]|Hlt]; [|exact E|]; exfalso.
  - exact (H k1 k2 v1 v2 Hlt H1 H2 Hc2 Hm).
  - exact (H k2 k1 v2 v1 Hlt H2 H1 Hc1 (eq_sym Hm)).
Qed.

(** Visits with the same model are visits of one key of one branch. *)
Lemma same_model_same_slot k1 k2 v1 v2 :
  visits s3 !! k1 = Some v1 -> visits s3 !! k2 = Some v2 ->
  v_model v1 = v_model v2 ->
  v_branch v1 = v_branch v2 /\ v_key v1 = v_key v2.
Proof.
  intros H1 H2 Hm.
  destruct (first_visit k1 v1 H1)
    as (f1 & u1 & _ & Hf1 & Hb1 & Hk1 & _ & Hc1 & Hm1 & _).
  destruct (first_visit k2 v2 H2)
    as (f2 & u2 & _ & Hf2 & Hb2 & Hk2 & _ & Hc2 & Hm2 & _).
  assert (f1 = f2)
    by (apply (created_apart f1 f2 u1 u2); auto; congruence).
  subst f2. rewrite Hf1 in Hf2. injection Hf2 as <-.
  split; congruence.
Qed.

(** The visits of a row at a path are visits of one key of one branch. *)
Lemma same_row_same_visit : forall k1 k2 v1 v2,
  visits s3 !! k1 = Some v1 -> visits s3 !! k2 = Some v2 ->
  v_row v1 = v_row v2 -> v_encPath v1 = v_encPath v2 ->
  v_branch v1 = v_branch v2 /\ v_key v1 = v_key v2 /\
  v_model v1 = v_model v2.
Proof.
  destruct (run_kept _ _ _ _ _ _ Hrun) as [_ Hfw].
  induction k1 as [k1 IH] using lt_wf_ind. intros k2 v1 v2 H1 H2 Hrow Hpath.
  destruct (visit_facts k1 v1 H1)
    as [((p & row & Hp & Hr1 & He1 & _ & Hid1 & Hkey1) & _ & _ & _ &
         Hpar1 & Hroot1 & _) _].
  destruct (visit_facts k2 v2 H2)
    as [((p2 & row2 & Hp2 & Hr2 & He2 & _ & Hid2 & Hkey2) & _ & _ & _ &
         Hpar2 & Hroot2 & _) _].
  assert (p2 = p) by (apply (wf_distinct wf); congruence). subst p2.
  assert (row2 = row) by congruence. subst row2.
  assert (Hky : v_key v1 = v_key v2) by congruence.
  assert (Hbranch : v_branch v1 = v_branch v2).
  { destruct (relation p) as [rel|] eqn:Hrel.
    - destruct (wf_parent wf p Hp) as (parent & r & Hch); [congruence|].
      destruct (wf_children wf _ _ _ Hch) as (_ & (rel' & Hrel' & Hname) & _).
      assert (rel' = rel) by congruence. subst rel' r.
      destruct (Hpar1 p rel parent Hp He1 Hrel Hch)
        as (u1 & Hu1 & Hur1 & Hup1 & Hun1).
      destruct (Hpar2 p rel parent Hp He2 Hrel Hch)
        as (u2 & Hu2 & Hur2 & Hup2 & Hun2).
      destruct (in_take_lookup k1 u1 Hu1) as (j1 & Hlt1 & Hj1).
      destruct (in_take_lookup k2 u2 Hu2) as (j2 & Hlt2 & Hj2).
      destruct (IH j1 Hlt1 j2 u1 u2 Hj1 Hj2) as (_ & _ & Hm);
        [congruence | congruence |].
      unfold under in *. destruct (oneToOne p); [congruence|].
      rewrite Hm in Hun1. congruence.
    - rewrite (Hroot1 p Hp He1 Hrel), (Hroot2 p Hp He2 Hrel). reflexivity. }
  split; [exact Hbranch|]. split; [exact Hky|].
  destruct (lt_eq_lt_dec k1 k2) as [[Hlt|E]|Hlt].
  - symmetry. now apply (Hfw k1 k2 v1 v2 Hlt H1 H2).
  - subst k2. congruence.
  - now apply (Hfw k2 k1 v2 v1 Hlt H2 H1).
Qed.

(** A path that is one-to-one has a relation, and so one key. *)
Lemma oneToOne_key p id id' :
  In p infos -> oneToOne p = true -> branchKey p id = branchKey p id'.
Proof.
  intros Hp Hone. unfold branchKey. rewrite Hone.
  destruct (relation p) eqn:Hrel; [reflexivity|]. exfalso.
  rewrite (rf_infos _ _ Hrf) in Hp. destruct Hp as [<-|Hp].
  - destruct (rf_root _ _ Hrf). congruence.
  - pose proof (rf_rest _ _ Hrf) as Hrest.
    rewrite List.Forall_forall in Hrest. now apply (Hrest p Hp).
Qed.

(** The key of the visit of a row at a path. *)
Lemma visit_row k v p row :
  visits s3 !! k = Some v -> In p infos -> v_encPath v = encPath p ->
  rows !! v_row v = Some row ->
  truthy_prim (idGetter p row) = true /\
  v_key v = branchKey p (ToString (idGetter p row)).
Proof.
  intros Hk Hp He Hrow.
  destruct (visit_facts k v Hk)
    as [((p' & row' & Hp' & Hrow' & He' & Hid & Hvid & Hky) & _) _].
  assert (p' = p) by (apply (wf_distinct wf); congruence). subst p'.
  assert (row' = row) by congruence. subst row'.
  split; [exact Hid|]. now rewrite Hky, Hvid.
Qed.

(** The branch of the visit of a row at a path: the branch of the root
    models, or what the model of the row at the parent path holds. *)
Lemma visit_branch k v p :
  visits s3 !! k = Some v -> In p infos -> v_encPath v = encPath p ->
  (relation p = None -> v_branch v = VRef treeAt) /\
  (forall parent r m,
     childOf parent r p -> modelAt s' (v_row v) parent m ->
     exists a bk,
       m = VRef a /\ T3 !! a = Some (KModel (encPath parent)) /\
       v_branch v = VRef bk /\
       if oneToOne p then bk = a
       else readProp (t_heap s3) (VRef a) r = Ok (VRef bk)).
Proof.
  intros Hk Hp He.
  destruct (visit_facts k v Hk)
    as [(_ & _ & (bk & Hbk) & _ & Hpar & Hroot & _) _].
  split; [intros Hrel; now apply (Hroot p)|].
  intros parent r m Hch Hm.
  destruct (wf_children wf _ _ _ Hch) as (_ & (rel & Hrel & Hname) & _).
  subst r.
  destruct (Hpar p rel parent Hp He Hrel Hch) as (u & Hu & Hur & Hup & Hun).
  destruct (in_take_lookup k u Hu) as (j & _ & Hj).
  destruct (modelAt_visit _ _ _ Hm) as (j' & u' & Hj' & Hur' & Hup' & Hm').
  destruct (same_row_same_visit j j' u u' Hj Hj') as (_ & _ & Hmm);
    [congruence | congruence |].
  destruct (visit_facts j u Hj) as [(_ & (a & Ha & HTa) & _) _].
  rewrite Hup in HTa.
  exists a, bk. split; [congruence|]. split; [exact HTa|].
  split; [exact Hbk|].
  unfold under in Hun. rewrite Ha, Hbk in Hun.
  destruct (oneToOne p); [now injection Hun | exact Hun].
Qed.

(** Every row has one model at every path it has an identifier at. *)
Lemma run_unique i row p :
  rows !! i = Some row -> In p infos ->
  truthy_prim (idGetter p row) = true ->
  exists m, modelAt s' i p m /\ forall m', modelAt s' i p m' -> m' = m.
Proof.
  intros Hi Hp Hid.
  destruct (row_modelAt i row p Hi Hp Hid) as (k & v & Hk & Hrow & He).
  exists (v_model v). split.
  - rewrite <- Hrow. now apply (visit_modelAt k).
  - intros m' Hm'.
    destruct (modelAt_visit _ _ _ Hm') as (k' & v' & Hk' & Hrow' & He' & <-).
    apply (same_row_same_visit k' k v' v Hk' Hk); congruence.
Qed.

(** Rows with the same key under the same parent have the same model,
    and no other rows have. *)
Lemma run_same_object i j rowi rowj p mi mj :
  rows !! i = Some rowi -> rows !! j = Some rowj -> In p infos ->
  modelAt s' i p mi -> modelAt s' j p mj ->
  (mi = mj <-> agree p rowi rowj /\ sameParent s' i j p).
Proof.
  intros Hi Hj Hp Hmi Hmj.
  destruct (run_kept _ _ _ _ _ _ Hrun) as [_ Hfw].
  destruct (modelAt_visit _ _ _ Hmi) as (ki & vi & Hki & Hri & Hei & <-).
  destruct (modelAt_visit _ _ _ Hmj) as (kj & vj & Hkj & Hrj & Hej & <-).
  rewrite <- Hri in Hi. rewrite <- Hrj in Hj.
  destruct (visit_row ki vi p rowi Hki Hp Hei Hi) as [_ Hkeyi].
  destruct (visit_row kj vj p rowj Hkj Hp Hej Hj) as [_ Hkeyj].
  destruct (visit_branch ki vi p Hki Hp Hei) as [Hrooti Hbri].
  destruct (visit_branch kj vj p Hkj Hp Hej) as [Hrootj Hbrj].
  rewrite Hri in Hbri. rewrite Hrj in Hbrj.
  split.
  - (* one object: one key of one branch *)
    intros Hm.
    destruct (same_model_same_slot ki kj vi vj Hki Hkj Hm) as [Hbr Hk].
    split.
    + unfold agree. destruct (oneToOne p) eqn:Hone; [now left|right].
      rewrite Hkeyi, Hkeyj in Hk. unfold branchKey in Hk.
      now rewrite Hone in Hk.
    + unfold sameParent. destruct (relation p) as [rel|] eqn:Hrel;
        [right | now left].
      destruct (wf_parent wf p Hp) as (parent & r & Hch); [congruence|].
      destruct (visit_facts ki vi Hki) as [(_ & _ & _ & _ & Hpari & _) _].
      destruct (visit_facts kj vj Hkj) as [(_ & _ & _ & _ & Hparj & _) _].
      destruct (wf_children wf _ _ _ Hch) as (_ & (rel' & Hrel' & Hname) & _).
      assert (rel' = rel) by congruence. subst rel'.
      rewrite <- Hname in Hch.
      destruct (Hpari p rel parent Hp Hei Hrel Hch)
        as (ui & Hui & Huri & Hupi & _).
      destruct (Hparj p rel parent Hp Hej Hrel Hch)
        as (uj & Huj & Hurj & Hupj & _).
      destruct (in_take_lookup ki ui Hui) as (li & _ & Hli).
      destruct (in_take_lookup kj uj Huj) as (lj & _ & Hlj).
      assert (Hmi' : modelAt s' i parent (v_model ui)).
      { rewrite <- Hri, <- Huri. now apply (visit_modelAt li). }
      assert (Hmj' : modelAt s' j parent (v_model uj)).
      { rewrite <- Hrj, <- Hurj. now apply (visit_modelAt lj). }
      destruct (Hbri parent (name rel) _ Hch Hmi')
        as (a & bk & Ha & HTa & Hbk & Hifa).
      destruct (Hbrj parent (name rel) _ Hch Hmj')
        as (a' & bk' & Ha' & HTa' & Hbk' & Hifa').
      assert (bk' = bk) by congruence. subst bk'.
      assert (a' = a).
      { destruct (oneToOne p) eqn:Hone; [congruence|].
        destruct (run_built _ _ _ _ _ _ Hrun) as (_ & _ & _ & _ & _ & Hap).
        exact (Hap a' a parent parent (name rel) (name rel) p p bk
                 HTa' HTa Hch Hch Hone Hone Hifa' Hifa). }
      subst a'. exists parent, (name rel), (v_model ui).
      split; [exact Hch|]. split; [exact Hmi'|]. congruence.
  - (* one key of one branch: one object *)
    intros [Hag Hsp].
    assert (Hk : v_key vi = v_key vj).
    { rewrite Hkeyi, Hkeyj. destruct Hag as [Hone|E];
        [now apply oneToOne_key | now rewrite E]. }
    assert (Hbr : v_branch vi = v_branch vj).
    { destruct Hsp as [Hrel|(parent & r & m & Hch & Hpi & Hpj)].
      - now rewrite Hrooti, Hrootj.
      - destruct (Hbri parent r m Hch Hpi) as (a & bk & Ha & _ & Hbk & Hifa).
        destruct (Hbrj parent r m Hch Hpj)
          as (a' & bk' & Ha' & _ & Hbk' & Hifa').
        assert (a' = a) by congruence. subst a'.
        rewrite Hbk, Hbk'. f_equal.
        destruct (oneToOne p); congruence. }
    destruct (lt_eq_lt_dec ki kj) as [[Hlt|E]|Hlt].
    + symmetry. now apply (Hfw ki kj vi vj Hlt Hki Hkj).
    + subst kj. congruence.
    + now apply (Hfw kj ki vj vi Hlt Hkj Hki).
Qed.

(** The model of a row at a path was made of the first row that has this
    model at the path, and but for the relations it holds what was made. *)
Lemma run_first_row j p mj :
  In p infos -> modelAt s' j p mj ->
  exists i rowi ks a o,
    rows !! i = Some rowi /\ modelAt s' i p mj /\
    (forall i', modelAt s' i' p mj -> i <= i') /\
    keyInfoFor keyInfo (encPath p) = Some ks /\
    mj = VRef a /\
    t_heap s' !! a = Some (Obj (Some (pi_modelClass p)) o) /\
    forall col, ~ In col (map fst (children p)) ->
      getProp o col = getProp (columnsOf rowi p ks) col.
Proof.
  intros Hp Hmj.
  destruct (modelAt_visit _ _ _ Hmj) as (k & v & Hk & Hrow & He & <-).
  destruct (first_visit k v Hk)
    as (k1 & v1 & Hle & H1 & Hb1 & Hk1 & He1 & Hc1 & Hm1 & Hmin).
  destruct (visit_facts k1 v1 H1) as [(_ & Hty & _ & _ & _ & _ & Hnew) _].
  destruct (Hnew Hc1) as [_ Horigin].
  pose proof (origin_kept rows keyInfo T3 _ (t_heap s') v1
                (proj2 (proj1 (proj2 (run_advances _ _ _ _ _ _ Hrun))))
                Hty Horigin)
    as (a & row & p0 & ks & o & Ha & Hr & Hp0 & He0 & Hks & Hcell & Hcols).
  assert (p0 = p) by (apply (wf_distinct wf); congruence). subst p0.
  exists (v_row v1), row, ks, a, o. split; [exact Hr|]. split.
  { rewrite <- Hm1. apply (visit_modelAt k1); congruence. }
  split.
  { intros i' Hm'.
    destruct (modelAt_visit _ _ _ Hm') as (k' & v' & Hk' & Hrow' & He' & Hmv').
    destruct (same_model_same_slot k' k v' v Hk' Hk Hmv') as [Hbr' Hky'].
    pose proof (Hmin k' v' Hk' Hbr' Hky') as Hle'.
    rewrite <- Hrow'.
    exact (run_sorted _ _ _ _ _ _ Hrun k1 k' v1 v' Hle' H1 Hk'). }
  split; [exact Hks|]. split; [congruence|]. split; [exact Hcell|exact Hcols].
Qed.

(** *** Every object once *)

Lemma values_apart (o : props) :
  List.NoDup (keys o) ->
  (forall k1 k2 x, In (k1, x) o -> In (k2, x) o -> k1 = k2) ->
  List.NoDup (values o).
Proof.
  induction o as [|[k x] o IH]; simpl; intros Hnd Hinj; [constructor|].
  inversion Hnd as [|? ? Hk Hnd']; subst. constructor.
  - intros Hx. apply Hk. unfold values in Hx.
    apply in_map_iff in Hx as ([k2 x2] & E & Hin). simpl in E. subst x2.
    rewrite (Hinj k k2 x); [|now left|now right].
    unfold keys. apply in_map_iff. exists (k2, x). auto.
  - apply IH; [exact Hnd'|]. intros k1 k2 y H1 H2.
    apply (Hinj k1 k2 y); now right.
Qed.

(** The models of a branch are different objects. *)
Lemma branch_values_apart bk p cls o :
  In p infos -> oneToOne p = false ->
  T3 !! bk = Some (KBranch (encPath p)) ->
  t_heap s3 !! bk = Some (Obj cls o) -> List.NoDup (values o).
Proof.
  intros Hp Hone Hbk Hc.
  destruct (run_built _ _ _ _ _ _ Hrun) as (Hh3 & _ & Hvis3 & _).
  destruct (proj2 Hh3 bk _ Hbk) as (c1 & Hc1 & cls1 & o1 & -> & Hall & Hnd).
  rewrite Hc in Hc1. injection Hc1 as <- <-.
  apply values_apart; [exact Hnd|].
  assert (Hsrc : forall k x, In (k, x) o ->
            exists j v, visits s3 !! j = Some v /\ v_key v = k /\
                        v_model v = x).
  { intros k x Hin. rewrite List.Forall_forall in Hall.
    destruct (Hall _ Hin) as (n & Hn & _). simpl in Hn.
    assert (Hr : readProp (t_heap s3) (VRef bk) k = Ok x).
    { unfold readProp. rewrite Hc. f_equal. now apply getProp_NoDup. }
    destruct (Hvis3 bk k p x) as (v & Hv & Hvb & Hvk & _).
    - split; [exact Hp|]. left. auto.
    - exact Hr.
    - rewrite Hn. discriminate.
    - destruct (run_kept _ _ _ _ _ _ Hrun) as [H _].
      rewrite List.Forall_forall in H. destruct (H v Hv) as [Hkept _].
      rewrite Hvb, Hvk, Hr in Hkept. injection Hkept as Hm.
      apply list_elem_of_In, list_elem_of_lookup_1 in Hv as [j Hj].
      exists j, v. auto. }
  intros k1 k2 x H1 H2.
  destruct (Hsrc k1 x H1) as (j1 & v1 & Hj1 & <- & Hm1).
  destruct (Hsrc k2 x H2) as (j2 & v2 & Hj2 & <- & Hm2).
  apply (same_model_same_slot j1 j2 v1 v2 Hj1 Hj2). congruence.
Qed.

(** The array of a relation holds every object once. *)
Lemma run_array_apart i parent r p m :
  modelAt s' i parent m -> childOf parent r p -> oneToOne p = false ->
  exists a elems,
    readProp (t_heap s') m r = Ok (VRef a) /\
    t_heap s' !! a = Some (Arr elems) /\ List.NoDup elems.
Proof.
  intros Hm Hch Hone.
  destruct (wf_children wf _ _ _ Hch) as (Hp & _).
  destruct (modelAt_visit i parent m Hm) as (k & u & Hk & _ & Hpath & <-).
  destruct (relation_finalized k u parent r p Hk Hpath Hch)
    as (a & val3 & val & Ha & HTa & Hr3 & Hr & Hfin & Hc).
  destruct (run_built _ _ _ _ _ _ Hrun) as (Hh3 & _).
  pose proof (proj1 (run_final _ _ _ _ _ _ Hrun)) as Hh.
  unfold final in Hfin. rewrite Hone in Hfin.
  destruct Hfin as (n & -> & Hn).
  destruct (proj2 Hh n _ Hn) as (c & Hc1 & elems & -> & _).
  rewrite Ha. exists n, elems. split; [exact Hr|]. split; [exact Hc1|].
  unfold content in Hc. rewrite Hone in Hc. simpl in Hc. rewrite Hc1 in Hc.
  rewrite Hc.
  destruct (proj2 Hh3 a _ HTa) as (c0 & Hc0 & cls & o & -> & Hslots).
  unfold readProp in Hr3. rewrite Hc0 in Hr3. injection Hr3 as <-.
  pose proof (Hslots parent r p Hch eq_refl) as Hslot.
  unfold slotKind in Hslot. rewrite Hone in Hslot.
  destruct Hslot as [E|[(bk & E & Hbk)|[Hf _]]]; [| |discriminate].
  - rewrite E. constructor.
  - rewrite E. simpl.
    destruct (proj2 Hh3 bk _ Hbk) as (c1 & Hc2 & cls1 & o1 & -> & _).
    rewrite Hc2. now apply (branch_values_apart bk p cls1 o1).
Qed.

(** The array returned holds every object once. *)
Lemma run_roots_apart : List.NoDup roots.
Proof.
  destruct (run_built _ _ _ _ _ _ Hrun) as (Hh3 & _ & _ & Htree & _).
  destruct (proj2 Hh3 _ _ Htree) as (c1 & Hc1 & cls1 & o1 & -> & _).
  pose proof (run_roots _ _ _ _ _ _ Hrun) as Hroots. simpl in Hroots.
  rewrite Hc1 in Hroots. injection Hroots as E. rewrite <- E.
  apply (branch_values_apart treeAt root cls1 o1); auto.
  - rewrite (rf_infos _ _ Hrf). now left.
  - apply Hrf.
Qed.

(** *** The paths a row has no identifier at *)

Lemma below_absent row p q :
  In row rows -> below p q ->
  truthy_prim (idGetter p row) = false ->
  In q infos /\ truthy_prim (idGetter q row) = false.
Proof.
  intros Hrow Hbelow Hid. induction Hbelow as [Hp|q r c _ [Hq IH] Hch].
  - auto.
  - split; [apply (wf_children wf _ _ _ Hch)|].
    destruct (truthy_prim (idGetter c row)) eqn:Hc; [|reflexivity].
    rewrite (Hpresent row q r c Hrow Hch Hc) in IH. discriminate.
Qed.

Lemma run_skipped i row p q m :
  rows !! i = Some row -> truthy_prim (idGetter p row) = false ->
  below p q -> ~ modelAt s' i q m.
Proof.
  intros Hi Hid Hbelow Hm.
  assert (Hrow : In row rows).
  { apply list_elem_of_In. eapply list_elem_of_lookup_2; eauto. }
  destruct (below_absent row p q Hrow Hbelow Hid) as [Hq Hqid].
  destruct (modelAt_visit _ _ _ Hm) as (k & v & Hk & Hvr & He & _).
  rewrite <- Hvr in Hi.
  destruct (visit_row k v q row Hk Hq He Hi) as [Ht _]. congruence.
Qed.

End Run.
End Tree.
End Typing.

(** *** The tree of the joined rows *)

(** The builder and the rows [rowsToTree] is made for.  The PathInfo
    objects are those of a tree of relations, the root first; the columns
    of the first row give every path a column and no column of a model has
    the name of a relation of its class; and a row has an identifier at a
    path only when it has one at the parent path, as the rows of a chain of
    left joins have. *)
Record joinedRows (b : Builder) (rows : list Row) (keyInfo : list KeyInfo)
    (root : PathInfo) (rest : list PathInfo) : Prop := {
  jr_paths : wellFormed (map snd (pathInfo b));
  jr_root : rootFirst (map snd (pathInfo b)) root rest;
  jr_keys : createKeyInfo b rows = Ok keyInfo;
  jr_fresh : freshModels (map snd (pathInfo b)) keyInfo;
  jr_keyed : allKeyed (map snd (pathInfo b)) keyInfo;
  jr_present : parentsPresent (map snd (pathInfo b)) rows
}.

Lemma joinedRows_run b rows keyInfo root rest h :
  joinedRows b rows keyInfo root rest ->
  exists s3 T3 s' T' models roots,
    treeRun (map snd (pathInfo b)) b rows h keyInfo root s3 T3 s' T' models roots.
Proof.
  intros [H1 H2 H3 H4 H5 H6].
  exact (rowsToTree_run _ H1 b rows h keyInfo root rest eq_refl H3 H2 H4 H5
           H6).
Qed.

(** X18. On joined rows [rowsToTree] does not throw: it returns an array,
    every element of the array is an object and the model of a row at the
    root path, and the model of every row at the root path is one of
    them. *)
Theorem joined_rows_give_the_root_models
    (b : Builder) (rows : list Row) (keyInfo : list KeyInfo)
    (root : PathInfo) (rest : list PathInfo) (h : list cell) :
  joinedRows b rows keyInfo root rest ->
  exists s' models roots,
    rowsToTree b rows (newTreeState h) = (s', Ok (Tree (VRef models))) /\
    t_heap s' !! models = Some (Arr roots) /\
    Forall (fun x => (exists a cls o,
                        x = VRef a /\ t_heap s' !! a = Some (Obj cls o)) /\
                     exists j, modelAt s' j root x) roots /\
    forall i row, rows !! i = Some row ->
      truthy_prim (idGetter root row) = true ->
      exists m, modelAt s' i root m /\ In m roots.
Proof.
  intros J.
  destruct (joinedRows_run b rows keyInfo root rest h J)
    as (s3 & T3 & s' & T' & models & roots & Hrun).
  destruct J as [H1 H2 H3 H4 H5 H6].
  exists s', models, roots.
  split; [exact (run_result _ _ _ _ _ _ _ _ _ _ _ _ Hrun)|].
  split; [exact (run_models _ _ _ _ _ _ _ _ _ _ _ _ Hrun)|].
  exact (run_root_models _ b rows h keyInfo root rest H2 _ _ _ _ _ _ Hrun).
Qed.

(** X19. On joined rows the models are nested as the rows say: when a row
    has an identifier at the path [p] of the relation [r] of the path
    [parent], the model of the row at [p] is, in the tree returned, the
    value of the property [r] of the model of the row at [parent] when the
    relation is one-to-one, and an element of the array held by that
    property otherwise. *)
Theorem row_models_are_nested
    (b : Builder) (rows : list Row) (keyInfo : list KeyInfo)
    (root : PathInfo) (rest : list PathInfo) (h : list cell) :
  joinedRows b rows keyInfo root rest ->
  exists s' models,
    rowsToTree b rows (newTreeState h) = (s', Ok (Tree models)) /\
    forall i row parent r p,
      rows !! i = Some row -> childOf (map snd (pathInfo b)) parent r p ->
      truthy_prim (idGetter p row) = true ->
      exists mp m,
        modelAt s' i parent mp /\ modelAt s' i p m /\
        related (t_heap s') p r mp m.
Proof.
  intros J.
  destruct (joinedRows_run b rows keyInfo root rest h J)
    as (s3 & T3 & s' & T' & models & roots & Hrun).
  destruct J as [H1 H2 H3 H4 H5 H6].
  exists s', (VRef models). split; [exact (run_result _ _ _ _ _ _ _ _ _ _ _ _ Hrun)|].
  intros i row parent r p.
  exact (run_nested _ H1 b rows h keyInfo root rest H2 _ _ _ _ _ _ Hrun i row parent r p).
Qed.

(** X20. On joined rows every relation of every model of the tree is
    finalized, and holds nothing but models of rows: for each relation of
    its path the model holds [null] or the model of a row at the path of
    the relation when the relation is one-to-one, and otherwise an array
    of models of rows at that path; it never holds [undefined] nor the
    object that collected the models. *)
Theorem relations_are_finalized
    (b : Builder) (rows : list Row) (keyInfo : list KeyInfo)
    (root : PathInfo) (rest : list PathInfo) (h : list cell) :
  joinedRows b rows keyInfo root rest ->
  exists s' models,
    rowsToTree b rows (newTreeState h) = (s', Ok (Tree models)) /\
    forall i parent r p m,
      modelAt s' i parent m -> childOf (map snd (pathInfo b)) parent r p ->
      exists val, readProp (t_heap s') m r = Ok val /\ finalValue s' p val.
Proof.
  intros J.
  destruct (joinedRows_run b rows keyInfo root rest h J)
    as (s3 & T3 & s' & T' & models & roots & Hrun).
  destruct J as [H1 H2 H3 H4 H5 H6].
  exists s', (VRef models). split; [exact (run_result _ _ _ _ _ _ _ _ _ _ _ _ Hrun)|].
  intros i parent r p m.
  exact (run_shape _ H1 b rows h keyInfo root rest H2 _ _ _ _ _ _ Hrun i parent r p m).
Qed.

(** X21. On joined rows a relation for which no row has an identifier is
    empty in every model of the parent path: [null] when the relation is
    one-to-one, and an empty array otherwise. *)
Theorem relation_without_rows_is_empty
    (b : Builder) (rows : list Row) (keyInfo : list KeyInfo)
    (root : PathInfo) (rest : list PathInfo) (h : list cell)
    (parent : PathInfo) (r : string) (p : PathInfo) :
  joinedRows b rows keyInfo root rest ->
  childOf (map snd (pathInfo b)) parent r p ->
  (forall row, In row rows -> truthy_prim (idGetter p row) = false) ->
  exists s' models,
    rowsToTree b rows (newTreeState h) = (s', Ok (Tree models)) /\
    forall i m, modelAt s' i parent m -> unrelated (t_heap s') p r m.
Proof.
  intros J Hch Hnone.
  destruct (joinedRows_run b rows keyInfo root rest h J)
    as (s3 & T3 & s' & T' & models & roots & Hrun).
  destruct J as [H1 H2 H3 H4 H5 H6].
  exists s', (VRef models). split; [exact (run_result _ _ _ _ _ _ _ _ _ _ _ _ Hrun)|].
  intros i m Hm.
  exact (run_absent _ H1 b rows h keyInfo root rest H2 _ _ _ _ _ _ Hrun i parent r p m
           Hnone Hm Hch).
Qed.

(** X17. The getter made by [createIdGetter] returns [null] exactly when
    one of the identifier columns holds a falsy value in the row.  On
    joined rows a row has no model at a path at which its identifier is
    absent, nor at any path below that path. *)
Theorem absent_path_has_no_model
    (b : Builder) (rows : list Row) (keyInfo : list KeyInfo)
    (root : PathInfo) (rest : list PathInfo) (h : list cell) :
  joinedRows b rows keyInfo root rest ->
  (forall sep cls path row,
     createIdGetter sep cls path row = PNull <->
     Exists (fun v => truthy_prim v = false)
            (idValues (map (joinPath sep path) (idColumn cls)) row)) /\
  exists s' models,
    rowsToTree b rows (newTreeState h) = (s', Ok (Tree models)) /\
    forall i row p q m,
      rows !! i = Some row -> truthy_prim (idGetter p row) = false ->
      below (map snd (pathInfo b)) p q -> ~ modelAt s' i q m.
Proof.
  intros J. split.
  { intros sep cls path row. rewrite createIdGetter_spec.
    rewrite <- identifier_absent. unfold identifier.
    destruct (forallb truthy_prim _); simpl; split; congruence. }
  destruct (joinedRows_run b rows keyInfo root rest h J)
    as (s3 & T3 & s' & T' & models & roots & Hrun).
  destruct J as [H1 H2 H3 H4 H5 H6].
  exists s', (VRef models).
  split; [exact (run_result _ _ _ _ _ _ _ _ _ _ _ _ Hrun)|].
  intros i row p q m.
  exact (run_skipped _ H1 b rows h keyInfo root H6 _ _ _ _ _ _ Hrun
           i row p q m).
Qed.

(** X23. Rows that are not joined rows: when the first row has an
    identifier at the path of a relation and none at the paths before it,
    the model of the parent path is missing and [rowsToTree] throws a
    TypeError; nothing has been built. *)
Theorem orphan_in_first_row_throws
    (b : Builder) (row0 : Row) (rows : list Row) (keyInfo : list KeyInfo)
    (h : list cell) (before : list PathInfo) (p : PathInfo)
    (after : list PathInfo) (rel : Relation) :
  createKeyInfo b (row0 :: rows) = Ok keyInfo ->
  map snd (pathInfo b) = before ++ p :: after ->
  Forall (fun q => truthy_prim (idGetter q row0) = false) before ->
  truthy_prim (idGetter p row0) = true ->
  relation p = Some rel ->
  exists s',
    rowsToTree b (row0 :: rows) (newTreeState h) = (s', Err TypeError) /\
    visits s' = [] /\ t_heap s' = h ++ [Obj None []].
Proof.
  intros Hkey Hinfos Hbefore Hid Hrel.
  unfold rowsToTree. unfold mbind at 1, lift at 1. rewrite Hkey.
  unfold mbind at 1, allocT at 1, alloc. simpl.
  unfold mbind at 1, modify at 1. simpl.
  rewrite Hinfos. unfold indexed. simpl combine. simpl forEach.
  unfold mbind at 1. unfold mbind at 1.
  unfold rowLoop at 1. simpl fst. simpl snd.
  unfold mbind at 1, setCurBranch at 1, modify at 1.
  rewrite forEach_app. unfold mbind at 1.
  rewrite (rowSteps_skip _ _ _ _ _ Hbefore).
  simpl forEach. unfold mbind at 1.
  unfold rowStep at 1. rewrite Hid. cbn [negb].
  unfold mbind at 1, enterBranch. rewrite Hrel.
  unfold mbind at 1, get. cbn [stack getProp].
  unfold getBranch, createBranch, findOrCreate, getModelFromBranch,
    relationName.
  rewrite Hrel. destruct (oneToOne p); simpl; eauto.
Qed.

(** *** The persons with their children and their pet *)

(** Two rows of a person with two children and the row of a person without
    children; nobody has a pet. *)
Definition familyRows : list Row :=
  [ joinedRow (PNum 1) (PStr "a") (PNum 7) (PStr "c7") PNull PNull;
    joinedRow (PNum 1) (PStr "a") (PNum 8) (PStr "c8") PNull PNull;
    joinedRow (PNum 2) (PStr "b") PNull PNull PNull PNull ].

Definition familyKeys : list KeyInfo :=
  match createKeyInfo familyBuilder familyRows with
  | Ok keyInfo => keyInfo
  | Err _ => []
  end.

Definition familyPaths : list PathInfo := [rootInfo; childrenInfo; petInfo].

Lemma family_children parent r p :
  childOf familyPaths parent r p ->
  parent = rootInfo /\
  ((r = "children" /\ p = childrenInfo) \/ (r = "pet" /\ p = petInfo)).
Proof.
  intros [Hpar Hc]. simpl in Hpar.
  destruct Hpar as [<-|[<-|[<-|[]]]]; simpl in Hc;
    [|destruct Hc | destruct Hc].
  destruct Hc as [[= <- <-]|[[= <- <-]|[]]]; auto.
Qed.

Lemma family_paths : wellFormed familyPaths.
Proof.
  constructor.
  - intros p p' Hp Hp' He. simpl in Hp, Hp'.
    destruct Hp as [<-|[<-|[<-|[]]]], Hp' as [<-|[<-|[<-|[]]]];
      try reflexivity; vm_compute in He; discriminate.
  - intros parent r p Hch.
    destruct (family_children _ _ _ Hch) as [-> [[-> ->]|[-> ->]]].
    + split; [simpl; auto|]. split; [|reflexivity].
      eexists. split; reflexivity.
    + split; [simpl; auto|]. split; [|reflexivity].
      eexists. split; reflexivity.
  - intros p Hp Hrel. simpl in Hp. destruct Hp as [<-|[<-|[<-|[]]]].
    + now destruct Hrel.
    + exists rootInfo, "children". split; simpl; auto.
    + exists rootInfo, "pet". split; simpl; auto.
  - intros parent r p p' Hch Hch'.
    destruct (family_children _ _ _ Hch) as [-> [[-> ->]|[-> ->]]];
      destruct (family_children _ _ _ Hch') as [_ [[E ->]|[E ->]]];
      try reflexivity; discriminate.
Qed.

Lemma family_root : rootFirst familyPaths rootInfo [childrenInfo; petInfo].
Proof.
  constructor.
  - reflexivity.
  - split; reflexivity.
  - repeat constructor; discriminate.
  - intros pre p post parent r Hsplit Hch.
    destruct (family_children _ _ _ Hch) as [-> Hp].
    destruct pre as [|x pre].
    + injection Hsplit as <- _. exfalso.
      destruct Hp as [[_ E]|[_ E]]; apply (f_equal encPath) in E;
        discriminate.
    + injection Hsplit as <- _. now left.
Qed.

Lemma family_joined :
  joinedRows familyBuilder familyRows familyKeys rootInfo
             [childrenInfo; petInfo].
Proof.
  constructor.
  - exact family_paths.
  - exact family_root.
  - reflexivity.
  - intros p row ks r ch Hp Hks Hc. simpl in Hp.
    destruct Hp as [<-|[<-|[<-|[]]]]; simpl in Hc;
      [|destruct Hc | destruct Hc].
    vm_compute in Hks. injection Hks as <-.
    destruct Hc as [[= <- <-]|[[= <- <-]|[]]]; reflexivity.
  - intros p Hp. simpl in Hp.
    destruct Hp as [<-|[<-|[<-|[]]]]; vm_compute; discriminate.
  - intros row parent r p Hrow Hch Hid.
    destruct (family_children _ _ _ Hch) as [-> Hp].
    simpl in Hrow. destruct Hrow as [<-|[<-|[<-|[]]]];
      destruct Hp as [[-> ->]|[-> ->]];
      vm_compute in Hid |- *; congruence.
Qed.

Lemma joined_rows_give_the_root_models_witness :
  joinedRows familyBuilder familyRows familyKeys rootInfo
             [childrenInfo; petInfo] /\
  exists s' models roots,
    rowsToTree familyBuilder familyRows (newTreeState [])
      = (s', Ok (Tree (VRef models))) /\
    t_heap s' !! models = Some (Arr roots) /\
    Forall (fun x => (exists a cls o,
                        x = VRef a /\ t_heap s' !! a = Some (Obj cls o)) /\
                     exists j, modelAt s' j rootInfo x) roots /\
    forall i row, familyRows !! i = Some row ->
      truthy_prim (idGetter rootInfo row) = true ->
      exists m, modelAt s' i rootInfo m /\ In m roots.
Proof.
  split; [exact family_joined|].
  exact (joined_rows_give_the_root_models familyBuilder familyRows familyKeys
           rootInfo [childrenInfo; petInfo] [] family_joined).
Defined.

Lemma row_models_are_nested_witness :
  joinedRows familyBuilder familyRows familyKeys rootInfo
             [childrenInfo; petInfo] /\
  exists s' models,
    rowsToTree familyBuilder familyRows (newTreeState [])
      = (s', Ok (Tree models)) /\
    forall i row parent r p,
      familyRows !! i = Some row ->
      childOf (map snd (pathInfo familyBuilder)) parent r p ->
      truthy_prim (idGetter p row) = true ->
      exists mp m,
        modelAt s' i parent mp /\ modelAt s' i p m /\
        related (t_heap s') p r mp m.
Proof.
  split; [exact family_joined|].
  exact (row_models_are_nested familyBuilder familyRows familyKeys
           rootInfo [childrenInfo; petInfo] [] family_joined).
Defined.

Lemma relations_are_finalized_witness :
  joinedRows familyBuilder familyRows familyKeys rootInfo
             [childrenInfo; petInfo] /\
  exists s' models,
    rowsToTree familyBuilder familyRows (newTreeState [])
      = (s', Ok (Tree models)) /\
    forall i parent r p m,
      modelAt s' i parent m ->
      childOf (map snd (pathInfo familyBuilder)) parent r p ->
      exists val, readProp (t_heap s') m r = Ok val /\ finalValue s' p val.
Proof.
  split; [exact family_joined|].
  exact (relations_are_finalized familyBuilder familyRows familyKeys
           rootInfo [childrenInfo; petInfo] [] family_joined).
Defined.

Lemma relation_without_rows_is_empty_witness :
  childOf (map snd (pathInfo familyBuilder)) rootInfo "pet" petInfo /\
  Forall (fun row => truthy_prim (idGetter petInfo row) = false) familyRows /\
  exists s' models,
    rowsToTree familyBuilder familyRows (newTreeState [])
      = (s', Ok (Tree models)) /\
    forall i m, modelAt s' i rootInfo m ->
                unrelated (t_heap s') petInfo "pet" m.
Proof.
  assert (Hch : childOf (map snd (pathInfo familyBuilder)) rootInfo "pet"
                        petInfo).
  { split; simpl; auto. }
  assert (Hnone : Forall (fun row => truthy_prim (idGetter petInfo row)
                                     = false) familyRows).
  { repeat constructor. }
  split; [exact Hch|]. split; [exact Hnone|].
  apply (relation_without_rows_is_empty familyBuilder familyRows familyKeys
           rootInfo [childrenInfo; petInfo] [] rootInfo "pet" petInfo
           family_joined Hch).
  apply List.Forall_forall. exact Hnone.
Defined.
Lemma absent_path_has_no_model_witness :
  joinedRows familyBuilder familyRows familyKeys rootInfo
             [childrenInfo; petInfo] /\
  exists s' models,
    rowsToTree familyBuilder familyRows (newTreeState [])
      = (s', Ok (Tree models)) /\
    forall i row p q m,
      familyRows !! i = Some row -> truthy_prim (idGetter p row) = false ->
      below (map snd (pathInfo familyBuilder)) p q -> ~ modelAt s' i q m.
Proof.
  split; [exact family_joined|].
  exact (proj2 (absent_path_has_no_model familyBuilder familyRows familyKeys
                  rootInfo [childrenInfo; petInfo] [] family_joined)).
Defined.

Lemma orphan_in_first_row_throws_witness :
  exists s',
    rowsToTree familyBuilder
      [joinedRow PNull PNull (PNum 7) (PStr "c7") PNull PNull]
      (newTreeState []) = (s', Err TypeError) /\
    visits s' = [] /\ t_heap s' = [] ++ [Obj None []].
Proof.
  apply (orphan_in_first_row_throws familyBuilder
           (joinedRow PNull PNull (PNum 7) (PStr "c7") PNull PNull) []
           familyKeys [] [rootInfo] childrenInfo [petInfo]
           (relationTo "children" false Person)).
  - reflexivity.
  - reflexivity.
  - repeat constructor.
  - reflexivity.
  - reflexivity.
Defined.


End JoinedTree.

Module BranchKeys.
Import JS Heap Monad Graph JSString RelationJoinBuilder JSFacts MonadFacts TreeFacts TreeExample JoinedTree.
Local Open Scope js_scope.

(** A person with a pet in the first row and another pet in the second and
    third. *)
Definition twoPetsRows : list Row :=
  [ joinedRow (PNum 1) (PStr "a") PNull PNull (PNum 1) (PStr "p1");
    joinedRow (PNum 1) (PStr "a") PNull PNull (PNum 2) (PStr "p2");
    joinedRow (PNum 1) (PStr "a") PNull PNull (PNum 2) (PStr "p2") ].

(** C6 as stated fails on a one-to-one path: two rows yield the
    identifier ['id:2'] at the path [pet] under the same person, and no
    object is created for it; both get the object made for ['id:1']. *)
Lemma no_object_for_second_pet :
  map (fun v => (v_row v, v_branch v, v_id v, v_model v, v_created v))
      (List.filter (fun v => String.eqb (v_encPath v) "pet")
                   (visits (fst (run twoPetsRows)))) =
    [ (0, VRef 1, "id:1", VRef 2, true);
      (1, VRef 1, "id:2", VRef 2, false);
      (2, VRef 1, "id:2", VRef 2, false) ] /\
  List.filter (fun v => String.eqb (v_id v) "id:2" && v_created v)
              (visits (fst (run twoPetsRows))) = [] /\
  nth 2 (contents (t_heap (fst (run twoPetsRows)))) (inr []) =
    inl [("id", VPrim (PNum 1)); ("name", VPrim (PStr "p1"))].
Proof. repeat split; vm_compute; reflexivity. Qed.

(** Three rows of one person, two of them with the same child. *)
Definition duplicateChildRows : list Row :=
  [ joinedRow (PNum 1) (PStr "a") (PNum 7) (PStr "c7") PNull PNull;
    joinedRow (PNum 1) (PStr "a") (PNum 8) (PStr "c8") PNull PNull;
    joinedRow (PNum 1) (PStr "a") (PNum 8) (PStr "other") PNull PNull ].

(** The scenario of the spec: one object for the child 8, made of the first
    of its rows. *)
Lemma duplicate_child_scenario :
  snd (run duplicateChildRows) = Ok (Tree (VRef 5)) /\
  contents (t_heap (fst (run duplicateChildRows))) =
    [ inl [("id:1", VRef 1)];
      inl [("id", VPrim (PNum 1)); ("name", VPrim (PStr "a"));
           ("children", VRef 6); ("pet", VPrim PNull)];
      inl [("id:7", VRef 3); ("id:8", VRef 4)];
      inl [("id", VPrim (PNum 7)); ("name", VPrim (PStr "c7"))];
      inl [("id", VPrim (PNum 8)); ("name", VPrim (PStr "c8"))];
      inr [VRef 1];
      inr [VRef 3; VRef 4] ].
Proof. split; vm_compute; reflexivity. Qed.

Lemma duplicate_joined :
  joinedRows familyBuilder duplicateChildRows familyKeys rootInfo
             [childrenInfo; petInfo].
Proof.
  destruct family_joined as [H1 H2 _ H4 H5 _]. constructor; auto.
  intros row parent r p Hrow Hch Hid.
  destruct (family_children _ _ _ Hch) as [-> Hp].
  simpl in Hrow. destruct Hrow as [<-|[<-|[<-|[]]]];
    destruct Hp as [[-> ->]|[-> ->]];
    vm_compute in Hid |- *; congruence.
Qed.

(** C6, amended.  On joined rows [rowsToTree] returns an array, and the
    objects of a branch are kept under the extracted identifier at the
    root path and at the path of a relation to many, and under the name of
    the relation at a one-to-one path.  The model of a row at a path is in
    the tree returned, under the relation in the model of the row at the
    parent path, or in the array returned; no array of the tree holds an
    object twice.  Every row has exactly one model at every path at which
    it has an identifier.  The models of two rows at a path are one
    object exactly when the rows have the same parent model there and, but
    on a one-to-one path, the same identifier: so several rows with one
    identifier under one parent give exactly one object, and rows with
    another identifier or another parent give another object.  That object
    was created for the first row that has it as its model at the path:
    but for the relations of the path it holds, when [rowsToTree] returns,
    the properties [createModel] made of that first row ([columnsOf]),
    whatever the later rows hold in the columns of the path. *)
Theorem same_key_gives_one_object
    (b : Builder) (rows : list Row) (keyInfo : list KeyInfo)
    (root : PathInfo) (rest : list PathInfo) (h : list cell) :
  joinedRows b rows keyInfo root rest ->
  exists s' models roots,
    rowsToTree b rows (newTreeState h) = (s', Ok (Tree (VRef models))) /\
    t_heap s' !! models = Some (Arr roots) /\ List.NoDup roots /\
    (forall i row,
       rows !! i = Some row -> truthy_prim (idGetter root row) = true ->
       exists m, modelAt s' i root m /\ In m roots) /\
    (forall i row parent r p,
       rows !! i = Some row -> childOf (map snd (pathInfo b)) parent r p ->
       truthy_prim (idGetter p row) = true ->
       exists mp m,
         modelAt s' i parent mp /\ modelAt s' i p m /\
         related (t_heap s') p r mp m) /\
    (forall i parent r p m,
       modelAt s' i parent m -> childOf (map snd (pathInfo b)) parent r p ->
       oneToOne p = false ->
       exists a elems,
         readProp (t_heap s') m r = Ok (VRef a) /\
         t_heap s' !! a = Some (Arr elems) /\ List.NoDup elems) /\
    (forall i row p,
       rows !! i = Some row -> In p (map snd (pathInfo b)) ->
       truthy_prim (idGetter p row) = true ->
       exists m, modelAt s' i p m /\
                 forall m', modelAt s' i p m' -> m' = m) /\
    (forall i j rowi rowj p mi mj,
       rows !! i = Some rowi -> rows !! j = Some rowj ->
       In p (map snd (pathInfo b)) ->
       modelAt s' i p mi -> modelAt s' j p mj ->
       (mi = mj <->
        agree p rowi rowj /\ sameParent (map snd (pathInfo b)) s' i j p)) /\
    (forall j p mj,
       In p (map snd (pathInfo b)) -> modelAt s' j p mj ->
       exists i rowi ks a o,
         rows !! i = Some rowi /\ modelAt s' i p mj /\
         (forall i', modelAt s' i' p mj -> i <= i') /\
         keyInfoFor keyInfo (encPath p) = Some ks /\
         mj = VRef a /\
         t_heap s' !! a = Some (Obj (Some (pi_modelClass p)) o) /\
         forall col, ~ In col (map fst (children p)) ->
           getProp o col = getProp (columnsOf rowi p ks) col) /\
    (forall row p ks t,
       keyInfoFor keyInfo (encPath p) = Some ks ->
       createModel row p keyInfo t =
         (withTHeap t (t_heap t ++ [Obj (Some (pi_modelClass p))
                                        (columnsOf row p ks)]),
          Ok (VRef (length (t_heap t))))).
Proof.
  intros J.
  destruct (joinedRows_run b rows keyInfo root rest h J)
    as (s3 & T3 & s' & T' & models & roots & Hrun).
  destruct J as [H1 H2 H3 H4 H5 H6].
  exists s', models, roots.
  split; [exact (run_result _ _ _ _ _ _ _ _ _ _ _ _ Hrun)|].
  split; [exact (run_models _ _ _ _ _ _ _ _ _ _ _ _ Hrun)|].
  split; [exact (run_roots_apart _ b rows h keyInfo root rest H2
                   _ _ _ _ _ _ Hrun)|].
  split; [exact (proj2 (run_root_models _ b rows h keyInfo root rest H2
                          _ _ _ _ _ _ Hrun))|].
  split; [|split; [|split; [|split; [|split]]]].
  - intros i row parent r p.
    exact (run_nested _ H1 b rows h keyInfo root rest H2 _ _ _ _ _ _ Hrun
             i row parent r p).
  - intros i parent r p m.
    exact (run_array_apart _ H1 b rows h keyInfo root rest H2
             _ _ _ _ _ _ Hrun i parent r p m).
  - intros i row p.
    exact (run_unique _ H1 b rows h keyInfo root _ _ _ _ _ _ Hrun i row p).
  - intros i j rowi rowj p mi mj.
    exact (run_same_object _ H1 b rows h keyInfo root rest H2 _ _ _ _ _ _ Hrun
             i j rowi rowj p mi mj).
  - intros j p mj.
    exact (run_first_row _ H1 b rows h keyInfo root _ _ _ _ _ _ Hrun j p mj).
  - intros row p ks t Hks. unfold createModel. rewrite Hks. reflexivity.
Qed.

Lemma same_key_gives_one_object_witness :
  joinedRows familyBuilder duplicateChildRows familyKeys rootInfo
             [childrenInfo; petInfo] /\
  exists s' models roots,
    rowsToTree familyBuilder duplicateChildRows (newTreeState [])
      = (s', Ok (Tree (VRef models))) /\
    t_heap s' !! models = Some (Arr roots) /\ List.NoDup roots /\
    (forall i row,
       duplicateChildRows !! i = Some row ->
       truthy_prim (idGetter rootInfo row) = true ->
       exists m, modelAt s' i rootInfo m /\ In m roots) /\
    (forall i row parent r p,
       duplicateChildRows !! i = Some row ->
       childOf (map snd (pathInfo familyBuilder)) parent r p ->
       truthy_prim (idGetter p row) = true ->
       exists mp m,
         modelAt s' i parent mp /\ modelAt s' i p m /\
         related (t_heap s') p r mp m) /\
    (forall i parent r p m,
       modelAt s' i parent m ->
       childOf (map snd (pathInfo familyBuilder)) parent r p ->
       oneToOne p = false ->
       exists a elems,
         readProp (t_heap s') m r = Ok (VRef a) /\
         t_heap s' !! a = Some (Arr elems) /\ List.NoDup elems) /\
    (forall i row p,
       duplicateChildRows !! i = Some row ->
       In p (map snd (pathInfo familyBuilder)) ->
       truthy_prim (idGetter p row) = true ->
       exists m, modelAt s' i p m /\
                 forall m', modelAt s' i p m' -> m' = m) /\
    (forall i j rowi rowj p mi mj,
       duplicateChildRows !! i = Some rowi ->
       duplicateChildRows !! j = Some rowj ->
       In p (map snd (pathInfo familyBuilder)) ->
       modelAt s' i p mi -> modelAt s' j p mj ->
       (mi = mj <->
        agree p rowi rowj /\
        sameParent (map snd (pathInfo familyBuilder)) s' i j p)) /\
    (forall j p mj,
       In p (map snd (pathInfo familyBuilder)) -> modelAt s' j p mj ->
       exists i rowi ks a o,
         duplicateChildRows !! i = Some rowi /\ modelAt s' i p mj /\
         (forall i', modelAt s' i' p mj -> i <= i') /\
         keyInfoFor familyKeys (encPath p) = Some ks /\
         mj = VRef a /\
         t_heap s' !! a = Some (Obj (Some (pi_modelClass p)) o) /\
         forall col, ~ In col (map fst (children p)) ->
           getProp o col = getProp (columnsOf rowi p ks) col) /\
    (forall row p ks t,
       keyInfoFor familyKeys (encPath p) = Some ks ->
       createModel row p familyKeys t =
         (withTHeap t (t_heap t ++ [Obj (Some (pi_modelClass p))
                                        (columnsOf row p ks)]),
          Ok (VRef (length (t_heap t))))).
Proof.
  split; [exact duplicate_joined|].
  exact (same_key_gives_one_object familyBuilder duplicateChildRows
           familyKeys rootInfo [childrenInfo; petInfo] [] duplicate_joined).
Defined.

End BranchKeys.
